(* ===== verification/_CoqProject ===== *)
-Q . S2P
Prelude.v
Errors.v
Rust.v
Format.v
Crc.v
Block.v
Device.v
Record.v
Utf8.v
Index.v
Replica.v
Store.v
RecordWrite.v
Allocation.v
Catalog.v
Recovery.v
ReplicaSpec.v
StoreSpec.v
Lifecycle.v
Shards.v
Refinement.v
Journal.v
Crash.v
Durability.v
Outages.v
Capacity.v
Safety.v
Fuzz.v
Fixtures.v
