(* ===== verification/Prelude.v ===== *)
(** * embedkv: a verified model of the Rust key-value store

    embedkv keeps a set of key-value records on one or more identical block
    devices ("replicas").  Block 0 of a device is the storage header; every other
    block is free (first byte 0x00 or 0xFF), a record descriptor (header, key and
    first part of the value) or a value chunk, and every block that is not free
    ends in a CRC-32.  An update writes the new record to free blocks, flushes,
    and then erases the old record; a delete erases; [recover] erases whatever
    is not part of the newest complete record of a key; [build_index] scans the
    device for those records.  This library models the crate under rust/src of
    the repository and proves what it promises.

    ** How the code is modelled

    Functions of the crate are functions here, under the names of the source
    (methods are prefixed with their type where two types share a name, such as
    [MemIndex_get] or [Replica_put]).  Rust.v has the meaning of the language:
    an [outcome] is [Ok], [Err], [Panic] or [Diverge]; [M S A] passes a mutable
    state [S] and yields an outcome; slices and indexing panic out of range;
    machine integers are [Z] with the wrap-around written out, and [+] and [-]
    are checked or wrap according to the class [Profile] (dev or release build);
    [as] casts are reductions modulo a power of two, and [usize] has 64 bits.
    The [BlockDevice] trait is a class; the theorems about the store are proved
    against two classes of laws: [ReliableDevice], a device whose reads return
    what was last written, and [SafeDevice], a device that keeps its geometry
    and is otherwise free to fail or to answer anything.  [MemDevice] and
    [FileDevice] are instances of both.

    The loops that follow a chunk chain are not structural; they take the fuel
    [chunk_fuel], one more than the number of blocks of the device.  The code's
    [visited] set admits each block once, so the fuel is never used up: this is
    proved ([Diverge] is not an outcome of any operation) on reliable and on
    safe devices.  The decoder of UTF-8 takes the length of its input as fuel.

    ** Files, and the code they model

    - Prelude: notations, tactics, hint databases, lemmas on lists and integers.
    - Errors: error.rs.  Rust: the language (above).  Format: format.rs.
    - Crc: crc.rs, with the bit-serial CRC-32 as reference definition.
    - Block: block.rs, the header codecs, [classify_block] and the capacities.
    - Device: device.rs, the trait and its laws, [MemDevice] and [FileDevice].
    - Record: record.rs; [complete] is what a complete record is on an image.
    - Utf8: [String::from_utf8_lossy] of the standard library, which turns a key
      into the string it is indexed by.  Index: index.rs.
    - Replica and Store: store.rs, [impl Replica], and [format], [open] and
      [impl Store]; a few scenarios are evaluated.
    - RecordWrite, Allocation, Catalog, Recovery: the lemmas on writing a record,
      on finding and freeing blocks, on scanning a device, and on recovery.
    - ReplicaSpec: a replica described by its device's blocks and the newest
      record of every key; [put], [recover] and [build_index] in those terms.
    - StoreSpec: the same for a store: [contents] is the map it stands for.
    - Lifecycle: [format] and [open]; the space each call takes and gives back.
    - Shards: the commands of a store, and the step each makes on the list of the
      replicas' catalogs.
    - Refinement: the abstract key-value map, its steps, and the simulation.
    - Journal: a device that records the writes and flushes made to it.
    - Crash: what a device may hold after power loss, and what survives.
    - Durability: reopening after power loss.
    - Outages: the life of a store through any number of power losses.  A loss
      may take any write since the device's last flush, whichever call made it.
    - Capacity: working sets for which the store never runs full.
    - Safety: arbitrary devices; no panic, no endless loop.
    - Fuzz: the five targets of rust/fuzz/fuzz_targets, as functions of the
      generated input.
    - Fixtures: the images of testdata/ and the tests of rust/tests/compat.rs.

    ** What is proved

    - Refinement: every sequence of calls on a freshly formatted store, reopening
      and maintenance included, answers as a finite map (store_refines_map); each
      call in terms of the map (store_put_outcome, keys_and_iterate, and the
      lemmas stored_get, stored_put, stored_delete, stored_recover, stored_open).
    - Power loss: interrupted anywhere, with unflushed writes lost or torn, a
      [put] has happened or has not (put_survives_power_loss); a whole life of
      calls, losses and restarts, recoveries interrupted in turn, follows the map
      (outages_refine_map): a call that returned is durable, an interrupted one
      has happened or has not, except that an interrupted [delete] may bring back
      a value that a replica which missed a [put] still held.  The map's life
      carries these values; with one replica there are none, and with several it
      does happen (interrupted_delete_revives).  What [delete] does when
      [recover] was left out is delete_reveals_older.  The assumption
      on the hardware is that a torn block does not pass its CRC, which
      verify_block_crc_detects proves for small alterations.
    - Progress: a store within its budget of blocks never reports [StorageFull],
      whatever the losses of power (within_budget_never_full).
    - Robustness: on arbitrary devices with blocks of 36 bytes or more no call
      hangs, and none panics but a [put] whose generation counter is at its end
      (no_panic_on_any_device, verify_total); records that are read are
      well-typed (records_well_typed), and reads use every replica that can be
      read (get_survives_damage); what [format] writes and [open] refuses
      (format_stamps_headers, open_replica_header_decides, open_checks_geometry).
    - The repository's own checks: the fuzz targets, for all inputs
      (fuzz_targets_pass, put_get_delete_passes).  The compatibility tests take no
      input and are evaluated (compat_tests_pass), with the bytes that [put]
      writes compared with the fixtures of the Go implementation.
    - Per component: exactness of the record reader (verify_reads_exactly) and
      its round trip with the writer, of allocation and erasure, of [recover] and
      [build_index], the blocks that [put], [delete] and [recover] take and give
      back (space_accounting), the CRC against its reference, the header codecs,
      and the two devices against each other.  [keys] and [iterate] each visit
      every key once, in an order that is a parameter (class [HashOrder]).
    - Limits of the code: small_blocks_panic, put_generation_overflow,
      interrupted_delete_revives, long_key_misread, out_of_range_access,
      key_identity.

    The bounds of these theorems are those of the format: fewer than 2^32 calls
    (generations are 32 bits wide), keys and values below the widths of their
    length fields, blocks of at least 36 bytes, a free pattern of 0x00 or 0xFF.

    ** What is not modelled

    The Go twin of the crate, and the crate root, which only re-exports.  Memory
    is unbounded: allocation never fails.  The operating system's errors appear
    as errors a [SafeDevice] may return, not in the model of [FileDevice], whose
    seeks and writes succeed.  [FileDevice] and the store run in one thread, as
    the code's [&mut] receivers require.  The fixtures are embedded here and not
    read from files.

    ** Where it can grow

    Losses of power during [format], a device class between [ReliableDevice] and
    [SafeDevice] whose writes may fail now and then, and an operation that brings
    a lagging replica up to date, which the code does not have. *)

From Stdlib Require Export Strings.Byte.
From stdpp Require Export prelude gmap list_numbers strings.

#[global] Set Default Goal Selector "!".

(** ** Scope, notations and hint databases *)

Declare Scope ekv_scope.
Delimit Scope ekv_scope with ekv.
#[global] Open Scope ekv_scope.
#[global] Open Scope Z_scope.

(** Lengths are compared with machine integers everywhere, so they are read in Z. *)
Abbreviation zlen l := (Z.of_nat (length l)).

(** The modulus of a Rust [u16], [u32] and (64-bit) [usize]. *)
Abbreviation U16 := 65536.
Abbreviation U32 := 4294967296.
Abbreviation USIZE := 18446744073709551616.

(** [ekv] holds resolution hints (side conditions, well-formedness facts). *)
Create HintDb ekv discriminated.

(** ** Tactics *)

(** Split conjunctions and existentials of the context. *)
Ltac destr :=
  repeat match goal with
  | H : _ ∧ _ |- _ => destruct H
  | H : ∃ _, _ |- _ => destruct H
  | H : (_, _) = (_, _) |- _ => injection H as ??; subst
  end.

(** Turn boolean comparisons of the context into propositions. *)
Ltac zbool :=
  repeat match goal with
  | H : (_ && _) = true |- _ => apply andb_true_iff in H as [? ?]
  | H : (_ || _) = false |- _ => apply orb_false_iff in H as [? ?]
  | H : (_ =? _) = true |- _ => apply Z.eqb_eq in H
  | H : (_ =? _) = false |- _ => apply Z.eqb_neq in H
  | H : (_ <=? _) = true |- _ => apply Z.leb_le in H
  | H : (_ <=? _) = false |- _ => apply Z.leb_gt in H
  | H : (_ <? _) = true |- _ => apply Z.ltb_lt in H
  | H : (_ <? _) = false |- _ => apply Z.ltb_ge in H
  end.

(** Normalise list lengths, then close the arithmetic. *)
Create Rewrite HintDb len.
#[export] Hint Rewrite @length_app @length_take @length_drop @length_replicate
  @length_insert @length_fmap @length_seqZ @length_nil @length_cons : len.
Ltac len := autorewrite with len in *; simpl length in *; lia.

(** Decide an [if] whose boolean condition is settled by the hypotheses. *)
Ltac if_true :=
  match goal with
  | |- context [if ?c then _ else _] =>
      replace c with true by (symmetry; rewrite ?andb_true_iff, ?Z.leb_le, ?Z.ltb_lt, ?Z.eqb_eq;
                              repeat split; try len)
  end.
Ltac if_false :=
  match goal with
  | |- context [if ?c then _ else _] =>
      replace c with false by (symmetry; first
        [ apply Z.leb_gt; len | apply Z.ltb_ge; len | apply Z.eqb_neq; len ])
  end.

(** ** Lists *)

(** [splice off src l] overwrites [l] from offset [off] with [src]. *)
Definition splice {A} (off : nat) (src l : list A) : list A :=
  take off l ++ src ++ drop (off + length src) l.

Section Lists.
Context {A : Type}.
Implicit Types l src pre post : list A.

Lemma splice_length off src l :
  (off + length src ≤ length l)%nat → length (splice off src l) = length l.
Proof. intros ?. unfold splice. len. Qed.

Lemma splice_app pre mid post src :
  length mid = length src → splice (length pre) src (pre ++ mid ++ post) = pre ++ src ++ post.
Proof.
  intros Hm. unfold splice. rewrite take_app_length. f_equal. f_equal.
  rewrite app_assoc, drop_app_length'; [done|]. rewrite length_app. lia.
Qed.

Lemma splice_step pre l src :
  (length src ≤ length l)%nat →
  splice (length pre) src (pre ++ l) = (pre ++ src) ++ drop (length src) l.
Proof.
  intros Hl. rewrite <- (take_drop (length src) l) at 1.
  rewrite splice_app by len. by rewrite <- app_assoc.
Qed.

Lemma drop_splice off src l :
  (off + length src ≤ length l)%nat →
  drop off (splice off src l) = src ++ drop (off + length src) l.
Proof.
  intros ?. unfold splice. rewrite drop_app_length'; [done|len].
Qed.

Lemma take_splice off src l n :
  (n ≤ off)%nat → (off ≤ length l)%nat → take n (splice off src l) = take n l.
Proof.
  intros ??. unfold splice. rewrite take_app_le by len. rewrite take_take. f_equal. lia.
Qed.

Lemma take_drop_app_exact pre mid post :
  take (length mid) (drop (length pre) (pre ++ mid ++ post)) = mid.
Proof. by rewrite drop_app_length, take_app_length. Qed.

Lemma lookup_lt_Z (l : list A) (i : Z) :
  0 ≤ i < zlen l → ∃ x, l !! Z.to_nat i = Some x.
Proof. intros ?. apply lookup_lt_is_Some_2. lia. Qed.

Lemma lookup_Some_Z (l : list A) (i : Z) x :
  0 ≤ i → l !! Z.to_nat i = Some x → i < zlen l.
Proof. intros ? H%lookup_lt_Some. lia. Qed.

(** A list longer than [n] splits into its first [n] elements and the rest. *)
Lemma split_at (l : list A) n :
  (n ≤ length l)%nat → ∃ l1 l2, l = l1 ++ l2 ∧ length l1 = n.
Proof. intros ?. exists (take n l), (drop n l). rewrite take_drop. split; [done|len]. Qed.

End Lists.

#[export] Hint Rewrite @splice_length using (autorewrite with len; lia) : len.

(** ** Bytes *)

#[export] Instance byte_eq_decision : EqDecision byte := Byte.byte_eq_dec.

#[export] Program Instance byte_countable : Countable byte :=
  inj_countable Byte.to_N Byte.of_N _.
Next Obligation. apply Byte.of_to_N. Qed.

(** [u8 as u32] and the truncating cast [as u8]. *)
Definition b2z (b : byte) : Z := Z.of_N (Byte.to_N b).
Definition z2b (z : Z) : byte :=
  match Byte.of_N (Z.to_N (z mod 256)) with Some b => b | None => x00 end.

Lemma b2z_range b : 0 ≤ b2z b < 256.
Proof.
  unfold b2z. pose proof (Byte.of_to_N b) as Hb.
  destruct (N.lt_decidable 255 (Byte.to_N b)) as [Hgt|]; [|lia].
  apply Byte.of_N_None_iff in Hgt. congruence.
Qed.

Lemma b2z_z2b z : b2z (z2b z) = z mod 256.
Proof.
  unfold b2z, z2b. pose proof (Z.mod_pos_bound z 256 ltac:(lia)) as Hz.
  destruct (Byte.of_N (Z.to_N (z mod 256))) eqn:E.
  - apply Byte.to_of_N in E. rewrite E. lia.
  - apply Byte.of_N_None_iff in E. lia.
Qed.

Lemma z2b_b2z b : z2b (b2z b) = b.
Proof.
  unfold z2b. rewrite Z.mod_small by apply b2z_range.
  unfold b2z. by rewrite N2Z.id, Byte.of_to_N.
Qed.

Lemma b2z_inj a b : b2z a = b2z b → a = b.
Proof. intros H. by rewrite <- (z2b_b2z a), H, z2b_b2z. Qed.

Lemma z2b_small z : 0 ≤ z < 256 → b2z (z2b z) = z.
Proof. intros. rewrite b2z_z2b. by apply Z.mod_small. Qed.

(** ** Little-endian integers: [to_le_bytes] and [from_le_bytes] *)

Fixpoint to_le_bytes (n : nat) (z : Z) : list byte :=
  match n with
  | O => []
  | S n => z2b z :: to_le_bytes n (z / 256)
  end.

Fixpoint from_le_bytes (l : list byte) : Z :=
  match l with
  | [] => 0
  | b :: l => b2z b + 256 * from_le_bytes l
  end.

Lemma length_to_le_bytes n z : length (to_le_bytes n z) = n.
Proof. revert z; induction n as [|n IH]; intros z; simpl; [done|]. by rewrite IH. Qed.
#[export] Hint Rewrite length_to_le_bytes : len.

Lemma from_le_bytes_range l : 0 ≤ from_le_bytes l < 256 ^ zlen l.
Proof.
  induction l as [|b l IH]; [simpl; lia|].
  rewrite length_cons, Nat2Z.inj_succ, Z.pow_succ_r by lia. cbn [from_le_bytes].
  pose proof (b2z_range b). nia.
Qed.

Lemma from_to_le_bytes n z :
  0 ≤ z < 256 ^ Z.of_nat n → from_le_bytes (to_le_bytes n z) = z.
Proof.
  revert z; induction n as [|n IH]; intros z Hz; [simpl in *; lia|].
  rewrite Nat2Z.inj_succ, Z.pow_succ_r in Hz by lia.
  cbn [from_le_bytes to_le_bytes]. rewrite IH, b2z_z2b.
  - pose proof (Z.div_mod z 256 ltac:(lia)). lia.
  - split; [apply Z.div_pos; lia|]. apply Z.div_lt_upper_bound; lia.
Qed.

Lemma to_from_le_bytes l : to_le_bytes (length l) (from_le_bytes l) = l.
Proof.
  induction l as [|b l IH]; [done|]. cbn [length from_le_bytes to_le_bytes].
  pose proof (b2z_range b) as Hb. f_equal.
  - apply b2z_inj. rewrite b2z_z2b, (Z.mul_comm 256), Z.mod_add by lia.
    by apply Z.mod_small.
  - rewrite (Z.mul_comm 256), Z.div_add by lia.
    by rewrite (Z.div_small (b2z b)) by lia.
Qed.

Lemma from_le_bytes_inj l1 l2 :
  length l1 = length l2 → from_le_bytes l1 = from_le_bytes l2 → l1 = l2.
Proof. intros Hl He. by rewrite <- (to_from_le_bytes l1), <- (to_from_le_bytes l2), Hl, He. Qed.
