(* ===== verification/Errors.v ===== *)
(** * Error values of the crate (rust/src/error.rs)

    The [Error] enumeration, its [Display] text, its [source] and the
    conversion from an I/O error. *)

From S2P Require Import Prelude.

(** The part of [std::io::Error] the crate can observe: its kind and its
    [Display] text. *)
Inductive IoErrorKind := NotFound | UnexpectedEof | OtherIo.

Record IoError := { io_kind : IoErrorKind; io_message : string }.

Inductive Error :=
| InvalidHeader
| InvalidBlock
| CrcMismatch
| KeyNotFound
| StorageFull
| CorruptRecord
| InvalidBlockSize
| SizeMismatch
| KeyTooLong
| NoReplicas
| ReplicaMismatch
| Io (e : IoError).

#[export] Instance IoErrorKind_eq_dec : EqDecision IoErrorKind.
Proof. solve_decision. Defined.
#[export] Instance IoError_eq_dec : EqDecision IoError.
Proof. solve_decision. Defined.
#[export] Instance Error_eq_dec : EqDecision Error.
Proof. solve_decision. Defined.

(** [impl fmt::Display for Error]. *)
Definition display (e : Error) : string :=
  match e with
  | InvalidHeader => "embedkv: invalid storage header"
  | InvalidBlock => "embedkv: invalid block"
  | CrcMismatch => "embedkv: CRC32 mismatch"
  | KeyNotFound => "embedkv: key not found"
  | StorageFull => "embedkv: storage full"
  | CorruptRecord => "embedkv: corrupt record"
  | InvalidBlockSize => "embedkv: invalid block size"
  | SizeMismatch => "embedkv: storage size mismatch"
  | KeyTooLong => "embedkv: key too long for block size"
  | NoReplicas => "embedkv: at least one replica device is required"
  | ReplicaMismatch => "embedkv: replica devices have mismatched geometry"
  | Io e => String.append "embedkv: io error: " (io_message e)
  end.

(** [std::error::Error::source]. *)
Definition source (e : Error) : option IoError :=
  match e with
  | Io e => Some e
  | _ => None
  end.

(** [impl From<io::Error> for Error]. *)
Definition from_io_error (e : IoError) : Error := Io e.

Lemma append_inj_r s t1 t2 : String.append s t1 = String.append s t2 → t1 = t2.
Proof. induction s as [|c s IH]; simpl; [done|]. intros [= H]. auto. Qed.

(** ** Properties *)

(** An error can be told from its text: two errors that print the same are
    equal, or wrap I/O errors that print the same; an I/O error is wrapped
    without loss and is the only kind of error that has a source. *)
Theorem error_text_identifies e1 e2 :
  (display e1 = display e2 →
   e1 = e2 ∨ ∃ i1 i2, e1 = Io i1 ∧ e2 = Io i2 ∧ io_message i1 = io_message i2) ∧
  (∀ i, source e1 = Some i ↔ e1 = from_io_error i).
Proof.
  split.
  - destruct e1 as [| | | | | | | | | | |i1], e2 as [| | | | | | | | | | |i2];
      intros H; try (left; reflexivity); try (cbn in H; discriminate H).
    right. exists i1, i2. split_and!; [done..|]. by apply append_inj_r in H.
  - intros i. unfold from_io_error. destruct e1; simpl; split; congruence.
Qed.
