(* ===== verification/Rust.v ===== *)
(** * The fragment of Rust the crate is written in

    Outcomes of a computation (value, error, panic, divergence), the state
    monad that keeps the state a failed call leaves behind, fixed-width
    arithmetic under both settings of [overflow-checks], and the slice
    operations with their bounds checks. *)

From S2P Require Import Prelude Errors.

(** ** Outcomes *)

(** [Ok] and [Err] are the values of [Result]; [Panic] is an unwinding panic;
    [Diverge] is a loop that ran out of the fuel it was given. *)
Inductive outcome (A : Type) :=
| Ok (a : A)
| Err (e : Error)
| Panic
| Diverge.
Arguments Ok {A} _.
Arguments Err {A} _.
Arguments Panic {A}.
Arguments Diverge {A}.

#[export] Instance outcome_ret : MRet outcome := λ A a, Ok a.
#[export] Instance outcome_bind : MBind outcome := λ A B k m,
  match m with
  | Ok a => k a
  | Err e => Err e
  | Panic => Panic
  | Diverge => Diverge
  end.

Lemma outcome_bind_inv {A B} (m : outcome A) (k : A → outcome B) b :
  (m ≫= k) = Ok b → ∃ a, m = Ok a ∧ k a = Ok b.
Proof. destruct m; try done. eauto. Qed.

(** A computation ends normally when it returns a [Result]. *)
Definition returns {A} (o : outcome A) : Prop :=
  match o with Ok _ | Err _ => True | Panic | Diverge => False end.

(** ** Stateful computations

    [M S A] is a method on [&mut S] returning [Result<A>]: the state is
    threaded through errors too, because an early return with [?] leaves the
    receiver as the calls before it made it. *)
Definition M (S A : Type) : Type := S → S * outcome A.

Section Monad.
Context {S : Type}.

#[export] Instance M_ret : MRet (M S) := λ A a s, (s, Ok a).
#[export] Instance M_bind : MBind (M S) := λ A B k m s,
  match m s with
  | (s', Ok a) => k a s'
  | (s', Err e) => (s', Err e)
  | (s', Panic) => (s', Panic)
  | (s', Diverge) => (s', Diverge)
  end.

(** A computation that does not touch the state. *)
Definition lift {A} (o : outcome A) : M S A := λ s, (s, o).
Definition throw {A} (e : Error) : M S A := λ s, (s, Err e).
Definition gets {A} (f : S → A) : M S A := λ s, (s, Ok (f s)).
Definition modify (f : S → S) : M S unit := λ s, (f s, Ok tt).

(** [match r { Ok(..) => .., Err(..) => .. }]: an error becomes a value. *)
Definition attempt {A} (m : M S A) : M S (A + Error) := λ s,
  match m s with
  | (s', Ok a) => (s', Ok (inl a))
  | (s', Err e) => (s', Ok (inr e))
  | (s', Panic) => (s', Panic)
  | (s', Diverge) => (s', Diverge)
  end.

(** [for x in l { f(x)?; }] with a loop-carried value. *)
Fixpoint for_fold {A B} (f : A → B → M S B) (l : list A) (b : B) : M S B :=
  match l with
  | [] => mret b
  | x :: l => b' ← f x b; for_fold f l b'
  end.

Lemma bind_Ok {A B} (m : M S A) (k : A → M S B) s s' a :
  m s = (s', Ok a) → (m ≫= k) s = k a s'.
Proof. intros H. unfold mbind, M_bind. by rewrite H. Qed.

Lemma bind_Err {A B} (m : M S A) (k : A → M S B) s s' e :
  m s = (s', Err e) → (m ≫= k) s = (s', Err e).
Proof. intros H. unfold mbind, M_bind. by rewrite H. Qed.

Lemma bind_lift {A B} (o : outcome A) (k : A → M S B) s a :
  o = Ok a → (lift o ≫= k) s = k a s.
Proof. intros ->. done. Qed.

Lemma bind_gets {A B} (f : S → A) (k : A → M S B) s : (gets f ≫= k) s = k (f s) s.
Proof. done. Qed.

Lemma bind_returns {A B} (m : M S A) (k : A → M S B) s :
  returns (m s).2 →
  (∀ s' a, m s = (s', Ok a) → returns (k a s').2) →
  returns ((m ≫= k) s).2.
Proof.
  intros Hm Hk. unfold mbind, M_bind.
  destruct (m s) as [s' [a|e| |]]; simpl in *; try done. by apply Hk.
Qed.

End Monad.

(** Step a stateful computation: through a query of the state, through a pure
    computation known to succeed, or through a call with a known result. *)
Ltac mgets := rewrite bind_gets; cbv beta.
Ltac mlift H := rewrite (bind_lift _ _ _ _ H); cbv beta iota.
Ltac mcall H := rewrite (bind_Ok _ _ _ _ _ H); cbv beta iota.

(** Run a method of a field of [&mut self]. *)
Definition zoom {S T A} (get : S → T) (set : T → S → S) (m : M T A) : M S A := λ s,
  let '(t, r) := m (get s) in (set t s, r).

(** [for x in &mut xs { f(x)?; }]: the first failure stops the loop, with the
    elements before it updated and those after it untouched. *)
Fixpoint for_each_mut {S} (f : M S unit) (xs : list S) : list S * outcome unit :=
  match xs with
  | [] => ([], Ok tt)
  | x :: xs =>
      match f x with
      | (x', Ok _) => let '(xs', r) := for_each_mut f xs in (x' :: xs', r)
      | (x', r) => (x' :: xs, r)
      end
  end.

(** The same loop with a loop-carried value. *)
Fixpoint for_each_fold {S B} (f : B → M S B) (xs : list S) (b : B) : list S * outcome B :=
  match xs with
  | [] => ([], Ok b)
  | x :: xs =>
      match f b x with
      | (x', Ok b') => let '(xs', r) := for_each_fold f xs b' in (x' :: xs', r)
      | (x', r) => (x' :: xs, r)
      end
  end.

(** A loop all of whose iterations succeed. *)
Lemma for_each_mut_ok {S P Q} (f : M S unit) (R : S → P → Prop) (R' : S → Q → Prop)
    (T : P → Q → Prop) xs ps :
  Forall2 R xs ps →
  (∀ x p, R x p → ∃ x' q, f x = (x', Ok tt) ∧ R' x' q ∧ T p q) →
  ∃ xs' qs, for_each_mut f xs = (xs', Ok tt) ∧ Forall2 R' xs' qs ∧ Forall2 T ps qs.
Proof.
  intros Hf Hstep. induction Hf as [|x p xs ps Hx _ IH]; cbn [for_each_mut].
  { exists [], []. split_and!; [done|constructor|constructor]. }
  destruct (Hstep x p Hx) as (x' & q & -> & Hx' & Hpq). destruct IH as (xs' & qs & -> & Hxs & Hqs).
  exists (x' :: xs'), (q :: qs). split_and!; [done|by constructor|by constructor].
Qed.

(** The first loop is the second with nothing to carry. *)
Lemma for_each_mut_fold {S} (f : M S unit) xs : for_each_mut f xs = for_each_fold (λ _, f) xs tt.
Proof.
  induction xs as [|x xs IH]; [done|]. cbn [for_each_mut for_each_fold].
  destruct (f x) as [x' [[]|e| |]]; [|done..]. by rewrite IH.
Qed.

(** ** Total-correctness triples

    [wp m Q E s]: run from [s], the computation neither panics nor diverges; it
    returns a value and state satisfying [Q] or an error and state
    satisfying [E]. *)
Definition wp {S A} (m : M S A) (Q : A → S → Prop) (E : Error → S → Prop) (s : S) : Prop :=
  match m s with
  | (s', Ok a) => Q a s'
  | (s', Err e) => E e s'
  | (_, Panic) | (_, Diverge) => False
  end.

Section Wp.
Context {S : Type}.
Implicit Types s : S.

Lemma wp_bind {A B} (m : M S A) (k : A → M S B) Q E s :
  wp m (λ a s', wp (k a) Q E s') E s → wp (m ≫= k) Q E s.
Proof.
  unfold wp, mbind, M_bind. destruct (m s) as [s' [a|e| |]]; done.
Qed.

Lemma wp_mono {A} (m : M S A) (Q Q' : A → S → Prop) (E E' : Error → S → Prop) s :
  wp m Q E s → (∀ a s', Q a s' → Q' a s') → (∀ e s', E e s' → E' e s') → wp m Q' E' s.
Proof. unfold wp. destruct (m s) as [s' [a|e| |]]; auto. Qed.

Lemma wp_ret {A} (a : A) (Q : A → S → Prop) E s : Q a s → wp (mret a) Q E s.
Proof. done. Qed.

Lemma wp_gets {A} (f : S → A) (Q : A → S → Prop) E s : Q (f s) s → wp (gets f) Q E s.
Proof. done. Qed.

Lemma wp_lift {A} (o : outcome A) a (Q : A → S → Prop) E s :
  o = Ok a → Q a s → wp (lift o) Q E s.
Proof. by intros ->. Qed.

Lemma wp_throw {A} e (Q : A → S → Prop) (E : Error → S → Prop) s : E e s → wp (throw e) Q E s.
Proof. done. Qed.

Lemma wp_returns {A} (m : M S A) Q E s : wp m Q E s → returns (m s).2.
Proof. unfold wp. by destruct (m s) as [s' [a|e| |]]. Qed.

Lemma wp_Ok {A} (m : M S A) (Q : A → S → Prop) (E : Error → S → Prop) s :
  wp m Q E s → (∀ e s', ¬ E e s') → ∃ s' a, m s = (s', Ok a) ∧ Q a s'.
Proof. unfold wp. destruct (m s) as [s' [a|e| |]]; intros; [eauto|naive_solver|done|done]. Qed.

(** A loop keeps an invariant that every iteration keeps. *)
Lemma wp_for_fold {A B} (f : A → B → M S B) (l : list A) (b : B)
    (I : list A → B → S → Prop) (E : Error → S → Prop) s :
  I l b s →
  (∀ x l' b' s', x ∈ l → I (x :: l') b' s' → wp (f x b') (λ b'' s'', I l' b'' s'') E s') →
  wp (for_fold f l b) (λ b' s', I [] b' s') E s.
Proof.
  revert b s. induction l as [|x l IH]; intros b s HI Hf; [exact HI|].
  cbn [for_fold]. apply wp_bind. eapply wp_mono; [apply Hf; [left|done]| |done].
  intros b' s' HI'. apply IH; [done|]. intros y l' b'' s'' Hy. apply Hf. by right.
Qed.

End Wp.

(** Walk through a computation: binds, reads of the state, pure successes. *)
Ltac wpgets := apply wp_bind, wp_gets; cbv beta.
Ltac wplift H := apply wp_bind; eapply wp_lift; [exact H|]; cbv beta iota.
Ltac wpcall H := apply wp_bind; eapply wp_mono; [exact H| |]; cbv beta; [|done || auto].

(** ** Fixed-width arithmetic *)

(** [overflow-checks] of the build profile: an overflowing [+], [-] or [*]
    panics when it is on (dev profile) and wraps when it is off (release). *)
Class Profile := { overflow_checks : bool }.

Definition dev_profile : Profile := {| overflow_checks := true |}.
Definition release_profile : Profile := {| overflow_checks := false |}.

Definition checked `{Profile} (modulus z : Z) : outcome Z :=
  if (0 <=? z) && (z <? modulus) then Ok z
  else if overflow_checks then Panic else Ok (z mod modulus).

Definition u32_add `{Profile} (a b : Z) : outcome Z := checked U32 (a + b).
Definition u32_sub `{Profile} (a b : Z) : outcome Z := checked U32 (a - b).
Definition usize_sub `{Profile} (a b : Z) : outcome Z := checked USIZE (a - b).

(** Truncating casts. *)
Definition as_u8 (z : Z) : Z := z mod 256.
Definition as_u16 (z : Z) : Z := z mod U16.
Definition as_u32 (z : Z) : Z := z mod U32.

(** [u32::div_ceil] panics on a zero divisor. *)
Definition u32_div_ceil (a b : Z) : outcome Z :=
  if b =? 0 then Panic else Ok (a / b + (if a mod b =? 0 then 0 else 1)).

Section Arith.
Context `{Profile}.

Lemma checked_ok m z : 0 ≤ z < m → checked m z = Ok z.
Proof. intros ?. unfold checked. by if_true. Qed.

Lemma checked_returns_wrap m z : overflow_checks = false → 0 < m →
  checked m z = Ok (z mod m).
Proof.
  intros Ho Hm. unfold checked. rewrite Ho.
  destruct ((0 <=? z) && (z <? m)) eqn:E; [|done].
  zbool. by rewrite Z.mod_small.
Qed.

Lemma u32_add_ok a b : 0 ≤ a + b < U32 → u32_add a b = Ok (a + b).
Proof. apply checked_ok. Qed.

Lemma u32_sub_ok a b : b ≤ a → a - b < U32 → u32_sub a b = Ok (a - b).
Proof. intros. apply checked_ok. lia. Qed.

Lemma usize_sub_ok a b : b ≤ a → a - b < USIZE → usize_sub a b = Ok (a - b).
Proof. intros. apply checked_ok. lia. Qed.

End Arith.

Lemma as_u32_small z : 0 ≤ z < U32 → as_u32 z = z.
Proof. apply Z.mod_small. Qed.

Lemma as_u32_range z : 0 ≤ as_u32 z < U32.
Proof. apply Z.mod_pos_bound. lia. Qed.

Lemma as_u16_small z : 0 ≤ z < U16 → as_u16 z = z.
Proof. apply Z.mod_small. Qed.

Lemma div_ceil_spec a b n :
  0 < b → a / b + (if a mod b =? 0 then 0 else 1) = n ↔ (n - 1) * b < a ≤ n * b.
Proof.
  intros Hb. pose proof (Z.div_mod a b ltac:(lia)) as Hd.
  pose proof (Z.mod_pos_bound a b Hb) as Hm.
  destruct (a mod b =? 0) eqn:E; zbool; split; intros; nia.
Qed.

(** ** Slices *)

Section Slices.
Context {A : Type}.
Implicit Types l src : list A.

(** [l[i]] *)
Definition index l (i : Z) : outcome A :=
  if i <? 0 then Panic else
  match l !! Z.to_nat i with Some x => Ok x | None => Panic end.

(** [l[i] = x] *)
Definition set_index l (i : Z) (x : A) : outcome (list A) :=
  if (0 <=? i) && (i <? zlen l) then Ok (<[Z.to_nat i := x]> l) else Panic.

(** [&l[lo..hi]] *)
Definition slice l (lo hi : Z) : outcome (list A) :=
  if (0 <=? lo) && (lo <=? hi) && (hi <=? zlen l)
  then Ok (take (Z.to_nat (hi - lo)) (drop (Z.to_nat lo) l)) else Panic.

(** [l[lo..hi].copy_from_slice(src)] *)
Definition copy_from_slice l (lo hi : Z) src : outcome (list A) :=
  if (0 <=? lo) && (lo <=? hi) && (hi <=? zlen l) && (zlen src =? hi - lo)
  then Ok (splice (Z.to_nat lo) src l) else Panic.

Lemma index_ok l i x : 0 ≤ i → l !! Z.to_nat i = Some x → index l i = Ok x.
Proof. intros Hi Hx. unfold index. if_false. by rewrite Hx. Qed.

Lemma index_lt l i : 0 ≤ i < zlen l → ∃ x, l !! Z.to_nat i = Some x ∧ index l i = Ok x.
Proof.
  intros Hi. destruct (lookup_lt_Z l i Hi) as [x Hx]. exists x. split; [done|].
  apply index_ok; [lia|done].
Qed.

Lemma slice_ok l lo hi :
  0 ≤ lo ≤ hi → hi ≤ zlen l →
  slice l lo hi = Ok (take (Z.to_nat (hi - lo)) (drop (Z.to_nat lo) l)).
Proof. intros. unfold slice. by if_true. Qed.

Lemma slice_app pre mid post lo hi :
  lo = zlen pre → hi = zlen pre + zlen mid →
  slice (pre ++ mid ++ post) lo hi = Ok (mid : list A).
Proof.
  intros -> ->. rewrite slice_ok by len. f_equal.
  replace (Z.to_nat _) with (length mid) by lia. rewrite Nat2Z.id.
  apply take_drop_app_exact.
Qed.

Lemma copy_from_slice_ok l lo hi src :
  0 ≤ lo → hi = lo + zlen src → hi ≤ zlen l →
  copy_from_slice l lo hi src = Ok (splice (Z.to_nat lo) src l).
Proof. intros ? -> ?. unfold copy_from_slice. by if_true. Qed.

(** Overwriting the bytes that follow an already written prefix. *)
Lemma copy_from_slice_step pre l lo hi src :
  lo = zlen pre → hi = lo + zlen src → zlen src ≤ zlen l →
  copy_from_slice (pre ++ l) lo hi src = Ok ((pre ++ src) ++ drop (length src) l).
Proof.
  intros -> -> ?. rewrite copy_from_slice_ok by len. f_equal.
  rewrite Nat2Z.id. apply splice_step. lia.
Qed.

Lemma set_index_step pre l i x :
  i = zlen pre → 1 ≤ zlen l →
  set_index (pre ++ l) i x = Ok ((pre ++ [x]) ++ drop 1 l).
Proof.
  intros -> ?. unfold set_index. if_true. f_equal. rewrite Nat2Z.id.
  destruct l as [|y l]; [simpl in *; lia|].
  rewrite insert_app_r_alt, Nat.sub_diag by lia. simpl. by rewrite <- app_assoc.
Qed.

End Slices.
