(* ===== verification/Format.v ===== *)
(** * On-disk constants (rust/src/format.rs) *)

From S2P Require Import Prelude.

(** Block types. *)
Definition BLOCK_TYPE_STORAGE_HEADER : Z := 0x01.
Definition BLOCK_TYPE_RECORD_DESCRIPTOR : Z := 0x02.
Definition BLOCK_TYPE_VALUE_CHUNK : Z := 0x03.

(** Header sizes, without the trailing block CRC. *)
Definition STORAGE_HEADER_SIZE : Z := 28.
Definition RECORD_DESCRIPTOR_HEADER_SIZE : Z := 32.
Definition VALUE_CHUNK_HEADER_SIZE : Z := 20.

(** Size of the CRC stored in the last bytes of every non-free block. *)
Definition BLOCK_CRC_SIZE : Z := 4.

(** "No next chunk". *)
Definition NULL_BLOCK_INDEX : Z := 0xFFFFFFFF.

Definition VERSION_MAJOR : Z := 1.
Definition VERSION_MINOR : Z := 0.

(** The ASCII bytes of "EKV". *)
Definition MAGIC : list byte := [x45; x4b; x56].

(** Constants are unfolded wherever arithmetic meets them. *)
Ltac consts := unfold BLOCK_TYPE_STORAGE_HEADER, BLOCK_TYPE_RECORD_DESCRIPTOR,
  BLOCK_TYPE_VALUE_CHUNK, STORAGE_HEADER_SIZE, RECORD_DESCRIPTOR_HEADER_SIZE,
  VALUE_CHUNK_HEADER_SIZE, BLOCK_CRC_SIZE, NULL_BLOCK_INDEX, VERSION_MAJOR,
  VERSION_MINOR in *.
