(* ===== verification/Crc.v ===== *)
(** * Block checksums (rust/src/crc.rs)

    The table-driven CRC-32, the block CRC stored in the last four bytes, a
    bit-serial reference definition, and the error-detection facts that make
    the checksum worth storing. *)

From S2P Require Import Prelude Errors Rust.

(** ** The code *)

(** [poly] of [crc_table]: the reflected IEEE polynomial. *)
Definition poly : Z := 0xEDB88320.

(** One iteration of the inner loop of [crc_table]. *)
Definition table_step (crc : Z) : Z :=
  if negb (Z.land crc 1 =? 0) then Z.lxor (Z.shiftr crc 1) poly else Z.shiftr crc 1.

Definition crc_table : list Z := (λ i, Nat.iter 8 table_step i) <$> seqZ 0 256.

(** One iteration of the loop of [crc32_update]; the index is below 256, so
    the table access is always in bounds. *)
Definition crc_byte (table : list Z) (crc : Z) (b : byte) : Z :=
  let idx := Z.land (Z.lxor crc (b2z b)) 0xFF in
  Z.lxor (Z.shiftr crc 8) (table !!! Z.to_nat idx).

Definition crc32_update (crc : Z) (data : list byte) : Z :=
  let table := crc_table in fold_left (crc_byte table) data crc.

(** [compute_block_crc32(buf, crc_offset)] *)
Definition compute_block_crc32 (buf : list byte) (crc_offset : Z) : outcome Z :=
  let crc := 0xFFFFFFFF in
  before ← slice buf 0 crc_offset;
  let crc := crc32_update crc before in
  let crc := crc32_update crc [x00; x00; x00; x00] in
  after ← slice buf (crc_offset + 4) (zlen buf);
  let crc := crc32_update crc after in
  mret (Z.lxor crc 0xFFFFFFFF).

Definition block_crc_offset `{Profile} (buf : list byte) : outcome Z :=
  usize_sub (zlen buf) 4.

Definition write_block_crc `{Profile} (buf : list byte) : outcome (list byte) :=
  off ← block_crc_offset buf;
  crc ← compute_block_crc32 buf off;
  copy_from_slice buf off (off + 4) (to_le_bytes 4 crc).

Definition verify_block_crc `{Profile} (buf : list byte) : outcome bool :=
  off ← block_crc_offset buf;
  b0 ← index buf off;
  b1 ← index buf (off + 1);
  b2 ← index buf (off + 2);
  b3 ← index buf (off + 3);
  let stored := from_le_bytes [b0; b1; b2; b3] in
  crc ← compute_block_crc32 buf off;
  mret (crc =? stored).

(** ** Reference: the bit-serial shift register *)

(** Feed one message bit into the reflected register. *)
Definition lfsr_bit (crc : Z) (bit : bool) : Z :=
  if xorb (Z.testbit crc 0) bit then Z.lxor (Z.shiftr crc 1) poly else Z.shiftr crc 1.

(** The bits of a byte, least significant first. *)
Definition byte_bits (b : byte) : list bool := Z.testbit (b2z b) <$> seqZ 0 8.

Definition crc_bitwise (crc : Z) (data : list byte) : Z :=
  fold_left lfsr_bit (mjoin (byte_bits <$> data)) crc.

(** ** The step function over GF(2) *)

Lemma land_1_testbit z : negb (Z.land z 1 =? 0) = Z.testbit z 0.
Proof.
  change 1 with (Z.ones 1). rewrite Z.land_ones by lia. change (2 ^ 1) with 2.
  rewrite <- Z.bit0_mod. by destruct (Z.testbit z 0).
Qed.

Lemma table_step_eq z : table_step z = lfsr_bit z false.
Proof. unfold table_step, lfsr_bit. by rewrite land_1_testbit, xorb_false_r. Qed.

Lemma table_step_alt z :
  table_step z = Z.lxor (Z.shiftr z 1) (if Z.testbit z 0 then poly else 0).
Proof.
  unfold table_step. rewrite land_1_testbit. destruct (Z.testbit z 0); [done|].
  by rewrite Z.lxor_0_r.
Qed.

Lemma table_step_lxor x y : table_step (Z.lxor x y) = Z.lxor (table_step x) (table_step y).
Proof.
  rewrite !table_step_alt, Z.lxor_spec, Z.shiftr_lxor.
  apply Z.bits_inj'. intros n Hn. rewrite !Z.lxor_spec.
  destruct (Z.testbit x 0), (Z.testbit y 0); cbn [xorb]; rewrite ?Z.bits_0;
    destruct (Z.testbit (Z.shiftr x 1) n), (Z.testbit (Z.shiftr y 1) n), (Z.testbit poly n);
    done.
Qed.

Lemma iter_step_lxor n x y :
  Nat.iter n table_step (Z.lxor x y) =
  Z.lxor (Nat.iter n table_step x) (Nat.iter n table_step y).
Proof. induction n as [|n IH]; [done|]. by rewrite !Nat.iter_succ, IH, table_step_lxor. Qed.

Lemma table_step_double x : 0 ≤ x → table_step (Z.shiftl x 1) = x.
Proof.
  intros Hx. rewrite table_step_alt, Z.shiftr_shiftl_l by lia.
  rewrite Z.shiftl_spec_low by lia. by rewrite Z.lxor_0_r, Z.shiftl_0_r.
Qed.

(** [n] steps shift out [n] zero bits unchanged. *)
Lemma iter_step_shiftl n x : 0 ≤ x → Nat.iter n table_step (Z.shiftl x (Z.of_nat n)) = x.
Proof.
  intros Hx. induction n as [|n IH]; [apply Z.shiftl_0_r|].
  rewrite Nat.iter_succ_r, Nat2Z.inj_succ, <- Z.add_1_r, <- Z.shiftl_shiftl by lia.
  rewrite table_step_double; [done|]. by apply Z.shiftl_nonneg.
Qed.

Lemma iter8_shiftl x : 0 ≤ x → Nat.iter 8 table_step (Z.shiftl x 8) = x.
Proof. apply (iter_step_shiftl 8). Qed.

Lemma shiftr_byte b : Z.shiftr (b2z b) 8 = 0.
Proof. rewrite Z.shiftr_div_pow2 by lia. apply Z.div_small, b2z_range. Qed.

Lemma split_low_byte x : x = Z.lxor (Z.land x 0xFF) (Z.shiftl (Z.shiftr x 8) 8).
Proof.
  apply Z.bits_inj'. intros n Hn. change 0xFF with (Z.ones 8).
  rewrite Z.lxor_spec, Z.land_spec, Z.shiftl_spec by lia.
  destruct (Z.ltb_spec n 8).
  - rewrite Z.ones_spec_low, (Z.testbit_neg_r _ (n - 8)) by lia.
    by rewrite andb_true_r, xorb_false_r.
  - rewrite Z.ones_spec_high, Z.shiftr_spec by lia. rewrite andb_false_r, xorb_false_l.
    f_equal. lia.
Qed.

Lemma crc_table_lookup i : 0 ≤ i < 256 → crc_table !!! Z.to_nat i = Nat.iter 8 table_step i.
Proof.
  intros Hi. unfold crc_table. apply list_lookup_total_correct.
  rewrite list_lookup_fmap, lookup_seqZ_lt by lia. cbn [fmap option_fmap option_map].
  do 2 f_equal. lia.
Qed.

Lemma land_FF_range x : 0 ≤ Z.land x 0xFF < 256.
Proof.
  change 0xFF with (Z.ones 8). rewrite Z.land_ones by lia. by apply Z.mod_pos_bound.
Qed.

(** The table look-up is eight steps of the register. *)
Lemma crc_byte_eq crc b :
  0 ≤ crc → crc_byte crc_table crc b = Nat.iter 8 table_step (Z.lxor crc (b2z b)).
Proof.
  intros Hc. unfold crc_byte. rewrite crc_table_lookup by apply land_FF_range.
  rewrite (split_low_byte (Z.lxor crc (b2z b))) at 2.
  rewrite iter_step_lxor, Z.lxor_comm. f_equal.
  rewrite iter8_shiftl.
  - by rewrite Z.shiftr_lxor, shiftr_byte, Z.lxor_0_r.
  - apply Z.shiftr_nonneg, Z.lxor_nonneg. pose proof (b2z_range b). lia.
Qed.

Lemma lfsr_bit_step s bit : lfsr_bit s bit = table_step (Z.lxor s (Z.b2z bit)).
Proof.
  unfold lfsr_bit. rewrite table_step_alt, Z.lxor_spec, Z.shiftr_lxor.
  assert (Z.shiftr (Z.b2z bit) 1 = 0) as -> by by destruct bit.
  rewrite Z.lxor_0_r, Z.b2z_bit0.
  destruct (xorb _ _); [done|]. by rewrite Z.lxor_0_r.
Qed.

Lemma mod_pow2_succ v n :
  0 ≤ v → v mod 2 ^ Z.of_nat (S n) =
  Z.lxor (v mod 2 ^ Z.of_nat n) (Z.shiftl (Z.b2z (Z.testbit v (Z.of_nat n))) (Z.of_nat n)).
Proof.
  intros Hv. rewrite <- !Z.land_ones by lia. apply Z.bits_inj'. intros m Hm.
  rewrite Z.lxor_spec, !Z.land_spec, Z.shiftl_spec, !Z.testbit_ones_nonneg by lia.
  destruct (Z.lt_trichotomy m (Z.of_nat n)) as [Hlt|[->|Hgt]].
  - rewrite (Z.testbit_neg_r _ (m - _)) by lia.
    rewrite (proj2 (Z.ltb_lt m (Z.of_nat n))), (proj2 (Z.ltb_lt m (Z.of_nat (S n)))) by lia.
    by rewrite xorb_false_r.
  - rewrite Z.sub_diag, Z.b2z_bit0, (proj2 (Z.ltb_ge _ (Z.of_nat n))) by lia.
    rewrite (proj2 (Z.ltb_lt _ (Z.of_nat (S n)))) by lia.
    by rewrite andb_true_r, andb_false_r, xorb_false_l.
  - rewrite !(proj2 (Z.ltb_ge m _)) by lia. rewrite !andb_false_r, xorb_false_l.
    destruct (Z.testbit v (Z.of_nat n)); cbn [Z.b2z]; [|by rewrite Z.bits_0].
    symmetry. apply Z.bits_above_log2; simpl; lia.
Qed.

Lemma lfsr_bits v n s :
  0 ≤ v → fold_left lfsr_bit (Z.testbit v <$> seqZ 0 (Z.of_nat n)) s =
  Nat.iter n table_step (Z.lxor s (v mod 2 ^ Z.of_nat n)).
Proof.
  intros Hv. induction n as [|n IH].
  - simpl. by rewrite Z.mod_1_r, Z.lxor_0_r.
  - rewrite seqZ_S, fmap_app, fold_left_app, IH. cbn [fmap list_fmap fold_left].
    rewrite Z.add_0_l, lfsr_bit_step, mod_pow2_succ, Nat.iter_succ by done. f_equal.
    rewrite <- Z.lxor_assoc, (iter_step_lxor n (Z.lxor s _)), iter_step_shiftl; [done|].
    by destruct (Z.testbit v _).
Qed.

Lemma lfsr_byte s b :
  fold_left lfsr_bit (byte_bits b) s = Nat.iter 8 table_step (Z.lxor s (b2z b)).
Proof.
  pose proof (b2z_range b). etransitivity; [apply (lfsr_bits (b2z b) 8 s); lia|].
  by rewrite Z.mod_small by lia.
Qed.

(** ** Ranges and injectivity *)

Lemma lxor_lt_U32 x y : 0 ≤ x < U32 → 0 ≤ y < U32 → 0 ≤ Z.lxor x y < U32.
Proof.
  intros Hx Hy. assert (0 ≤ Z.lxor x y) as Hpos by (apply Z.lxor_nonneg; lia).
  split; [done|]. destruct (Z.eq_dec (Z.lxor x y) 0) as [->|Hne]; [lia|].
  assert (∀ z, 0 ≤ z < U32 → Z.log2 z < 32) as Hlog.
  { intros z Hz. destruct (Z.eq_dec z 0) as [->|]; [done|].
    apply Z.log2_lt_pow2; simpl; lia. }
  pose proof (Z.log2_lxor x y ltac:(lia) ltac:(lia)).
  pose proof (Hlog x Hx). pose proof (Hlog y Hy).
  change U32 with (2 ^ 32). apply Z.log2_lt_pow2; lia.
Qed.

Lemma table_step_range x : 0 ≤ x < U32 → 0 ≤ table_step x < U32.
Proof.
  intros Hx. rewrite table_step_alt. apply lxor_lt_U32.
  - rewrite Z.shiftr_div_pow2 by lia. change (2 ^ 1) with 2. split.
    + apply Z.div_pos; lia.
    + apply Z.div_lt_upper_bound; lia.
  - destruct (Z.testbit x 0); unfold poly; lia.
Qed.

Lemma iter_step_range n x : 0 ≤ x < U32 → 0 ≤ Nat.iter n table_step x < U32.
Proof. intros Hx. induction n; [done|]. rewrite Nat.iter_succ. by apply table_step_range. Qed.

Lemma byte_U32 b : 0 ≤ b2z b < U32.
Proof. pose proof (b2z_range b). lia. Qed.

Lemma crc32_update_range crc data : 0 ≤ crc < U32 → 0 ≤ crc32_update crc data < U32.
Proof.
  unfold crc32_update. revert crc.
  induction data as [|b data IH]; intros crc Hc; [done|].
  simpl fold_left. apply IH. rewrite crc_byte_eq by lia.
  apply iter_step_range, lxor_lt_U32; [done|apply byte_U32].
Qed.

(** The top bit of a step tells which branch was taken: the step is undone. *)
Definition table_unstep (y : Z) : Z :=
  if Z.testbit y 31 then Z.lxor (Z.shiftl (Z.lxor y poly) 1) 1 else Z.shiftl y 1.

Lemma shiftr_shiftl_1 x : Z.shiftl (Z.shiftr x 1) 1 = Z.lxor x (Z.b2z (Z.testbit x 0)).
Proof.
  apply Z.bits_inj'. intros n Hn. rewrite Z.lxor_spec, Z.shiftl_spec by lia.
  destruct (Z.eq_dec n 0) as [->|].
  - rewrite Z.testbit_neg_r, Z.b2z_bit0 by lia. by rewrite xorb_nilpotent.
  - rewrite Z.shiftr_spec by lia. replace (n - 1 + 1) with n by lia.
    destruct (Z.testbit x 0); cbn [Z.b2z]; rewrite ?Z.bits_0, ?xorb_false_r; [|done].
    by rewrite (Z.bits_above_log2 1), xorb_false_r by (simpl; lia).
Qed.

Lemma table_unstep_step x : 0 ≤ x < U32 → table_unstep (table_step x) = x.
Proof.
  intros Hx. unfold table_unstep. rewrite table_step_alt, Z.lxor_spec.
  assert (Z.testbit (Z.shiftr x 1) 31 = false) as ->.
  { rewrite Z.shiftr_spec by lia. apply Z.testbit_false; [lia|].
    change (2 ^ (31 + 1)) with U32. by rewrite Z.div_small. }
  pose proof (shiftr_shiftl_1 x) as Hs. destruct (Z.testbit x 0); simpl xorb.
  - change (Z.testbit poly 31) with true. cbv iota.
    rewrite Z.lxor_assoc, Z.lxor_nilpotent, Z.lxor_0_r, Hs.
    cbn [Z.b2z]. by rewrite Z.lxor_assoc, Z.lxor_nilpotent, Z.lxor_0_r.
  - cbn [Z.b2z] in Hs. by rewrite Z.lxor_0_r, Hs, Z.lxor_0_r.
Qed.

Lemma iter_step_inj n x y :
  0 ≤ x < U32 → 0 ≤ y < U32 →
  Nat.iter n table_step x = Nat.iter n table_step y → x = y.
Proof.
  intros Hx Hy. induction n as [|n IH]; [done|]. rewrite !Nat.iter_succ.
  intros H%(f_equal table_unstep).
  rewrite !table_unstep_step in H by (by apply iter_step_range). auto.
Qed.

Lemma lxor_cancel_l a x y : Z.lxor a x = Z.lxor a y → x = y.
Proof.
  intros H%(f_equal (Z.lxor a)). by rewrite <- !Z.lxor_assoc, Z.lxor_nilpotent, !Z.lxor_0_l in H.
Qed.

Lemma lxor_cancel_r a x y : Z.lxor x a = Z.lxor y a → x = y.
Proof. rewrite !(Z.lxor_comm _ a). apply lxor_cancel_l. Qed.

(** Distinct registers stay distinct through the same bytes. *)
Lemma crc32_update_inj data s1 s2 :
  0 ≤ s1 < U32 → 0 ≤ s2 < U32 →
  crc32_update s1 data = crc32_update s2 data → s1 = s2.
Proof.
  unfold crc32_update. revert s1 s2.
  induction data as [|b data IH]; intros s1 s2 H1 H2; [done|]. simpl fold_left.
  rewrite !crc_byte_eq by lia. pose proof (byte_U32 b) as Hb. intros H.
  apply IH in H; try (by apply iter_step_range, lxor_lt_U32).
  apply iter_step_inj in H; try (by apply lxor_lt_U32). by apply lxor_cancel_r in H.
Qed.

Lemma crc32_update_app s d1 d2 :
  crc32_update s (d1 ++ d2) = crc32_update (crc32_update s d1) d2.
Proof. apply fold_left_app. Qed.

Lemma crc32_update_cons s b d :
  0 ≤ s → crc32_update s (b :: d) = crc32_update (Nat.iter 8 table_step (Z.lxor s (b2z b))) d.
Proof. intros ?. unfold crc32_update. simpl fold_left. by rewrite crc_byte_eq. Qed.

(** The register after [w] is the register combined with [w] read as one
    little-endian integer, shifted through bit by bit. *)
Lemma from_le_bytes_cons_lxor b w :
  from_le_bytes (b :: w) = Z.lxor (b2z b) (Z.shiftl (from_le_bytes w) 8).
Proof.
  cbn [from_le_bytes]. pose proof (b2z_range b) as Hb.
  rewrite (split_low_byte (b2z b + 256 * from_le_bytes w)).
  change 0xFF with (Z.ones 8). rewrite Z.land_ones, Z.shiftr_div_pow2 by lia.
  change (2 ^ 8) with 256. rewrite (Z.mul_comm 256), Z.mod_add, Z.div_add by lia.
  by rewrite Z.mod_small, Z.div_small by lia.
Qed.

Lemma crc32_update_word w s :
  0 ≤ s → crc32_update s w = Nat.iter (8 * length w) table_step (Z.lxor s (from_le_bytes w)).
Proof.
  revert s. induction w as [|b w IH]; intros s Hs.
  - cbn. by rewrite Z.lxor_0_r.
  - pose proof (b2z_range b). pose proof (from_le_bytes_range w) as Hw.
    assert (0 ≤ Z.lxor s (b2z b)) as Hx by (apply Z.lxor_nonneg; lia).
    assert (∀ n x, 0 ≤ x → 0 ≤ Nat.iter n table_step x) as Hpos.
    { intros n x Hn. induction n; [done|]. rewrite Nat.iter_succ, table_step_alt.
      apply Z.lxor_nonneg. split; intros _; [|by apply Z.shiftr_nonneg].
      by destruct (Z.testbit _ 0). }
    rewrite crc32_update_cons, IH by auto.
    rewrite from_le_bytes_cons_lxor, length_cons, Nat.mul_succ_r, Nat.iter_add.
    rewrite <- Z.lxor_assoc, (iter_step_lxor 8 (Z.lxor _ _)), iter8_shiftl by lia. done.
Qed.

(** A change confined to at most four consecutive bytes changes the CRC. *)
Lemma crc32_update_burst pre w1 w2 post s :
  0 ≤ s < U32 → length w1 = length w2 → (length w1 ≤ 4)%nat → w1 ≠ w2 →
  crc32_update s (pre ++ w1 ++ post) ≠ crc32_update s (pre ++ w2 ++ post).
Proof.
  intros Hs Hlen H4 Hne Heq. apply Hne.
  rewrite !crc32_update_app in Heq.
  pose proof (crc32_update_range s pre Hs) as Hp.
  apply crc32_update_inj in Heq; try (by apply crc32_update_range).
  revert Heq Hp. generalize (crc32_update s pre). intros t Heq Ht.
  rewrite !crc32_update_word, Hlen in Heq by lia.
  assert (∀ w, (length w ≤ 4)%nat → 0 ≤ from_le_bytes w < U32) as Hr.
  { intros w Hw. pose proof (from_le_bytes_range w).
    pose proof (Z.pow_le_mono_r 256 (zlen w) 4 ltac:(lia) ltac:(lia)). simpl in *. lia. }
  apply iter_step_inj in Heq; try (apply lxor_lt_U32; [done|]; apply Hr; lia).
  apply lxor_cancel_l in Heq. by apply from_le_bytes_inj.
Qed.

(** ** The block functions *)

(** The bytes before the CRC field, and the CRC field itself. *)
Definition crc_body (buf : list byte) : list byte := take (length buf - 4) buf.
Definition crc_field (buf : list byte) : list byte := drop (length buf - 4) buf.

(** The CRC of a block whose body is [body]. *)
Definition block_crc (body : list byte) : Z :=
  Z.lxor (crc32_update 0xFFFFFFFF (body ++ [x00; x00; x00; x00])) 0xFFFFFFFF.

Lemma block_crc_range body : 0 ≤ block_crc body < U32.
Proof. apply lxor_lt_U32; [apply crc32_update_range|]; lia. Qed.

(** Does the stored CRC match the contents? *)
Definition crc_valid (buf : list byte) : bool :=
  block_crc (crc_body buf) =? from_le_bytes (crc_field buf).

(** A body with its CRC appended: what [write_block_crc] leaves. *)
Definition seal (body : list byte) : list byte := body ++ to_le_bytes 4 (block_crc body).

Lemma length_seal body : length (seal body) = (length body + 4)%nat.
Proof. unfold seal. len. Qed.
#[export] Hint Rewrite length_seal : len.

Lemma crc_body_app body field : length field = 4%nat → crc_body (body ++ field) = body.
Proof. intros Hf. unfold crc_body. rewrite take_app_length'; [done|len]. Qed.

Lemma crc_field_app body field : length field = 4%nat → crc_field (body ++ field) = field.
Proof. intros Hf. unfold crc_field. rewrite drop_app_length'; [done|len]. Qed.

Lemma crc_body_field buf : crc_body buf ++ crc_field buf = buf.
Proof. apply take_drop. Qed.

Lemma crc_body_seal body : crc_body (seal body) = body.
Proof. apply crc_body_app, length_to_le_bytes. Qed.

Lemma crc_valid_seal body : crc_valid (seal body) = true.
Proof.
  unfold crc_valid. rewrite crc_body_seal. unfold seal.
  rewrite crc_field_app by apply length_to_le_bytes.
  rewrite from_to_le_bytes by apply block_crc_range. apply Z.eqb_refl.
Qed.

Section Blocks.
Context `{Profile}.

Lemma block_crc_offset_ok buf :
  4 ≤ zlen buf < USIZE → block_crc_offset buf = Ok (zlen buf - 4).
Proof. intros. apply usize_sub_ok; lia. Qed.

Lemma compute_block_crc32_ok buf :
  4 ≤ zlen buf → compute_block_crc32 buf (zlen buf - 4) = Ok (block_crc (crc_body buf)).
Proof.
  intros Hl. unfold compute_block_crc32. rewrite slice_ok by lia. cbn [mbind outcome_bind].
  rewrite slice_ok by lia. cbn [mbind outcome_bind].
  replace (Z.to_nat (zlen buf - (_ + _))) with O by lia. rewrite take_0.
  replace (Z.to_nat (zlen buf - 4 - 0)) with (length buf - 4)%nat by lia.
  unfold block_crc. by rewrite crc32_update_app.
Qed.

Lemma write_block_crc_ok buf :
  4 ≤ zlen buf < USIZE →
  write_block_crc buf = Ok (seal (crc_body buf)).
Proof.
  intros Hl. unfold write_block_crc. rewrite block_crc_offset_ok by lia.
  cbn [mbind outcome_bind]. rewrite compute_block_crc32_ok by lia. cbn [mbind outcome_bind].
  rewrite copy_from_slice_ok by len. f_equal. unfold splice, seal, crc_body.
  rewrite length_to_le_bytes, drop_ge, app_nil_r by len. do 2 f_equal. lia.
Qed.

Lemma verify_block_crc_ok buf :
  4 ≤ zlen buf < USIZE →
  verify_block_crc buf = Ok (crc_valid buf).
Proof.
  intros Hl. unfold verify_block_crc. rewrite block_crc_offset_ok by lia.
  cbn [mbind outcome_bind].
  assert (∃ b0 b1 b2 b3, crc_field buf = [b0; b1; b2; b3]) as (b0 & b1 & b2 & b3 & Hf).
  { unfold crc_field. assert (length (drop (length buf - 4) buf) = 4%nat) as Hd by len.
    destruct (drop _ _) as [|b0 [|b1 [|b2 [|b3 [|]]]]]; try discriminate Hd. eauto. }
  assert (∀ k b, 0 ≤ k → crc_field buf !! Z.to_nat k = Some b →
                 index buf (zlen buf - 4 + k) = Ok b) as Hi.
  { intros k b Hk Hb. apply index_ok; [lia|]. unfold crc_field in Hb.
    rewrite lookup_drop in Hb. rewrite <- Hb. f_equal. lia. }
  unfold crc_valid. rewrite Hf in Hi |- *. pose proof (Hi 0 b0 ltac:(lia) eq_refl) as H0.
  rewrite Z.add_0_r in H0. rewrite H0. cbn [mbind outcome_bind].
  rewrite (Hi 1 b1 ltac:(lia) eq_refl). cbn [mbind outcome_bind].
  rewrite (Hi 2 b2 ltac:(lia) eq_refl). cbn [mbind outcome_bind].
  rewrite (Hi 3 b3 ltac:(lia) eq_refl). cbn [mbind outcome_bind].
  by rewrite compute_block_crc32_ok by lia.
Qed.

(** Any block too short to hold a CRC makes the code panic: the offset
    underflows, and the wrapped offset is out of bounds. *)
Lemma verify_block_crc_short buf : zlen buf < 4 → verify_block_crc buf = Panic.
Proof.
  intros Hl. unfold verify_block_crc, block_crc_offset, usize_sub, checked.
  destruct ((0 <=? _) && _) eqn:E; zbool; [lia|].
  destruct overflow_checks; [done|]. cbn [mbind outcome_bind].
  assert (index buf ((zlen buf - 4) mod USIZE) = Panic) as ->; [|done].
  rewrite <- (Z.mod_add _ 1), Z.mod_small by lia. unfold index. if_false.
  by rewrite lookup_ge_None_2 by lia.
Qed.

Lemma crc_valid_burst pre w1 w2 post :
  length w1 = length w2 → (length w1 ≤ 4)%nat → w1 ≠ w2 → 4 ≤ zlen post →
  crc_valid (pre ++ w1 ++ post) = true → crc_valid (pre ++ w2 ++ post) = false.
Proof.
  intros Hlen H4 Hne Hp. destruct (split_at post (length post - 4)) as (q & f & -> & Hq); [lia|].
  assert (length f = 4%nat) as Hf by len. unfold crc_valid.
  assert (∀ w, pre ++ w ++ q ++ f = (pre ++ w ++ q) ++ f) as Happ
    by (intros; by rewrite <- !app_assoc).
  rewrite !Happ, !crc_body_app, !crc_field_app by done. intros Hv. zbool.
  apply Z.eqb_neq. rewrite <- Hv. unfold block_crc. intros Heq%lxor_cancel_r.
  revert Heq. rewrite <- !app_assoc. apply crc32_update_burst; [lia|done..| |].
  - lia.
  - congruence.
Qed.

Lemma crc_valid_field body f1 f2 :
  length f1 = 4%nat → length f2 = 4%nat → f1 ≠ f2 →
  crc_valid (body ++ f1) = true → crc_valid (body ++ f2) = false.
Proof.
  intros H1 H2 Hne. unfold crc_valid. rewrite !crc_body_app, !crc_field_app by done.
  intros Hv. zbool. apply Z.eqb_neq. rewrite Hv. intros Heq%from_le_bytes_inj; congruence.
Qed.

End Blocks.

(** ** Properties *)

(** C26: the table-driven [crc32_update] computes the bit-serial CRC-32 of the
    reflected polynomial 0xEDB88320, from any register value. *)
Theorem crc32_update_bitwise crc data :
  0 ≤ crc < U32 → crc32_update crc data = crc_bitwise crc data.
Proof.
  revert crc. induction data as [|b data IH]; intros crc Hc; [done|].
  pose proof (byte_U32 b). rewrite crc32_update_cons, IH by
    (try lia; by apply iter_step_range, lxor_lt_U32).
  unfold crc_bitwise. rewrite fmap_cons. cbn [mjoin list_join].
  by rewrite fold_left_app, lfsr_byte.
Qed.

(** The check value of CRC-32: the CRC of the ASCII digits 1 to 9. *)
Definition digits : list byte := z2b <$> seqZ 0x31 9.

Lemma crc32_update_bitwise_witness :
  crc32_update 0xFFFFFFFF digits = crc_bitwise 0xFFFFFFFF digits
  ∧ Z.lxor (crc32_update 0xFFFFFFFF digits) 0xFFFFFFFF = 0xCBF43926.
Proof.
  split; [apply (crc32_update_bitwise 0xFFFFFFFF digits); lia | vm_compute; reflexivity].
Defined.

(** C27: [write_block_crc] succeeds on every buffer of at least four bytes,
    changes only the last four bytes, and its result passes [verify_block_crc]. *)
Theorem write_block_crc_verifies `{Profile} buf :
  4 ≤ zlen buf < USIZE →
  ∃ buf', write_block_crc buf = Ok buf' ∧ length buf' = length buf ∧
          crc_body buf' = crc_body buf ∧ verify_block_crc buf' = Ok true.
Proof.
  intros Hl. exists (seal (crc_body buf)). rewrite write_block_crc_ok by done.
  assert (length (seal (crc_body buf)) = length buf) as Hlen
    by (unfold crc_body; len).
  rewrite verify_block_crc_ok by lia.
  by rewrite crc_body_seal, crc_valid_seal.
Qed.

Lemma write_block_crc_verifies_witness :
  4 ≤ zlen (replicate 32 x5a) < USIZE ∧
  ∃ buf', write_block_crc (H := dev_profile) (replicate 32 x5a) = Ok buf' ∧
          length buf' = 32%nat ∧ crc_body buf' = crc_body (replicate 32 x5a) ∧
          verify_block_crc (H := dev_profile) buf' = Ok true.
Proof.
  split; [simpl; lia|]. apply (write_block_crc_verifies (H := dev_profile)). simpl; lia.
Defined.

(** C28: a valid block that is altered within at most four consecutive bytes of
    its body, or anywhere within its CRC field, no longer passes
    [verify_block_crc]. *)
Theorem verify_block_crc_detects `{Profile} pre w1 w2 post :
  zlen (pre ++ w1 ++ post) < USIZE →
  length w1 = length w2 → (length w1 ≤ 4)%nat → w1 ≠ w2 →
  4 ≤ zlen post ∨ zlen w1 = 4 ∧ post = [] →
  verify_block_crc (pre ++ w1 ++ post) = Ok true →
  verify_block_crc (pre ++ w2 ++ post) = Ok false.
Proof.
  intros Hu Hlen H4 Hne Hpos.
  rewrite !verify_block_crc_ok by (destruct Hpos as [?|[? ->]]; len).
  intros [= Hv]. f_equal. destruct Hpos as [Hp|[Hw ->]].
  - by apply crc_valid_burst with w1.
  - rewrite app_nil_r in *. apply crc_valid_field with w1; [lia..|done|done].
Qed.

Lemma verify_block_crc_detects_witness :
  verify_block_crc (H := dev_profile) (seal (digits ++ [x01; x02] ++ digits)) = Ok true ∧
  verify_block_crc (H := dev_profile)
    (digits ++ [x03; x02] ++ digits ++ crc_field (seal (digits ++ [x01; x02] ++ digits)))
  = Ok false.
Proof.
  split; [vm_compute; reflexivity|].
  apply (verify_block_crc_detects (H := dev_profile) digits [x01; x02] [x03; x02]);
    [vm_compute; reflexivity|reflexivity|vm_compute; lia|discriminate|
     left; vm_compute; discriminate|vm_compute; reflexivity].
Defined.
