(* ===== verification/Block.v ===== *)
(** * Block layouts (rust/src/block.rs)

    The three packed header structures with their serialisers, the
    classification of a block, the payload capacities and the free block. *)

From S2P Require Import Prelude Errors Rust Format Crc.

(** ** Header structures *)

Record StorageHeader := {
  sh_block_type : Z;
  sh_magic : list byte;
  sh_version_major : Z;
  sh_version_minor : Z;
  sh_block_size : Z;
  sh_block_count : Z;
  sh_replica_id : Z;
  sh_format_seq : Z;
  sh_flags : Z;
}.

Record RecordDescriptorHeader := {
  dh_block_type : Z;
  dh_header_size : Z;
  dh_key_size : Z;
  dh_generation : Z;
  dh_total_size : Z;
  dh_first_payload_size : Z;
  dh_chunk_count : Z;
  dh_next_chunk : Z;
  dh_flags : Z;
  dh_user_flags : Z;
}.

Record ValueChunkHeader := {
  ch_block_type : Z;
  ch_header_size : Z;
  ch_flags : Z;
  ch_owner_descriptor : Z;
  ch_chunk_index : Z;
  ch_payload_size : Z;
  ch_next_chunk : Z;
}.

#[export] Instance StorageHeader_eq_dec : EqDecision StorageHeader.
Proof. solve_decision. Defined.
#[export] Instance RecordDescriptorHeader_eq_dec : EqDecision RecordDescriptorHeader.
Proof. solve_decision. Defined.
#[export] Instance ValueChunkHeader_eq_dec : EqDecision ValueChunkHeader.
Proof. solve_decision. Defined.

(** The ranges of the Rust field types. *)
Definition u8 (z : Z) : Prop := 0 ≤ z < 256.
Definition u16 (z : Z) : Prop := 0 ≤ z < U16.
Definition u32 (z : Z) : Prop := 0 ≤ z < U32.

Definition StorageHeader_wf (h : StorageHeader) : Prop :=
  u8 (sh_block_type h) ∧ length (sh_magic h) = 3%nat ∧ u16 (sh_version_major h) ∧
  u16 (sh_version_minor h) ∧ u32 (sh_block_size h) ∧ u32 (sh_block_count h) ∧
  u32 (sh_replica_id h) ∧ u32 (sh_format_seq h) ∧ u32 (sh_flags h).

Definition RecordDescriptorHeader_wf (h : RecordDescriptorHeader) : Prop :=
  u8 (dh_block_type h) ∧ u8 (dh_header_size h) ∧ u16 (dh_key_size h) ∧
  u32 (dh_generation h) ∧ u32 (dh_total_size h) ∧ u32 (dh_first_payload_size h) ∧
  u32 (dh_chunk_count h) ∧ u32 (dh_next_chunk h) ∧ u32 (dh_flags h) ∧ u32 (dh_user_flags h).

Definition ValueChunkHeader_wf (h : ValueChunkHeader) : Prop :=
  u8 (ch_block_type h) ∧ u8 (ch_header_size h) ∧ u16 (ch_flags h) ∧
  u32 (ch_owner_descriptor h) ∧ u32 (ch_chunk_index h) ∧ u32 (ch_payload_size h) ∧
  u32 (ch_next_chunk h).

(** ** Serialisation *)

Definition marshal_storage_header (h : StorageHeader) (buf : list byte) : outcome (list byte) :=
  buf ← set_index buf 0 (z2b (sh_block_type h));
  m0 ← index (sh_magic h) 0;
  buf ← set_index buf 1 m0;
  m1 ← index (sh_magic h) 1;
  buf ← set_index buf 2 m1;
  m2 ← index (sh_magic h) 2;
  buf ← set_index buf 3 m2;
  buf ← copy_from_slice buf 4 6 (to_le_bytes 2 (sh_version_major h));
  buf ← copy_from_slice buf 6 8 (to_le_bytes 2 (sh_version_minor h));
  buf ← copy_from_slice buf 8 12 (to_le_bytes 4 (sh_block_size h));
  buf ← copy_from_slice buf 12 16 (to_le_bytes 4 (sh_block_count h));
  buf ← copy_from_slice buf 16 20 (to_le_bytes 4 (sh_replica_id h));
  buf ← copy_from_slice buf 20 24 (to_le_bytes 4 (sh_format_seq h));
  copy_from_slice buf 24 28 (to_le_bytes 4 (sh_flags h)).

Definition marshal_descriptor_header (h : RecordDescriptorHeader) (buf : list byte) :
    outcome (list byte) :=
  buf ← set_index buf 0 (z2b (dh_block_type h));
  buf ← set_index buf 1 (z2b (dh_header_size h));
  buf ← copy_from_slice buf 2 4 (to_le_bytes 2 (dh_key_size h));
  buf ← copy_from_slice buf 4 8 (to_le_bytes 4 (dh_generation h));
  buf ← copy_from_slice buf 8 12 (to_le_bytes 4 (dh_total_size h));
  buf ← copy_from_slice buf 12 16 (to_le_bytes 4 (dh_first_payload_size h));
  buf ← copy_from_slice buf 16 20 (to_le_bytes 4 (dh_chunk_count h));
  buf ← copy_from_slice buf 20 24 (to_le_bytes 4 (dh_next_chunk h));
  buf ← copy_from_slice buf 24 28 (to_le_bytes 4 (dh_flags h));
  copy_from_slice buf 28 32 (to_le_bytes 4 (dh_user_flags h)).

Definition marshal_chunk_header (h : ValueChunkHeader) (buf : list byte) : outcome (list byte) :=
  buf ← set_index buf 0 (z2b (ch_block_type h));
  buf ← set_index buf 1 (z2b (ch_header_size h));
  buf ← copy_from_slice buf 2 4 (to_le_bytes 2 (ch_flags h));
  buf ← copy_from_slice buf 4 8 (to_le_bytes 4 (ch_owner_descriptor h));
  buf ← copy_from_slice buf 8 12 (to_le_bytes 4 (ch_chunk_index h));
  buf ← copy_from_slice buf 12 16 (to_le_bytes 4 (ch_payload_size h));
  copy_from_slice buf 16 20 (to_le_bytes 4 (ch_next_chunk h)).

(** [buf[i]], [u16::from_le_bytes([buf[i], buf[i+1]])] and the [u32] form. *)
Definition get_u8 (buf : list byte) (i : Z) : outcome Z :=
  b ← index buf i; mret (b2z b).

Definition get_u16 (buf : list byte) (i : Z) : outcome Z :=
  b0 ← index buf i; b1 ← index buf (i + 1); mret (from_le_bytes [b0; b1]).

Definition get_u32 (buf : list byte) (i : Z) : outcome Z :=
  b0 ← index buf i; b1 ← index buf (i + 1); b2 ← index buf (i + 2); b3 ← index buf (i + 3);
  mret (from_le_bytes [b0; b1; b2; b3]).

(** The [unmarshal_*] functions fill the header and return whether the block's
    CRC is valid: the pair holds both. *)
Definition unmarshal_storage_header `{Profile} (buf : list byte) :
    outcome (StorageHeader * bool) :=
  block_type ← get_u8 buf 0;
  m0 ← index buf 1; m1 ← index buf 2; m2 ← index buf 3;
  version_major ← get_u16 buf 4;
  version_minor ← get_u16 buf 6;
  block_size ← get_u32 buf 8;
  block_count ← get_u32 buf 12;
  replica_id ← get_u32 buf 16;
  format_seq ← get_u32 buf 20;
  flags ← get_u32 buf 24;
  ok ← verify_block_crc buf;
  mret ({| sh_block_type := block_type; sh_magic := [m0; m1; m2];
           sh_version_major := version_major; sh_version_minor := version_minor;
           sh_block_size := block_size; sh_block_count := block_count;
           sh_replica_id := replica_id; sh_format_seq := format_seq;
           sh_flags := flags |}, ok).

Definition unmarshal_descriptor_header `{Profile} (buf : list byte) :
    outcome (RecordDescriptorHeader * bool) :=
  block_type ← get_u8 buf 0;
  header_size ← get_u8 buf 1;
  key_size ← get_u16 buf 2;
  generation ← get_u32 buf 4;
  total_size ← get_u32 buf 8;
  first_payload_size ← get_u32 buf 12;
  chunk_count ← get_u32 buf 16;
  next_chunk ← get_u32 buf 20;
  flags ← get_u32 buf 24;
  user_flags ← get_u32 buf 28;
  ok ← verify_block_crc buf;
  mret ({| dh_block_type := block_type; dh_header_size := header_size;
           dh_key_size := key_size; dh_generation := generation;
           dh_total_size := total_size; dh_first_payload_size := first_payload_size;
           dh_chunk_count := chunk_count; dh_next_chunk := next_chunk;
           dh_flags := flags; dh_user_flags := user_flags |}, ok).

Definition unmarshal_chunk_header `{Profile} (buf : list byte) :
    outcome (ValueChunkHeader * bool) :=
  block_type ← get_u8 buf 0;
  header_size ← get_u8 buf 1;
  flags ← get_u16 buf 2;
  owner_descriptor ← get_u32 buf 4;
  chunk_index ← get_u32 buf 8;
  payload_size ← get_u32 buf 12;
  next_chunk ← get_u32 buf 16;
  ok ← verify_block_crc buf;
  mret ({| ch_block_type := block_type; ch_header_size := header_size; ch_flags := flags;
           ch_owner_descriptor := owner_descriptor; ch_chunk_index := chunk_index;
           ch_payload_size := payload_size; ch_next_chunk := next_chunk |}, ok).

(** ** Classification, capacities, free block *)

Inductive BlockClass := Free | Valid | Garbage.

#[export] Instance BlockClass_eq_dec : EqDecision BlockClass.
Proof. solve_decision. Defined.

Definition classify_block `{Profile} (buf : list byte) : outcome BlockClass :=
  if bool_decide (buf = []) then mret Free else
  let len := as_u32 (zlen buf) in
  t ← get_u8 buf 0;
  valid ←
    (if (t =? BLOCK_TYPE_STORAGE_HEADER) && (STORAGE_HEADER_SIZE + BLOCK_CRC_SIZE <=? len)
     then '(_, ok) ← unmarshal_storage_header buf; mret ok
     else if (t =? BLOCK_TYPE_RECORD_DESCRIPTOR)
             && (RECORD_DESCRIPTOR_HEADER_SIZE + BLOCK_CRC_SIZE <=? len)
     then '(_, ok) ← unmarshal_descriptor_header buf; mret ok
     else if (t =? BLOCK_TYPE_VALUE_CHUNK)
             && (VALUE_CHUNK_HEADER_SIZE + BLOCK_CRC_SIZE <=? len)
     then '(_, ok) ← unmarshal_chunk_header buf; mret ok
     else mret false);
  if valid : bool then mret Valid
  else if (t =? 0x00) || (t =? 0xFF) then mret Free else mret Garbage.

Definition is_free_candidate `{Profile} (buf : list byte) : outcome bool :=
  c ← classify_block buf; mret (bool_decide (c = Free)).

Definition first_payload_capacity `{Profile} (block_size key_size : Z) : outcome Z :=
  a ← u32_sub block_size RECORD_DESCRIPTOR_HEADER_SIZE;
  b ← u32_sub a key_size;
  u32_sub b BLOCK_CRC_SIZE.

Definition chunk_payload_capacity `{Profile} (block_size : Z) : outcome Z :=
  a ← u32_sub block_size VALUE_CHUNK_HEADER_SIZE;
  u32_sub a BLOCK_CRC_SIZE.

Definition make_free_buf (block_size : Z) (pattern : byte) : list byte :=
  replicate (Z.to_nat block_size) pattern.

(** ** Encodings as byte strings *)

Definition encode_storage (h : StorageHeader) : list byte :=
  [z2b (sh_block_type h)] ++ sh_magic h ++ to_le_bytes 2 (sh_version_major h)
  ++ to_le_bytes 2 (sh_version_minor h) ++ to_le_bytes 4 (sh_block_size h)
  ++ to_le_bytes 4 (sh_block_count h) ++ to_le_bytes 4 (sh_replica_id h)
  ++ to_le_bytes 4 (sh_format_seq h) ++ to_le_bytes 4 (sh_flags h).

Definition encode_descriptor (h : RecordDescriptorHeader) : list byte :=
  [z2b (dh_block_type h)] ++ [z2b (dh_header_size h)] ++ to_le_bytes 2 (dh_key_size h)
  ++ to_le_bytes 4 (dh_generation h) ++ to_le_bytes 4 (dh_total_size h)
  ++ to_le_bytes 4 (dh_first_payload_size h) ++ to_le_bytes 4 (dh_chunk_count h)
  ++ to_le_bytes 4 (dh_next_chunk h) ++ to_le_bytes 4 (dh_flags h)
  ++ to_le_bytes 4 (dh_user_flags h).

Definition encode_chunk (h : ValueChunkHeader) : list byte :=
  [z2b (ch_block_type h)] ++ [z2b (ch_header_size h)] ++ to_le_bytes 2 (ch_flags h)
  ++ to_le_bytes 4 (ch_owner_descriptor h) ++ to_le_bytes 4 (ch_chunk_index h)
  ++ to_le_bytes 4 (ch_payload_size h) ++ to_le_bytes 4 (ch_next_chunk h).

(** The little-endian field of [n] bytes at offset [off]. *)
Definition field (buf : list byte) (off n : nat) : Z :=
  from_le_bytes (take n (drop off buf)).

Definition decode_storage (buf : list byte) : StorageHeader := {|
  sh_block_type := field buf 0 1; sh_magic := take 3 (drop 1 buf);
  sh_version_major := field buf 4 2; sh_version_minor := field buf 6 2;
  sh_block_size := field buf 8 4; sh_block_count := field buf 12 4;
  sh_replica_id := field buf 16 4; sh_format_seq := field buf 20 4;
  sh_flags := field buf 24 4 |}.

Definition decode_descriptor (buf : list byte) : RecordDescriptorHeader := {|
  dh_block_type := field buf 0 1; dh_header_size := field buf 1 1;
  dh_key_size := field buf 2 2; dh_generation := field buf 4 4;
  dh_total_size := field buf 8 4; dh_first_payload_size := field buf 12 4;
  dh_chunk_count := field buf 16 4; dh_next_chunk := field buf 20 4;
  dh_flags := field buf 24 4; dh_user_flags := field buf 28 4 |}.

Definition decode_chunk (buf : list byte) : ValueChunkHeader := {|
  ch_block_type := field buf 0 1; ch_header_size := field buf 1 1;
  ch_flags := field buf 2 2; ch_owner_descriptor := field buf 4 4;
  ch_chunk_index := field buf 8 4; ch_payload_size := field buf 12 4;
  ch_next_chunk := field buf 16 4 |}.

Lemma length_encode_storage h : length (sh_magic h) = 3%nat → length (encode_storage h) = 28%nat.
Proof. intros. unfold encode_storage. len. Qed.
Lemma length_encode_descriptor h : length (encode_descriptor h) = 32%nat.
Proof. unfold encode_descriptor. len. Qed.
Lemma length_encode_chunk h : length (encode_chunk h) = 20%nat.
Proof. unfold encode_chunk. len. Qed.
#[export] Hint Rewrite length_encode_descriptor length_encode_chunk : len.

Lemma field_range buf off n : 0 ≤ field buf off n < 256 ^ Z.of_nat n.
Proof.
  unfold field. pose proof (from_le_bytes_range (take n (drop off buf))) as Hr.
  split; [lia|]. eapply Z.lt_le_trans; [apply Hr|].
  apply Z.pow_le_mono_r; [lia|]. len.
Qed.

Lemma field_app_l buf rest off n :
  (off + n ≤ length buf)%nat → field (buf ++ rest) off n = field buf off n.
Proof.
  intros ?. unfold field. rewrite drop_app_le by lia. rewrite take_app_le by len. done.
Qed.

Lemma decode_descriptor_wf buf : RecordDescriptorHeader_wf (decode_descriptor buf).
Proof. repeat split; apply (field_range buf). Qed.

Lemma decode_chunk_wf buf : ValueChunkHeader_wf (decode_chunk buf).
Proof. repeat split; apply (field_range buf). Qed.

Lemma decode_encode_storage h rest :
  StorageHeader_wf h → decode_storage (encode_storage h ++ rest) = h.
Proof.
  destruct h as [bt m vj vn bs bc ri fs fl]. intros (?&Hm&?&?&?&?&?&?&?). simpl in *.
  destruct m as [|m0 [|m1 [|m2 [|]]]]; try discriminate Hm.
  unfold decode_storage. f_equal.
  - apply (from_to_le_bytes 1 bt). done.
  - apply (from_to_le_bytes 2 vj). done.
  - apply (from_to_le_bytes 2 vn). done.
  - apply (from_to_le_bytes 4 bs). done.
  - apply (from_to_le_bytes 4 bc). done.
  - apply (from_to_le_bytes 4 ri). done.
  - apply (from_to_le_bytes 4 fs). done.
  - apply (from_to_le_bytes 4 fl). done.
Qed.

Lemma decode_encode_descriptor h rest :
  RecordDescriptorHeader_wf h → decode_descriptor (encode_descriptor h ++ rest) = h.
Proof.
  destruct h as [bt hs ks g ts fps cc nc fl uf]. intros (?&?&?&?&?&?&?&?&?&?). simpl in *.
  unfold decode_descriptor. f_equal.
  - apply (from_to_le_bytes 1 bt). done.
  - apply (from_to_le_bytes 1 hs). done.
  - apply (from_to_le_bytes 2 ks). done.
  - apply (from_to_le_bytes 4 g). done.
  - apply (from_to_le_bytes 4 ts). done.
  - apply (from_to_le_bytes 4 fps). done.
  - apply (from_to_le_bytes 4 cc). done.
  - apply (from_to_le_bytes 4 nc). done.
  - apply (from_to_le_bytes 4 fl). done.
  - apply (from_to_le_bytes 4 uf). done.
Qed.

Lemma decode_encode_chunk h rest :
  ValueChunkHeader_wf h → decode_chunk (encode_chunk h ++ rest) = h.
Proof.
  destruct h as [bt hs fl ow ci ps nc]. intros (?&?&?&?&?&?&?). simpl in *.
  unfold decode_chunk. f_equal.
  - apply (from_to_le_bytes 1 bt). done.
  - apply (from_to_le_bytes 1 hs). done.
  - apply (from_to_le_bytes 2 fl). done.
  - apply (from_to_le_bytes 4 ow). done.
  - apply (from_to_le_bytes 4 ci). done.
  - apply (from_to_le_bytes 4 ps). done.
  - apply (from_to_le_bytes 4 nc). done.
Qed.

(** A header field written back over a block restores its bytes. *)
Lemma to_le_bytes_field buf off n :
  (off + n ≤ length buf)%nat → to_le_bytes n (field buf off n) = take n (drop off buf).
Proof.
  intros ?. unfold field. rewrite <- (to_from_le_bytes (take n (drop off buf))) at 2.
  f_equal. len.
Qed.

(** ** Reads *)

Section Reads.
Implicit Types buf : list byte.
Context `{Profile}.

Lemma get_u8_ok buf i : 0 ≤ i < zlen buf → get_u8 buf i = Ok (field buf (Z.to_nat i) 1).
Proof.
  intros Hi. unfold get_u8. destruct (index_lt buf i Hi) as (b & Hb & ->).
  cbn [mbind outcome_bind]. unfold field. rewrite (drop_S _ b) by done. simpl.
  by rewrite Z.add_0_r.
Qed.

Lemma index_off buf i k b :
  0 ≤ i → drop (Z.to_nat i) buf !! k = Some b → index buf (i + Z.of_nat k) = Ok b.
Proof.
  intros Hi Hb. rewrite lookup_drop in Hb. apply index_ok; [lia|]. rewrite <- Hb. f_equal. lia.
Qed.

Lemma get_u16_ok buf i : 0 ≤ i → i + 2 ≤ zlen buf → get_u16 buf i = Ok (field buf (Z.to_nat i) 2).
Proof.
  intros Hi Hl. unfold get_u16, field. pose proof (index_off buf i) as Hd.
  assert (2 ≤ zlen (drop (Z.to_nat i) buf)) as Hlen by len.
  destruct (drop (Z.to_nat i) buf) as [|b0 [|b1 l]]; simpl in Hlen; try lia.
  pose proof (Hd 0%nat b0 Hi eq_refl) as H0. rewrite Z.add_0_r in H0.
  pose proof (Hd 1%nat b1 Hi eq_refl) as H1. change (Z.of_nat 1) with 1 in H1.
  by rewrite H0; cbn [mbind outcome_bind]; rewrite H1.
Qed.

Lemma get_u32_ok buf i : 0 ≤ i → i + 4 ≤ zlen buf → get_u32 buf i = Ok (field buf (Z.to_nat i) 4).
Proof.
  intros Hi Hl. unfold get_u32, field. pose proof (index_off buf i) as Hd.
  assert (4 ≤ zlen (drop (Z.to_nat i) buf)) as Hlen by len.
  destruct (drop (Z.to_nat i) buf) as [|b0 [|b1 [|b2 [|b3 l]]]]; simpl in Hlen; try lia.
  pose proof (Hd 0%nat b0 Hi eq_refl) as H0. rewrite Z.add_0_r in H0.
  pose proof (Hd 1%nat b1 Hi eq_refl) as H1. change (Z.of_nat 1) with 1 in H1.
  pose proof (Hd 2%nat b2 Hi eq_refl) as H2. change (Z.of_nat 2) with 2 in H2.
  pose proof (Hd 3%nat b3 Hi eq_refl) as H3. change (Z.of_nat 3) with 3 in H3.
  rewrite H0; cbn [mbind outcome_bind]; rewrite H1; cbn [mbind outcome_bind].
  by rewrite H2; cbn [mbind outcome_bind]; rewrite H3.
Qed.

Ltac rfield :=
  first [rewrite get_u8_ok by lia | rewrite get_u16_ok by lia | rewrite get_u32_ok by lia];
  cbn [mbind outcome_bind].

Lemma unmarshal_storage_header_ok buf :
  28 ≤ zlen buf < USIZE →
  unmarshal_storage_header buf = Ok (decode_storage buf, crc_valid buf).
Proof.
  intros Hl. unfold unmarshal_storage_header, decode_storage. rfield.
  destruct buf as [|b0 [|b1 [|b2 [|b3 l]]]] eqn:E; simpl in Hl; try lia. rewrite <- E in *.
  rewrite (index_ok buf 1 b1), (index_ok buf 2 b2), (index_ok buf 3 b3)
    by (lia || by rewrite E). cbn [mbind outcome_bind].
  assert (28 ≤ zlen buf < USIZE) as Hl' by (rewrite E; simpl; lia).
  do 7 rfield. rewrite verify_block_crc_ok by lia. by rewrite E.
Qed.

Lemma unmarshal_descriptor_header_ok buf :
  32 ≤ zlen buf < USIZE →
  unmarshal_descriptor_header buf = Ok (decode_descriptor buf, crc_valid buf).
Proof.
  intros Hl. unfold unmarshal_descriptor_header. do 10 rfield.
  by rewrite verify_block_crc_ok by lia.
Qed.

Lemma unmarshal_chunk_header_ok buf :
  20 ≤ zlen buf < USIZE →
  unmarshal_chunk_header buf = Ok (decode_chunk buf, crc_valid buf).
Proof.
  intros Hl. unfold unmarshal_chunk_header. do 7 rfield.
  by rewrite verify_block_crc_ok by lia.
Qed.

End Reads.

(** ** Writes *)

Ltac wfield :=
  first [rewrite set_index_step by len | rewrite copy_from_slice_step by len];
  cbn [mbind outcome_bind].

Lemma marshal_storage_header_ok h buf :
  length (sh_magic h) = 3%nat → 28 ≤ zlen buf →
  marshal_storage_header h buf = Ok (encode_storage h ++ drop 28 buf).
Proof.
  intros Hm Hl. destruct h as [bt m vj vn bs bc ri fs fl]. simpl in Hm.
  destruct m as [|m0 [|m1 [|m2 [|]]]]; try discriminate Hm.
  clear Hm. unfold marshal_storage_header. simpl sh_magic. rewrite <- (app_nil_l buf) at 1.
  wfield. change (index [m0; m1; m2] 0) with (Ok m0). cbn [mbind outcome_bind].
  wfield. change (index [m0; m1; m2] 1) with (Ok m1). cbn [mbind outcome_bind].
  wfield. change (index [m0; m1; m2] 2) with (Ok m2). cbn [mbind outcome_bind].
  do 8 wfield. f_equal. rewrite !drop_drop. done.
Qed.

Lemma marshal_descriptor_header_ok h buf :
  32 ≤ zlen buf → marshal_descriptor_header h buf = Ok (encode_descriptor h ++ drop 32 buf).
Proof.
  intros Hl. unfold marshal_descriptor_header. rewrite <- (app_nil_l buf) at 1.
  do 10 wfield. f_equal. rewrite !drop_drop. done.
Qed.

Lemma marshal_chunk_header_ok h buf :
  20 ≤ zlen buf → marshal_chunk_header h buf = Ok (encode_chunk h ++ drop 20 buf).
Proof.
  intros Hl. unfold marshal_chunk_header. rewrite <- (app_nil_l buf) at 1.
  do 7 wfield. f_equal. rewrite !drop_drop. done.
Qed.

Lemma crc_body_prefix (pre l : list byte) :
  (4 ≤ length l)%nat → crc_body (pre ++ l) = pre ++ crc_body l.
Proof.
  intros ?. unfold crc_body. rewrite take_app_ge by len. do 2 f_equal. len.
Qed.

(** ** Capacities, classification *)

Section Capacities.
Context `{Profile}.

Lemma first_payload_capacity_ok bs ks :
  0 ≤ ks ≤ bs - 36 → bs < U32 → first_payload_capacity bs ks = Ok (bs - 36 - ks).
Proof.
  intros ??. unfold first_payload_capacity. consts.
  rewrite u32_sub_ok by lia. cbn [mbind outcome_bind].
  rewrite u32_sub_ok by lia. cbn [mbind outcome_bind].
  rewrite u32_sub_ok by lia. f_equal. lia.
Qed.

Lemma chunk_payload_capacity_ok bs :
  24 ≤ bs < U32 → chunk_payload_capacity bs = Ok (bs - 24).
Proof.
  intros ?. unfold chunk_payload_capacity. consts.
  rewrite u32_sub_ok by lia. cbn [mbind outcome_bind].
  rewrite u32_sub_ok by lia. f_equal. lia.
Qed.

(** What [classify_block] computes, without the control flow. *)
Definition block_class (buf : list byte) : BlockClass :=
  if bool_decide (buf = []) then Free else
  let t := field buf 0 1 in
  if ((t =? 1) && (32 <=? zlen buf) || (t =? 2) && (36 <=? zlen buf)
      || (t =? 3) && (24 <=? zlen buf)) && crc_valid buf
  then Valid
  else if (t =? 0x00) || (t =? 0xFF) then Free else Garbage.

Lemma classify_block_ok buf : zlen buf < U32 → classify_block buf = Ok (block_class buf).
Proof.
  intros Hl. unfold classify_block, block_class.
  case_bool_decide as Hn; [done|]. assert (1 ≤ zlen buf) by (destruct buf; [done|simpl; lia]).
  rewrite as_u32_small by lia. rewrite get_u8_ok by lia. cbn [mbind outcome_bind]. consts.
  change (Z.to_nat 0) with O. generalize (field buf 0 1). intros t.
  change (28 + 4) with 32. change (32 + 4) with 36. change (20 + 4) with 24.
  destruct ((t =? 1) && (32 <=? zlen buf)) eqn:E1.
  { zbool. rewrite unmarshal_storage_header_ok by lia. cbn [mbind outcome_bind orb andb].
    by destruct (crc_valid buf), ((t =? 0) || (t =? 255)). }
  destruct ((t =? 2) && (36 <=? zlen buf)) eqn:E2.
  { zbool. rewrite unmarshal_descriptor_header_ok by lia. cbn [mbind outcome_bind orb andb].
    by destruct (crc_valid buf), ((t =? 0) || (t =? 255)). }
  destruct ((t =? 3) && (24 <=? zlen buf)) eqn:E3.
  { zbool. rewrite unmarshal_chunk_header_ok by lia. cbn [mbind outcome_bind orb andb].
    by destruct (crc_valid buf), ((t =? 0) || (t =? 255)). }
  cbn. by destruct ((t =? 0) || (t =? 255)).
Qed.

(** Is the first byte one of the two free markers? *)
Definition free_marked (buf : list byte) : bool :=
  (field buf 0 1 =? 0x00) || (field buf 0 1 =? 0xFF).

Lemma is_free_candidate_ok buf :
  zlen buf < U32 → is_free_candidate buf = Ok (free_marked buf).
Proof.
  intros Hl. unfold is_free_candidate. rewrite classify_block_ok by done.
  cbn [mbind outcome_bind]. unfold mret, outcome_ret, block_class, free_marked. f_equal.
  destruct (bool_decide (buf = [])) eqn:Hn.
  { apply bool_decide_eq_true in Hn as ->. reflexivity. }
  generalize (field buf 0 1). intros t.
  destruct (_ && crc_valid buf) eqn:E.
  - apply andb_true_iff in E as [E _].
    assert (t = 1 ∨ t = 2 ∨ t = 3) as Ht
      by (apply orb_true_iff in E as [E|E]; [apply orb_true_iff in E as [E|E]|]; zbool; auto).
    by destruct Ht as [->|[->| ->]].
  - by destruct ((t =? 0) || (t =? 255)).
Qed.

Lemma field_first b l : field (b :: l) 0 1 = b2z b.
Proof. unfold field. simpl. lia. Qed.

Lemma make_free_buf_marked bs pattern :
  0 < bs → free_marked (make_free_buf bs pattern) =
           bool_decide (pattern = x00 ∨ pattern = xff).
Proof.
  intros Hb. unfold free_marked, make_free_buf.
  destruct (Z.to_nat bs) as [|n] eqn:E; [lia|]. cbn [replicate]. rewrite field_first.
  case_bool_decide as Hp.
  - by destruct Hp as [-> | ->].
  - apply orb_false_iff; split; apply Z.eqb_neq; intros Hz; apply Hp;
      [left | right]; by apply b2z_inj.
Qed.

End Capacities.

(** ** Properties *)

(** C29: each header written with its [marshal_*] function into a block buffer,
    followed by [write_block_crc], is read back unchanged and with a valid CRC
    by its [unmarshal_*] function, whatever the buffer held. *)
Theorem headers_roundtrip `{Profile} sh dh ch buf :
  StorageHeader_wf sh → RecordDescriptorHeader_wf dh → ValueChunkHeader_wf ch →
  36 ≤ zlen buf < USIZE →
  (b ← marshal_storage_header sh buf; b ← write_block_crc b; unmarshal_storage_header b)
    = Ok (sh, true) ∧
  (b ← marshal_descriptor_header dh buf; b ← write_block_crc b; unmarshal_descriptor_header b)
    = Ok (dh, true) ∧
  (b ← marshal_chunk_header ch buf; b ← write_block_crc b; unmarshal_chunk_header b)
    = Ok (ch, true).
Proof.
  intros Hs Hd Hc Hl. assert (length (sh_magic sh) = 3%nat) as Hm by apply Hs.
  pose proof (length_encode_storage sh Hm) as Hls.
  split_and!; [rewrite marshal_storage_header_ok by (done || lia)
              |rewrite marshal_descriptor_header_ok by lia
              |rewrite marshal_chunk_header_ok by lia]; cbn [mbind outcome_bind];
    rewrite write_block_crc_ok by len; cbn [mbind outcome_bind];
    rewrite crc_body_prefix by len; unfold crc_body;
    [rewrite unmarshal_storage_header_ok by len
    |rewrite unmarshal_descriptor_header_ok by len
    |rewrite unmarshal_chunk_header_ok by len]; rewrite crc_valid_seal; unfold seal;
    rewrite <- app_assoc; do 2 f_equal;
    [by apply decode_encode_storage | by apply decode_encode_descriptor
    |by apply decode_encode_chunk].
Qed.

Lemma headers_roundtrip_witness :
  (b ← marshal_chunk_header {| ch_block_type := 3; ch_header_size := 20; ch_flags := 0;
     ch_owner_descriptor := 5; ch_chunk_index := 1; ch_payload_size := 9; ch_next_chunk := 7 |}
     (replicate 64 xaa);
   b ← write_block_crc (H := dev_profile) b; unmarshal_chunk_header (H := dev_profile) b)
  = Ok ({| ch_block_type := 3; ch_header_size := 20; ch_flags := 0; ch_owner_descriptor := 5;
     ch_chunk_index := 1; ch_payload_size := 9; ch_next_chunk := 7 |}, true).
Proof.
  apply (headers_roundtrip (H := dev_profile) (decode_storage (replicate 28 x00))
    (decode_descriptor []) _ (replicate 64 xaa));
    [by vm_compute|by vm_compute|by vm_compute|simpl; lia].
Defined.

(** Re-encoding the decoded header over the block it was read from restores the
    block, byte for byte. *)
Lemma marshal_decoded buf :
  36 ≤ zlen buf →
  marshal_storage_header (decode_storage buf) buf = Ok buf ∧
  marshal_descriptor_header (decode_descriptor buf) buf = Ok buf ∧
  marshal_chunk_header (decode_chunk buf) buf = Ok buf.
Proof.
  intros Hl. do 32 (destruct buf as [|?b buf]; [simpl in Hl; lia|]).
  split_and!; [rewrite marshal_storage_header_ok by (done || simpl in *; lia)
              |rewrite marshal_descriptor_header_ok by (simpl in *; lia)
              |rewrite marshal_chunk_header_ok by (simpl in *; lia)]; f_equal;
    unfold encode_storage, encode_descriptor, encode_chunk, decode_storage, decode_descriptor,
      decode_chunk; cbn [sh_block_type sh_magic sh_version_major sh_version_minor sh_block_size
      sh_block_count sh_replica_id sh_format_seq sh_flags dh_block_type dh_header_size
      dh_key_size dh_generation dh_total_size dh_first_payload_size dh_chunk_count
      dh_next_chunk dh_flags dh_user_flags ch_block_type ch_header_size ch_flags
      ch_owner_descriptor ch_chunk_index ch_payload_size ch_next_chunk];
    rewrite !to_le_bytes_field by (simpl; lia); unfold field; cbn [drop take];
    cbn [from_le_bytes]; rewrite ?Z.mul_0_r, ?Z.add_0_r, ?z2b_b2z; done.
Qed.

(** C30: the three readers are faithful: [unmarshal] never panics on a block of
    at least 36 bytes, whatever the bytes, and the header it returns, marshalled
    over the same block, restores the very bytes of the block.  So [unmarshal]
    reads every field that [marshal] writes, at the same place and in full, and
    no two different header encodings are read as the same header. *)
Theorem headers_canonical `{Profile} buf :
  36 ≤ zlen buf < USIZE →
  ('(h, _) ← unmarshal_storage_header buf; marshal_storage_header h buf) = Ok buf ∧
  ('(h, _) ← unmarshal_descriptor_header buf; marshal_descriptor_header h buf) = Ok buf ∧
  ('(h, _) ← unmarshal_chunk_header buf; marshal_chunk_header h buf) = Ok buf.
Proof.
  intros Hl. rewrite unmarshal_storage_header_ok, unmarshal_descriptor_header_ok,
    unmarshal_chunk_header_ok by lia.
  cbn [mbind outcome_bind]. apply marshal_decoded; lia.
Qed.

Lemma headers_canonical_witness :
  ('(h, _) ← unmarshal_descriptor_header (H := dev_profile) (replicate 64 xa5);
   marshal_descriptor_header h (replicate 64 xa5)) = Ok (replicate 64 xa5).
Proof.
  apply (headers_canonical (H := dev_profile) (replicate 64 xa5)).
  split; [simpl; lia|reflexivity].
Defined.

(** C31: [classify_block] never panics and decides as the format document
    prescribes: a block of a known type, long enough for its header and with a
    valid CRC is [Valid]; otherwise a first byte of 0x00 or 0xFF makes it
    [Free]; everything else is [Garbage].  In particular a block is a free
    candidate exactly when it is empty or starts with a free marker, and such
    a block is never a valid one. *)
Theorem classify_block_decides `{Profile} buf :
  zlen buf < U32 →
  classify_block buf = Ok (block_class buf) ∧
  is_free_candidate buf = Ok (free_marked buf) ∧
  (free_marked buf = true → classify_block buf ≠ Ok Valid).
Proof.
  intros Hl. rewrite classify_block_ok, is_free_candidate_ok by done.
  split_and!; [done..|]. intros Hf [= Hv].
  pose proof (is_free_candidate_ok buf Hl) as Hc. unfold is_free_candidate in Hc.
  rewrite classify_block_ok, Hv, Hf in Hc by done. discriminate Hc.
Qed.

Lemma classify_block_decides_witness :
  classify_block (H := dev_profile) [x07; x08] = Ok Garbage.
Proof.
  destruct (classify_block_decides (H := dev_profile) [x07; x08]) as [Hc _]; [simpl; lia|].
  rewrite Hc. by vm_compute.
Defined.
