(* ===== verification/Device.v ===== *)
(** * Block devices (rust/src/device.rs)

    The [BlockDevice] trait as a class of operations, two interfaces of laws
    (what any device must respect for the store not to panic, and what a
    working device promises), and the in-memory and file-backed devices that
    implement them. *)

From S2P Require Import Prelude Errors Rust.

(** ** The trait *)

Class BlockDevice (D : Type) := {
  block_size : D → Z;
  block_count : D → Z;
  (** [read_block(index, buf)] returns the buffer it filled. *)
  read_block : Z → list byte → M D (list byte);
  write_block : Z → list byte → M D unit;
  flush : M D unit;
  close : D → outcome unit;
}.

(** Two device states with the same geometry. *)
Definition same_geometry `{BlockDevice D} (d d' : D) : Prop :=
  block_size d' = block_size d ∧ block_count d' = block_count d.

(** ** What every device respects

    A device may fail any call and may return any contents, different ones at
    each read; it keeps its geometry, returns buffers of one block and does
    not panic. *)
Class SafeDevice (D : Type) `{BlockDevice D} := {
  dev_ok : D → Prop;
  dev_ok_geometry d : dev_ok d → 0 ≤ block_size d < U32 ∧ 0 ≤ block_count d < U32;
  safe_read d i buf :
    dev_ok d → 0 ≤ i < U32 → zlen buf = block_size d →
    dev_ok (read_block i buf d).1 ∧ same_geometry d (read_block i buf d).1 ∧
    returns (read_block i buf d).2 ∧
    ∀ buf', (read_block i buf d).2 = Ok buf' → zlen buf' = block_size d;
  safe_write d i buf :
    dev_ok d → 0 ≤ i < U32 → zlen buf = block_size d →
    dev_ok (write_block i buf d).1 ∧ same_geometry d (write_block i buf d).1 ∧
    returns (write_block i buf d).2;
  safe_flush d :
    dev_ok d →
    dev_ok (flush d).1 ∧ same_geometry d (flush d).1 ∧ returns (flush d).2;
}.

(** ** What a working device promises

    [dev_at d bs img]: the device holds the blocks [img], each of [bs] bytes.
    Reads return the block, writes replace it, nothing fails in range. *)
Class ReliableDevice (D : Type) `{BlockDevice D} := {
  dev_at : D → Z → list (list byte) → Prop;
  dev_at_geometry d bs img :
    dev_at d bs img →
    block_size d = bs ∧ block_count d = zlen img ∧ 0 < bs < U32 ∧ zlen img < U32 ∧
    Forall (λ b, zlen b = bs) img;
  read_ok d bs img i b buf :
    dev_at d bs img → 0 ≤ i → img !! Z.to_nat i = Some b → zlen buf = bs →
    ∃ d', read_block i buf d = (d', Ok b) ∧ dev_at d' bs img;
  write_ok d bs img i buf :
    dev_at d bs img → 0 ≤ i < zlen img → zlen buf = bs →
    ∃ d', write_block i buf d = (d', Ok tt) ∧ dev_at d' bs (<[Z.to_nat i := buf]> img);
  flush_ok d bs img :
    dev_at d bs img → ∃ d', flush d = (d', Ok tt) ∧ dev_at d' bs img;
}.

(** ** Blocks of a flat byte array *)

Definition flat_block (bs : Z) (data : list byte) (i : nat) : list byte :=
  take (Z.to_nat bs) (drop (i * Z.to_nat bs) data).

Definition flat_image (bs bc : Z) (data : list byte) : list (list byte) :=
  flat_block bs data <$> seq 0 (Z.to_nat bc).

Lemma length_flat_image bs bc data : length (flat_image bs bc data) = Z.to_nat bc.
Proof. unfold flat_image. by rewrite length_fmap, length_seq. Qed.
#[export] Hint Rewrite length_flat_image : len.

Lemma lookup_flat_image bs bc data i b :
  flat_image bs bc data !! i = Some b → (i < Z.to_nat bc)%nat ∧ b = flat_block bs data i.
Proof.
  intros H. unfold flat_image in H. rewrite list_lookup_fmap in H.
  apply fmap_Some in H as (j & Hj & ->). apply lookup_seq in Hj as [-> Hj]. auto.
Qed.

Lemma lookup_flat_image_lt bs bc data i :
  (i < Z.to_nat bc)%nat → flat_image bs bc data !! i = Some (flat_block bs data i).
Proof.
  intros Hi. unfold flat_image. rewrite list_lookup_fmap, lookup_seq_lt by done. done.
Qed.

Lemma flat_offset_nat bs i :
  0 < bs → 0 ≤ i → Z.to_nat (i * bs) = (Z.to_nat i * Z.to_nat bs)%nat.
Proof. intros. by rewrite Z2Nat.inj_mul by lia. Qed.

Section Flat.
Context (bs bc : Z) (data : list byte).
Hypotheses (Hbs : 0 < bs) (Hbc : 0 ≤ bc) (Hlen : zlen data = bs * bc).

Lemma flat_offset i : 0 ≤ i < bc → 0 ≤ i * bs ∧ i * bs + bs ≤ zlen data.
Proof. rewrite Hlen. nia. Qed.

Lemma length_flat_block i : 0 ≤ i < bc → zlen (flat_block bs data (Z.to_nat i)) = bs.
Proof.
  intros Hi. unfold flat_block. pose proof (flat_offset i Hi).
  rewrite length_take, length_drop. rewrite <- flat_offset_nat by lia. lia.
Qed.

Lemma flat_image_blocks : Forall (λ b, zlen b = bs) (flat_image bs bc data).
Proof.
  apply Forall_lookup_2. intros i b [Hi ->]%lookup_flat_image.
  rewrite <- (Nat2Z.id i). apply length_flat_block. lia.
Qed.

Lemma flat_block_splice_eq i buf :
  0 ≤ i < bc → zlen buf = bs →
  flat_block bs (splice (Z.to_nat (i * bs)) buf data) (Z.to_nat i) = buf.
Proof.
  intros Hi Hb. pose proof (flat_offset i Hi). unfold flat_block.
  rewrite <- flat_offset_nat, drop_splice by lia.
  rewrite take_app_length'; [done|lia].
Qed.

Lemma flat_block_splice_ne i j buf :
  0 ≤ i < bc → zlen buf = bs → (j < Z.to_nat bc)%nat → j ≠ Z.to_nat i →
  flat_block bs (splice (Z.to_nat (i * bs)) buf data) j = flat_block bs data j.
Proof.
  intros Hi Hb Hj Hne. pose proof (flat_offset i Hi).
  assert (zlen buf = bs) as Hb' by done. unfold flat_block, splice.
  rewrite flat_offset_nat by lia.
  assert (length buf = Z.to_nat bs) as Hlb by lia.
  set (n := Z.to_nat bs) in *. set (k := Z.to_nat i) in *.
  assert (n * k + n ≤ length data)%nat by (subst n k; nia).
  destruct (decide (j < k)%nat) as [Hlt|Hge].
  - assert (j * n + n ≤ k * n)%nat by nia.
    rewrite drop_app_le by (rewrite length_take; nia).
    rewrite take_app_le by (rewrite length_drop, length_take; nia).
    rewrite !take_drop_commute, take_take. do 2 f_equal. lia.
  - assert (k * n + n ≤ j * n)%nat by nia.
    rewrite app_assoc, drop_app_ge by (rewrite length_app, length_take; nia).
    rewrite drop_drop. do 2 f_equal. rewrite length_app, length_take. nia.
Qed.

(** Overwriting one block of the array replaces that block of the image. *)
Lemma flat_image_splice i buf :
  0 ≤ i < bc → zlen buf = bs →
  flat_image bs bc (splice (Z.to_nat (i * bs)) buf data) =
  <[Z.to_nat i := buf]> (flat_image bs bc data).
Proof.
  intros Hi Hb. apply list_eq. intros j.
  destruct (decide (j < Z.to_nat bc)%nat) as [Hj|Hj].
  - rewrite lookup_flat_image_lt by done. destruct (decide (j = Z.to_nat i)) as [->|Hne].
    + rewrite list_lookup_insert_eq by (rewrite length_flat_image; lia).
      by rewrite flat_block_splice_eq.
    + rewrite list_lookup_insert_ne, lookup_flat_image_lt by done.
      by rewrite flat_block_splice_ne.
  - by rewrite !lookup_ge_None_2 by (rewrite ?length_insert, ?length_flat_image; lia).
Qed.

End Flat.

(** ** MemDevice *)

Record MemDevice := {
  md_block_size : Z;
  md_block_count : Z;
  md_data : list byte;
}.

(** [MemDevice::new] *)
Definition MemDevice_new (bs bc : Z) : MemDevice := {|
  md_block_size := bs; md_block_count := bc;
  md_data := replicate (Z.to_nat (bs * bc)) x00 |}.

(** [usize::is_multiple_of] *)
Definition is_multiple_of (a b : Z) : bool := if b =? 0 then a =? 0 else a mod b =? 0.

(** [a / b] on unsigned integers panics on a zero divisor. *)
Definition div_or_panic (a b : Z) : outcome Z := if b =? 0 then Panic else Ok (a / b).

(** [MemDevice::from_bytes] *)
Definition MemDevice_from_bytes (bs : Z) (data : list byte) : outcome MemDevice :=
  if negb (is_multiple_of (zlen data) bs) then Err SizeMismatch else
  q ← div_or_panic (zlen data) bs;
  let bc := as_u32 q in
  mret {| md_block_size := bs; md_block_count := bc; md_data := data |}.

(** [MemDevice::bytes] *)
Definition MemDevice_bytes (d : MemDevice) : list byte := md_data d.

Definition MemDevice_read_block (i : Z) (buf : list byte) : M MemDevice (list byte) := λ d,
  if md_block_count d <=? i then (d, Err InvalidBlock) else
  let off := i * md_block_size d in
  (d, src ← slice (md_data d) off (off + md_block_size d);
      copy_from_slice buf 0 (md_block_size d) src).

Definition MemDevice_write_block (i : Z) (buf : list byte) : M MemDevice unit := λ d,
  if md_block_count d <=? i then (d, Err InvalidBlock) else
  let off := i * md_block_size d in
  match src ← slice buf 0 (md_block_size d);
        copy_from_slice (md_data d) off (off + md_block_size d) src with
  | Ok data => ({| md_block_size := md_block_size d; md_block_count := md_block_count d;
                   md_data := data |}, Ok tt)
  | Err e => (d, Err e)
  | Panic => (d, Panic)
  | Diverge => (d, Diverge)
  end.

#[export] Instance MemDevice_BlockDevice : BlockDevice MemDevice := {|
  block_size := md_block_size;
  block_count := md_block_count;
  read_block := MemDevice_read_block;
  write_block := MemDevice_write_block;
  flush := mret tt;
  close := λ _, Ok tt |}.

(** The array holds exactly the blocks of the geometry. *)
Definition MemDevice_wf (d : MemDevice) : Prop :=
  0 < md_block_size d < U32 ∧ 0 ≤ md_block_count d < U32 ∧
  zlen (md_data d) = md_block_size d * md_block_count d.

Definition MemDevice_image (d : MemDevice) : list (list byte) :=
  flat_image (md_block_size d) (md_block_count d) (md_data d).

Lemma MemDevice_read_in d i buf :
  MemDevice_wf d → 0 ≤ i < md_block_count d → zlen buf = md_block_size d →
  MemDevice_read_block i buf d =
  (d, Ok (flat_block (md_block_size d) (md_data d) (Z.to_nat i))).
Proof.
  intros (Hb & Hc & Hl) Hi Hbuf. unfold MemDevice_read_block. if_false.
  pose proof (flat_offset _ _ _ (proj1 Hb) Hl i Hi).
  rewrite slice_ok by lia. cbn [mbind outcome_bind].
  replace (i * md_block_size d + md_block_size d - i * md_block_size d)
    with (md_block_size d) by lia.
  rewrite flat_offset_nat by lia. fold (flat_block (md_block_size d) (md_data d) (Z.to_nat i)).
  pose proof (length_flat_block _ _ _ (proj1 Hb) Hl i Hi) as Hlb.
  rewrite copy_from_slice_ok by lia. do 2 f_equal. unfold splice. simpl take.
  rewrite drop_ge by lia. by rewrite app_nil_r.
Qed.

Lemma MemDevice_write_in d i buf :
  MemDevice_wf d → 0 ≤ i < md_block_count d → zlen buf = md_block_size d →
  MemDevice_write_block i buf d =
  ({| md_block_size := md_block_size d; md_block_count := md_block_count d;
      md_data := splice (Z.to_nat (i * md_block_size d)) buf (md_data d) |}, Ok tt).
Proof.
  intros (Hb & Hc & Hl) Hi Hbuf. unfold MemDevice_write_block. if_false.
  pose proof (flat_offset _ _ _ (proj1 Hb) Hl i Hi).
  rewrite slice_ok by lia. cbn [mbind outcome_bind]. rewrite drop_0, take_ge by lia.
  by rewrite copy_from_slice_ok by lia.
Qed.

Lemma MemDevice_out d i buf :
  md_block_count d ≤ i →
  MemDevice_read_block i buf d = (d, Err InvalidBlock) ∧
  MemDevice_write_block i buf d = (d, Err InvalidBlock).
Proof.
  intros Hi. unfold MemDevice_read_block, MemDevice_write_block.
  by rewrite (proj2 (Z.leb_le _ _) Hi).
Qed.

Lemma MemDevice_splice_wf d i buf :
  MemDevice_wf d → 0 ≤ i < md_block_count d → zlen buf = md_block_size d →
  MemDevice_wf {| md_block_size := md_block_size d; md_block_count := md_block_count d;
                  md_data := splice (Z.to_nat (i * md_block_size d)) buf (md_data d) |}.
Proof.
  intros (Hb & Hc & Hl) Hi Hbuf. split_and!; simpl; try lia.
  pose proof (flat_offset _ _ _ (proj1 Hb) Hl i Hi). rewrite splice_length by lia. done.
Qed.

#[export] Program Instance MemDevice_reliable : ReliableDevice MemDevice := {|
  dev_at d bs img := MemDevice_wf d ∧ md_block_size d = bs ∧ MemDevice_image d = img |}.
Next Obligation.
  intros d bs img (Hwf & <- & <-). destruct (Hwf) as (Hb & Hc & Hl).
  split_and!; try done; try lia.
  - simpl. unfold MemDevice_image. len.
  - unfold MemDevice_image. len.
  - apply flat_image_blocks; lia.
Qed.
Next Obligation.
  intros d bs img i b buf (Hwf & <- & <-) Hi Hb Hbuf. exists d. split; [|done].
  apply lookup_flat_image in Hb as [Hb ->]. apply MemDevice_read_in; [done|lia|done].
Qed.
Next Obligation.
  intros d bs img i buf (Hwf & <- & <-) Hi Hbuf.
  assert (0 ≤ i < md_block_count d) as Hi' by (unfold MemDevice_image in Hi; len).
  eexists. split; [by apply MemDevice_write_in|]. split_and!; [|done|].
  - by apply MemDevice_splice_wf.
  - destruct Hwf as (Hb & Hc & Hl). unfold MemDevice_image. simpl.
    apply flat_image_splice; lia.
Qed.
Next Obligation. intros d bs img H. by exists d. Qed.

#[export] Program Instance MemDevice_safe : SafeDevice MemDevice := {| dev_ok := MemDevice_wf |}.
Next Obligation. intros d (Hb & Hc & Hl). simpl. lia. Qed.
Next Obligation.
  intros d i buf Hwf Hi Hbuf. simpl in *.
  destruct (decide (i < md_block_count d)).
  - rewrite MemDevice_read_in by (done || lia). split_and!; try done.
    intros buf' [= <-]. destruct Hwf as (Hb & Hc & Hl).
    eapply length_flat_block; [lia|done|lia].
  - destruct (MemDevice_out d i buf ltac:(lia)) as [-> _]. by split_and!.
Qed.
Next Obligation.
  intros d i buf Hwf Hi Hbuf. simpl in *.
  destruct (decide (i < md_block_count d)).
  - rewrite MemDevice_write_in by (done || lia). split_and!; try done.
    apply MemDevice_splice_wf; [done|lia|done].
  - destruct (MemDevice_out d i buf ltac:(lia)) as [_ ->]. by split_and!.
Qed.
Next Obligation. intros d Hwf. by split_and!. Qed.

(** ** FileDevice *)

(** An open [std::fs::File]: the contents of the file and the cursor. *)
Record File := { f_data : list byte; f_pos : Z }.

(** The file system: contents by path. *)
Abbreviation FileSystem := (gmap string (list byte)).

Definition eof_error : IoError :=
  {| io_kind := UnexpectedEof; io_message := "failed to fill whole buffer" |}.
Definition not_found_error : IoError :=
  {| io_kind := NotFound; io_message := "No such file or directory (os error 2)" |}.

(** [file.seek(SeekFrom::Start(off))] *)
Definition file_seek (off : Z) : M File unit :=
  modify (λ f, {| f_data := f_data f; f_pos := off |}).

(** [file.read_exact(buf)] for a buffer of [n] bytes. *)
Definition file_read_exact (n : Z) : M File (list byte) := λ f,
  if f_pos f + n <=? zlen (f_data f)
  then ({| f_data := f_data f; f_pos := f_pos f + n |},
        Ok (take (Z.to_nat n) (drop (Z.to_nat (f_pos f)) (f_data f))))
  else ({| f_data := f_data f; f_pos := Z.max (f_pos f) (zlen (f_data f)) |},
        Err (from_io_error eof_error)).

(** [file.write_all(bytes)]: writing past the end fills the gap with zeros. *)
Definition file_write_all (bytes : list byte) : M File unit := λ f,
  let pos := Z.to_nat (f_pos f) in
  let data := f_data f ++ replicate (pos + length bytes - length (f_data f)) x00 in
  ({| f_data := splice pos bytes data; f_pos := f_pos f + zlen bytes |}, Ok tt).

Record FileDevice := {
  fd_file : File;
  fd_block_size : Z;
  fd_block_count : Z;
}.

(** [FileDevice::open]; the remainder by a zero block size panics. *)
Definition FileDevice_open (fs : FileSystem) (path : string) (bs : Z) : outcome FileDevice :=
  match fs !! path with
  | None => Err (from_io_error not_found_error)
  | Some data =>
      let size := zlen data in
      if bs =? 0 then Panic else
      if negb (size mod bs =? 0) then Err SizeMismatch else
      q ← div_or_panic size bs;
      mret {| fd_file := {| f_data := data; f_pos := 0 |};
              fd_block_size := bs; fd_block_count := as_u32 q |}
  end.

(** [FileDevice::create]: the file is truncated and then extended with zeros. *)
Definition FileDevice_create (fs : FileSystem) (path : string) (bs bc : Z) :
    FileSystem * outcome FileDevice :=
  let data := replicate (Z.to_nat (bs * bc)) x00 in
  (<[path := data]> fs,
   Ok {| fd_file := {| f_data := data; f_pos := 0 |};
         fd_block_size := bs; fd_block_count := bc |}).

Definition on_file {A} (m : M File A) : M FileDevice A :=
  zoom fd_file (λ f d, {| fd_file := f; fd_block_size := fd_block_size d;
                          fd_block_count := fd_block_count d |}) m.

Definition FileDevice_read_block (i : Z) (buf : list byte) : M FileDevice (list byte) :=
  bs ← gets fd_block_size;
  let off := i * bs in
  on_file (file_seek off);;
  head ← lift (slice buf 0 bs);
  bytes ← on_file (file_read_exact (zlen head));
  lift (copy_from_slice buf 0 bs bytes).

Definition FileDevice_write_block (i : Z) (buf : list byte) : M FileDevice unit :=
  bs ← gets fd_block_size;
  let off := i * bs in
  on_file (file_seek off);;
  bytes ← lift (slice buf 0 bs);
  on_file (file_write_all bytes).

#[export] Instance FileDevice_BlockDevice : BlockDevice FileDevice := {|
  block_size := fd_block_size;
  block_count := fd_block_count;
  read_block := FileDevice_read_block;
  write_block := FileDevice_write_block;
  flush := mret tt;
  close := λ _, Ok tt |}.

(** The device with its cursor moved, and with new contents. *)
Definition fd_with (d : FileDevice) (data : list byte) (pos : Z) : FileDevice :=
  {| fd_file := {| f_data := data; f_pos := pos |};
     fd_block_size := fd_block_size d; fd_block_count := fd_block_count d |}.

Lemma FileDevice_read_eq d i buf :
  0 ≤ i → 0 ≤ fd_block_size d → zlen buf = fd_block_size d →
  let off := i * fd_block_size d in
  let data := f_data (fd_file d) in
  FileDevice_read_block i buf d =
  if off + fd_block_size d <=? zlen data
  then (fd_with d data (off + fd_block_size d),
        Ok (take (Z.to_nat (fd_block_size d)) (drop (Z.to_nat off) data)))
  else (fd_with d data (Z.max off (zlen data)), Err (from_io_error eof_error)).
Proof.
  intros Hi Hb Hbuf off data. unfold FileDevice_read_block.
  unfold mbind at 1, M_bind, gets. unfold mbind at 1, M_bind, on_file, zoom, file_seek, modify.
  unfold mbind at 1, M_bind, lift. rewrite slice_ok by lia.
  unfold mbind at 1, M_bind, file_read_exact. cbn [fd_file f_data f_pos].
  rewrite drop_0, take_ge, Hbuf by lia. fold off. fold data.
  destruct (off + fd_block_size d <=? zlen data) eqn:E; [|done]. zbool.
  assert (0 ≤ off) by (unfold off; nia).
  rewrite copy_from_slice_ok by (rewrite ?length_take, ?length_drop; lia).
  unfold fd_with. do 2 f_equal. unfold splice. simpl take.
  rewrite (drop_ge buf) by (rewrite length_take, length_drop; lia). by rewrite app_nil_r.
Qed.

Lemma FileDevice_write_eq d i buf :
  0 ≤ i → 0 ≤ fd_block_size d → zlen buf = fd_block_size d →
  ∃ data pos, FileDevice_write_block i buf d = (fd_with d data pos, Ok tt) ∧
    (i * fd_block_size d + fd_block_size d ≤ zlen (f_data (fd_file d)) →
     data = splice (Z.to_nat (i * fd_block_size d)) buf (f_data (fd_file d))).
Proof.
  intros Hi Hb Hbuf. unfold FileDevice_write_block.
  unfold mbind at 1, M_bind, gets. unfold mbind at 1, M_bind, on_file, zoom, file_seek, modify.
  unfold mbind at 1, M_bind, lift. rewrite slice_ok by lia. rewrite drop_0, take_ge by lia.
  unfold file_write_all. cbn [fd_file f_data f_pos].
  do 2 eexists. split; [reflexivity|]. intros Hin.
  assert (0 ≤ i * fd_block_size d) by nia.
  replace (_ + _ - _)%nat with O by lia. simpl replicate. by rewrite app_nil_r.
Qed.

Definition FileDevice_wf (d : FileDevice) : Prop :=
  0 < fd_block_size d < U32 ∧ 0 ≤ fd_block_count d < U32 ∧
  zlen (f_data (fd_file d)) = fd_block_size d * fd_block_count d.

Definition FileDevice_image (d : FileDevice) : list (list byte) :=
  flat_image (fd_block_size d) (fd_block_count d) (f_data (fd_file d)).

#[export] Program Instance FileDevice_reliable : ReliableDevice FileDevice := {|
  dev_at d bs img := FileDevice_wf d ∧ fd_block_size d = bs ∧ FileDevice_image d = img |}.
Next Obligation.
  intros d bs img (Hwf & <- & <-). destruct (Hwf) as (Hb & Hc & Hl).
  split_and!; try done; try lia.
  - simpl. unfold FileDevice_image. len.
  - unfold FileDevice_image. len.
  - apply flat_image_blocks; lia.
Qed.
Next Obligation.
  intros d bs img i b buf (Hwf & <- & <-) Hi Hb Hbuf. destruct (Hwf) as (Hs & Hc & Hl).
  apply lookup_flat_image in Hb as [Hb ->].
  pose proof (flat_offset _ _ _ (proj1 Hs) Hl i ltac:(lia)).
  exists (fd_with d (f_data (fd_file d)) (i * fd_block_size d + fd_block_size d)).
  split; [|done]. simpl. rewrite FileDevice_read_eq by lia. if_true.
  unfold flat_block. by rewrite flat_offset_nat by lia.
Qed.
Next Obligation.
  intros d bs img i buf (Hwf & <- & <-) Hi Hbuf. destruct (Hwf) as (Hs & Hc & Hl).
  assert (0 ≤ i < fd_block_count d) as Hi' by (unfold FileDevice_image in Hi; len).
  pose proof (flat_offset _ _ _ (proj1 Hs) Hl i ltac:(lia)) as Ho.
  destruct (FileDevice_write_eq d i buf) as (data & pos & Hw & Hd); [lia..|].
  exists (fd_with d data pos). split; [done|]. rewrite (Hd (proj2 Ho)).
  split_and!; [|done|].
  - split_and!; simpl; try lia. by rewrite splice_length by lia.
  - unfold FileDevice_image. simpl. apply flat_image_splice; lia.
Qed.
Next Obligation. intros d bs img H. by exists d. Qed.

#[export] Program Instance FileDevice_safe : SafeDevice FileDevice := {|
  dev_ok d := 0 ≤ fd_block_size d < U32 ∧ 0 ≤ fd_block_count d < U32 |}.
Next Obligation. done. Qed.
Next Obligation.
  intros d i buf Hok Hi Hbuf. simpl in *. rewrite FileDevice_read_eq by lia.
  destruct (_ <=? _) eqn:E; zbool; simpl; split_and!; try done; try lia.
  intros buf' [= <-]. rewrite length_take, length_drop. nia.
Qed.
Next Obligation.
  intros d i buf Hok Hi Hbuf. simpl in *.
  destruct (FileDevice_write_eq d i buf) as (data & pos & -> & _); [lia..|].
  simpl. split_and!; done || lia.
Qed.
Next Obligation. intros d Hok. simpl in *. split_and!; done || lia. Qed.

(** ** Creation and round trips *)

Lemma MemDevice_new_wf bs bc :
  0 < bs < U32 → 0 ≤ bc < U32 → MemDevice_wf (MemDevice_new bs bc).
Proof. intros. split_and!; simpl; try lia. rewrite length_replicate. nia. Qed.

Lemma MemDevice_new_image bs bc :
  0 < bs < U32 → 0 ≤ bc < U32 →
  MemDevice_image (MemDevice_new bs bc) =
  replicate (Z.to_nat bc) (replicate (Z.to_nat bs) x00).
Proof.
  intros Hb Hc. apply list_eq. intros i. unfold MemDevice_image. simpl.
  destruct (decide (i < Z.to_nat bc)%nat) as [Hi|Hi].
  - rewrite lookup_flat_image_lt, lookup_replicate_2 by lia. f_equal.
    unfold flat_block. rewrite drop_replicate, take_replicate. f_equal.
    rewrite Z2Nat.inj_mul by lia. nia.
  - by rewrite !lookup_ge_None_2 by len.
Qed.

Lemma MemDevice_new_at bs bc :
  0 < bs < U32 → 0 ≤ bc < U32 →
  dev_at (MemDevice_new bs bc) bs (replicate (Z.to_nat bc) (replicate (Z.to_nat bs) x00)).
Proof.
  intros Hb Hc. split_and!; [by apply MemDevice_new_wf|done|by apply MemDevice_new_image].
Qed.

(** ** Properties *)

(** The two devices hold the same bytes under the same geometry. *)
Definition same_contents (d : MemDevice) (f : FileDevice) : Prop :=
  MemDevice_wf d ∧ fd_block_size f = md_block_size d ∧ fd_block_count f = md_block_count d ∧
  f_data (fd_file f) = md_data d.

(** C33: [MemDevice] and [FileDevice] are interchangeable: holding the same bytes,
    an in-range [read_block] or [write_block] gives the same result on both and
    leaves them holding the same bytes, wherever the file's cursor was. *)
Theorem mem_file_equivalent d f i buf :
  same_contents d f → 0 ≤ i < md_block_count d → zlen buf = md_block_size d →
  (read_block i buf f).2 = (read_block i buf d).2 ∧
  same_contents (read_block i buf d).1 (read_block i buf f).1 ∧
  (write_block i buf f).2 = (write_block i buf d).2 ∧
  same_contents (write_block i buf d).1 (write_block i buf f).1.
Proof.
  intros (Hwf & Hbs & Hbc & Hdata) Hi Hbuf. pose proof Hwf as (Hs & Hc & Hl).
  pose proof (flat_offset _ _ _ (proj1 Hs) Hl i Hi) as Ho. simpl.
  rewrite MemDevice_read_in, MemDevice_write_in, FileDevice_read_eq by (done || lia).
  destruct (FileDevice_write_eq f i buf) as (data & pos & -> & Hd); [lia..|].
  rewrite Hbs, Hdata in *. rewrite (proj2 (Z.leb_le _ _)) by lia.
  rewrite (Hd ltac:(lia)). pose proof (MemDevice_splice_wf d i buf Hwf Hi Hbuf) as Hwf'.
  unfold flat_block. rewrite flat_offset_nat in * by lia. simpl.
  split_and!; [done|by split_and!|done|by split].
Qed.

Lemma mem_file_equivalent_witness :
  (read_block 1 (replicate 2 x00) {| fd_file := {| f_data := [x01; x02; x03; x04]; f_pos := 3 |};
     fd_block_size := 2; fd_block_count := 2 |}).2 = Ok [x03; x04].
Proof.
  pose proof (mem_file_equivalent
    {| md_block_size := 2; md_block_count := 2; md_data := [x01; x02; x03; x04] |}
    {| fd_file := {| f_data := [x01; x02; x03; x04]; f_pos := 3 |};
       fd_block_size := 2; fd_block_count := 2 |} 1 (replicate 2 x00)) as Ht.
  destruct Ht as [Ht _]; [by repeat split|simpl; lia|done|]. rewrite Ht. reflexivity.
Defined.

(** C34: creating a device and opening its bytes again agree: a device made by
    [MemDevice::new], or by [FileDevice::create] and then [FileDevice::open] on
    the same path, has the requested geometry and zeroed blocks, and
    [MemDevice::from_bytes] of a device's bytes is that device.  Bytes that are
    not a whole number of blocks are refused with [SizeMismatch]. *)
Theorem device_creation bs bc fs path :
  0 < bs < U32 → 0 ≤ bc < U32 →
  let d := MemDevice_new bs bc in
  let '(fs', r) := FileDevice_create fs path bs bc in
  MemDevice_from_bytes bs (MemDevice_bytes d) = Ok d ∧
  FileDevice_open fs' path bs = r ∧ (∃ f, r = Ok f ∧ same_contents d f) ∧
  (∀ data, zlen data mod bs ≠ 0 →
    MemDevice_from_bytes bs data = Err SizeMismatch ∧
    FileDevice_open (<[path := data]> fs) path bs = Err SizeMismatch).
Proof.
  intros Hb Hc d. unfold FileDevice_create, FileDevice_open, MemDevice_from_bytes, is_multiple_of,
    div_or_panic.
  rewrite (proj2 (Z.eqb_neq bs 0)), !lookup_insert_eq by lia.
  assert (zlen (replicate (Z.to_nat (bs * bc)) x00) = bs * bc) as Hl by (rewrite length_replicate; nia).
  assert (bs * bc mod bs = 0) as Hm by (rewrite Z.mul_comm; apply Z.mod_mul; lia).
  assert (bs * bc / bs = bc) as Hq by (rewrite Z.mul_comm; apply Z.div_mul; lia).
  simpl MemDevice_bytes. rewrite Hl, Hm, Hq. cbn [Z.eqb negb mbind outcome_bind].
  rewrite as_u32_small by lia. split_and!; [done|done| |].
  - eexists. split; [done|]. by split; [apply MemDevice_new_wf|].
  - intros data Hne. rewrite !lookup_insert_eq. by rewrite (proj2 (Z.eqb_neq _ 0)).
Qed.

Lemma device_creation_witness :
  MemDevice_from_bytes 4 (MemDevice_bytes (MemDevice_new 4 3)) = Ok (MemDevice_new 4 3).
Proof. apply (device_creation 4 3 ∅ "store.bin"); lia. Defined.

(** C37: out of range the two devices differ.  [MemDevice] refuses the index with
    [InvalidBlock] and changes nothing; [FileDevice] does not check it: a read
    fails at the end of the file, and a write succeeds and makes the file longer
    than its geometry says. *)
Theorem out_of_range_access d f i buf :
  same_contents d f → md_block_count d ≤ i → zlen buf = md_block_size d →
  read_block i buf d = (d, Err InvalidBlock) ∧ write_block i buf d = (d, Err InvalidBlock) ∧
  (read_block i buf f).2 = Err (from_io_error eof_error) ∧
  (write_block i buf f).2 = Ok tt ∧
  zlen (f_data (fd_file (write_block i buf f).1)) = (i + 1) * md_block_size d.
Proof.
  intros (Hwf & Hbs & Hbc & Hdata) Hi Hbuf. pose proof Hwf as (Hs & Hc & Hl). simpl.
  destruct (MemDevice_out d i buf Hi) as [-> ->]. split_and!; [done|done| |..].
  - rewrite FileDevice_read_eq by lia. rewrite Hbs, Hdata. by rewrite (proj2 (Z.leb_gt _ _)) by nia.
  - unfold FileDevice_write_block. rewrite bind_gets. unfold mbind, M_bind, on_file, zoom, lift.
    simpl. rewrite slice_ok by lia. done.
  - unfold FileDevice_write_block. rewrite bind_gets. unfold mbind, M_bind, on_file, zoom, lift.
    simpl. rewrite slice_ok by lia. rewrite drop_0, take_ge, Hbs, Hdata by lia. simpl.
    unfold splice. rewrite !length_app, length_take, length_drop, length_app, length_replicate. nia.
Qed.

Lemma out_of_range_access_witness :
  (write_block 2 [x07; x08] {| fd_file := {| f_data := [x01; x02; x03; x04]; f_pos := 0 |};
     fd_block_size := 2; fd_block_count := 2 |}).2 = Ok tt.
Proof.
  apply (out_of_range_access
    {| md_block_size := 2; md_block_count := 2; md_data := [x01; x02; x03; x04] |});
    [by repeat split|simpl; lia|done].
Defined.
