(* ===== verification/Record.v ===== *)
(** * Records (rust/src/record.rs)

    A record is a descriptor block and a chain of value chunk blocks.  This
    file models reading and validating one, states what a complete record is,
    and proves that the reader accepts exactly the complete records, without
    panicking and in bounded time, on any device. *)

From S2P Require Import Prelude Errors Rust Format Crc Block Device.

(** ** The code *)

Record CompleteRecord := {
  cr_key : list byte;
  cr_generation : Z;
  cr_descriptor_block : Z;
  cr_header : RecordDescriptorHeader;
  cr_chunk_blocks : list Z;
  cr_value : list byte;
}.

#[export] Instance CompleteRecord_eq_dec : EqDecision CompleteRecord.
Proof. solve_decision. Defined.

(** The capacities reserved for the value and the chunk list, bounded by the
    device and not by the (untrusted) header. *)
Definition value_capacity (hdr : RecordDescriptorHeader) (bs bc : Z) : Z :=
  Z.min (dh_total_size hdr) (bs * bc).
Definition chunks_capacity (hdr : RecordDescriptorHeader) (bc : Z) : Z :=
  Z.min (Z.max 0 (dh_chunk_count hdr - 1)) bc.

Section Code.
Context `{Profile} `{BlockDevice D}.

(** The loop over the chunk chain.  [None] is an incomplete or corrupt record;
    otherwise the expected index, the value and the chunk list at [break]. *)
Fixpoint read_chunks (fuel : nat) (bs descriptor_block next expected_idx : Z)
    (visited : gset Z) (chunk_buf value : list byte) (chunk_blocks : list Z) :
    M D (option (Z * list byte * list Z)) :=
  match fuel with
  | O => lift Diverge
  | S fuel =>
    if next =? NULL_BLOCK_INDEX then mret (Some (expected_idx, value, chunk_blocks)) else
    bc ← gets block_count;
    if (bc <=? next) || bool_decide (next ∈ visited) then mret None else
    let visited := {[next]} ∪ visited in
    chunk_buf ← read_block next chunk_buf;
    t ← lift (get_u8 chunk_buf 0);
    if negb (t =? BLOCK_TYPE_VALUE_CHUNK) then mret None else
    '(ch, ok) ← lift (unmarshal_chunk_header chunk_buf);
    if negb ok then mret None else
    if negb (ch_header_size ch =? VALUE_CHUNK_HEADER_SIZE) then mret None else
    if negb (ch_owner_descriptor ch =? descriptor_block) then mret None else
    if negb (ch_chunk_index ch =? expected_idx) then mret None else
    cap ← lift (chunk_payload_capacity bs);
    if cap <? ch_payload_size ch then mret None else
    let pstart := VALUE_CHUNK_HEADER_SIZE in
    let pend := pstart + ch_payload_size ch in
    payload ← lift (slice chunk_buf pstart pend);
    expected_idx' ← lift (u32_add expected_idx 1);
    read_chunks fuel bs descriptor_block (ch_next_chunk ch) expected_idx' visited chunk_buf
      (value ++ payload) (chunk_blocks ++ [next])
  end.

(** Enough iterations for every block of the device and the final test. *)
Definition chunk_fuel (bc : Z) : nat := S (Z.to_nat bc).

(** The second half of [verify_and_read_record]: the descriptor has been
    checked, its key and first payload read; follow the chain. *)
Definition finish_record (bs descriptor_block : Z) (hdr : RecordDescriptorHeader)
    (key value : list byte) : M D (option CompleteRecord) :=
  let rec := λ value chunk_blocks, {|
    cr_key := key; cr_generation := dh_generation hdr;
    cr_descriptor_block := descriptor_block; cr_header := hdr;
    cr_chunk_blocks := chunk_blocks; cr_value := value |} in
  if dh_chunk_count hdr =? 1 then
    if negb (dh_total_size hdr =? dh_first_payload_size hdr)
       || negb (dh_next_chunk hdr =? NULL_BLOCK_INDEX)
    then mret None else mret (Some (rec value []))
  else
  if dh_next_chunk hdr =? NULL_BLOCK_INDEX then mret None else
  bc ← gets block_count;
  r ← read_chunks (chunk_fuel bc) bs descriptor_block (dh_next_chunk hdr) 1
        {[descriptor_block]} (replicate (Z.to_nat bs) x00) value [];
  match r with
  | None => mret None
  | Some (expected_idx, value, chunk_blocks) =>
      if negb (expected_idx =? dh_chunk_count hdr) then mret None else
      if negb (as_u32 (zlen value) =? dh_total_size hdr) then mret None else
      mret (Some (rec value chunk_blocks))
  end.

Definition verify_and_read_record (descriptor_block : Z) : M D (option CompleteRecord) :=
  bs ← gets block_size;
  buf ← read_block descriptor_block (replicate (Z.to_nat bs) x00);
  t ← lift (get_u8 buf 0);
  if negb (t =? BLOCK_TYPE_RECORD_DESCRIPTOR) then mret None else
  '(hdr, ok) ← lift (unmarshal_descriptor_header buf);
  if negb ok then mret None else
  if negb (dh_header_size hdr =? RECORD_DESCRIPTOR_HEADER_SIZE) then mret None else
  room ← lift (a ← u32_sub bs RECORD_DESCRIPTOR_HEADER_SIZE; u32_sub a BLOCK_CRC_SIZE);
  if room <? dh_key_size hdr then mret None else
  first_payload_cap ← lift (first_payload_capacity bs (dh_key_size hdr));
  if first_payload_cap <? dh_first_payload_size hdr then mret None else
  if dh_chunk_count hdr =? 0 then mret None else
  let key_start := RECORD_DESCRIPTOR_HEADER_SIZE in
  let key_end := key_start + dh_key_size hdr in
  key ← lift (slice buf key_start key_end);
  let payload_end := key_end + dh_first_payload_size hdr in
  value ← lift (slice buf key_end payload_end);
  finish_record bs descriptor_block hdr key value.

(** [needed_blocks(key, value, block_size)] *)
Definition needed_blocks (key value : list byte) (bs : Z) : outcome Z :=
  first_cap ← first_payload_capacity bs (as_u32 (zlen key));
  chunk_cap ← chunk_payload_capacity bs;
  let vlen := as_u32 (zlen value) in
  if vlen <=? first_cap then mret 1 else
  remaining ← u32_sub vlen first_cap;
  extra ← u32_div_ceil remaining chunk_cap;
  u32_add 1 extra.

End Code.

(** ** What a complete record is *)

Abbreviation image := (list (list byte)).

(** The block at index [i] of an image. *)
Definition block_at (img : image) (i : Z) : option (list byte) :=
  if i <? 0 then None else img !! Z.to_nat i.

(** A block that is a valid chunk number [idx] of the record at [owner]. *)
Definition chunk_ok (bs owner idx : Z) (b : list byte) : Prop :=
  let ch := decode_chunk b in
  field b 0 1 = BLOCK_TYPE_VALUE_CHUNK ∧ crc_valid b = true ∧
  ch_header_size ch = VALUE_CHUNK_HEADER_SIZE ∧ ch_owner_descriptor ch = owner ∧
  ch_chunk_index ch = idx ∧ ch_payload_size ch ≤ bs - 24.

Definition chunk_payload (b : list byte) : list byte :=
  take (Z.to_nat (ch_payload_size (decode_chunk b))) (drop 20 b).

(** [chain bs img owner idx next blocks payload]: following [next] links from
    chunk number [idx] visits exactly [blocks] and yields [payload]. *)
Inductive chain (bs : Z) (img : image) (owner : Z) : Z → Z → list Z → list byte → Prop :=
| chain_end idx : chain bs img owner idx NULL_BLOCK_INDEX [] []
| chain_link idx next b blocks payload :
    next ≠ NULL_BLOCK_INDEX →
    block_at img next = Some b →
    chunk_ok bs owner idx b →
    chain bs img owner (idx + 1) (ch_next_chunk (decode_chunk b)) blocks payload →
    chain bs img owner idx next (next :: blocks) (chunk_payload b ++ payload).

(** A block that is a valid descriptor. *)
Definition descriptor_ok (bs : Z) (b : list byte) : Prop :=
  let h := decode_descriptor b in
  field b 0 1 = BLOCK_TYPE_RECORD_DESCRIPTOR ∧ crc_valid b = true ∧
  dh_header_size h = RECORD_DESCRIPTOR_HEADER_SIZE ∧ dh_key_size h ≤ bs - 36 ∧
  dh_first_payload_size h ≤ bs - 36 - dh_key_size h ∧ dh_chunk_count h ≠ 0.

Definition descriptor_key (b : list byte) : list byte :=
  take (Z.to_nat (dh_key_size (decode_descriptor b))) (drop 32 b).
Definition descriptor_payload (b : list byte) : list byte :=
  take (Z.to_nat (dh_first_payload_size (decode_descriptor b)))
    (drop (Z.to_nat (32 + dh_key_size (decode_descriptor b))) b).

(** The record at block [d] is complete and is [rec]. *)
Definition complete (bs : Z) (img : image) (d : Z) (rec : CompleteRecord) : Prop :=
  ∃ b blocks payload,
    block_at img d = Some b ∧ descriptor_ok bs b ∧
    chain bs img d 1 (dh_next_chunk (decode_descriptor b)) blocks payload ∧
    dh_chunk_count (decode_descriptor b) = 1 + zlen blocks ∧
    dh_total_size (decode_descriptor b) = as_u32 (zlen (descriptor_payload b ++ payload)) ∧
    rec = {| cr_key := descriptor_key b;
             cr_generation := dh_generation (decode_descriptor b);
             cr_descriptor_block := d;
             cr_header := decode_descriptor b;
             cr_chunk_blocks := blocks;
             cr_value := descriptor_payload b ++ payload |}.

(** ** Structure of complete records *)

Lemma block_at_Some img i b :
  block_at img i = Some b ↔ 0 ≤ i ∧ img !! Z.to_nat i = Some b.
Proof.
  unfold block_at. destruct (i <? 0) eqn:E; zbool; split; intros; destr; try done; lia.
Qed.

Lemma block_at_range img i b : block_at img i = Some b → 0 ≤ i < zlen img.
Proof. rewrite block_at_Some. intros [? H]. split; [done|]. by eapply lookup_Some_Z. Qed.

Lemma block_at_lt img i : 0 ≤ i < zlen img → ∃ b, block_at img i = Some b.
Proof.
  intros Hi. destruct (lookup_lt_Z img i Hi) as [b Hb]. exists b.
  apply block_at_Some. split; [lia|done].
Qed.

Lemma block_at_insert img i j b :
  0 ≤ i < zlen img →
  block_at (<[Z.to_nat i := b]> img) j = if decide (i = j) then Some b else block_at img j.
Proof.
  intros Hi. unfold block_at. case_decide as Hij.
  - subst j. if_false. apply list_lookup_insert_eq. lia.
  - destruct (j <? 0) eqn:E; [done|]. zbool. apply list_lookup_insert_ne. lia.
Qed.

Section Chains.
Context (bs : Z) (img : image) (owner : Z).

Lemma chain_next_inv idx next blocks payload :
  next ≠ NULL_BLOCK_INDEX → chain bs img owner idx next blocks payload →
  ∃ b blocks' payload',
    block_at img next = Some b ∧ chunk_ok bs owner idx b ∧
    chain bs img owner (idx + 1) (ch_next_chunk (decode_chunk b)) blocks' payload' ∧
    blocks = next :: blocks' ∧ payload = chunk_payload b ++ payload'.
Proof. intros Hn Hc. inversion Hc; subst; [done|]. naive_solver. Qed.

Lemma chain_null_inv idx blocks payload :
  chain bs img owner idx NULL_BLOCK_INDEX blocks payload → blocks = [] ∧ payload = [].
Proof. intros Hc. by inversion Hc; subst. Qed.

Lemma chain_nil_inv idx next payload :
  chain bs img owner idx next [] payload → next = NULL_BLOCK_INDEX ∧ payload = [].
Proof. intros Hc. by inversion Hc; subst. Qed.

Lemma chain_functional idx next bl1 pl1 bl2 pl2 :
  chain bs img owner idx next bl1 pl1 → chain bs img owner idx next bl2 pl2 →
  bl1 = bl2 ∧ pl1 = pl2.
Proof.
  intros H1. revert bl2 pl2. induction H1 as [idx|idx next b bl pl Hn Hb Hok Hc IH]; intros bl2 pl2 H2.
  - apply chain_null_inv in H2 as [-> ->]. done.
  - apply chain_next_inv in H2 as (b' & bl' & pl' & Hb' & _ & Hc' & -> & ->); [|done].
    rewrite Hb in Hb'. injection Hb' as <-. by destruct (IH _ _ Hc') as [-> ->].
Qed.

Lemma chain_elem idx next blocks payload x :
  chain bs img owner idx next blocks payload → x ∈ blocks →
  ∃ b idx', block_at img x = Some b ∧ idx ≤ idx' ∧ chunk_ok bs owner idx' b.
Proof.
  induction 1 as [idx|idx next b bl pl Hn Hb Hok Hc IH]; intros Hx.
  - by apply not_elem_of_nil in Hx.
  - apply elem_of_cons in Hx as [->|Hx]; [exists b, idx; split_and!; done || lia|].
    destruct (IH Hx) as (b' & idx' & ? & ? & ?). exists b', idx'. split_and!; done || lia.
Qed.

(** A chain cannot visit a block twice: the chunk index stored in the block
    tells its position. *)
Lemma chain_NoDup idx next blocks payload :
  chain bs img owner idx next blocks payload → NoDup blocks.
Proof.
  induction 1 as [idx|idx next b bl pl Hn Hb Hok Hc IH]; constructor; [|done].
  intros Hx. destruct (chain_elem _ _ _ _ _ Hc Hx) as (b' & idx' & Hb' & ? & Hok').
  rewrite Hb in Hb'. injection Hb' as <-. unfold chunk_ok in *. destr. lia.
Qed.

Lemma chain_frame img' idx next blocks payload :
  chain bs img owner idx next blocks payload →
  (∀ x, x ∈ blocks → block_at img' x = block_at img x) →
  chain bs img' owner idx next blocks payload.
Proof.
  induction 1 as [idx|idx next b bl pl Hn Hb Hok Hc IH]; intros Hf; [constructor|].
  econstructor; [done| |done|].
  - rewrite Hf; [done|]. apply elem_of_cons. by left.
  - apply IH. intros x Hx. apply Hf. apply elem_of_cons. by right.
Qed.

End Chains.

(** Indices that name blocks of an image. *)
Definition in_image (img : image) (bl : list Z) : Prop := Forall (λ i, 0 ≤ i < zlen img) bl.

(** [n] distinct block indices need [n] blocks. *)
Lemma NoDup_in_image img bl : NoDup bl → in_image img bl → (length bl ≤ length img)%nat.
Proof.
  intros Hnd Hin. assert (bl ⊆+ seqZ 0 (zlen img)) as Hsub.
  { apply NoDup_submseteq; [done|]. intros x Hx. apply elem_of_seqZ.
    eapply Forall_forall in Hin; [|exact Hx]. lia. }
  apply submseteq_length in Hsub. rewrite length_seqZ in Hsub. lia.
Qed.

Lemma chain_in_image bs img owner idx next bl pl :
  chain bs img owner idx next bl pl → in_image img bl.
Proof.
  intros Hc. apply Forall_forall. intros x Hx.
  destruct (chain_elem _ _ _ _ _ _ _ _ Hc Hx) as (b & i & Hb & _). by eapply block_at_range.
Qed.

(** The blocks a complete record occupies. *)
Definition record_blocks (rec : CompleteRecord) : list Z :=
  cr_descriptor_block rec :: cr_chunk_blocks rec.

Lemma complete_functional bs img d r1 r2 :
  complete bs img d r1 → complete bs img d r2 → r1 = r2.
Proof.
  intros (b & bl & pl & Hb & _ & Hc & _ & _ & ->) (b' & bl' & pl' & Hb' & _ & Hc' & _ & _ & ->).
  rewrite Hb in Hb'. injection Hb' as <-.
  by destruct (chain_functional _ _ _ _ _ _ _ _ _ Hc Hc') as [-> ->].
Qed.

Lemma complete_descriptor bs img d rec :
  complete bs img d rec → cr_descriptor_block rec = d.
Proof. intros (b & bl & pl & _ & _ & _ & _ & _ & ->). done. Qed.

(** Every block of a complete record is marked as its descriptor or as a chunk
    owned by it. *)
Definition owned_by (d : Z) (x : Z) (b : list byte) : Prop :=
  x = d ∧ field b 0 1 = BLOCK_TYPE_RECORD_DESCRIPTOR ∨
  field b 0 1 = BLOCK_TYPE_VALUE_CHUNK ∧ ch_owner_descriptor (decode_chunk b) = d.

Lemma complete_owned bs img d rec x :
  complete bs img d rec → x ∈ record_blocks rec →
  ∃ b, block_at img x = Some b ∧ owned_by d x b.
Proof.
  intros (b & bl & pl & Hb & Hd & Hc & _ & _ & ->) Hx. unfold record_blocks in Hx. simpl in Hx.
  apply elem_of_cons in Hx as [->|Hx].
  - exists b. split; [done|]. left. split; [done|]. apply Hd.
  - destruct (chain_elem _ _ _ _ _ _ _ _ Hc Hx) as (b' & idx & Hb' & _ & Hok).
    exists b'. split; [done|]. right. unfold chunk_ok in Hok. by destr.
Qed.

(** A record's blocks are distinct. *)
Lemma complete_NoDup bs img d rec : complete bs img d rec → NoDup (record_blocks rec).
Proof.
  intros (b & bl & pl & Hb & [Ht _] & Hc & _ & _ & ->). unfold record_blocks. simpl.
  apply NoDup_cons. split; [|by eapply chain_NoDup].
  intros Hx. destruct (chain_elem _ _ _ _ _ _ _ _ Hc Hx) as (b' & idx & Hb' & _ & Ht' & _).
  rewrite Hb in Hb'. injection Hb' as <-. consts. congruence.
Qed.

(** Complete records at different descriptors share no block. *)
Lemma complete_disjoint bs img d1 d2 r1 r2 x :
  complete bs img d1 r1 → complete bs img d2 r2 →
  x ∈ record_blocks r1 → x ∈ record_blocks r2 → d1 = d2.
Proof.
  intros H1 H2 Hx1 Hx2.
  destruct (complete_owned _ _ _ _ _ H1 Hx1) as (b1 & Hb1 & Ho1).
  destruct (complete_owned _ _ _ _ _ H2 Hx2) as (b2 & Hb2 & Ho2).
  rewrite Hb1 in Hb2. injection Hb2 as <-. unfold owned_by in *. consts.
  destruct Ho1 as [[-> ?]|[? ?]], Ho2 as [[? ?]|[? ?]]; congruence.
Qed.

(** Completeness depends only on the record's own blocks. *)
Lemma complete_frame bs img img' d rec :
  complete bs img d rec →
  (∀ x, x ∈ record_blocks rec → block_at img' x = block_at img x) →
  complete bs img' d rec.
Proof.
  intros (b & bl & pl & Hb & Hd & Hc & Hn & Ht & ->) Hf. unfold record_blocks in Hf. simpl in Hf.
  exists b, bl, pl. split_and!; try done.
  - rewrite Hf; [done|]. apply elem_of_cons. by left.
  - eapply chain_frame; [done|]. intros x Hx. apply Hf. apply elem_of_cons. by right.
Qed.

(** No block of a complete record looks free. *)
Lemma complete_not_free bs img d rec x b :
  complete bs img d rec → x ∈ record_blocks rec → block_at img x = Some b →
  free_marked b = false.
Proof.
  intros Hc Hx Hb. destruct (complete_owned _ _ _ _ _ Hc Hx) as (b' & Hb' & Ho).
  rewrite Hb in Hb'. injection Hb' as <-. unfold free_marked.
  destruct Ho as [[_ ->]|[-> _]]; done.
Qed.

(** ** The reader on a working device *)

(** The block indices of a device with [bc] blocks. *)
Definition block_range (bc : Z) : gset Z := list_to_set (seqZ 0 bc).

Lemma elem_of_block_range bc x : x ∈ block_range bc ↔ 0 ≤ x < bc.
Proof. unfold block_range. rewrite elem_of_list_to_set, elem_of_seqZ. lia. Qed.

Lemma size_block_range bc : 0 ≤ bc → Z.of_nat (size (block_range bc)) = bc.
Proof.
  intros. unfold block_range. rewrite size_list_to_set by apply NoDup_seqZ.
  rewrite length_seqZ. lia.
Qed.

(** Visiting a new block of the device makes progress. *)
Lemma size_visit bc (visited : gset Z) x :
  0 ≤ x < bc → x ∉ visited →
  size (block_range bc ∖ visited) = S (size (block_range bc ∖ ({[x]} ∪ visited))).
Proof.
  intros Hx Hv.
  assert (block_range bc ∖ visited = {[x]} ∪ block_range bc ∖ ({[x]} ∪ visited)) as ->.
  { apply set_eq. intros y.
    rewrite elem_of_union, !elem_of_difference, elem_of_union, elem_of_singleton,
      elem_of_block_range.
    destruct (decide (y = x)) as [->|]; tauto. }
  rewrite size_union, size_singleton; [done|].
  apply elem_of_disjoint. intros y ->%elem_of_singleton.
  rewrite elem_of_difference, elem_of_union, elem_of_singleton. tauto.
Qed.

Section Reader.
Context `{Profile} `{ReliableDevice D}.
Implicit Types (d : D) (img : image).

Lemma dev_block_len d bs img i b :
  dev_at d bs img → block_at img i = Some b → zlen b = bs.
Proof.
  intros Hd [_ Hb]%block_at_Some. apply dev_at_geometry in Hd as (_ & _ & _ & _ & Hf).
  by eapply Forall_lookup_1 in Hf.
Qed.

Lemma read_at d bs img i b buf :
  dev_at d bs img → block_at img i = Some b → zlen buf = bs →
  ∃ d', read_block i buf d = (d', Ok b) ∧ dev_at d' bs img.
Proof. intros Hd [? ?]%block_at_Some ?. by apply read_ok. Qed.

Lemma chunk_payload_length bs owner idx b :
  24 ≤ bs → zlen b = bs → chunk_ok bs owner idx b →
  zlen (chunk_payload b) = ch_payload_size (decode_chunk b).
Proof.
  intros Hb Hl (_ & _ & _ & _ & _ & Hp). pose proof (field_range b 12 4).
  unfold chunk_payload. rewrite length_take, length_drop. simpl in *. lia.
Qed.

Lemma chunk_payload_slice bs b :
  24 ≤ bs → zlen b = bs → ch_payload_size (decode_chunk b) ≤ bs - 24 →
  slice b VALUE_CHUNK_HEADER_SIZE (VALUE_CHUNK_HEADER_SIZE + ch_payload_size (decode_chunk b))
  = Ok (chunk_payload b).
Proof.
  intros Hb Hl Hp. pose proof (field_range b 12 4). consts. simpl in *.
  rewrite slice_ok by lia. unfold chunk_payload. simpl. do 3 f_equal. lia.
Qed.

(** The block in hand is not the expected chunk. *)
Ltac refuse :=
  right; split; [intros (? & ? & ? & ? & ? & ?); first [congruence|lia]|reflexivity].

(** One iteration on an unvisited block: it goes on exactly when the block is the
    expected chunk, and ends with [None] otherwise. *)
Lemma read_chunks_step fuel d bs img owner next idx visited cbuf value chunks b :
  dev_at d bs img → 24 ≤ bs → zlen cbuf = bs → next ≠ NULL_BLOCK_INDEX →
  next ∉ visited → block_at img next = Some b → 0 ≤ idx → idx + 1 < U32 →
  ∃ d1, dev_at d1 bs img ∧ zlen b = bs ∧
    (chunk_ok bs owner idx b ∧
     read_chunks (S fuel) bs owner next idx visited cbuf value chunks d =
     read_chunks fuel bs owner (ch_next_chunk (decode_chunk b)) (idx + 1) ({[next]} ∪ visited) b
       (value ++ chunk_payload b) (chunks ++ [next]) d1 ∨
     ¬ chunk_ok bs owner idx b ∧
     read_chunks (S fuel) bs owner next idx visited cbuf value chunks d = (d1, Ok None)).
Proof.
  intros Hd Hbs Hcb Hnull Hnv Hb Hi0 Hi. destruct (dev_at_geometry _ _ _ Hd) as (_ & Hbc & ? & _).
  destruct (read_at d bs img next b cbuf Hd Hb Hcb) as (d1 & Hread & Hd1).
  assert (zlen b = bs) as Hlb by by eapply dev_block_len.
  exists d1. split_and!; [done..|]. cbn [read_chunks].
  rewrite (proj2 (Z.eqb_neq _ _) Hnull). mgets. apply block_at_range in Hb.
  rewrite Hbc, bool_decide_eq_false_2, (proj2 (Z.leb_gt _ _) (proj2 Hb)) by done. cbn [orb].
  mcall Hread.
  assert (get_u8 b 0 = Ok (field b 0 1)) as Hg by (apply get_u8_ok; lia). mlift Hg.
  destruct (field b 0 1 =? BLOCK_TYPE_VALUE_CHUNK) eqn:Et; cbn [negb]; zbool; [|refuse].
  mlift (unmarshal_chunk_header_ok b ltac:(lia)).
  destruct (crc_valid b) eqn:Ecrc; cbn [negb]; [|refuse].
  destruct (ch_header_size (decode_chunk b) =? _) eqn:Eh; cbn [negb]; zbool; [|refuse].
  destruct (ch_owner_descriptor (decode_chunk b) =? _) eqn:Eo; cbn [negb]; zbool; [|refuse].
  destruct (ch_chunk_index (decode_chunk b) =? _) eqn:Ei; cbn [negb]; zbool; [|refuse].
  mlift (chunk_payload_capacity_ok bs ltac:(lia)).
  destruct (bs - 24 <? ch_payload_size (decode_chunk b)) eqn:Ep; zbool; [refuse|].
  mlift (chunk_payload_slice bs b ltac:(lia) Hlb ltac:(lia)).
  mlift (u32_add_ok idx 1 ltac:(lia)). left. by split_and!.
Qed.

(** A block that is not the expected chunk starts no chain. *)
Ltac reject d' :=
  exists d', None; split_and!; [done|done|]; intros n v bl; split; [discriminate|];
  intros (bl' & pl' & Hch & _); apply chain_next_inv in Hch as (b' & ? & ? & Hb' & Hok & _);
  [|done].

Lemma read_chunks_spec fuel d bs img owner next idx visited cbuf value chunks :
  dev_at d bs img → 24 ≤ bs → zlen cbuf = bs → 0 ≤ next →
  (∀ x b, x ∈ visited → block_at img x = Some b → field b 0 1 = BLOCK_TYPE_VALUE_CHUNK →
          ch_chunk_index (decode_chunk b) < idx) →
  1 ≤ idx → idx + Z.of_nat (size (block_range (zlen img) ∖ visited)) ≤ zlen img →
  (size (block_range (zlen img) ∖ visited) < fuel)%nat →
  ∃ d' o, read_chunks fuel bs owner next idx visited cbuf value chunks d = (d', Ok o) ∧
    dev_at d' bs img ∧
    ∀ n v bl, o = Some (n, v, bl) ↔
      ∃ bl' pl', chain bs img owner idx next bl' pl' ∧
        n = idx + zlen bl' ∧ v = value ++ pl' ∧ bl = chunks ++ bl'.
Proof.
  revert d next idx visited cbuf value chunks.
  induction fuel as [|fuel IH]; intros d next idx visited cbuf value chunks
    Hd Hbs Hcb Hn0 Hvis Hidx Hsz Hfuel; [lia|].
  destruct (dev_at_geometry _ _ _ Hd) as (Hbsz & Hbc & Hbs32 & Hbc32 & Hlen).
  destruct (decide (next = NULL_BLOCK_INDEX)) as [->|Hnull].
  { exists d, (Some (idx, value, chunks)). split_and!; [done|done|].
    intros n v bl. split.
    - intros [= <- <- <-]. exists [], []. rewrite !app_nil_r.
      split_and!; [apply chain_end|simpl; lia|done|done].
    - intros (bl' & pl' & [-> ->]%chain_null_inv & -> & -> & ->). rewrite !app_nil_r.
      do 3 f_equal. simpl. lia. }
  destruct ((zlen img <=? next) || bool_decide (next ∈ visited)) eqn:Ev.
  { cbn [read_chunks]. rewrite (proj2 (Z.eqb_neq _ _) Hnull). mgets. rewrite Hbc, Ev. reject d. apply block_at_range in Hb' as Hr. apply orb_true_iff in Ev as [Ev|Ev]; zbool; [lia|].
    apply bool_decide_eq_true in Ev. destruct Hok as (Ht & _ & _ & _ & Hci & _).
    pose proof (Hvis _ _ Ev Hb' Ht). lia. }
  zbool. match goal with H : bool_decide _ = false |- _ => apply bool_decide_eq_false in H end.
  destruct (block_at_lt img next ltac:(lia)) as [b Hb].
  pose proof (size_visit (zlen img) visited next ltac:(lia) ltac:(done)) as Hsv.
  destruct (read_chunks_step fuel d bs img owner next idx visited cbuf value chunks b)
    as (d1 & Hd1 & Hlb & Hrun1); [done|done|done|done|done|done|lia|lia|].
  destruct Hrun1 as [[Hok ->]|[Hno ->]]; [|reject d1; by replace b' with b in Hok by congruence].
  pose proof (field_range b 16 4) as Hnr.
  destruct (IH d1 (ch_next_chunk (decode_chunk b)) (idx + 1) ({[next]} ∪ visited) b
              (value ++ chunk_payload b) (chunks ++ [next])) as (d' & o & Hrun & Hd' & Ho);
    [done|done|done|apply Hnr| |lia|lia|lia|].
  { intros x bx Hx Hbx Htx. apply elem_of_union in Hx as [->%elem_of_singleton|Hx].
    - rewrite Hb in Hbx. injection Hbx as <-. destruct Hok as (_ & _ & _ & _ & ? & _). lia.
    - specialize (Hvis _ _ Hx Hbx Htx). lia. }
  exists d', o. split_and!; [done|done|]. intros n v bl. rewrite Ho. split.
  - intros (bl' & pl' & Hch & -> & -> & ->). exists (next :: bl'), (chunk_payload b ++ pl').
    split_and!; [econstructor; done || (by split_and!)|len|by rewrite app_assoc|].
    by rewrite <- app_assoc.
  - intros (bl' & pl' & Hch & -> & -> & ->).
    apply chain_next_inv in Hch as (b' & bl'' & pl'' & Hb' & _ & Hch & -> & ->); [|done].
    rewrite Hb in Hb'. injection Hb' as <-. exists bl'', pl''.
    split_and!; [done|len|by rewrite app_assoc|by rewrite <- app_assoc].
Qed.

Lemma descriptor_slices bs b :
  36 ≤ bs → zlen b = bs → descriptor_ok bs b →
  let h := decode_descriptor b in
  slice b RECORD_DESCRIPTOR_HEADER_SIZE (RECORD_DESCRIPTOR_HEADER_SIZE + dh_key_size h)
    = Ok (descriptor_key b) ∧
  slice b (RECORD_DESCRIPTOR_HEADER_SIZE + dh_key_size h)
    (RECORD_DESCRIPTOR_HEADER_SIZE + dh_key_size h + dh_first_payload_size h)
    = Ok (descriptor_payload b).
Proof.
  intros Hb Hl (_ & _ & _ & Hk & Hp & _) h. unfold h in *. consts.
  pose proof (field_range b 2 2). pose proof (field_range b 12 4). simpl in *.
  rewrite !slice_ok by lia. unfold descriptor_key, descriptor_payload. simpl.
  split; do 3 f_equal; lia.
Qed.

Lemma descriptor_payload_length bs b :
  36 ≤ bs → zlen b = bs → descriptor_ok bs b →
  zlen (descriptor_payload b) = dh_first_payload_size (decode_descriptor b).
Proof.
  intros Hb Hl (_ & _ & _ & Hk & Hp & _). pose proof (field_range b 2 2).
  pose proof (field_range b 12 4). unfold descriptor_payload.
  rewrite length_take, length_drop. simpl in *. lia.
Qed.

Ltac reject_record d' b :=
  exists d', None; split_and!; [done|done|]; intros rec; split; [discriminate|];
  intros (b' & bl' & pl' & Hb' & Hok & Hch & Hcount & Htotal & ->);
  replace b' with b in * by congruence; destruct Hok as (? & ? & ? & ? & ? & ?);
  try congruence; try lia.

(** The chain of a descriptor, read by the loop. *)
Lemma read_chunks_descriptor d bs img i b :
  dev_at d bs img → 24 ≤ bs → block_at img i = Some b →
  field b 0 1 = BLOCK_TYPE_RECORD_DESCRIPTOR →
  ∃ d' o, read_chunks (chunk_fuel (zlen img)) bs i (dh_next_chunk (decode_descriptor b)) 1 {[i]}
            (replicate (Z.to_nat bs) x00) (descriptor_payload b) [] d = (d', Ok o) ∧
    dev_at d' bs img ∧
    ∀ n v bl, o = Some (n, v, bl) ↔
      ∃ pl, chain bs img i 1 (dh_next_chunk (decode_descriptor b)) bl pl ∧
        n = 1 + zlen bl ∧ v = descriptor_payload b ++ pl.
Proof.
  intros Hd Hbs Hb Ht. apply block_at_range in Hb as Hi.
  destruct (dev_at_geometry _ _ _ Hd) as (_ & _ & Hbs32 & _).
  pose proof (field_range b 20 4) as Hnr.
  pose proof (size_visit (zlen img) ∅ i Hi (not_elem_of_empty i)) as Hsv.
  rewrite difference_empty_L, union_empty_r_L in Hsv.
  pose proof (size_block_range (zlen img) ltac:(lia)) as Hsr.
  destruct (read_chunks_spec (chunk_fuel (zlen img)) d bs img i
    (dh_next_chunk (decode_descriptor b)) 1 {[i]} (replicate (Z.to_nat bs) x00)
    (descriptor_payload b) []) as (d2 & o & Hrun & Hd2 & Ho);
    [done|lia|len|apply Hnr| |lia|lia|unfold chunk_fuel; lia|].
  { intros x bx ->%elem_of_singleton Hbx Htx. consts. congruence. }
  exists d2, o. split_and!; [done|done|]. intros n v bl. rewrite Ho. simpl app. split.
  - intros (bl' & pl & Hch & Hn & Hv & ->). by exists pl.
  - intros (pl & Hch & Hn & Hv). by exists bl, pl.
Qed.

Lemma finish_record_spec d bs img i b :
  dev_at d bs img → 36 ≤ bs → block_at img i = Some b → descriptor_ok bs b →
  ∃ d' o, finish_record bs i (decode_descriptor b) (descriptor_key b) (descriptor_payload b) d
            = (d', Ok o) ∧ dev_at d' bs img ∧
    ∀ rec, o = Some rec ↔ complete bs img i rec.
Proof.
  intros Hd Hbs Hb Hdok. assert (zlen b = bs) as Hlb by by eapply dev_block_len.
  destruct (dev_at_geometry _ _ _ Hd) as (_ & Hbc & Hbs32 & _).
  pose proof (descriptor_payload_length bs b Hbs Hlb Hdok) as Hpl.
  pose proof (field_range b 12 4) as Hfr. unfold finish_record.
  destruct (dh_chunk_count (decode_descriptor b) =? 1) eqn:E1; zbool.
  { destruct (negb _ || negb _) eqn:Ebad.
    - reject_record d b. destruct bl' as [|]; [|rewrite E1, length_cons in Hcount; lia].
      apply chain_nil_inv in Hch as [Hnull ->].
      apply orb_true_iff in Ebad as [Ebad|Ebad]; apply negb_true_iff in Ebad; zbool; [|done].
      rewrite app_nil_r, as_u32_small in Htotal by (simpl in *; lia). lia.
    - apply orb_false_iff in Ebad as [Eb1 Eb2]. apply negb_false_iff in Eb1, Eb2. zbool.
      eexists d, (Some _). split_and!; [reflexivity|done|]. intros rec. split.
      + intros [= <-]. exists b, [], []. rewrite Eb2, app_nil_r.
        split_and!; try done; [apply chain_end|]. rewrite as_u32_small; simpl in *; lia.
      + intros (b' & bl' & pl' & Hb' & Hok & Hch & Hcount & Htotal & ->).
        replace b' with b in * by congruence. rewrite Eb2 in Hch.
        apply chain_null_inv in Hch as [-> ->]. by rewrite app_nil_r. }
  destruct (dh_next_chunk (decode_descriptor b) =? NULL_BLOCK_INDEX) eqn:En; zbool.
  { reject_record d b. rewrite En in Hch. apply chain_null_inv in Hch as [-> ->].
    rewrite length_nil in Hcount. lia. }
  mgets. rewrite Hbc.
  destruct (read_chunks_descriptor d bs img i b Hd ltac:(lia) Hb (proj1 Hdok))
    as (d2 & o & Hrun & Hd2 & Ho). mcall Hrun.
  destruct o as [[[n v] bl]|].
  2: { reject_record d2 b. destruct (Ho (1 + zlen bl') (descriptor_payload b ++ pl') bl')
         as [_ Ho']. discriminate Ho'. by exists pl'. }
  destruct (proj1 (Ho n v bl) eq_refl) as (pl & Hch0 & -> & ->).
  assert (∀ bl' pl', chain bs img i 1 (dh_next_chunk (decode_descriptor b)) bl' pl' →
            bl' = bl ∧ pl' = pl) as Huniq by (intros; by eapply chain_functional).
  destruct (1 + zlen bl =? dh_chunk_count (decode_descriptor b)) eqn:En'; cbn [negb]; zbool;
    [|reject_record d2 b; destruct (Huniq _ _ Hch) as [-> ->]; congruence].
  destruct (as_u32 (zlen (descriptor_payload b ++ pl)) =? _) eqn:Ets; cbn [negb]; zbool;
    [|reject_record d2 b; destruct (Huniq _ _ Hch) as [-> ->]; congruence].
  eexists d2, (Some _). split_and!; [reflexivity|done|]. intros rec. split.
  - intros [= <-]. exists b, bl, pl. by split_and!.
  - intros (b' & bl' & pl' & Hb' & Hok & Hch & Hcount & Htotal & ->).
    replace b' with b in * by congruence. by destruct (Huniq _ _ Hch) as [-> ->].
Qed.

Lemma room_ok bs :
  36 ≤ bs < U32 →
  (a ← u32_sub bs RECORD_DESCRIPTOR_HEADER_SIZE; u32_sub a BLOCK_CRC_SIZE) = Ok (bs - 36).
Proof.
  intros. consts. rewrite u32_sub_ok by lia. cbn [mbind outcome_bind].
  rewrite u32_sub_ok by lia. f_equal. lia.
Qed.

(** The reader returns, on a working device, exactly the complete record at
    the given block. *)
Lemma verify_spec d bs img i :
  dev_at d bs img → 36 ≤ bs → 0 ≤ i < zlen img →
  ∃ d' o, verify_and_read_record i d = (d', Ok o) ∧ dev_at d' bs img ∧
    ∀ rec, o = Some rec ↔ complete bs img i rec.
Proof.
  intros Hd Hbs Hi. destruct (dev_at_geometry _ _ _ Hd) as (Hbsz & _ & Hbs32 & Hbc32 & _).
  unfold verify_and_read_record. mgets. rewrite Hbsz.
  destruct (block_at_lt img i Hi) as [b Hb].
  destruct (read_at d bs img i b (replicate (Z.to_nat bs) x00)) as (d1 & Hread & Hd1);
    [done|done|len|]. mcall Hread.
  assert (zlen b = bs) as Hlb by by eapply dev_block_len.
  mlift (get_u8_ok b 0 ltac:(lia)). change (Z.to_nat 0) with O.
  destruct (field b 0 1 =? _) eqn:Et; cbn [negb]; zbool; [|reject_record d1 b].
  mlift (unmarshal_descriptor_header_ok b ltac:(lia)).
  destruct (crc_valid b) eqn:Ecrc; cbn [negb]; [|reject_record d1 b].
  destruct (dh_header_size (decode_descriptor b) =? _) eqn:Eh; cbn [negb]; zbool;
    [|reject_record d1 b].
  mlift (room_ok bs ltac:(lia)).
  destruct (bs - 36 <? dh_key_size (decode_descriptor b)) eqn:Ek; zbool; [reject_record d1 b|].
  pose proof (field_range b 2 2) as Hks.
  mlift (first_payload_capacity_ok bs (dh_key_size (decode_descriptor b))
           ltac:(simpl in *; lia) ltac:(lia)).
  destruct (_ <? dh_first_payload_size (decode_descriptor b)) eqn:Ef; zbool;
    [reject_record d1 b|].
  destruct (dh_chunk_count (decode_descriptor b) =? 0) eqn:Ec; zbool; [reject_record d1 b|].
  assert (descriptor_ok bs b) as Hdok by (by split_and!).
  destruct (descriptor_slices bs b Hbs Hlb Hdok) as [Hs1 Hs2]. mlift Hs1. mlift Hs2.
  by apply finish_record_spec.
Qed.

End Reader.

(** ** The reader on any device

    Whatever the device answers, the reader neither panics nor loops. *)

Section Hostile.
Context `{Profile} `{SafeDevice D}.
Implicit Types d : D.

(** The device respects its interface and has the given geometry. *)
Definition dev_geom (bs bc : Z) (d : D) : Prop :=
  dev_ok d ∧ block_size d = bs ∧ block_count d = bc.

Lemma dev_geom_range bs bc d : dev_geom bs bc d → 0 ≤ bs < U32 ∧ 0 ≤ bc < U32.
Proof. intros (Hok & <- & <-). by apply dev_ok_geometry. Qed.

Lemma wp_read bs bc i buf d :
  dev_geom bs bc d → 0 ≤ i < U32 → zlen buf = bs →
  wp (read_block i buf) (λ b d', dev_geom bs bc d' ∧ zlen b = bs)
     (λ _ d', dev_geom bs bc d') d.
Proof.
  intros (Hok & <- & <-) Hi Hb. destruct (safe_read d i buf Hok Hi Hb) as (Hok' & [Hs Hc] & Hr & Hl).
  unfold wp, dev_geom. destruct (read_block i buf d) as [d' [b|e| |]]; try done. simpl in *.
  split_and!; auto.
Qed.

Lemma wp_write bs bc i buf d :
  dev_geom bs bc d → 0 ≤ i < U32 → zlen buf = bs →
  wp (write_block i buf) (λ _ d', dev_geom bs bc d') (λ _ d', dev_geom bs bc d') d.
Proof.
  intros (Hok & <- & <-) Hi Hb. destruct (safe_write d i buf Hok Hi Hb) as (Hok' & [Hs Hc] & Hr).
  unfold wp, dev_geom. by destruct (write_block i buf d) as [d' [b|e| |]].
Qed.

Lemma wp_flush bs bc d :
  dev_geom bs bc d → wp flush (λ _ d', dev_geom bs bc d') (λ _ d', dev_geom bs bc d') d.
Proof.
  intros (Hok & <- & <-). destruct (safe_flush d Hok) as (Hok' & [Hs Hc] & Hr).
  unfold wp, dev_geom. by destruct (flush d) as [d' [b|e| |]].
Qed.

(** What the loop adds to the value and to the list of chunks. *)
Definition extended (bs bc idx : Z) (visited : gset Z) (value : list byte) (chunks : list Z)
    (r : Z * list byte * list Z) : Prop :=
  let '(n, value', chunks') := r in
  ∃ more, chunks' = chunks ++ more ∧ NoDup more ∧ Forall (λ x, 0 ≤ x < bc ∧ x ∉ visited) more ∧
    n = idx + zlen more ∧ zlen value ≤ zlen value' ≤ zlen value + zlen more * (bs - 24).

Lemma extended_visit bs bc idx visited value chunks next payload r :
  0 ≤ next < bc → next ∉ visited → zlen payload ≤ bs - 24 →
  extended bs bc (idx + 1) ({[next]} ∪ visited) (value ++ payload) (chunks ++ [next]) r →
  extended bs bc idx visited value chunks r.
Proof.
  destruct r as [[n v] bl]. intros Hn Hv Hp (more & -> & Hnd & Hf & -> & Hl).
  exists (next :: more). rewrite <- app_assoc. rewrite length_app in Hl. split_and!; [done| | |len|lia|].
  - constructor; [|done]. intros Hin. eapply Forall_forall in Hf as [_ Hf]; [|exact Hin].
    apply Hf, elem_of_union_l, elem_of_singleton_2. done.
  - constructor; [done|]. eapply Forall_impl; [exact Hf|]. intros x [? [_ ?]%not_elem_of_union]. done.
  - cbn [length]. nia.
Qed.

(** A record that agrees with its header, on a device of [bc] blocks of [bs]
    bytes. *)
Record record_wf (bs bc i : Z) (rec : CompleteRecord) : Prop := {
  rw_header : RecordDescriptorHeader_wf (cr_header rec);
  rw_generation : cr_generation rec = dh_generation (cr_header rec);
  rw_descriptor : cr_descriptor_block rec = i;
  rw_key : zlen (cr_key rec) = dh_key_size (cr_header rec);
  rw_nodup : NoDup (i :: cr_chunk_blocks rec);
  rw_range : Forall (λ x, 0 ≤ x < bc) (i :: cr_chunk_blocks rec);
  rw_count : dh_chunk_count (cr_header rec) = 1 + zlen (cr_chunk_blocks rec);
  rw_size : dh_total_size (cr_header rec) = as_u32 (zlen (cr_value rec)) ∧
    zlen (cr_key rec) + zlen (cr_value rec) ≤ bs - 36 + zlen (cr_chunk_blocks rec) * (bs - 24);
}.

Lemma record_wf_intro bs bc i hdr key value n v bl :
  RecordDescriptorHeader_wf hdr → 0 ≤ i < bc → zlen key = dh_key_size hdr →
  zlen key + zlen value ≤ bs - 36 → extended bs bc 1 {[i]} value [] (n, v, bl) →
  n = dh_chunk_count hdr → as_u32 (zlen v) = dh_total_size hdr →
  record_wf bs bc i {| cr_key := key; cr_generation := dh_generation hdr; cr_descriptor_block := i;
    cr_header := hdr; cr_chunk_blocks := bl; cr_value := v |}.
Proof.
  intros Hh Hi Hk Hv (more & -> & Hnd & Hf & -> & Hl) Hn Ht. constructor; simpl; try done.
  - constructor; [|done]. intros Hin. eapply Forall_forall in Hf as [_ Hf]; [|exact Hin].
    apply Hf, elem_of_singleton_2. done.
  - constructor; [done|]. eapply Forall_impl; [exact Hf|]. by intros x [? _].
  - split; [done|]. lia.
Qed.

Lemma read_chunks_safe fuel bs bc owner next idx visited cbuf value chunks d :
  dev_geom bs bc d → 24 ≤ bs → zlen cbuf = bs → 0 ≤ next < U32 →
  1 ≤ idx → idx + Z.of_nat (size (block_range bc ∖ visited)) ≤ bc →
  (size (block_range bc ∖ visited) < fuel)%nat →
  wp (read_chunks fuel bs owner next idx visited cbuf value chunks)
     (λ o d', dev_geom bs bc d' ∧ from_option (extended bs bc idx visited value chunks) True o)
     (λ _ d', dev_geom bs bc d') d.
Proof.
  revert d next idx visited cbuf value chunks.
  induction fuel as [|fuel IH]; intros d next idx visited cbuf value chunks
    Hd Hbs Hcb Hn Hidx Hsz Hfuel; [lia|].
  apply dev_geom_range in Hd as Hr. cbn [read_chunks].
  destruct (next =? NULL_BLOCK_INDEX).
  { apply wp_ret. split; [done|]. exists []. rewrite app_nil_r.
    split_and!; [done|constructor|constructor|len..]. }
  wpgets. destruct (Hd) as (_ & _ & ->).
  destruct ((bc <=? next) || bool_decide (next ∈ visited)) eqn:Ev; [by apply wp_ret|].
  zbool. match goal with H : bool_decide _ = false |- _ => apply bool_decide_eq_false in H end.
  wpcall (wp_read bs bc next cbuf d Hd Hn Hcb). intros b d1 [Hd1 Hlb].
  wplift (get_u8_ok b 0 ltac:(lia)). destruct (negb _); [by apply wp_ret|].
  wplift (unmarshal_chunk_header_ok b ltac:(lia)). destruct (negb _); [by apply wp_ret|].
  destruct (negb _); [by apply wp_ret|]. destruct (negb _); [by apply wp_ret|].
  destruct (negb _); [by apply wp_ret|].
  wplift (chunk_payload_capacity_ok bs ltac:(lia)).
  destruct (bs - 24 <? ch_payload_size (decode_chunk b)) eqn:Ep; [by apply wp_ret|]. zbool.
  wplift (chunk_payload_slice bs b ltac:(lia) Hlb ltac:(lia)).
  assert (zlen (chunk_payload b) ≤ bs - 24) as Hpl
    by (unfold chunk_payload; pose proof (field_range b 12 4); rewrite length_take; lia).
  pose proof (size_visit bc visited next ltac:(lia) ltac:(done)) as Hsv.
  wplift (u32_add_ok idx 1 ltac:(lia)).
  eapply wp_mono; [apply IH; [done|done|done|apply (field_range b 16 4)|lia..]| |done].
  cbv beta. intros o d2 [Hd2 Ho]. split; [done|]. destruct o as [r|]; [|done]. simpl in *.
  apply (extended_visit _ _ _ _ _ _ next (chunk_payload b)); [lia|done|exact Hpl|exact Ho].
Qed.

Lemma verify_typed bs bc i d :
  dev_geom bs bc d → 36 ≤ bs → 0 ≤ i < bc →
  wp (verify_and_read_record i)
     (λ o d', dev_geom bs bc d' ∧ ∀ rec, o = Some rec → record_wf bs bc i rec)
     (λ _ d', dev_geom bs bc d') d.
Proof.
  intros Hd Hbs Hi. apply dev_geom_range in Hd as Hr. unfold verify_and_read_record.
  wpgets. destruct (Hd) as (_ & -> & _).
  wpcall (wp_read bs bc i (replicate (Z.to_nat bs) x00) d Hd ltac:(lia) ltac:(len)).
  intros b d1 [Hd1 Hlb]. wplift (get_u8_ok b 0 ltac:(lia)).
  destruct (negb _); [by apply wp_ret|].
  wplift (unmarshal_descriptor_header_ok b ltac:(lia)). destruct (negb _); [by apply wp_ret|].
  destruct (negb _); [by apply wp_ret|]. wplift (room_ok bs ltac:(lia)).
  pose proof (field_range b 2 2) as Hks. pose proof (field_range b 12 4) as Hps.
  destruct (bs - 36 <? dh_key_size (decode_descriptor b)) eqn:Ek; [by apply wp_ret|]. zbool.
  wplift (first_payload_capacity_ok bs (dh_key_size (decode_descriptor b))
            ltac:(simpl in *; lia) ltac:(lia)).
  destruct (_ <? dh_first_payload_size (decode_descriptor b)) eqn:Ep; [by apply wp_ret|]. zbool.
  destruct (_ =? 0); [by apply wp_ret|]. consts.
  simpl in Hks, Hps, Ek, Ep.
  apply wp_bind; eapply wp_lift; [apply slice_ok; simpl; lia|].
  apply wp_bind; eapply wp_lift; [apply slice_ok; simpl; lia|].
  set (key := take _ _). set (value := take _ _).
  assert (zlen key = dh_key_size (decode_descriptor b)) as Hkey by (unfold key; simpl; len).
  assert (zlen value = dh_first_payload_size (decode_descriptor b)) as Hval
    by (unfold value; simpl; len).
  unfold finish_record. destruct (_ =? 1) eqn:Ec; zbool.
  { destruct (negb _ || negb _) eqn:Et; apply wp_ret; [done|]. split; [done|]. intros r [= <-].
    apply orb_false_elim in Et as [Et%negb_false_iff _]. zbool.
    eapply (record_wf_intro bs bc i (decode_descriptor b) key value 1); [apply decode_descriptor_wf|done|done|simpl in *; lia
      |exists []; split_and!; [done|constructor|constructor|len..]|simpl in *; lia|].
    rewrite Hval, as_u32_small; simpl in *; lia. }
  destruct (_ =? NULL_BLOCK_INDEX); [by apply wp_ret|]. wpgets. destruct (Hd1) as (_ & _ & ->).
  pose proof (size_visit bc ∅ i Hi (not_elem_of_empty i)) as Hsv.
  rewrite difference_empty_L, union_empty_r_L in Hsv.
  pose proof (size_block_range bc ltac:(lia)) as Hsr.
  apply wp_bind. eapply wp_mono; [eapply read_chunks_safe; [done|lia|len|
    apply (field_range b 20 4)|lia|lia|unfold chunk_fuel; lia]| |done].
  cbv beta. intros [[[n v] bl]|] d2 [Hd2 Ho]; [|by apply wp_ret].
  destruct (negb _) eqn:En; [by apply wp_ret|]. destruct (negb (as_u32 _ =? _)) eqn:Et; apply wp_ret; [done|].
  split; [done|]. intros r [= <-]. apply negb_false_iff in En, Et. zbool. simpl in Ho.
  eapply (record_wf_intro bs bc i (decode_descriptor b) key value); [apply decode_descriptor_wf|done|done|simpl in *; lia|exact Ho|done|done].
Qed.

Lemma verify_safe bs bc i d :
  dev_geom bs bc d → 36 ≤ bs → 0 ≤ i < bc →
  wp (verify_and_read_record i)
     (λ o d', dev_geom bs bc d' ∧ ∀ rec, o = Some rec → u32 (cr_generation rec))
     (λ _ d', dev_geom bs bc d') d.
Proof.
  intros Hd Hbs Hi. eapply wp_mono; [by apply (verify_typed bs bc)| |done]. cbv beta.
  intros o d' [Hd' Ho]. split; [done|]. intros rec Hrec. destruct (Ho rec Hrec) as [Hh -> _ _ _ _ _ _].
  apply Hh.
Qed.

End Hostile.

(** ** Properties *)

(** C7: on a working device [verify_and_read_record] returns, for any block
    index of the device, and accepts exactly the complete records: it yields
    [Some rec] when the block is a valid descriptor whose chunk chain is intact
    (types, CRCs, owner, positions, sizes and count all agree) and [rec] is the
    key, generation, blocks and value it describes, and [None] otherwise.  It
    changes nothing on the device. *)
Theorem verify_reads_exactly `{Profile} `{ReliableDevice D} (d : D) bs img i :
  dev_at d bs img → 36 ≤ bs → 0 ≤ i < zlen img →
  ∃ d' o, verify_and_read_record i d = (d', Ok o) ∧ dev_at d' bs img ∧
    ∀ rec, o = Some rec ↔ complete bs img i rec.
Proof. apply verify_spec. Qed.

Lemma verify_reads_exactly_witness :
  ∃ d' o, verify_and_read_record (H := dev_profile) 1 (MemDevice_new 64 4) = (d', Ok o) ∧ o = None.
Proof.
  destruct (verify_reads_exactly (H := dev_profile) (MemDevice_new 64 4) 64 _ 1
    (MemDevice_new_at 64 4 ltac:(lia) ltac:(lia)) ltac:(lia) ltac:(simpl; lia))
    as (d' & o & Hrun & _ & _).
  exists d', o. split; [exact Hrun|]. vm_compute in Hrun. by injection Hrun as _ <-.
Defined.

(** C18: whatever a device answers, [verify_and_read_record] neither panics nor
    loops: with blocks of at least 36 bytes it returns a record, [None] or the
    error of a device call, after at most one pass over the blocks. *)
Theorem verify_total `{Profile} `{SafeDevice D} (d : D) i :
  dev_ok d → 36 ≤ block_size d → 0 ≤ i < block_count d →
  returns (verify_and_read_record i d).2 ∧ dev_ok (verify_and_read_record i d).1 ∧
  same_geometry d (verify_and_read_record i d).1.
Proof.
  intros Hd Hbs Hi.
  pose proof (verify_safe (block_size d) (block_count d) i d (conj Hd (conj eq_refl eq_refl)) Hbs Hi)
    as Hv. split; [by eapply wp_returns|]. unfold wp in Hv.
  destruct (verify_and_read_record i d) as [d' [o|e| |]]; try done.
  destruct Hv as [(? & ? & ?) _]. by split_and!.
Qed.

Lemma verify_total_witness :
  returns (verify_and_read_record (H := dev_profile) 3 (MemDevice_new 64 4)).2.
Proof. apply verify_total; [apply MemDevice_new_wf; lia|simpl; lia|simpl; lia]. Defined.

(** C8: a record that is read is well-typed, on any device: whatever the device
    answers, if [verify_and_read_record] returns a record then all its header
    fields have their width, the key is as long as the header says, the
    generation is that of the header, the blocks are distinct and on the device,
    there are as many as the header says, the value has the length the header
    says (modulo 2^32) and fits in these blocks. *)
Theorem records_well_typed `{Profile} `{SafeDevice D} (d d' : D) i rec :
  dev_ok d → 36 ≤ block_size d → 0 ≤ i < block_count d →
  verify_and_read_record i d = (d', Ok (Some rec)) →
  record_wf (block_size d) (block_count d) i rec.
Proof.
  intros Hd Hbs Hi Hrun.
  pose proof (verify_typed (block_size d) (block_count d) i d (conj Hd (conj eq_refl eq_refl)) Hbs Hi)
    as Hv. unfold wp in Hv. rewrite Hrun in Hv. by apply Hv.
Qed.

Lemma chain_payload_length bs img owner idx next bl pl :
  Forall (λ b, zlen b = bs) img → 24 ≤ bs → chain bs img owner idx next bl pl →
  zlen pl ≤ zlen bl * bs.
Proof.
  intros Hf Hbs. induction 1 as [idx|idx next b bl pl Hn Hb Hok Hc IH]; [simpl; lia|].
  apply block_at_Some in Hb as [_ Hb]. eapply Forall_lookup_1 in Hf as Hl; [|exact Hb].
  rewrite length_app, length_cons. unfold chunk_payload. rewrite length_take, length_drop. lia.
Qed.

(** C32: the capacities reserved by [verify_and_read_record] are safe and enough:
    they never exceed the size of the device, whatever the header says, and for
    a complete record the chunk list is exactly as long as reserved and a value
    below 4 GiB is too; the value always fits the device. *)
Theorem capacities_exact bs img i rec :
  Forall (λ b, zlen b = bs) img → 36 ≤ bs → zlen img < U32 → complete bs img i rec →
  zlen (cr_value rec) ≤ bs * zlen img ∧
  chunks_capacity (cr_header rec) (zlen img) = zlen (cr_chunk_blocks rec) ∧
  (zlen (cr_value rec) < U32 →
    value_capacity (cr_header rec) bs (zlen img) = zlen (cr_value rec)) ∧
  ∀ hdr, value_capacity hdr bs (zlen img) ≤ bs * zlen img ∧
    chunks_capacity hdr (zlen img) ≤ zlen img.
Proof.
  intros Hf Hbs Hn Hc. pose proof (complete_NoDup _ _ _ _ Hc) as Hnd.
  destruct Hc as (b & bl & pl & Hb & Hd & Hch & Hcount & Htotal & ->). simpl in *.
  unfold record_blocks in Hnd. simpl in Hnd. apply block_at_range in Hb as Hi.
  assert (in_image img (i :: bl)) as Hin by (constructor; [done|by eapply chain_in_image]).
  pose proof (NoDup_in_image _ _ Hnd Hin) as Hlen. rewrite length_cons in Hlen.
  pose proof (chain_payload_length _ _ _ _ _ _ _ Hf ltac:(lia) Hch) as Hpl.
  assert (zlen (descriptor_payload b) ≤ bs) as Hfirst.
  { apply block_at_Some in Hb as [_ Hb]. eapply Forall_lookup_1 in Hf as Hlb; [|exact Hb].
    unfold descriptor_payload. rewrite length_take, length_drop. lia. }
  assert (zlen (descriptor_payload b ++ pl) ≤ bs * zlen img) as Hv by (rewrite length_app; nia).
  unfold chunks_capacity, value_capacity. split_and!; [done|simpl; lia| |intros hdr; lia].
  intros Hsmall. simpl. rewrite Htotal, as_u32_small by lia. lia.
Qed.

(** A block holding a small complete record. *)
Definition sample_block : list byte :=
  seal (encode_descriptor {|
    dh_block_type := BLOCK_TYPE_RECORD_DESCRIPTOR; dh_header_size := 32; dh_key_size := 1;
    dh_generation := 7; dh_total_size := 2; dh_first_payload_size := 2; dh_chunk_count := 1;
    dh_next_chunk := NULL_BLOCK_INDEX; dh_flags := 0; dh_user_flags := 0 |}
    ++ [x6b] ++ [x76; x31] ++ replicate 25 x00).

Lemma sample_complete :
  ∃ rec, complete 64 [replicate 64 x00; sample_block] 1 rec ∧ cr_value rec = [x76; x31].
Proof.
  eexists. split.
  - exists sample_block, [], []. split_and!; [done| |apply chain_end|done|done|reflexivity].
    by vm_compute.
  - reflexivity.
Qed.

Lemma capacities_exact_witness :
  ∃ rec, complete 64 [replicate 64 x00; sample_block] 1 rec ∧
    chunks_capacity (cr_header rec) 2 = zlen (cr_chunk_blocks rec).
Proof.
  destruct sample_complete as (rec & Hc & _). exists rec. split; [exact Hc|].
  apply (capacities_exact 64 [replicate 64 x00; sample_block] 1 rec); [|lia|simpl; lia|exact Hc].
  by repeat constructor.
Defined.

Lemma records_well_typed_witness :
  ∃ d' rec, verify_and_read_record (H := dev_profile) 1
      {| md_block_size := 64; md_block_count := 2; md_data := replicate 64 x00 ++ sample_block |}
      = (d', Ok (Some rec)) ∧ record_wf 64 2 1 rec.
Proof.
  destruct (verify_and_read_record (H := dev_profile) 1 {| md_block_size := 64; md_block_count := 2;
    md_data := replicate 64 x00 ++ sample_block |}) as [d' [[rec|]|e| |]] eqn:Hrun;
    [|by vm_compute in Hrun..].
  exists d', rec. split; [reflexivity|].
  refine (records_well_typed (H := dev_profile) (D := MemDevice) _ d' 1 rec _ _ _ Hrun);
    [|simpl; lia|simpl; lia].
  split_and!; by vm_compute.
Defined.
