(* ===== verification/Utf8.v ===== *)
(** * Keys as strings

    The store turns a key into a [String] with [String::from_utf8_lossy]
    before it looks the key up (rust/src/store.rs).  A Rust [String] is modelled by its UTF-8
    bytes.  This file models the lossy decoding of the standard library:
    every maximal invalid sequence becomes the replacement character. *)

From S2P Require Import Prelude.

(** UTF-8 of U+FFFD. *)
Definition REPLACEMENT : list byte := [xef; xbf; xbd].

Definition in_range (lo hi : Z) (b : byte) : bool := (lo <=? b2z b) && (b2z b <=? hi).
Definition continuation (b : byte) : bool := in_range 0x80 0xBF b.

(** The byte at position [i], or 0 past the end (which continues nothing). *)
Definition safe_get (l : list byte) (i : nat) : byte := default x00 (l !! i).

(** The second byte a three-byte or four-byte sequence may have. *)
Definition second3 (b0 b1 : byte) : bool :=
  in_range 0xE0 0xE0 b0 && in_range 0xA0 0xBF b1
  || in_range 0xE1 0xEC b0 && continuation b1
  || in_range 0xED 0xED b0 && in_range 0x80 0x9F b1
  || in_range 0xEE 0xEF b0 && continuation b1.
Definition second4 (b0 b1 : byte) : bool :=
  in_range 0xF0 0xF0 b0 && in_range 0x90 0xBF b1
  || in_range 0xF1 0xF3 b0 && continuation b1
  || in_range 0xF4 0xF4 b0 && in_range 0x80 0x8F b1.

(** The next sequence of a non-empty input: is it a valid character, and how
    many bytes does it take? *)
Definition utf8_next (l : list byte) : bool * nat :=
  let b0 := safe_get l 0 in
  if in_range 0x00 0x7F b0 then (true, 1%nat)
  else if in_range 0xC2 0xDF b0 then
    if continuation (safe_get l 1) then (true, 2%nat) else (false, 1%nat)
  else if in_range 0xE0 0xEF b0 then
    if negb (second3 b0 (safe_get l 1)) then (false, 1%nat)
    else if continuation (safe_get l 2) then (true, 3%nat) else (false, 2%nat)
  else if in_range 0xF0 0xF4 b0 then
    if negb (second4 b0 (safe_get l 1)) then (false, 1%nat)
    else if negb (continuation (safe_get l 2)) then (false, 2%nat)
    else if continuation (safe_get l 3) then (true, 4%nat) else (false, 3%nat)
  else (false, 1%nat).

Fixpoint lossy_fuel (fuel : nat) (l : list byte) : list byte :=
  match fuel, l with
  | _, [] => []
  | O, _ => []
  | S fuel, _ =>
      let '(ok, n) := utf8_next l in
      (if ok then take n l else REPLACEMENT) ++ lossy_fuel fuel (drop n l)
  end.

(** [String::from_utf8_lossy(l)]: every sequence takes at least one byte. *)
Definition from_utf8_lossy (l : list byte) : list byte := lossy_fuel (length l) l.

(** Valid UTF-8: a concatenation of valid characters. *)
Inductive valid_utf8 : list byte → Prop :=
| valid_nil : valid_utf8 []
| valid_char l n : l ≠ [] → utf8_next l = (true, n) → valid_utf8 (drop n l) → valid_utf8 l.

Lemma utf8_next_pos l ok n : utf8_next l = (ok, n) → (1 ≤ n)%nat.
Proof.
  unfold utf8_next. intros H. repeat case_match; simplify_eq; lia.
Qed.

Lemma continuation_x00 : continuation x00 = false.
Proof. done. Qed.
Lemma second3_x00 b : second3 b x00 = false.
Proof. unfold second3, continuation, in_range. by rewrite !andb_false_r. Qed.
Lemma second4_x00 b : second4 b x00 = false.
Proof. unfold second4, continuation, in_range. by rewrite !andb_false_r. Qed.

(** Past the end of the input no sequence continues. *)
Lemma safe_get_lt l i : safe_get l i ≠ x00 → (i < length l)%nat.
Proof.
  intros Hn. destruct (decide (i < length l)%nat) as [|Hge]; [done|].
  unfold safe_get in Hn. by rewrite lookup_ge_None_2 in Hn by lia.
Qed.

Lemma utf8_next_length l n : l ≠ [] → utf8_next l = (true, n) → (n ≤ length l)%nat.
Proof.
  intros Hl H. assert (1 ≤ length l)%nat by (destruct l; simpl; [done|lia]).
  assert (∀ i, continuation (safe_get l i) = true → (i < length l)%nat) as Hc.
  { intros i Hi. apply safe_get_lt. intros E. by rewrite E, continuation_x00 in Hi. }
  revert H. unfold utf8_next. destruct (in_range 0x00 0x7F _); [by intros [= <-]|].
  destruct (in_range 0xC2 0xDF _).
  { destruct (continuation (safe_get l 1)) eqn:E; [|done]. intros [= <-]. by apply Hc. }
  destruct (in_range 0xE0 0xEF _).
  { destruct (negb _); [done|]. destruct (continuation (safe_get l 2)) eqn:E; [|done].
    intros [= <-]. by apply Hc. }
  destruct (in_range 0xF0 0xF4 _); [|done]. destruct (negb _); [done|].
  destruct (negb _); [done|]. destruct (continuation (safe_get l 3)) eqn:E; [|done].
  intros [= <-]. by apply Hc.
Qed.

Lemma safe_get_take l r n i :
  (i < n)%nat → (n ≤ length l)%nat → safe_get (take n l ++ r) i = safe_get l i.
Proof.
  intros. unfold safe_get. rewrite lookup_app_l by (rewrite length_take; lia).
  by rewrite lookup_take_lt.
Qed.

(** A valid character is recognised by its own bytes. *)
Lemma utf8_next_take l r n :
  l ≠ [] → utf8_next l = (true, n) → utf8_next (take n l ++ r) = (true, n).
Proof.
  intros Hl H. pose proof (utf8_next_length l n Hl H). pose proof (utf8_next_pos l _ _ H).
  revert H. unfold utf8_next. rewrite (safe_get_take l r n 0) by lia.
  destruct (in_range 0x00 0x7F _); [done|].
  destruct (in_range 0xC2 0xDF _).
  { destruct (continuation (safe_get l 1)) eqn:E; [|done]. intros [= <-].
    by rewrite safe_get_take, E by lia. }
  destruct (in_range 0xE0 0xEF _).
  { destruct (second3 _ (safe_get l 1)) eqn:E1; [|done].
    destruct (continuation (safe_get l 2)) eqn:E2; [|done]. intros [= <-].
    by rewrite !safe_get_take, E1, E2 by lia. }
  destruct (in_range 0xF0 0xF4 _); [|done].
  destruct (second4 _ (safe_get l 1)) eqn:E1; [|done].
  destruct (continuation (safe_get l 2)) eqn:E2; [|done].
  destruct (continuation (safe_get l 3)) eqn:E3; [|done]. intros [= <-].
  by rewrite !safe_get_take, E1, E2, E3 by lia.
Qed.

Lemma valid_utf8_char l r n :
  l ≠ [] → utf8_next l = (true, n) → valid_utf8 r → valid_utf8 (take n l ++ r).
Proof.
  intros Hl H Hr. pose proof (utf8_next_length l n Hl H). pose proof (utf8_next_pos l _ _ H).
  eapply valid_char; [|by apply utf8_next_take|].
  - intros E%(f_equal length). rewrite length_app, length_take in E. simpl in E. lia.
  - by rewrite drop_app_length' by (rewrite length_take; lia).
Qed.

Lemma valid_utf8_replacement r : valid_utf8 r → valid_utf8 (REPLACEMENT ++ r).
Proof. intros Hr. by apply (valid_char _ 3). Qed.

Lemma lossy_fuel_valid fuel l : valid_utf8 (lossy_fuel fuel l).
Proof.
  revert l. induction fuel as [|fuel IH]; intros [|b l]; cbn [lossy_fuel]; try constructor.
  destruct (utf8_next (b :: l)) as [[] n] eqn:E.
  - by apply valid_utf8_char.
  - by apply valid_utf8_replacement.
Qed.

Lemma lossy_fuel_id fuel l : valid_utf8 l → (length l ≤ fuel)%nat → lossy_fuel fuel l = l.
Proof.
  intros Hv. revert fuel. induction Hv as [|l n Hl Hn Hv IH]; intros fuel Hf.
  - by destruct fuel.
  - destruct fuel as [|fuel]; [destruct l; [done|simpl in Hf; lia]|].
    pose proof (utf8_next_pos l _ _ Hn). destruct l as [|b l]; [done|].
    cbn [lossy_fuel]. rewrite Hn, IH; [apply take_drop|]. rewrite length_drop. lia.
Qed.

Lemma lossy_id l : valid_utf8 l → from_utf8_lossy l = l.
Proof. intros. by apply lossy_fuel_id. Qed.

Lemma lossy_valid l : valid_utf8 (from_utf8_lossy l).
Proof. apply lossy_fuel_valid. Qed.
