(* ===== verification/Index.v ===== *)
(** * The in-memory index (rust/src/index.rs)

    A hash map from the key (as a string) to the latest complete record. *)

From S2P Require Import Prelude.

Record IndexEntry := {
  ie_key : list byte;
  ie_generation : Z;
  ie_descriptor_block : Z;
  ie_total_size : Z;
}.

Record MemIndex := { entries : gmap (list byte) IndexEntry }.

Definition MemIndex_new : MemIndex := {| entries := ∅ |}.

(** [impl Default for MemIndex] *)
Definition MemIndex_default : MemIndex := MemIndex_new.

Definition MemIndex_put (entry : IndexEntry) (ix : MemIndex) : MemIndex :=
  {| entries := <[ie_key entry := entry]> (entries ix) |}.

Definition MemIndex_get (key : list byte) (ix : MemIndex) : option IndexEntry :=
  entries ix !! key.

Definition MemIndex_delete (key : list byte) (ix : MemIndex) : MemIndex :=
  {| entries := delete key (entries ix) |}.

(** The entries in some order: the order of a hash map is unspecified, and the
    callers only collect them into sets. *)
Definition MemIndex_all_entries (ix : MemIndex) : list IndexEntry :=
  (map_to_list (entries ix)).*2.

Definition MemIndex_len (ix : MemIndex) : Z := Z.of_nat (size (entries ix)).

Definition MemIndex_is_empty (ix : MemIndex) : bool := bool_decide (size (entries ix) = 0%nat).

(** Every entry is filed under its own key. *)
Definition MemIndex_wf (ix : MemIndex) : Prop :=
  ∀ k e, MemIndex_get k ix = Some e → ie_key e = k.

Section Laws.
Implicit Types (ix : MemIndex) (k : list byte) (e : IndexEntry).

Lemma get_new k : MemIndex_get k MemIndex_new = None.
Proof. apply lookup_empty. Qed.

Lemma get_put e k ix :
  MemIndex_get k (MemIndex_put e ix) = if decide (ie_key e = k) then Some e else MemIndex_get k ix.
Proof. apply lookup_insert. Qed.

Lemma get_delete k k' ix :
  MemIndex_get k' (MemIndex_delete k ix) = if decide (k = k') then None else MemIndex_get k' ix.
Proof. apply lookup_delete. Qed.

Lemma put_wf e ix : MemIndex_wf ix → MemIndex_wf (MemIndex_put e ix).
Proof. intros Hw k e'. rewrite get_put. case_decide; [naive_solver|apply Hw]. Qed.

Lemma delete_wf k ix : MemIndex_wf ix → MemIndex_wf (MemIndex_delete k ix).
Proof. intros Hw k' e. rewrite get_delete. case_decide; [done|apply Hw]. Qed.

Lemma new_wf : MemIndex_wf MemIndex_new.
Proof. intros k e. by rewrite get_new. Qed.

Lemma all_entries_elem ix e : e ∈ MemIndex_all_entries ix ↔ ∃ k, MemIndex_get k ix = Some e.
Proof.
  unfold MemIndex_all_entries, MemIndex_get. rewrite list_elem_of_fmap. split.
  - intros ([k e'] & -> & Hm%elem_of_map_to_list). by exists k.
  - intros [k Hk]. exists (k, e). split; [done|]. by apply elem_of_map_to_list.
Qed.

Lemma is_empty_len ix : MemIndex_is_empty ix = (MemIndex_len ix =? 0).
Proof.
  unfold MemIndex_is_empty, MemIndex_len. case_bool_decide as E; symmetry;
    [apply Z.eqb_eq|apply Z.eqb_neq]; lia.
Qed.

End Laws.

#[export] Hint Resolve put_wf delete_wf new_wf : ekv.

(** ** Properties *)

(** The index is a map by key: after [put] the entry is found under its key
    and every other key is as before, after [delete] the key is gone and every
    other key is as before, a new or default index is empty, and [len],
    [is_empty] and [all_entries] describe the same entries. *)
Theorem index_is_map (ix : MemIndex) (e : IndexEntry) k :
  MemIndex_get k (MemIndex_put e ix) =
    (if decide (ie_key e = k) then Some e else MemIndex_get k ix) ∧
  MemIndex_get k (MemIndex_delete (ie_key e) ix) =
    (if decide (ie_key e = k) then None else MemIndex_get k ix) ∧
  MemIndex_get k MemIndex_new = None ∧ MemIndex_default = MemIndex_new ∧
  zlen (MemIndex_all_entries ix) = MemIndex_len ix ∧
  (MemIndex_is_empty ix = true ↔ ∀ k, MemIndex_get k ix = None) ∧
  (∀ e', e' ∈ MemIndex_all_entries ix ↔ ∃ k, MemIndex_get k ix = Some e').
Proof.
  split_and!; [apply get_put|apply get_delete|apply get_new|done| | |intros; apply all_entries_elem].
  - unfold MemIndex_all_entries, MemIndex_len. by rewrite length_fmap, length_map_to_list.
  - unfold MemIndex_is_empty, MemIndex_get. rewrite bool_decide_eq_true. split.
    + intros Hs k'. apply map_size_empty_inv in Hs. by rewrite Hs, lookup_empty.
    + intros Hn. apply map_size_empty_iff, map_empty. exact Hn.
Qed.
