(* ===== verification/Replica.v ===== *)
(** * One replica (rust/src/store.rs, [impl Replica])

    The per-device operations: building the index, recovery, lookup, and the
    copy-on-write update with its allocation, record writing and erasure. *)

From S2P Require Import Prelude Errors Rust Format Crc Block Device Record Utf8 Index.

Record Replica (D : Type) := {
  r_dev : D;
  r_header : StorageHeader;
  r_index : MemIndex;
}.
Arguments r_dev {D} _.
Arguments r_header {D} _.
Arguments r_index {D} _.

(** The key as the index sees it. *)
Definition key_str (key : list byte) : list byte := from_utf8_lossy key.

(** ** Operations on the device of a replica *)

Section Device.
Context `{Profile} `{BlockDevice D}.

(** The scan of [find_free_blocks] over the remaining indices. *)
Fixpoint free_scan (n : Z) (indices : list Z) (buf : list byte) (result : list Z) : M D (list Z) :=
  match indices with
  | [] => mret result
  | i :: indices =>
      if n <=? zlen result then mret result else
      buf ← read_block i buf;
      free ← lift (is_free_candidate buf);
      free_scan n indices buf (if free : bool then result ++ [i] else result)
  end.

Definition find_free_blocks (n : Z) : M D (list Z) :=
  bs ← gets block_size;
  bc ← gets block_count;
  result ← free_scan n (seqZ 1 (bc - 1)) (replicate (Z.to_nat bs) x00) [];
  if zlen result <? n then throw StorageFull else mret result.

(** The descriptor block built by [write_record]. *)
Definition descriptor_buf (bs : Z) (hdr : RecordDescriptorHeader) (key value : list byte)
    (first_size : Z) : outcome (list byte) :=
  buf ← marshal_descriptor_header hdr (replicate (Z.to_nat bs) x00);
  let key_off := RECORD_DESCRIPTOR_HEADER_SIZE in
  buf ← copy_from_slice buf key_off (key_off + zlen key) key;
  let payload_off := key_off + zlen key in
  first ← slice value 0 first_size;
  buf ← copy_from_slice buf payload_off (payload_off + first_size) first;
  write_block_crc buf.

(** A chunk block built by [write_record]. *)
Definition chunk_buf (bs : Z) (ch : ValueChunkHeader) (remaining : list byte) :
    outcome (list byte) :=
  cbuf ← marshal_chunk_header ch (replicate (Z.to_nat bs) x00);
  let hdr_len := VALUE_CHUNK_HEADER_SIZE in
  payload ← slice remaining 0 (ch_payload_size ch);
  cbuf ← copy_from_slice cbuf hdr_len (hdr_len + ch_payload_size ch) payload;
  write_block_crc cbuf.

(** The loop over the chunk blocks, from position [ci]. *)
Fixpoint write_chunks (bs chunk_cap descriptor_block : Z) (chunk_blocks : list Z)
    (ci : Z) (rest : list Z) (remaining : list byte) : M D unit :=
  match rest with
  | [] => mret tt
  | block_idx :: rest =>
      let payload_size := Z.min (as_u32 (zlen remaining)) chunk_cap in
      next_idx ← lift (if ci + 1 <? zlen chunk_blocks then index chunk_blocks (ci + 1)
                       else Ok NULL_BLOCK_INDEX);
      let ch := {|
        ch_block_type := BLOCK_TYPE_VALUE_CHUNK;
        ch_header_size := as_u8 VALUE_CHUNK_HEADER_SIZE;
        ch_flags := 0;
        ch_owner_descriptor := descriptor_block;
        ch_chunk_index := as_u32 (ci + 1);
        ch_payload_size := payload_size;
        ch_next_chunk := next_idx |} in
      cbuf ← lift (chunk_buf bs ch remaining);
      write_block block_idx cbuf;;
      remaining ← lift (slice remaining payload_size (zlen remaining));
      write_chunks bs chunk_cap descriptor_block chunk_blocks (ci + 1) rest remaining
  end.

Definition write_record (descriptor_block : Z) (chunk_blocks : list Z) (key : list byte)
    (generation : Z) (value : list byte) (user_flags : Z) : M D unit :=
  bs ← gets block_size;
  let key_len := as_u32 (zlen key) in
  first_cap ← lift (first_payload_capacity bs key_len);
  chunk_cap ← lift (chunk_payload_capacity bs);
  let vlen := as_u32 (zlen value) in
  let first_size := Z.min vlen first_cap in
  chunk_count ← lift (u32_add 1 (as_u32 (zlen chunk_blocks)));
  next_chunk ← lift (if bool_decide (chunk_blocks = []) then Ok NULL_BLOCK_INDEX
                     else index chunk_blocks 0);
  let hdr := {|
    dh_block_type := BLOCK_TYPE_RECORD_DESCRIPTOR;
    dh_header_size := as_u8 RECORD_DESCRIPTOR_HEADER_SIZE;
    dh_key_size := as_u16 key_len;
    dh_generation := generation;
    dh_total_size := vlen;
    dh_first_payload_size := first_size;
    dh_chunk_count := chunk_count;
    dh_next_chunk := next_chunk;
    dh_flags := 0;
    dh_user_flags := user_flags |} in
  buf ← lift (descriptor_buf bs hdr key value first_size);
  write_block descriptor_block buf;;
  remaining ← lift (slice value first_size (zlen value));
  write_chunks bs chunk_cap descriptor_block chunk_blocks 0 chunk_blocks remaining.

(** The loop of [free_record] over the chunk chain. *)
Fixpoint free_chunks (fuel : nat) (bc : Z) (free : list byte) (next : Z) (visited : gset Z)
    (cbuf : list byte) : M D unit :=
  match fuel with
  | O => lift Diverge
  | S fuel =>
    if (next =? NULL_BLOCK_INDEX) || (bc <=? next) then mret tt else
    if bool_decide (next ∈ visited) then mret tt else
    let visited := {[next]} ∪ visited in
    cbuf ← read_block next cbuf;
    '(ch, ok) ← lift (unmarshal_chunk_header cbuf);
    if negb ok then mret tt else
    let following := ch_next_chunk ch in
    write_block next free;;
    free_chunks fuel bc free following visited cbuf
  end.

Definition free_record (descriptor_block : Z) (free_pattern : byte) : M D unit :=
  bs ← gets block_size;
  bc ← gets block_count;
  buf ← read_block descriptor_block (replicate (Z.to_nat bs) x00);
  '(hdr, ok) ← lift (unmarshal_descriptor_header buf);
  if negb ok then throw CrcMismatch else
  let free := make_free_buf bs free_pattern in
  write_block descriptor_block free;;
  free_chunks (chunk_fuel bc) bc free (dh_next_chunk hdr) ∅ (replicate (Z.to_nat bs) x00).

(** One step of the scan of [recover]: keep the best complete record per key. *)
Definition recover_scan (i : Z) (acc : list byte * gmap (list byte) CompleteRecord) :
    M D (list byte * gmap (list byte) CompleteRecord) :=
  let '(buf, best) := acc in
  buf ← read_block i buf;
  t ← lift (get_u8 buf 0);
  if negb (t =? BLOCK_TYPE_RECORD_DESCRIPTOR) then mret (buf, best) else
  o ← verify_and_read_record i;
  match o with
  | None => mret (buf, best)
  | Some rec =>
      let k := key_str (cr_key rec) in
      let should_update := match best !! k with
        | None => true
        | Some ex => cr_generation ex <? cr_generation rec
        end in
      mret (buf, if should_update then <[k := rec]> best else best)
  end.

(** The blocks of the best records, and block 0. *)
Definition valid_blocks (best : gmap (list byte) CompleteRecord) : gset Z :=
  foldl (λ valid rec, list_to_set (cr_chunk_blocks rec) ∪ ({[cr_descriptor_block rec]} ∪ valid))
    {[0]} (map_to_list best).*2.

(** One step of the erasure of [recover]. *)
Definition recover_erase (valid : gset Z) (free : list byte) (i : Z) (acc : list byte * bool) :
    M D (list byte * bool) :=
  let '(buf, garbage_found) := acc in
  if bool_decide (i ∈ valid) then mret (buf, garbage_found) else
  buf ← read_block i buf;
  t ← lift (get_u8 buf 0);
  if (t =? 0x00) || (t =? 0xFF) then mret (buf, garbage_found) else
  write_block i free;;
  mret (buf, true).

Definition recover_device (free_pattern : byte) : M D unit :=
  bs ← gets block_size;
  bc ← gets block_count;
  '(buf, best) ← for_fold recover_scan (seqZ 1 (bc - 1)) (replicate (Z.to_nat bs) x00, ∅);
  let valid := valid_blocks best in
  let free := make_free_buf bs free_pattern in
  '(_, garbage_found) ← for_fold (recover_erase valid free) (seqZ 1 (bc - 1)) (buf, false);
  if garbage_found : bool then flush else mret tt.

End Device.

(** ** Methods of [Replica] *)

Section Methods.
Context `{Profile} `{BlockDevice D}.

Definition set_dev (d : D) (r : Replica D) : Replica D :=
  {| r_dev := d; r_header := r_header r; r_index := r_index r |}.
Definition set_index_of (ix : MemIndex) (r : Replica D) : Replica D :=
  {| r_dev := r_dev r; r_header := r_header r; r_index := ix |}.

Definition on_dev {A} (m : M D A) : M (Replica D) A := zoom r_dev set_dev m.
Definition on_index (f : MemIndex → MemIndex) : M (Replica D) unit :=
  modify (λ r, set_index_of (f (r_index r)) r).

(** One step of the scan of [build_index]. *)
Definition index_scan (i : Z) (buf : list byte) : M (Replica D) (list byte) :=
  buf ← on_dev (read_block i buf);
  t ← lift (get_u8 buf 0);
  if negb (t =? BLOCK_TYPE_RECORD_DESCRIPTOR) then mret buf else
  o ← on_dev (verify_and_read_record i);
  match o with
  | None => mret buf
  | Some rec =>
      let k := key_str (cr_key rec) in
      ix ← gets r_index;
      let should_update := match MemIndex_get k ix with
        | None => true
        | Some ex => ie_generation ex <? cr_generation rec
        end in
      (if should_update : bool then
         on_index (MemIndex_put {|
           ie_key := k; ie_generation := cr_generation rec;
           ie_descriptor_block := i; ie_total_size := dh_total_size (cr_header rec) |})
       else mret tt);;
      mret buf
  end.

Definition Replica_build_index : M (Replica D) unit :=
  on_index (λ _, MemIndex_new);;
  bc ← gets (λ r, block_count (r_dev r));
  bs ← gets (λ r, block_size (r_dev r));
  _ ← for_fold index_scan (seqZ 1 (bc - 1)) (replicate (Z.to_nat bs) x00);
  mret tt.

Definition Replica_recover (free_pattern : byte) : M (Replica D) unit :=
  on_dev (recover_device free_pattern).

(** [None]: the key is not indexed; otherwise the result of the read. *)
Definition get_with_generation (key : list byte) :
    M (Replica D) (option (Z * list byte + Error)) :=
  ix ← gets r_index;
  match MemIndex_get (key_str key) ix with
  | None => mret None
  | Some e =>
      result ← attempt (on_dev (verify_and_read_record (ie_descriptor_block e)));
      mret (Some (match result with
        | inl (Some rec) => inl (ie_generation e, cr_value rec)
        | inl None => inr CorruptRecord
        | inr err => inr err
        end))
  end.

Definition Replica_put (key value : list byte) (generation user_flags : Z) (free_pattern : byte) :
    M (Replica D) unit :=
  let k := key_str key in
  ix ← gets r_index;
  let existing_block := ie_descriptor_block <$> MemIndex_get k ix in
  bs ← gets (λ r, block_size (r_dev r));
  needed ← lift (needed_blocks key value bs);
  free_blocks ← on_dev (find_free_blocks needed);
  descriptor_block ← lift (index free_blocks 0);
  chunk_blocks ← lift (slice free_blocks 1 (zlen free_blocks));
  on_dev (write_record descriptor_block chunk_blocks key generation value user_flags);;
  on_dev flush;;
  on_index (MemIndex_put {|
    ie_key := k; ie_generation := generation; ie_descriptor_block := descriptor_block;
    ie_total_size := as_u32 (zlen value) |});;
  match existing_block with
  | Some old_block => on_dev (free_record old_block free_pattern);; on_dev flush
  | None => mret tt
  end.

End Methods.
