(* ===== verification/Store.v ===== *)
(** * The store (rust/src/store.rs)

    [Options], [format], [open] and the public operations of [Store], which
    fan out to the replicas. *)

From S2P Require Import Prelude Errors Rust Format Crc Block Device Record Utf8 Index Replica.

Record Options := {
  free_pattern : byte;
  replica_id : Z;
  format_seq : Z;
}.

(** [Options::new] and [Options::default]. *)
Definition Options_new : Options := {| free_pattern := x00; replica_id := 0; format_seq := 0 |}.

Record Store (D : Type) := {
  replicas : list (Replica D);
  opts : Options;
}.
Arguments replicas {D} _.
Arguments opts {D} _.

(** The order in which a [HashSet] of keys is iterated.  Every [HashSet::new]
    takes a fresh [RandomState], so the order depends on a seed that differs from
    one set to the next; which order a seed gives is unspecified and is a
    parameter here.  All that is documented is that iteration visits every element
    exactly once. *)
Class HashOrder := {
  hash_seed : Type;
  hash_order : hash_seed → gset (list byte) → list (list byte);
  hash_order_elements σ s : hash_order σ s ≡ₚ elements s;
}.

Section Code.
Context `{Profile} `{BlockDevice D}.

(** ** format *)

Definition format_device (opts : Options) (i : Z) : M D unit :=
  bs ← gets block_size;
  if bs <? STORAGE_HEADER_SIZE + BLOCK_CRC_SIZE then throw InvalidBlockSize else
  bc ← gets block_count;
  replica_id ← lift (u32_add (replica_id opts) (as_u32 i));
  let hdr := {|
    sh_block_type := BLOCK_TYPE_STORAGE_HEADER;
    sh_magic := MAGIC;
    sh_version_major := VERSION_MAJOR;
    sh_version_minor := VERSION_MINOR;
    sh_block_size := bs;
    sh_block_count := bc;
    sh_replica_id := replica_id;
    sh_format_seq := format_seq opts;
    sh_flags := 0 |} in
  buf ← lift (marshal_storage_header hdr (replicate (Z.to_nat bs) x00));
  buf ← lift (write_block_crc buf);
  write_block 0 buf;;
  flush.

(** The loop of [format] over the devices from index [i]. *)
Fixpoint format_devices (opts : Options) (i : Z) (devs : list D) : list D * outcome unit :=
  match devs with
  | [] => ([], Ok tt)
  | d :: devs =>
      match format_device opts i d with
      | (d', Ok _) => let '(devs', r) := format_devices opts (i + 1) devs in (d' :: devs', r)
      | (d', r) => (d' :: devs, r)
      end
  end.

Definition format (opts : Options) (devs : list D) : list D * outcome unit :=
  match devs with
  | [] => (devs, Err NoReplicas)
  | _ => format_devices opts 0 devs
  end.

(** ** open *)

Definition open_replica_header : M D StorageHeader :=
  bs ← gets block_size;
  if bs <? STORAGE_HEADER_SIZE + BLOCK_CRC_SIZE then throw InvalidBlockSize else
  buf ← read_block 0 (replicate (Z.to_nat bs) x00);
  t ← lift (get_u8 buf 0);
  if negb (t =? BLOCK_TYPE_STORAGE_HEADER) then throw InvalidHeader else
  '(hdr, ok) ← lift (unmarshal_storage_header buf);
  if negb ok then throw CrcMismatch else
  if negb (bool_decide (sh_magic hdr = MAGIC)) then throw InvalidHeader else
  if negb (sh_block_size hdr =? bs) then throw InvalidHeader else
  bc ← gets block_count;
  if negb (sh_block_count hdr =? bc) then throw InvalidHeader else
  if sh_block_count hdr <? 1 then throw InvalidHeader else
  mret hdr.

(** The loop of [open]: [geometry] is [None] before the first device. *)
Fixpoint open_devices (devs : list D) (geometry : option (Z * Z)) : outcome (list (Replica D)) :=
  match devs with
  | [] => Ok []
  | d :: devs =>
      match open_replica_header d with
      | (d', Ok header) =>
          let here := (block_size d', block_count d') in
          let mismatch := match geometry with
            | None => false
            | Some g => negb (fst here =? fst g) || negb (snd here =? snd g)
            end in
          if mismatch then Err ReplicaMismatch else
          rs ← open_devices devs (Some (default here geometry));
          Ok ({| r_dev := d'; r_header := header; r_index := MemIndex_new |} :: rs)
      | (_, Err e) => Err e
      | (_, Panic) => Panic
      | (_, Diverge) => Diverge
      end
  end.

Definition open (devs : list D) (opts : Options) : outcome (Store D) :=
  match devs with
  | [] => Err NoReplicas
  | _ => rs ← open_devices devs None; Ok {| replicas := rs; opts := opts |}
  end.

(** ** Operations of [Store] *)

Definition on_replicas {A} (f : list (Replica D) → list (Replica D) * outcome A) :
    M (Store D) A := λ s,
  let '(rs, r) := f (replicas s) in ({| replicas := rs; opts := opts s |}, r).

Definition build_index : M (Store D) unit := on_replicas (for_each_mut Replica_build_index).

Definition recover : M (Store D) unit :=
  o ← gets opts;
  on_replicas (for_each_mut (Replica_recover (free_pattern o))).

(** One iteration of the loop of [get]. *)
Definition get_best (key : list byte) (acc : option (list byte) * Z) :
    M (Replica D) (option (list byte) * Z) :=
  let '(best, best_gen) := acc in
  r ← get_with_generation key;
  match r with
  | Some (inl (gen, val)) =>
      if bool_decide (best = None) || (best_gen <? gen) then mret (Some val, gen)
      else mret (best, best_gen)
  | _ => mret (best, best_gen)
  end.

Definition get (key : list byte) : M (Store D) (list byte) :=
  '(best, _) ← on_replicas (λ rs, for_each_fold (get_best key) rs (None, 0));
  match best with
  | Some v => mret v
  | None => throw KeyNotFound
  end.

(** The highest generation of a key in the indexes. *)
Definition max_generation (k : list byte) (rs : list (Replica D)) : Z :=
  foldl (λ generation r,
    match MemIndex_get k (r_index r) with
    | Some e => if generation <? ie_generation e then ie_generation e else generation
    | None => generation
    end) 0 rs.

Definition put_flagged (key value : list byte) (user_flags : Z) : M (Store D) unit :=
  rs ← gets replicas;
  r0 ← lift (index rs 0);
  let bs := block_size (r_dev r0) in
  room ← lift (a ← u32_sub bs RECORD_DESCRIPTOR_HEADER_SIZE; u32_sub a BLOCK_CRC_SIZE);
  if room <? as_u32 (zlen key) then throw KeyTooLong else
  generation ← lift (u32_add (max_generation (key_str key) rs) 1);
  o ← gets opts;
  on_replicas (for_each_mut (Replica_put key value generation user_flags (free_pattern o))).

Definition put (key value : list byte) : M (Store D) unit := put_flagged key value 0.

(** One iteration of the loop of [delete]. *)
Definition delete_one (k : list byte) (pattern : byte) (found : bool) : M (Replica D) bool :=
  ix ← gets r_index;
  match MemIndex_get k ix with
  | None => mret found
  | Some e =>
      on_dev (free_record (ie_descriptor_block e) pattern);;
      on_dev flush;;
      on_index (MemIndex_delete k);;
      mret true
  end.

Definition delete (key : list byte) : M (Store D) unit :=
  o ← gets opts;
  found ← on_replicas (λ rs, for_each_fold (delete_one (key_str key) (free_pattern o)) rs false);
  if negb found then throw KeyNotFound else mret tt.

(** [Store::close] closes every device and ignores the results. *)
Definition store_close (s : Store D) : list (outcome unit) :=
  (λ r, close (r_dev r)) <$> replicas s.

Definition into_devices (s : Store D) : list D := r_dev <$> replicas s.

Definition header (s : Store D) : outcome StorageHeader :=
  r0 ← index (replicas s) 0; mret (r_header r0).

Definition replica_count (s : Store D) : Z := zlen (replicas s).

(** The set of indexed keys collected by [keys] and [iterate]. *)
Definition key_set (s : Store D) : gset (list byte) :=
  foldl (λ set r, foldl (λ set e, {[ie_key e]} ∪ set) set (MemIndex_all_entries (r_index r)))
    ∅ (replicas s).

(** [keys()], with the seed of the set it builds. *)
Definition keys `{HashOrder} (seed : hash_seed) (s : Store D) : list (list byte) :=
  hash_order seed (key_set s).

(** [iterate(f)], with the seed of its own set; the callback has its own state
    [T]. *)
Definition iterate `{HashOrder} {T} (seed : hash_seed) (f : list byte → M T unit)
    (s : Store D) : M T unit :=
  for_fold (λ k _, f k) (hash_order seed (key_set s)) tt.

End Code.

(** ** Evaluated scenarios *)

Module Tests.
#[local] Existing Instance dev_profile.

Definition bytes_of (s : string) : list byte := String.list_byte_of_string s.

(** format, open, build_index on fresh in-memory replicas. *)
Definition fresh (n : nat) (bs bc : Z) : outcome (Store MemDevice) :=
  match format Options_new (replicate n (MemDevice_new bs bc)) with
  | (devs, Ok _) =>
      s ← open devs Options_new;
      match build_index s with
      | (s', Ok _) => Ok s'
      | (_, Err e) => Err e
      | (_, Panic) => Panic
      | (_, Diverge) => Diverge
      end
  | (_, Err e) => Err e
  | (_, Panic) => Panic
  | (_, Diverge) => Diverge
  end.

(** A value over several chunks, overwritten, deleted, on two replicas. *)
Definition overwrite_delete : outcome (list byte * Error) :=
  s ← fresh 2 256 16;
  ((put (bytes_of "k") (replicate 1000 x41);;
   put (bytes_of "k") (replicate 700 x42);;
   v ← get (bytes_of "k");
   delete (bytes_of "k");;
   r ← attempt (get (bytes_of "k"));
   match r with inl _ => throw CorruptRecord | inr e => mret (v, e) end
   : M (Store MemDevice) _) s).2.

Example overwrite_delete_ok : overwrite_delete = Ok (replicate 700 x42, KeyNotFound).
Proof. vm_compute. reflexivity. Qed.

(** Two keys that are not UTF-8, on one replica. *)
Definition colliding_keys : outcome (list byte * Z) :=
  s ← fresh 1 256 8;
  ((put [xff] (bytes_of "first");;
   put [xfe] (bytes_of "second");;
   v ← get [xff];
   n ← gets (λ s, Z.of_nat (size (key_set s)));
   mret (v, n) : M (Store MemDevice) _) s).2.
End Tests.

(** ** Key identity *)

(** C40: the store tells keys apart by their lossy UTF-8 string only: [get] and
    [delete] cannot distinguish keys with the same string.  For keys that are
    valid UTF-8 this is byte equality; other keys may collide: the one-byte keys
    FF and FE are different, and after a [put] under each, one record is left and
    [get] of the first returns the value of the second. *)
Theorem key_identity `{Profile} `{BlockDevice D} (s : Store D) k1 k2 :
  (key_str k1 = key_str k2 → get k1 s = get k2 s ∧ delete k1 s = delete k2 s) ∧
  (valid_utf8 k1 → valid_utf8 k2 → key_str k1 = key_str k2 → k1 = k2) ∧
  Tests.colliding_keys = Ok (Tests.bytes_of "second", 1).
Proof.
  split_and!.
  - intros E. unfold get, get_best, get_with_generation, delete. by rewrite E.
  - unfold key_str. intros. by rewrite <- (lossy_id k1), <- (lossy_id k2).
  - vm_compute. reflexivity.
Qed.
