(* ===== verification/RecordWrite.v ===== *)
(** * Writing a record

    [write_record] (rust/src/store.rs) puts a descriptor block and its chunk
    blocks on the device; this file shows that the result is a complete record
    with the given key, generation and value, and that nothing else changes. *)

From S2P Require Import Prelude Errors Rust Format Crc Block Device Record Utf8 Index Replica.

(** The part of a value a record can hold: its length is kept modulo 2^32. *)
Definition stored_value (value : list byte) : list byte :=
  take (Z.to_nat (as_u32 (zlen value))) value.

Lemma stored_value_small value : zlen value < U32 → stored_value value = value.
Proof. intros. unfold stored_value. rewrite as_u32_small by lia. apply take_ge. lia. Qed.

Lemma as_u32_le z : 0 ≤ z → as_u32 z ≤ z.
Proof. intros. unfold as_u32. apply Z.mod_le; lia. Qed.

Lemma zlen_stored_value value : zlen (stored_value value) = as_u32 (zlen value).
Proof.
  unfold stored_value. pose proof (as_u32_le (zlen value) ltac:(lia)).
  pose proof (as_u32_range (zlen value)). len.
Qed.

(** ** The blocks *)

Section Blocks.
Context `{Profile}.

Lemma descriptor_buf_ok bs hdr key value first_size :
  36 ≤ bs < U32 → 0 ≤ first_size ≤ zlen value → zlen key + first_size ≤ bs - 36 →
  ∃ pad, descriptor_buf bs hdr key value first_size =
    Ok (seal (encode_descriptor hdr ++ key ++ take (Z.to_nat first_size) value ++ pad)) ∧
    zlen pad = bs - 36 - zlen key - first_size.
Proof.
  intros Hbs Hf Hk. unfold descriptor_buf. rewrite marshal_descriptor_header_ok by len.
  cbn [mbind outcome_bind]. consts. rewrite copy_from_slice_step by len.
  cbn [mbind outcome_bind]. rewrite slice_ok by lia. cbn [mbind outcome_bind].
  rewrite drop_0, Z.sub_0_r. rewrite copy_from_slice_step by len. cbn [mbind outcome_bind].
  rewrite write_block_crc_ok by len. rewrite crc_body_prefix by len.
  eexists. split; [by rewrite <- !app_assoc|]. unfold crc_body. len.
Qed.

Lemma chunk_buf_ok bs ch remaining :
  24 ≤ bs < U32 → 0 ≤ ch_payload_size ch ≤ zlen remaining → ch_payload_size ch ≤ bs - 24 →
  ∃ pad, chunk_buf bs ch remaining =
    Ok (seal (encode_chunk ch ++ take (Z.to_nat (ch_payload_size ch)) remaining ++ pad)) ∧
    zlen pad = bs - 24 - ch_payload_size ch.
Proof.
  intros Hbs Hf Hk. unfold chunk_buf. rewrite marshal_chunk_header_ok by len.
  cbn [mbind outcome_bind]. consts. rewrite slice_ok by lia. cbn [mbind outcome_bind].
  rewrite drop_0, Z.sub_0_r. rewrite copy_from_slice_step by len. cbn [mbind outcome_bind].
  rewrite write_block_crc_ok by len. rewrite crc_body_prefix by len.
  eexists. split; [by rewrite <- !app_assoc|]. unfold crc_body. len.
Qed.

End Blocks.

(** What the reader finds in a descriptor block. *)
Lemma descriptor_block_read bs hdr key payload pad :
  RecordDescriptorHeader_wf hdr → dh_block_type hdr = BLOCK_TYPE_RECORD_DESCRIPTOR →
  dh_header_size hdr = RECORD_DESCRIPTOR_HEADER_SIZE → dh_key_size hdr = zlen key →
  dh_first_payload_size hdr = zlen payload → dh_chunk_count hdr ≠ 0 →
  zlen key + zlen payload + zlen pad = bs - 36 →
  let b := seal (encode_descriptor hdr ++ key ++ payload ++ pad) in
  zlen b = bs ∧ descriptor_ok bs b ∧ decode_descriptor b = hdr ∧
  descriptor_key b = key ∧ descriptor_payload b = payload.
Proof.
  intros Hwf Ht Hh Hk Hp Hc Hl b.
  assert (decode_descriptor b = hdr) as Hdec.
  { unfold b, seal. rewrite <- app_assoc. by apply decode_encode_descriptor. }
  assert (b = encode_descriptor hdr ++ key ++ payload ++
              (pad ++ to_le_bytes 4 (block_crc (encode_descriptor hdr ++ key ++ payload ++ pad))))
    as Hb by (unfold b, seal; by rewrite <- !app_assoc).
  assert (field b 0 1 = dh_block_type hdr) as Hft by (by rewrite <- Hdec).
  split_and!; [unfold b; len| |done|..].
  - unfold descriptor_ok. rewrite Hdec, Hft, Hk, Hp. unfold b at 1.
    rewrite crc_valid_seal. split_and!; done || lia.
  - unfold descriptor_key. rewrite Hdec, Hk, Hb, Nat2Z.id.
    change 32%nat with (length (encode_descriptor hdr)). apply take_drop_app_exact.
  - unfold descriptor_payload. rewrite Hdec, Hk, Hp, Hb, Nat2Z.id, app_assoc.
    replace (Z.to_nat (32 + zlen key)) with (length (encode_descriptor hdr ++ key)) by len.
    apply take_drop_app_exact.
Qed.

Lemma chunk_block_read bs ch payload pad :
  ValueChunkHeader_wf ch → ch_block_type ch = BLOCK_TYPE_VALUE_CHUNK →
  ch_header_size ch = VALUE_CHUNK_HEADER_SIZE → ch_payload_size ch = zlen payload →
  zlen payload + zlen pad = bs - 24 →
  let b := seal (encode_chunk ch ++ payload ++ pad) in
  zlen b = bs ∧ chunk_ok bs (ch_owner_descriptor ch) (ch_chunk_index ch) b ∧
  decode_chunk b = ch ∧ chunk_payload b = payload.
Proof.
  intros Hwf Ht Hh Hp Hl b.
  assert (decode_chunk b = ch) as Hdec.
  { unfold b, seal. rewrite <- app_assoc. by apply decode_encode_chunk. }
  assert (b = encode_chunk ch ++ payload ++
              (pad ++ to_le_bytes 4 (block_crc (encode_chunk ch ++ payload ++ pad))))
    as Hb by (unfold b, seal; by rewrite <- !app_assoc).
  assert (field b 0 1 = ch_block_type ch) as Hft by (by rewrite <- Hdec).
  split_and!; [unfold b; len| |done|].
  - unfold chunk_ok. rewrite Hdec, Hft, Hp. unfold b at 1.
    rewrite crc_valid_seal. split_and!; done || lia.
  - unfold chunk_payload. rewrite Hdec, Hp, Hb, Nat2Z.id.
    change 20%nat with (length (encode_chunk ch)). apply take_drop_app_exact.
Qed.

(** ** The writes *)

(** The blocks of [img'] that are not in [bl] are those of [img]. *)
Definition unchanged (bl : list Z) (img img' : image) : Prop :=
  length img' = length img ∧ ∀ x, x ∉ bl → block_at img' x = block_at img x.

Lemma unchanged_refl bl img : unchanged bl img img.
Proof. done. Qed.

Lemma unchanged_insert img i b :
  0 ≤ i < zlen img → unchanged [i] img (<[Z.to_nat i := b]> img).
Proof.
  intros Hi. split; [by rewrite length_insert|]. intros x Hx. rewrite block_at_insert by done.
  case_decide; [|done]. subst. by rewrite list_elem_of_singleton in Hx.
Qed.

Lemma unchanged_trans bl1 bl2 img img' img'' :
  unchanged bl1 img img' → unchanged bl2 img' img'' → unchanged (bl1 ++ bl2) img img''.
Proof.
  intros [Hl1 H1] [Hl2 H2]. split; [congruence|]. intros x Hx.
  rewrite not_elem_of_app in Hx. destruct Hx. by rewrite H2, H1.
Qed.

(** The link to the next block of a list: its head, or the null index. *)
Definition next_of (bl : list Z) : Z := default NULL_BLOCK_INDEX (head bl).

Section Writes.
Context `{Profile} `{ReliableDevice D}.
Implicit Types (d : D) (img : image).

Lemma next_of_u32 d bs img bl : dev_at d bs img → in_image img bl → u32 (next_of bl).
Proof.
  intros Hd Hin. apply dev_at_geometry in Hd as (_ & _ & _ & Hbc & _).
  unfold next_of, u32. destruct Hin as [|i l Hi _]; simpl; consts; lia.
Qed.

Lemma next_index pre i rest ci :
  ci = zlen pre →
  (if ci + 1 <? zlen (pre ++ i :: rest) then index (pre ++ i :: rest) (ci + 1)
   else Ok NULL_BLOCK_INDEX) = Ok (next_of rest).
Proof.
  intros ->. destruct rest as [|j rest]; unfold next_of; simpl.
  - if_false. done.
  - if_true. apply index_ok; [lia|]. replace (Z.to_nat _) with (length pre + 1)%nat by lia.
    rewrite lookup_app_r by lia. by replace (_ - _)%nat with 1%nat by lia.
Qed.

(** The chunk at the head of the list, as [write_chunks] writes it. *)
Definition next_chunk_header (owner ci payload_size next : Z) : ValueChunkHeader := {|
  ch_block_type := BLOCK_TYPE_VALUE_CHUNK;
  ch_header_size := as_u8 VALUE_CHUNK_HEADER_SIZE;
  ch_flags := 0;
  ch_owner_descriptor := owner;
  ch_chunk_index := as_u32 (ci + 1);
  ch_payload_size := payload_size;
  ch_next_chunk := next |}.

Lemma as_u32_sub z n : 0 ≤ n ≤ as_u32 z → as_u32 (z - n) = as_u32 z - n.
Proof.
  intros Hn. pose proof (as_u32_range z). unfold as_u32 in *.
  rewrite Zminus_mod, (Z.mod_small n), (Z.mod_small (_ - _)) by lia. done.
Qed.

(** Splitting a stored value after its first [n] bytes. *)
Lemma stored_split value n :
  0 ≤ n ≤ as_u32 (zlen value) →
  as_u32 (zlen (drop (Z.to_nat n) value)) = as_u32 (zlen value) - n ∧
  take (Z.to_nat n) value ++ stored_value (drop (Z.to_nat n) value) = stored_value value.
Proof.
  intros Hn. pose proof (as_u32_le (zlen value) ltac:(lia)) as Hle.
  assert (as_u32 (zlen (drop (Z.to_nat n) value)) = as_u32 (zlen value) - n) as Hrem.
  { replace (zlen (drop _ _)) with (zlen value - n) by len. apply as_u32_sub. lia. }
  split; [done|]. unfold stored_value. rewrite Hrem.
  etransitivity; [apply take_take_drop|]. f_equal. lia.
Qed.

(** A block written before the others are. *)
Lemma unchanged_cons img i b rest img' :
  0 ≤ i < zlen img → i ∉ rest → unchanged rest (<[Z.to_nat i := b]> img) img' →
  unchanged (i :: rest) img img' ∧ block_at img' i = Some b.
Proof.
  intros Hi Hni Hun. split; [by apply (unchanged_trans [i] _ _ _ _ (unchanged_insert img i b Hi))|].
  destruct Hun as [_ Hun]. rewrite Hun, block_at_insert by done. by case_decide.
Qed.

(** The block written for the chunk after [ci] others. *)
Lemma next_chunk_block d bs img owner ci rest remaining :
  dev_at d bs img → 24 < bs → u32 owner → in_image img rest → 0 ≤ ci → ci + 1 < U32 →
  let ps := Z.min (as_u32 (zlen remaining)) (bs - 24) in
  let ch := next_chunk_header owner ci ps (next_of rest) in
  ∃ b, chunk_buf bs ch remaining = Ok b ∧ zlen b = bs ∧ chunk_ok bs owner (ci + 1) b ∧
    ch_next_chunk (decode_chunk b) = next_of rest ∧
    chunk_payload b = take (Z.to_nat ps) remaining.
Proof.
  intros Hd Hbs Ho Hin Hc0 Hc ps ch.
  pose proof (dev_at_geometry _ _ _ Hd) as (_ & _ & Hbs32 & _).
  pose proof (as_u32_le (zlen remaining) ltac:(lia)). pose proof (as_u32_range (zlen remaining)).
  destruct (chunk_buf_ok bs ch remaining) as (pad & Hbuf & Hpad); [lia|simpl; lia|simpl; lia|].
  simpl ch_payload_size in *.
  assert (zlen (take (Z.to_nat ps) remaining) = ps) as Htk by len.
  destruct (chunk_block_read bs ch (take (Z.to_nat ps) remaining) pad) as (Hlb & Hok & Hdec & Hpl).
  { pose proof (next_of_u32 d bs img rest Hd Hin). unfold u32, u16, u8 in *.
    repeat split; simpl; consts; unfold as_u8, as_u32 in *; lia || apply Z.mod_pos_bound; lia. }
  { done. } { done. } { simpl. lia. } { lia. }
  set (b := seal _) in *. simpl in Hok. rewrite (as_u32_small (ci + 1)) in Hok by lia.
  exists b. split_and!; [exact Hbuf|exact Hlb|exact Hok|by rewrite Hdec|exact Hpl].
Qed.

(** Writing the chunks [rest] of a value leaves a chain that yields the value;
    [rest] has exactly the blocks the value needs. *)
Lemma write_chunks_spec rest pre owner remaining d bs img :
  dev_at d bs img → 24 < bs → u32 owner → NoDup rest → in_image img rest →
  zlen pre + zlen rest < U32 - 1 →
  (zlen rest - 1) * (bs - 24) < as_u32 (zlen remaining) ≤ zlen rest * (bs - 24) →
  ∃ d' img', write_chunks bs (bs - 24) owner (pre ++ rest) (zlen pre) rest remaining d
               = (d', Ok tt) ∧
    dev_at d' bs img' ∧ unchanged rest img img' ∧
    chain bs img' owner (zlen pre + 1) (next_of rest) rest (stored_value remaining).
Proof.
  revert pre remaining d img. induction rest as [|i rest IH];
    intros pre remaining d img Hd Hbs Ho Hnd Hin Hsz Hcap.
  { exists d, img. split_and!; [done|done|done|].
    unfold stored_value. pose proof (as_u32_range (zlen remaining)).
    replace (as_u32 (zlen remaining)) with 0 by (simpl in *; lia). apply chain_end. }
  apply NoDup_cons in Hnd as [Hi Hnd]. apply Forall_cons in Hin as [Hri Hin].
  pose proof (as_u32_le (zlen remaining) ltac:(lia)) as Hle.
  pose proof (as_u32_range (zlen remaining)) as Hrng. rewrite length_cons in *.
  cbn [write_chunks]. mlift (next_index pre i rest (zlen pre) eq_refl).
  set (ps := Z.min (as_u32 (zlen remaining)) (bs - 24)) in *.
  fold (next_chunk_header owner (zlen pre) ps (next_of rest)).
  destruct (next_chunk_block d bs img owner (zlen pre) rest remaining)
    as (b & Hbuf & Hlb & Hok & Hnext & Hpl); [done|done|done|done|lia|lia|]. fold ps in Hbuf, Hpl.
  mlift Hbuf. destruct (write_ok d bs img i b Hd Hri Hlb) as (d1 & Hw & Hd1). mcall Hw.
  mlift (slice_ok remaining ps (zlen remaining) ltac:(lia) ltac:(lia)).
  rewrite (take_ge (drop _ _)) by len.
  replace (pre ++ i :: rest) with ((pre ++ [i]) ++ rest) by (by rewrite <- app_assoc).
  assert (zlen pre + 1 = zlen (pre ++ [i])) as Hpre by len. rewrite Hpre.
  destruct (stored_split remaining ps ltac:(lia)) as [Hrem Hval].
  destruct (IH (pre ++ [i]) (drop (Z.to_nat ps) remaining) d1 (<[Z.to_nat i:=b]> img))
    as (d2 & img2 & Hrun & Hd2 & Hun & Hch); [done|done|done|done| |len|rewrite Hrem; nia|].
  { eapply Forall_impl; [exact Hin|]. intros x. by rewrite length_insert. }
  destruct (unchanged_cons img i b rest img2 Hri Hi Hun) as [Hun' Hib].
  exists d2, img2. split_and!; [done|done|done|]. rewrite <- Hval, <- Hpl, <- Hpre.
  eapply (chain_link _ _ _ _ _ b); [|done|exact Hok|rewrite Hnext, Hpre; exact Hch].
  pose proof (dev_at_geometry _ _ _ Hd) as (_ & _ & _ & Hbc & _). unfold next_of. simpl. consts. lia.
Qed.

(** The blocks [needed_blocks] asks for are exactly enough. *)
Lemma needed_blocks_spec key value bs :
  36 ≤ bs < U32 → zlen key ≤ bs - 36 →
  ∃ n, needed_blocks key value bs = Ok n ∧ 1 ≤ n < U32 - 1 ∧
    let rest := as_u32 (zlen value) - Z.min (as_u32 (zlen value)) (bs - 36 - zlen key) in
    (n - 1 - 1) * (bs - 24) < rest ≤ (n - 1) * (bs - 24).
Proof.
  intros Hbs Hk. unfold needed_blocks. pose proof (as_u32_range (zlen value)) as Hv.
  rewrite (as_u32_small (zlen key)) by lia. rewrite first_payload_capacity_ok by lia.
  cbn [mbind outcome_bind]. rewrite chunk_payload_capacity_ok by lia. cbn [mbind outcome_bind].
  generalize dependent (as_u32 (zlen value)). intros v Hv.
  destruct (v <=? bs - 36 - zlen key) eqn:E; zbool.
  { exists 1. split_and!; [done|lia|lia|cbv zeta; lia..]. }
  rewrite u32_sub_ok by lia. cbn [mbind outcome_bind]. unfold u32_div_ceil. if_false.
  cbn [mbind outcome_bind]. set (rem := v - (bs - 36 - zlen key)).
  set (extra := rem / (bs - 24) + _).
  pose proof (proj1 (div_ceil_spec rem (bs - 24) extra ltac:(lia)) eq_refl) as Hx.
  assert (0 ≤ extra < U32 - 2) by (unfold rem in *; nia).
  rewrite u32_add_ok by lia. exists (1 + extra). unfold rem in Hx.
  split_and!; [done|lia|lia|cbv zeta; nia..].
Qed.

(** The header [write_record] writes. *)
Definition record_header (bs : Z) (key : list byte) (generation : Z) (value : list byte)
    (user_flags : Z) (chunks : list Z) : RecordDescriptorHeader := {|
  dh_block_type := BLOCK_TYPE_RECORD_DESCRIPTOR;
  dh_header_size := as_u8 RECORD_DESCRIPTOR_HEADER_SIZE;
  dh_key_size := as_u16 (as_u32 (zlen key));
  dh_generation := generation;
  dh_total_size := as_u32 (zlen value);
  dh_first_payload_size := Z.min (as_u32 (zlen value)) (bs - 36 - zlen key);
  dh_chunk_count := 1 + zlen chunks;
  dh_next_chunk := next_of chunks;
  dh_flags := 0;
  dh_user_flags := user_flags |}.

Definition new_record (bs d : Z) (chunks : list Z) (key : list byte) (generation : Z)
    (value : list byte) (user_flags : Z) : CompleteRecord := {|
  cr_key := key; cr_generation := generation; cr_descriptor_block := d;
  cr_header := record_header bs key generation value user_flags chunks;
  cr_chunk_blocks := chunks; cr_value := stored_value value |}.

Lemma first_next_index chunks :
  (if bool_decide (chunks = []) then Ok NULL_BLOCK_INDEX else index chunks 0)
  = Ok (next_of chunks).
Proof. by destruct chunks. Qed.

(** What a caller of [write_record] has to provide. *)
Record writable (bs : Z) (img : image) (db : Z) (chunks : list Z) (key : list byte)
    (generation : Z) (value : list byte) (user_flags : Z) : Prop := {
  w_bs : 36 ≤ bs;
  w_key : zlen key ≤ bs - 36;
  w_key16 : zlen key < U16;
  w_gen : u32 generation;
  w_flags : u32 user_flags;
  w_nodup : NoDup (db :: chunks);
  w_in : in_image img (db :: chunks);
  w_count : zlen chunks < U32 - 1;
  w_size : let rest := as_u32 (zlen value) - Z.min (as_u32 (zlen value)) (bs - 36 - zlen key) in
           (zlen chunks - 1) * (bs - 24) < rest ≤ zlen chunks * (bs - 24);
}.

Lemma record_header_wf d bs img db chunks key generation value user_flags :
  dev_at d bs img → writable bs img db chunks key generation value user_flags →
  RecordDescriptorHeader_wf (record_header bs key generation value user_flags chunks).
Proof.
  intros Hd [Hb Hk Hk16 Hg Hf Hnd Hin Hc Hs]. apply Forall_cons in Hin as [_ Hin].
  pose proof (next_of_u32 d bs img chunks Hd Hin).
  pose proof (as_u32_range (zlen value)). unfold u8, u16, u32 in *.
  repeat split; simpl; consts; unfold as_u8, as_u16; try lia; apply Z.mod_pos_bound; lia.
Qed.

(** [write_record] on a working device writes the blocks it is given, and only
    those, and they then hold the complete record. *)
Lemma write_record_spec d bs img db chunks key generation value user_flags :
  dev_at d bs img → writable bs img db chunks key generation value user_flags →
  ∃ d' img', write_record db chunks key generation value user_flags d = (d', Ok tt) ∧
    dev_at d' bs img' ∧ unchanged (db :: chunks) img img' ∧
    complete bs img' db (new_record bs db chunks key generation value user_flags).
Proof.
  intros Hd Hw. pose proof (record_header_wf _ _ _ _ _ _ _ _ _ Hd Hw) as Hhwf.
  destruct Hw as [Hb Hk Hk16 Hg Hf Hnd Hin Hc Hs].
  pose proof (dev_at_geometry _ _ _ Hd) as (Hbsz & _ & Hbs32 & Hbc & _).
  apply NoDup_cons in Hnd as [Hdb Hnd]. apply Forall_cons in Hin as [Hrdb Hin].
  pose proof (as_u32_range (zlen value)) as Hv.
  pose proof (as_u32_le (zlen value) ltac:(lia)) as Hvle.
  unfold write_record. mgets. rewrite Hbsz. rewrite (as_u32_small (zlen key)) by lia.
  mlift (first_payload_capacity_ok bs (zlen key) ltac:(lia) ltac:(lia)).
  mlift (chunk_payload_capacity_ok bs ltac:(lia)).
  rewrite (as_u32_small (zlen chunks)) by lia. mlift (u32_add_ok 1 (zlen chunks) ltac:(lia)).
  mlift (first_next_index chunks).
  set (fs := Z.min (as_u32 (zlen value)) (bs - 36 - zlen key)) in *.
  assert (as_u16 (zlen key) = zlen key) as Hk16' by (apply as_u16_small; lia).
  rewrite Hk16'. set (hdr := {| dh_block_type := _ |}).
  assert (hdr = record_header bs key generation value user_flags chunks) as Hhdr.
  { unfold record_header. by rewrite as_u32_small, Hk16' by lia. }
  destruct (descriptor_buf_ok bs hdr key value fs) as (pad & Hbuf & Hpad); [lia..|]. mlift Hbuf.
  assert (zlen (take (Z.to_nat fs) value) = fs) as Htk by len.
  destruct (descriptor_block_read bs hdr key (take (Z.to_nat fs) value) pad)
    as (Hlb & Hok & Hdec & Hkey & Hpay); [by rewrite Hhdr|done|done|done|simpl; lia|simpl; lia|lia|].
  set (b := seal _) in *.
  destruct (write_ok d bs img db b Hd Hrdb Hlb) as (d1 & Hwr & Hd1). mcall Hwr.
  mlift (slice_ok value fs (zlen value) ltac:(lia) ltac:(lia)).
  rewrite (take_ge (drop _ _)) by len.
  destruct (stored_split value fs ltac:(lia)) as [Hrem Hval].
  destruct (write_chunks_spec chunks [] db (drop (Z.to_nat fs) value) d1 bs
              (<[Z.to_nat db := b]> img)) as (d2 & img2 & Hrun & Hd2 & Hun & Hch);
    [done|lia|unfold u32; lia|done| |simpl; lia|by rewrite Hrem|].
  { eapply Forall_impl; [exact Hin|]. intros x. by rewrite length_insert. }
  destruct (unchanged_cons img db b chunks img2 Hrdb Hdb Hun) as [Hun' Hib].
  exists d2, img2. split_and!; [done|done|done|].
  exists b, chunks, (stored_value (drop (Z.to_nat fs) value)).
  rewrite Hdec, Hpay, Hval, Hkey. split_and!; [done|done|exact Hch|done| |].
  - rewrite zlen_stored_value. symmetry. by apply as_u32_small.
  - unfold new_record. by rewrite <- Hhdr.
Qed.

End Writes.

(** ** Properties *)

(** What [n] blocks can hold for a key of [k] bytes. *)
Definition record_capacity (bs k n : Z) : Z := bs - 36 - k + (n - 1) * (bs - 24).

(** C22: [needed_blocks] is exact: for a key that fits the block it returns the
    smallest number of blocks whose capacity holds the value (of length taken
    modulo 2^32, as the code casts it), and the computation never overflows. *)
Theorem needed_blocks_exact `{Profile} key value bs :
  36 ≤ bs < U32 → zlen key ≤ bs - 36 →
  ∃ n, needed_blocks key value bs = Ok n ∧ 1 ≤ n < U32 ∧
    as_u32 (zlen value) ≤ record_capacity bs (zlen key) n ∧
    ∀ n', 1 ≤ n' < n → record_capacity bs (zlen key) n' < as_u32 (zlen value).
Proof.
  intros Hbs Hk. destruct (needed_blocks_spec key value bs Hbs Hk) as (n & Hn & Hr & Hs).
  cbv zeta in Hs. exists n. unfold record_capacity. split_and!; [done|lia|lia|nia|].
  intros n' Hn'. nia.
Qed.

Lemma needed_blocks_exact_witness :
  needed_blocks (H := dev_profile) [x6b] (replicate 100 x76) 64 = Ok 3.
Proof.
  destruct (needed_blocks_exact (H := dev_profile) [x6b] (replicate 100 x76) 64)
    as (n & Hn & _); [lia|simpl; lia|]. rewrite Hn. vm_compute in Hn. by injection Hn as <-.
Defined.

(** C14: a record that is written is read back: on a working device, after
    [write_record] to distinct blocks that are as many as the value needs,
    [verify_and_read_record] of its descriptor block returns the key, the
    generation, the flags and the value that were written, and every other block
    of the device is unchanged. *)
Theorem write_then_read `{Profile} `{ReliableDevice D} (d : D) bs img db chunks key generation
    value user_flags :
  dev_at d bs img → writable bs img db chunks key generation value user_flags →
  ∃ d' img', write_record db chunks key generation value user_flags d = (d', Ok tt) ∧
    dev_at d' bs img' ∧ unchanged (db :: chunks) img img' ∧
    ∃ d'', verify_and_read_record db d' =
      (d'', Ok (Some (new_record bs db chunks key generation value user_flags))).
Proof.
  intros Hd Hw. destruct (write_record_spec d bs img db chunks key generation value user_flags Hd Hw)
    as (d' & img' & Hrun & Hd' & Hun & Hc). exists d', img'. split_and!; [done|done|done|].
  assert (0 ≤ db < zlen img') as Hdb.
  { rewrite (proj1 Hun). pose proof (w_in _ _ _ _ _ _ _ _ Hw) as Hin. by inversion Hin. }
  destruct (verify_spec d' bs img' db Hd' (w_bs _ _ _ _ _ _ _ _ Hw) Hdb) as (d'' & o & Hv & _ & Ho).
  exists d''. apply Ho in Hc as ->. exact Hv.
Qed.

Lemma write_then_read_witness :
  ∃ d' img', write_record (H := dev_profile) 1 [3] [x6b] 5 (replicate 60 x76) 0
    (MemDevice_new 64 4) = (d', Ok tt) ∧ dev_at d' 64 img'.
Proof.
  destruct (write_then_read (H := dev_profile) (MemDevice_new 64 4) 64 _ 1 [3] [x6b] 5
    (replicate 60 x76) 0 (MemDevice_new_at 64 4 ltac:(lia) ltac:(lia))) as (d' & img' & Hw & Hd & _).
  - constructor; simpl; try lia; try (by split).
    + apply (bool_decide_eq_true_1 _). by vm_compute.
    + repeat constructor; lia.
  - exists d', img'. split; [exact Hw|exact Hd].
Defined.

(** C38: the key size is stored in 16 bits and not checked against them: in blocks
    of more than 64 KiB, a record with a key of 65536 bytes is written without an
    error, and read back as a complete record with the empty key and, in place
    of the value, as many bytes of the key. *)
Theorem long_key_misread `{Profile} `{ReliableDevice D} (d : D) bs img db key generation
    value user_flags :
  dev_at d bs img → 0 ≤ db < zlen img → zlen key = U16 → zlen value ≤ U16 →
  U16 + zlen value ≤ bs - 36 → u32 generation → u32 user_flags →
  ∃ d' d'' img' rec, write_record db [] key generation value user_flags d = (d', Ok tt) ∧
    dev_at d' bs img' ∧ unchanged [db] img img' ∧
    verify_and_read_record db d' = (d'', Ok (Some rec)) ∧
    cr_key rec = [] ∧ cr_value rec = take (length value) key.
Proof.
  intros Hd Hdb Hk Hv Hbs Hg Hf. pose proof (dev_at_geometry _ _ _ Hd) as (Hb & _ & Hbs32 & _).
  unfold write_record. mgets. rewrite Hb, (as_u32_small (zlen key)), (as_u32_small (zlen value)) by lia.
  mlift (first_payload_capacity_ok bs (zlen key) ltac:(lia) ltac:(lia)).
  mlift (chunk_payload_capacity_ok bs ltac:(lia)). mlift (u32_add_ok 1 0 ltac:(lia)).
  mlift (first_next_index []). change (next_of []) with NULL_BLOCK_INDEX. rewrite (Z.min_l (zlen value)), Hk by lia.
  change (as_u16 U16) with 0.
  set (hdr := {| dh_block_type := _ |}).
  destruct (descriptor_buf_ok bs hdr key value (zlen value)) as (pad & Hbuf & Hpad); [lia..|].
  rewrite Nat2Z.id, (take_ge value) in Hbuf by lia. mlift Hbuf.
  destruct (descriptor_block_read bs hdr [] (take (length value) key)
    (drop (length value) key ++ value ++ pad)) as (Hlb & Hok & Hdec & Hkey & Hpay).
  { unfold u32, u16, u8 in *.
    repeat split; simpl; consts; unfold as_u8, as_u32 in *; lia || apply Z.mod_pos_bound; lia. }
  { done. } { done. } { done. } { simpl. len. } { done. } { len. }
  rewrite (app_assoc (take _ _)), take_drop, app_nil_l in Hlb, Hok, Hdec, Hkey, Hpay.
  set (b := seal _) in *. destruct (write_ok d bs img db b Hd Hdb Hlb) as (d1 & Hw & Hd1). mcall Hw.
  mlift (slice_ok value (zlen value) (zlen value) ltac:(lia) ltac:(lia)).
  destruct (verify_spec d1 bs _ db Hd1 ltac:(lia)) as (d2 & o & Hrun & _ & Ho); [len|].
  assert (complete bs (<[Z.to_nat db := b]> img) db {| cr_key := []; cr_generation := generation;
    cr_descriptor_block := db; cr_header := hdr; cr_chunk_blocks := [];
    cr_value := take (length value) key |}) as Hc.
  { exists b, [], []. rewrite Hdec, Hkey, Hpay, app_nil_r, block_at_insert, decide_True by done.
    split_and!; [done|done|apply chain_end|done| |done].
    rewrite as_u32_small by len. simpl. len. }
  apply Ho in Hc as ->. eexists d1, d2, _, _.
  split_and!; [done|exact Hd1|by apply unchanged_insert|exact Hrun|done|done].
Qed.

Lemma long_key_misread_witness :
  ∃ d' d'' rec, write_record (H := dev_profile) 1 [] (replicate (Z.to_nat 65536) x6b) 1 [x76] 0
      (MemDevice_new 65573 2) = (d', Ok tt) ∧
    verify_and_read_record (H := dev_profile) 1 d' = (d'', Ok (Some rec)) ∧ cr_key rec = [].
Proof.
  destruct (long_key_misread (H := dev_profile) (MemDevice_new 65573 2) 65573 _ 1
    (replicate (Z.to_nat 65536) x6b) 1 [x76] 0 (MemDevice_new_at 65573 2 ltac:(lia) ltac:(lia)))
    as (d' & d'' & img' & rec & Hw & _ & _ & Hr & Hk & _);
    [rewrite length_replicate; lia|rewrite length_replicate; lia|simpl; lia|simpl; lia
    |unfold u32; lia|unfold u32; lia|].
  exists d', d'', rec. split_and!; [exact Hw|exact Hr|exact Hk].
Defined.
