(* ===== verification/Allocation.v ===== *)
(** * Allocating and erasing blocks

    [find_free_blocks] and [free_record] (rust/src/store.rs): the allocation
    returns the first free blocks in order, the erasure turns exactly the
    blocks of a complete record into free blocks. *)

From S2P Require Import Prelude Errors Rust Format Crc Block Device Record Utf8 Index Replica.
From S2P Require Import RecordWrite.

(** ** Free blocks of an image *)

Definition is_free (img : image) (i : Z) : bool :=
  match block_at img i with Some b => free_marked b | None => false end.

Definition free_list (img : image) : list Z :=
  filter (λ i, is_free img i = true) (seqZ 1 (zlen img - 1)).

Lemma free_list_elem img i :
  i ∈ free_list img ↔ 1 ≤ i < zlen img ∧ is_free img i = true.
Proof. unfold free_list. rewrite list_elem_of_filter, elem_of_seqZ. intuition lia. Qed.

Lemma free_list_NoDup img : NoDup (free_list img).
Proof. apply NoDup_filter, NoDup_seqZ. Qed.

(** A free block belongs to no complete record. *)
Lemma free_not_record bs img d rec i :
  complete bs img d rec → is_free img i = true → i ∉ record_blocks rec.
Proof.
  intros Hc Hf Hi. unfold is_free in Hf. destruct (block_at img i) as [b|] eqn:Hb; [|done].
  rewrite (complete_not_free _ _ _ _ _ _ Hc Hi Hb) in Hf. done.
Qed.

(** The free block written by the store is marked free. *)
Definition good_pattern (pattern : byte) : Prop := pattern = x00 ∨ pattern = xff.

Lemma free_buf_marked bs pattern :
  0 < bs → good_pattern pattern → free_marked (make_free_buf bs pattern) = true.
Proof. intros. rewrite make_free_buf_marked by done. by apply bool_decide_eq_true. Qed.

Section Allocation.
Context `{Profile} `{ReliableDevice D}.
Implicit Types (d : D) (img : image).

Lemma free_scan_spec n indices buf result d bs img :
  dev_at d bs img → zlen buf = bs → in_image img indices →
  ∃ d', free_scan n indices buf result d =
      (d', Ok (result ++ take (Z.to_nat (n - zlen result))
                           (filter (λ i, is_free img i = true) indices))) ∧
    dev_at d' bs img.
Proof.
  revert d buf result. induction indices as [|i indices IH]; intros d buf result Hd Hb Hin.
  { exists d. split; [|done]. cbn [free_scan]. by rewrite filter_nil, take_nil, app_nil_r. }
  apply Forall_cons in Hin as [Hi Hin]. cbn [free_scan].
  destruct (n <=? zlen result) eqn:En; zbool.
  { exists d. split; [|done]. replace (Z.to_nat _) with O by lia. by rewrite take_0, app_nil_r. }
  destruct (block_at_lt img i Hi) as [b Hblk].
  destruct (read_at d bs img i b buf Hd Hblk Hb) as (d1 & Hr & Hd1). mcall Hr.
  assert (zlen b = bs) as Hlb by by eapply dev_block_len.
  pose proof (dev_at_geometry _ _ _ Hd) as (_ & _ & Hbs32 & _).
  mlift (is_free_candidate_ok b ltac:(lia)). rewrite filter_cons.
  assert (is_free img i = free_marked b) as Hfree by (unfold is_free; by rewrite Hblk).
  destruct (free_marked b).
  - rewrite decide_True by done.
    destruct (IH d1 b (result ++ [i]) Hd1 Hlb Hin) as (d2 & -> & Hd2). exists d2. split; [|done].
    do 2 f_equal. rewrite <- app_assoc. f_equal. rewrite length_app. simpl.
    destruct (Z.to_nat (n - zlen result)) as [|k] eqn:Ek; [lia|]. simpl. do 2 f_equal. lia.
  - rewrite decide_False by congruence. by apply IH.
Qed.

(** The allocation returns the lowest-numbered free blocks, or fails without
    effect when there are not enough. *)
Lemma find_free_blocks_spec n d bs img :
  dev_at d bs img → 0 ≤ n →
  ∃ d', find_free_blocks n d =
      (d', if n <=? zlen (free_list img) then Ok (take (Z.to_nat n) (free_list img))
           else Err StorageFull) ∧
    dev_at d' bs img.
Proof.
  intros Hd Hn. pose proof (dev_at_geometry _ _ _ Hd) as (Hbs & Hbc & Hbs32 & _).
  unfold find_free_blocks. mgets. mgets. rewrite Hbs, Hbc.
  destruct (free_scan_spec n (seqZ 1 (zlen img - 1)) (replicate (Z.to_nat bs) x00) [] d bs img)
    as (d1 & Hrun & Hd1); [done|len| |].
  { apply Forall_forall. intros x Hx%elem_of_seqZ. lia. }
  fold (free_list img) in Hrun. cbn [app length Z.of_nat] in Hrun. rewrite Z.sub_0_r in Hrun.
  mcall Hrun. exists d1. split; [|done]. rewrite length_take. destruct (n <=? zlen (free_list img)) eqn:E; zbool.
  - by rewrite (proj2 (Z.ltb_ge _ _)) by lia.
  - by rewrite (proj2 (Z.ltb_lt _ _)) by lia.
Qed.

(** ** Erasing *)

(** The blocks [bl] are erased and nothing else changes. *)
Definition erased (bs : Z) (pattern : byte) (bl : list Z) (img img' : image) : Prop :=
  unchanged bl img img' ∧
  ∀ x, x ∈ bl → block_at img' x = Some (make_free_buf bs pattern).

Lemma erased_cons bs pattern i bl img img' :
  0 ≤ i < zlen img → i ∉ bl →
  erased bs pattern bl (<[Z.to_nat i := make_free_buf bs pattern]> img) img' →
  erased bs pattern (i :: bl) img img'.
Proof.
  intros Hi Hni [Hun He]. split.
  - apply (unchanged_trans [i] bl _ _ _ (unchanged_insert _ _ _ Hi) Hun).
  - intros x [->|Hx]%elem_of_cons; [|by apply He].
    rewrite (proj2 Hun) by done. rewrite block_at_insert by done. by case_decide.
Qed.

Lemma zlen_make_free_buf bs pattern : 0 ≤ bs → zlen (make_free_buf bs pattern) = bs.
Proof. intros. unfold make_free_buf. len. Qed.

Lemma free_chunks_spec bs img owner idx next bl pl :
  chain bs img owner idx next bl pl →
  ∀ fuel visited cbuf pattern d,
    dev_at d bs img → 24 ≤ bs → zlen cbuf = bs → (length bl < fuel)%nat →
    (∀ x, x ∈ bl → x ∉ visited) →
    ∃ d' img', free_chunks fuel (zlen img) (make_free_buf bs pattern) next visited cbuf d
                 = (d', Ok tt) ∧
      dev_at d' bs img' ∧ erased bs pattern bl img img'.
Proof.
  remember (length bl) as n eqn:Hn. revert img idx next bl pl Hn.
  induction n as [|n IH]; intros img idx next bl pl Hn Hch fuel visited cbuf pattern d
    Hd Hbs Hcb Hfuel Hvis; (destruct fuel as [|fuel]; [lia|]); cbn [free_chunks].
  { destruct bl; [|done]. apply chain_nil_inv in Hch as [-> ->].
    exists d, img. split_and!; [done|done|]. split; [done|]. intros x Hx.
    by apply not_elem_of_nil in Hx. }
  pose proof (dev_at_geometry _ _ _ Hd) as (_ & _ & Hbs32 & _).
  assert (next ≠ NULL_BLOCK_INDEX) as Hnn.
  { intros ->. by apply chain_null_inv in Hch as [-> _]. }
  apply chain_next_inv in Hch as (b & bl' & pl' & Hb & Hok & Hch & -> & ->); [|done].
  apply block_at_range in Hb as Hrng.
  destruct (next =? NULL_BLOCK_INDEX) eqn:E; zbool; [done|].
  rewrite (proj2 (Z.leb_gt _ _)) by lia. cbn [orb].
  rewrite bool_decide_eq_false_2 by (apply Hvis; left).
  destruct (read_at d bs img next b cbuf Hd Hb Hcb) as (d1 & Hr & Hd1). mcall Hr.
  assert (zlen b = bs) as Hlb by by eapply dev_block_len.
  mlift (unmarshal_chunk_header_ok b ltac:(lia)).
  pose proof Hok as (_ & Hcrc & _). rewrite Hcrc. cbn [negb].
  destruct (write_ok d1 bs img next (make_free_buf bs pattern) Hd1 Hrng) as (d2 & Hw & Hd2);
    [apply zlen_make_free_buf; lia|]. mcall Hw.
  assert (next ∉ bl') as Hni.
  { assert (NoDup (next :: bl')) as Hnd; [|by apply NoDup_cons in Hnd as []].
    by eapply (chain_NoDup bs img owner), chain_link. }
  set (img2 := <[Z.to_nat next := _]> img) in *.
  assert (chain bs img2 owner (idx + 1) (ch_next_chunk (decode_chunk b)) bl' pl') as Hch2.
  { eapply chain_frame; [exact Hch|]. intros x Hx. unfold img2.
    rewrite block_at_insert by done. case_decide; [by subst|done]. }
  destruct (IH img2 (idx + 1) _ bl' pl' ltac:(simpl in Hn; lia) Hch2 fuel
              ({[next]} ∪ visited) b pattern d2) as (d3 & img3 & Hrun & Hd3 & He);
    [done|done|done|lia| |].
  { intros x Hx. rewrite elem_of_union, elem_of_singleton. intros [->|Hv]; [done|].
    revert Hv. apply Hvis. by right. }
  unfold img2 in Hrun at 1. rewrite length_insert in Hrun.
  exists d3, img3. split_and!; [done|done|]. by apply erased_cons.
Qed.

(** Freeing a complete record erases its blocks and nothing else. *)
Lemma free_record_spec d bs img i rec pattern :
  dev_at d bs img → 36 ≤ bs → complete bs img i rec →
  ∃ d' img', free_record i pattern d = (d', Ok tt) ∧ dev_at d' bs img' ∧
    erased bs pattern (record_blocks rec) img img'.
Proof.
  intros Hd Hbs Hc. pose proof (dev_at_geometry _ _ _ Hd) as (Hbsz & Hbc & Hbs32 & _).
  assert (∀ x, x ∈ cr_chunk_blocks rec → x ≠ i) as Hne.
  { intros x Hx ->. pose proof (complete_descriptor _ _ _ _ Hc) as Hdb.
    pose proof (complete_NoDup _ _ _ _ Hc) as Hnd. unfold record_blocks in Hnd.
    apply NoDup_cons in Hnd as [Hni _]. congruence. }
  destruct Hc as (b & bl & pl & Hb & Hdok & Hch & _ & _ & ->). simpl in *.
  unfold free_record. mgets. mgets. rewrite Hbsz, Hbc.
  destruct (read_at d bs img i b (replicate (Z.to_nat bs) x00) Hd Hb) as (d1 & Hr & Hd1); [len|].
  mcall Hr. assert (zlen b = bs) as Hlb by by eapply dev_block_len.
  apply block_at_range in Hb as Hrng.
  mlift (unmarshal_descriptor_header_ok b ltac:(lia)).
  destruct Hdok as (_ & Hcrc & _). rewrite Hcrc. cbn [negb].
  destruct (write_ok d1 bs img i (make_free_buf bs pattern) Hd1 Hrng) as (d2 & Hw & Hd2);
    [apply zlen_make_free_buf; lia|]. mcall Hw.
  set (img2 := <[Z.to_nat i := _]> img) in *.
  assert (chain bs img2 i 1 (dh_next_chunk (decode_descriptor b)) bl pl) as Hch2.
  { eapply chain_frame; [exact Hch|]. intros x Hx. unfold img2.
    rewrite block_at_insert by done. case_decide; [|done]. subst. by destruct (Hne _ Hx). }
  assert (length bl ≤ length img)%nat.
  { apply NoDup_in_image; [by eapply chain_NoDup|by eapply chain_in_image]. }
  destruct (free_chunks_spec bs img2 i 1 _ bl pl Hch2 (chunk_fuel (zlen img)) ∅
              (replicate (Z.to_nat bs) x00) pattern d2) as (d3 & img3 & Hrun & Hd3 & He);
    [done|lia|len|unfold chunk_fuel; lia|set_solver|].
  unfold img2 in Hrun at 1. rewrite length_insert in Hrun.
  exists d3, img3. split_and!; [done|done|]. unfold record_blocks. simpl.
  apply erased_cons; [done| |done]. intros Hx. by destruct (Hne _ Hx).
Qed.

End Allocation.

(** ** Properties *)

(** C20: [find_free_blocks(n)] returns the [n] lowest-numbered data blocks whose
    first byte is a free marker, never block 0; when there are fewer it fails
    with [StorageFull].  It only reads. *)
Theorem find_free_blocks_first `{Profile} `{ReliableDevice D} (d : D) bs img n :
  dev_at d bs img → 0 ≤ n →
  ∃ d', find_free_blocks n d =
      (d', if n <=? zlen (free_list img) then Ok (take (Z.to_nat n) (free_list img))
           else Err StorageFull) ∧
    dev_at d' bs img ∧
    ∀ i, i ∈ free_list img ↔ 1 ≤ i < zlen img ∧ is_free img i = true.
Proof.
  intros Hd Hn. destruct (find_free_blocks_spec n d bs img Hd Hn) as (d' & Hrun & Hd').
  exists d'. split_and!; [done|done|]. intros i. apply free_list_elem.
Qed.

Lemma find_free_blocks_first_witness :
  ∃ d', find_free_blocks (H := dev_profile) 2 (MemDevice_new 64 4) = (d', Ok [1; 2]).
Proof.
  destruct (find_free_blocks_first (H := dev_profile) (MemDevice_new 64 4) 64 _ 2
    (MemDevice_new_at 64 4 ltac:(lia) ltac:(lia)) ltac:(lia)) as (d' & Hrun & _).
  exists d'. rewrite Hrun. vm_compute. reflexivity.
Defined.

(** C21: [free_record] of a complete record overwrites its descriptor and every
    chunk of its chain with the free pattern and touches no other block; it
    returns after following the chain once. *)
Theorem free_record_erases `{Profile} `{ReliableDevice D} (d : D) bs img i rec pattern :
  dev_at d bs img → 36 ≤ bs → complete bs img i rec →
  ∃ d' img', free_record i pattern d = (d', Ok tt) ∧ dev_at d' bs img' ∧
    erased bs pattern (record_blocks rec) img img'.
Proof. apply free_record_spec. Qed.

Lemma free_record_erases_witness :
  ∃ d' img', free_record (H := dev_profile) 1 xff
      {| md_block_size := 64; md_block_count := 2;
         md_data := replicate 64 x00 ++ sample_block |} = (d', Ok tt) ∧ dev_at d' 64 img'.
Proof.
  destruct sample_complete as (rec & Hc & _).
  destruct (free_record_erases (H := dev_profile) {| md_block_size := 64; md_block_count := 2;
    md_data := replicate 64 x00 ++ sample_block |} 64 [replicate 64 x00; sample_block] 1 rec xff)
    as (d' & img' & Hrun & Hd & _); [|lia|exact Hc|].
  - split_and!; [|done|by vm_compute]. split_and!; simpl; lia.
  - exists d', img'. split; [exact Hrun|exact Hd].
Defined.
