(* ===== verification/Catalog.v ===== *)
(** * The catalog of an image

    Which record stands for each key of a replica: the complete record of the
    highest generation, and among equals the one at the lowest block.  This
    file proves that [build_index] indexes exactly the catalog and that
    [recover] keeps it and erases everything else. *)

From S2P Require Import Prelude Errors Rust Format Crc Block Device Record Utf8 Index Replica.
From S2P Require Import RecordWrite Allocation.

(** ** Candidates and the newest record *)

(** A complete record for the string key [k] in a data block below [n]. *)
Definition candidate (bs : Z) (img : image) (n : Z) (k : list byte) (rec : CompleteRecord) : Prop :=
  complete bs img (cr_descriptor_block rec) rec ∧
  1 ≤ cr_descriptor_block rec < n ∧ key_str (cr_key rec) = k.

Definition newest (bs : Z) (img : image) (n : Z) (k : list byte) (rec : CompleteRecord) : Prop :=
  candidate bs img n k rec ∧
  ∀ rec', candidate bs img n k rec' →
    cr_generation rec' < cr_generation rec ∨
    cr_generation rec' = cr_generation rec ∧ cr_descriptor_block rec ≤ cr_descriptor_block rec'.

(** [best] holds the newest candidate of every key that has one. *)
Definition tracks (bs : Z) (img : image) (n : Z) (best : gmap (list byte) CompleteRecord) : Prop :=
  ∀ k, match best !! k with
       | Some rec => newest bs img n k rec
       | None => ∀ rec, ¬ candidate bs img n k rec
       end.

(** The catalog of a whole image. *)
Definition catalog (bs : Z) (img : image) (best : gmap (list byte) CompleteRecord) : Prop :=
  tracks bs img (zlen img) best.

(** One step of either scan: the record found at block [n] replaces the
    current one when its generation is higher. *)
Definition keep_newest (rec : CompleteRecord) (best : gmap (list byte) CompleteRecord) :
    gmap (list byte) CompleteRecord :=
  let k := key_str (cr_key rec) in
  if match best !! k with
     | None => true
     | Some ex => cr_generation ex <? cr_generation rec
     end then <[k := rec]> best else best.

Section Tracks.
Context (bs : Z) (img : image).
Implicit Types (n : Z) (k : list byte) (rec : CompleteRecord).

Lemma candidate_succ n k rec :
  candidate bs img (n + 1) k rec ↔
  candidate bs img n k rec ∨
  1 ≤ n ∧ complete bs img n rec ∧ key_str (cr_key rec) = k.
Proof.
  unfold candidate. split.
  - intros (Hc & Hr & Hk). destruct (decide (cr_descriptor_block rec = n)) as [<-|].
    + right. split_and!; [lia|done|done].
    + left. split_and!; [done|lia|lia|done].
  - intros [(Hc & Hr & Hk)|(Hn & Hc & Hk)]; [split_and!; done || lia|].
    pose proof (complete_descriptor _ _ _ _ Hc) as Hd. rewrite Hd. split_and!; done || lia.
Qed.

Lemma tracks_start : tracks bs img 1 ∅.
Proof. intros k. rewrite lookup_empty. intros rec (_ & ? & _). lia. Qed.

Lemma tracks_skip n best :
  tracks bs img n best → (∀ rec, ¬ complete bs img n rec) → tracks bs img (n + 1) best.
Proof.
  intros Ht Hno k. specialize (Ht k). destruct (best !! k) as [rec|].
  - destruct Ht as [Hc Hmax]. split; [apply candidate_succ; by left|].
    intros rec' [Hc'|(_ & Hc' & _)]%candidate_succ; [by apply Hmax|]. by apply Hno in Hc'.
  - intros rec [Hc'|(_ & Hc' & _)]%candidate_succ; [by eapply Ht|]. by apply Hno in Hc'.
Qed.

Lemma tracks_keep n rec best :
  1 ≤ n → tracks bs img n best → complete bs img n rec →
  tracks bs img (n + 1) (keep_newest rec best).
Proof.
  intros Hn Ht Hc k. pose proof (complete_descriptor _ _ _ _ Hc) as Hd.
  assert (∀ rec', complete bs img n rec' → rec' = rec) as Huniq
    by (intros; by eapply complete_functional).
  unfold keep_newest. set (k0 := key_str (cr_key rec)).
  destruct (decide (k = k0)) as [->|Hne].
  2: { assert ((if match best !! k0 with
                   | None => true | Some ex => cr_generation ex <? cr_generation rec end
                then <[k0 := rec]> best else best) !! k = best !! k) as ->.
       { destruct (match best !! k0 with None => _ | Some _ => _ end); [|done].
         by rewrite lookup_insert_ne. }
       specialize (Ht k). destruct (best !! k) as [ex|].
       - destruct Ht as [Hcand Hmax]. split; [apply candidate_succ; by left|].
         intros rec' [Hc'|(_ & Hc' & <-)]%candidate_succ; [by apply Hmax|].
         apply Huniq in Hc' as ->. done.
       - intros rec' [Hc'|(_ & Hc' & <-)]%candidate_succ; [by eapply Ht|].
         apply Huniq in Hc' as ->. done. }
  assert (candidate bs img (n + 1) k0 rec) as Hcand by (apply candidate_succ; by right).
  specialize (Ht k0). destruct (best !! k0) as [ex|] eqn:Ek.
  - destruct Ht as [Hex Hmax]. destruct (cr_generation ex <? cr_generation rec) eqn:Eg; zbool.
    + rewrite lookup_insert_eq. split; [done|].
      intros rec' [Hc'|(_ & Hc' & _)]%candidate_succ; [destruct (Hmax _ Hc') as [|[]]; left; lia|].
      apply Huniq in Hc' as ->. right. lia.
    + rewrite Ek. split; [apply candidate_succ; by left|].
      intros rec' [Hc'|(_ & Hc' & _)]%candidate_succ; [by apply Hmax|].
      apply Huniq in Hc' as ->. destruct Hex as (_ & ? & _). lia.
  - rewrite lookup_insert_eq. split; [done|].
    intros rec' [Hc'|(_ & Hc' & _)]%candidate_succ; [by apply Ht in Hc'|].
    apply Huniq in Hc' as ->. right. lia.
Qed.

(** One iteration of a scan: the reader's answer at block [n] extends the
    tracked records to it. *)
Lemma tracks_step n o best :
  1 ≤ n → tracks bs img n best → (∀ rec, o = Some rec ↔ complete bs img n rec) →
  tracks bs img (n + 1) (match o with Some rec => keep_newest rec best | None => best end).
Proof.
  intros Hn Ht Ho. destruct o as [rec|].
  - apply tracks_keep; [done|done|]. by apply Ho.
  - apply tracks_skip; [done|]. intros rec Hc. by apply Ho in Hc.
Qed.

(** A block of another type is no descriptor. *)
Lemma not_descriptor n b rec :
  block_at img n = Some b → field b 0 1 ≠ BLOCK_TYPE_RECORD_DESCRIPTOR →
  ¬ complete bs img n rec.
Proof.
  intros Hb Ht (b' & ? & ? & Hb' & [Ht' _] & _). rewrite Hb in Hb'. congruence.
Qed.

Lemma newest_unique n k r1 r2 :
  newest bs img n k r1 → newest bs img n k r2 → r1 = r2.
Proof.
  intros [Hn1 Hm1] [Hn2 Hm2]. specialize (Hm1 _ Hn2). specialize (Hm2 _ Hn1).
  assert (cr_descriptor_block r1 = cr_descriptor_block r2) as Heq by lia.
  destruct Hn1 as [Hc1 _], Hn2 as [Hc2 _].
  rewrite Heq in Hc1. by eapply complete_functional.
Qed.

Lemma tracks_unique n b1 b2 : tracks bs img n b1 → tracks bs img n b2 → b1 = b2.
Proof.
  intros H1 H2. apply map_eq. intros k. specialize (H1 k). specialize (H2 k).
  destruct (b1 !! k) as [r1|], (b2 !! k) as [r2|]; try done.
  - f_equal. by eapply newest_unique.
  - destruct H1 as [H1 _]. by destruct (H2 r1).
  - destruct H2 as [H2 _]. by destruct (H1 r2).
Qed.

Lemma tracks_Some n best k rec :
  tracks bs img n best → best !! k = Some rec → newest bs img n k rec.
Proof. intros Ht Hk. specialize (Ht k). by rewrite Hk in Ht. Qed.

Lemma tracks_None n best k rec :
  tracks bs img n best → best !! k = None → ¬ candidate bs img n k rec.
Proof. intros Ht Hk. specialize (Ht k). rewrite Hk in Ht. apply Ht. Qed.

End Tracks.

(** ** The index of a catalog *)

Definition entry_of (rec : CompleteRecord) : IndexEntry := {|
  ie_key := key_str (cr_key rec);
  ie_generation := cr_generation rec;
  ie_descriptor_block := cr_descriptor_block rec;
  ie_total_size := dh_total_size (cr_header rec) |}.

Definition index_of (best : gmap (list byte) CompleteRecord) : MemIndex :=
  {| entries := entry_of <$> best |}.

Lemma get_index_of k best : MemIndex_get k (index_of best) = entry_of <$> best !! k.
Proof. apply lookup_fmap. Qed.

Lemma index_of_put best rec :
  MemIndex_put (entry_of rec) (index_of best) = index_of (<[key_str (cr_key rec) := rec]> best).
Proof. unfold MemIndex_put, index_of. simpl. by rewrite fmap_insert. Qed.

Lemma index_of_delete best k : MemIndex_delete k (index_of best) = index_of (delete k best).
Proof. unfold MemIndex_delete, index_of. simpl. by rewrite fmap_delete. Qed.

(** ** build_index *)

Section BuildIndex.
Context `{Profile} `{ReliableDevice D}.
Implicit Types (d : D) (img : image) (r : Replica D).

(** Lifting a device call to the replica. *)
Lemma on_dev_Ok {A} (m : M D A) r d' a :
  m (r_dev r) = (d', Ok a) → on_dev m r = (set_dev d' r, Ok a).
Proof. intros Hm. unfold on_dev, zoom. by rewrite Hm. Qed.

Lemma on_dev_Err {A} (m : M D A) r d' e :
  m (r_dev r) = (d', Err e) → on_dev m r = (set_dev d' r, Err e).
Proof. intros Hm. unfold on_dev, zoom. by rewrite Hm. Qed.

Lemma index_scan_spec r bs img n best buf :
  dev_at (r_dev r) bs img → 36 ≤ bs → 1 ≤ n < zlen img → zlen buf = bs →
  r_index r = index_of best → tracks bs img n best →
  ∃ d' best' buf', index_scan n buf r =
      ({| r_dev := d'; r_header := r_header r; r_index := index_of best' |}, Ok buf') ∧
    dev_at d' bs img ∧ zlen buf' = bs ∧ tracks bs img (n + 1) best'.
Proof.
  intros Hd Hbs Hn Hbuf Hix Ht. unfold index_scan.
  destruct (block_at_lt img n ltac:(lia)) as [b Hb].
  destruct (read_at _ bs img n b buf Hd Hb Hbuf) as (d1 & Hr & Hd1).
  mcall (on_dev_Ok _ _ _ _ Hr). assert (zlen b = bs) as Hlb by by eapply dev_block_len.
  mlift (get_u8_ok b 0 ltac:(lia)). change (Z.to_nat 0) with O.
  destruct (field b 0 1 =? BLOCK_TYPE_RECORD_DESCRIPTOR) eqn:Et; cbn [negb]; zbool.
  2: { exists d1, best, b. rewrite <- Hix. split_and!; [done|done|done|].
       apply tracks_skip; [done|]. intros rec. by eapply not_descriptor. }
  destruct (verify_spec d1 bs img n Hd1 Hbs ltac:(lia)) as (d2 & o & Hv & Hd2 & Ho).
  mcall (on_dev_Ok _ (set_dev d1 r) _ _ Hv).
  eexists d2, _, b. split_and!; [|done|done|by apply (tracks_step _ _ n o); [lia|..]].
  destruct o as [rec|]; [|by rewrite <- Hix].
  pose proof (complete_descriptor _ _ _ _ (proj1 (Ho rec) eq_refl)) as Hdb.
  mgets. simpl r_index. rewrite Hix, get_index_of.
  unfold keep_newest. destruct (best !! key_str (cr_key rec)) as [ex|]; cbn [fmap option_fmap option_map].
  - simpl ie_generation. destruct (cr_generation ex <? cr_generation rec); [|by rewrite <- Hix].
    unfold mbind, M_bind, on_index, modify, set_index_of. simpl. rewrite Hix, <- Hdb.
    fold (entry_of rec). by rewrite index_of_put.
  - unfold mbind, M_bind, on_index, modify, set_index_of. simpl. rewrite Hix, <- Hdb.
    fold (entry_of rec). by rewrite index_of_put.
Qed.

Lemma index_loop_spec k : ∀ r bs img n best buf,
  dev_at (r_dev r) bs img → 36 ≤ bs → 1 ≤ n → n + Z.of_nat k ≤ zlen img → zlen buf = bs →
  r_index r = index_of best → tracks bs img n best →
  ∃ d' best' buf', for_fold index_scan (seqZ n (Z.of_nat k)) buf r =
      ({| r_dev := d'; r_header := r_header r; r_index := index_of best' |}, Ok buf') ∧
    dev_at d' bs img ∧ tracks bs img (n + Z.of_nat k) best'.
Proof.
  induction k as [|k IH]; intros r bs img n best buf Hd Hbs Hn Hk Hbuf Hix Ht.
  { exists (r_dev r), best, buf. rewrite seqZ_nil, Z.add_0_r by lia. cbn [for_fold].
    destruct r. simpl in *. by rewrite Hix. }
  rewrite seqZ_cons by lia. cbn [for_fold].
  destruct (index_scan_spec r bs img n best buf) as (d1 & best1 & buf1 & Hs & Hd1 & Hb1 & Ht1);
    [done|done|lia|done|done|done|]. mcall Hs.
  replace (Z.succ n) with (n + 1) by lia. replace (Z.pred (Z.of_nat (S k))) with (Z.of_nat k) by lia.
  replace (n + Z.of_nat (S k)) with (n + 1 + Z.of_nat k) by lia.
  eapply (IH {| r_dev := d1; r_header := r_header r; r_index := index_of best1 |});
    [done|done|lia|lia|done|done|done].
Qed.

(** [build_index] indexes exactly the catalog of the device, and only reads. *)
Lemma build_index_spec r bs img :
  dev_at (r_dev r) bs img → 36 ≤ bs → 1 ≤ zlen img →
  ∃ d' best, Replica_build_index r =
      ({| r_dev := d'; r_header := r_header r; r_index := index_of best |}, Ok tt) ∧
    dev_at d' bs img ∧ catalog bs img best.
Proof.
  intros Hd Hbs Hn. pose proof (dev_at_geometry _ _ _ Hd) as (Hbsz & Hbc & Hbs32 & _).
  unfold Replica_build_index.
  rewrite (bind_Ok (on_index _) _ r (set_index_of MemIndex_new r) tt) by done. mgets. mgets.
  simpl r_dev. rewrite Hbc, Hbsz. replace (zlen img - 1) with (Z.of_nat (length img - 1)) by lia.
  destruct (index_loop_spec (length img - 1) (set_index_of MemIndex_new r) bs img 1 ∅
    (replicate (Z.to_nat bs) x00)) as (d' & best & buf & Hl & Hd' & Ht);
    [done|done|lia|lia|len|done|apply tracks_start|].
  mcall Hl. exists d', best. split_and!; [done|done|]. unfold catalog.
  by replace (zlen img) with (1 + Z.of_nat (length img - 1)) by lia.
Qed.

End BuildIndex.

(** ** Properties *)

(** C13: [build_index] of a replica returns, leaves the device as it is and
    replaces the index by the catalog of the device: exactly one entry for every
    key that has a complete record in a data block, naming the descriptor block,
    generation and size of the record with the highest generation (the lowest
    block among equals), whatever the index held before and however many
    damaged, stale or free blocks there are. *)
Theorem build_index_indexes_catalog `{Profile} `{ReliableDevice D} (r : Replica D) bs img :
  dev_at (r_dev r) bs img → 36 ≤ bs → 1 ≤ zlen img →
  ∃ r' best, Replica_build_index r = (r', Ok tt) ∧ dev_at (r_dev r') bs img ∧
    r_header r' = r_header r ∧ r_index r' = index_of best ∧ catalog bs img best.
Proof.
  intros Hd Hbs Hn. destruct (build_index_spec r bs img Hd Hbs Hn) as (d' & best & Hrun & Hd' & Hc).
  eexists _, best. split_and!; [exact Hrun|done|done|done|done].
Qed.

Lemma build_index_indexes_catalog_witness :
  ∃ r' best, Replica_build_index (H := dev_profile)
      {| r_dev := MemDevice_new 64 4; r_header := decode_storage []; r_index := MemIndex_new |} = (r', Ok tt) ∧
    r_index r' = index_of best.
Proof.
  destruct (build_index_indexes_catalog (H := dev_profile)
    {| r_dev := MemDevice_new 64 4; r_header := decode_storage []; r_index := MemIndex_new |} 64 _
    (MemDevice_new_at 64 4 ltac:(lia) ltac:(lia)) ltac:(lia) ltac:(simpl; lia))
    as (r' & best & Hrun & _ & _ & Hix & _).
  exists r', best. split; [exact Hrun|exact Hix].
Defined.
