(* ===== verification/Recovery.v ===== *)
(** * Recovery, and how the operations change the set of records

    What the complete records of an image become when a record is written to
    free blocks, when a record is erased, and when [recover]
    (rust/src/store.rs) erases everything that no newest record uses. *)

From S2P Require Import Prelude Errors Rust Format Crc Block Device Record Utf8 Index Replica.
From S2P Require Import RecordWrite Allocation Catalog.

(** ** Images with one record per key *)

(** Every key has at most one complete record. *)
Definition single (bs : Z) (img : image) : Prop :=
  ∀ k r1 r2, candidate bs img (zlen img) k r1 → candidate bs img (zlen img) k r2 → r1 = r2.

(** Every data block is free or part of a catalogued record. *)
Definition tidy (img : image) (best : gmap (list byte) CompleteRecord) : Prop :=
  ∀ x, 1 ≤ x < zlen img →
    is_free img x = true ∨ ∃ k rec, best !! k = Some rec ∧ x ∈ record_blocks rec.

Section Records.
Context (bs : Z).
Implicit Types (img : image) (rec : CompleteRecord) (best : gmap (list byte) CompleteRecord).

Lemma catalog_candidate img best k rec :
  catalog bs img best → best !! k = Some rec → candidate bs img (zlen img) k rec.
Proof. intros Hc Hk. by destruct (tracks_Some _ _ _ _ _ _ Hc Hk). Qed.

Lemma catalog_complete img best k rec :
  catalog bs img best → best !! k = Some rec →
  complete bs img (cr_descriptor_block rec) rec ∧ 1 ≤ cr_descriptor_block rec < zlen img ∧
  key_str (cr_key rec) = k.
Proof. apply catalog_candidate. Qed.

(** With one record per key, the catalog is the set of all records. *)
Lemma single_catalog img best k rec :
  catalog bs img best → single bs img →
  best !! k = Some rec ↔ candidate bs img (zlen img) k rec.
Proof.
  intros Hc Hs. split; [by eapply catalog_candidate|]. intros Hk.
  destruct (best !! k) as [rec'|] eqn:E.
  - f_equal. eapply Hs; [by eapply catalog_candidate|done].
  - by destruct (tracks_None _ _ _ _ _ rec Hc E).
Qed.

Lemma catalog_of_single img best :
  (∀ k rec, best !! k = Some rec ↔ candidate bs img (zlen img) k rec) →
  catalog bs img best ∧ single bs img.
Proof.
  intros Hb. split.
  - intros k. destruct (best !! k) as [rec|] eqn:E.
    + split; [by apply Hb|]. intros rec' Hr'%Hb. rewrite E in Hr'. injection Hr' as <-. lia.
    + intros rec Hr%Hb. congruence.
  - intros k r1 r2 H1%Hb H2%Hb. congruence.
Qed.

(** ** Blank images *)

(** No data block is in use. *)
Definition blank (img : image) : Prop := ∀ x, 1 ≤ x < zlen img → is_free img x = true.

Lemma blank_zero n m : (0 < m)%nat → blank (replicate n (replicate m x00)).
Proof.
  intros Hm x Hx. unfold is_free.
  destruct (block_at_lt (replicate n (replicate m x00)) x ltac:(lia)) as [b Hb]. rewrite Hb. apply block_at_Some in Hb as [_ Hb].
  apply lookup_replicate in Hb as [-> _]. by destruct m; [lia|].
Qed.

Lemma blank_catalog img best :
  blank img → catalog bs img best → best = ∅ ∧ single bs img ∧ tidy img best.
Proof.
  intros Hb Hc.
  assert (∀ k rec, ¬ candidate bs img (zlen img) k rec) as Hno.
  { intros k rec (Hrec & Hr & _). apply (free_not_record _ _ _ _ _ Hrec (Hb _ Hr)). left. }
  split_and!.
  - apply map_empty. intros k. specialize (Hc k). destruct (best !! k) as [rec|]; [|done].
    by destruct (Hno k rec), Hc.
  - intros k r1 r2 H1. by destruct (Hno k r1).
  - intros x Hx. left. by apply Hb.
Qed.

(** ** Writing a record to free blocks *)

(** The image [img'] is [img] with the record [rec] written over free blocks. *)
Definition adds (rec : CompleteRecord) (img img' : image) : Prop :=
  unchanged (record_blocks rec) img img' ∧
  complete bs img' (cr_descriptor_block rec) rec ∧
  (∀ x, x ∈ record_blocks rec → 1 ≤ x < zlen img ∧ is_free img x = true).

Lemma adds_complete rec img img' d r :
  adds rec img img' →
  complete bs img' d r ↔
  d = cr_descriptor_block rec ∧ r = rec ∨ d ≠ cr_descriptor_block rec ∧ complete bs img d r.
Proof.
  intros ([Hl Hun] & Hnew & Hfree). split.
  - intros Hc. destruct (decide (d = cr_descriptor_block rec)) as [->|Hne];
      [left; split; [done|by eapply complete_functional]|].
    right. split; [done|]. eapply complete_frame; [exact Hc|]. intros x Hx. symmetry. apply Hun.
    intros Hx'. by destruct (Hne (complete_disjoint _ _ _ _ _ _ _ Hc Hnew Hx Hx')).
  - intros [[-> ->]|[Hne Hc]]; [done|]. eapply complete_frame; [exact Hc|]. intros x Hx.
    apply Hun. intros Hx'. destruct (Hfree _ Hx') as [_ Hf].
    by apply (free_not_record _ _ _ _ _ Hc Hf).
Qed.

Lemma adds_candidate rec img img' k r :
  adds rec img img' →
  candidate bs img' (zlen img') k r ↔
  r = rec ∧ key_str (cr_key rec) = k ∨ candidate bs img (zlen img) k r.
Proof.
  intros Ha. pose proof Ha as ([Hl Hun] & Hnew & Hfree).
  assert (1 ≤ cr_descriptor_block rec < zlen img ∧ is_free img (cr_descriptor_block rec) = true)
    as [Hr Hdf] by (apply Hfree; left).
  unfold candidate. rewrite (adds_complete _ _ _ _ _ Ha). rewrite Hl. split.
  - intros ([[_ ->]|[_ ?]] & ? & ?); [by left|by right].
  - intros [[-> ?]|(Hc & ? & ?)]; [split_and!; auto; lia|]. split_and!; auto; [|lia..].
    right. split; [|done]. intros Heq.
    apply (free_not_record _ _ _ _ _ Hc Hdf). rewrite <- Heq. left.
Qed.

(** ** Erasing a record *)

Lemma erased_complete rec img img' pattern d r :
  0 < bs → good_pattern pattern → complete bs img (cr_descriptor_block rec) rec →
  erased bs pattern (record_blocks rec) img img' →
  complete bs img' d r ↔ d ≠ cr_descriptor_block rec ∧ complete bs img d r.
Proof.
  intros Hbs Hp Hrec [[Hl Hun] He].
  assert (∀ x, x ∈ record_blocks rec → is_free img' x = true) as Hfree.
  { intros x Hx. unfold is_free. rewrite (He x Hx). by apply free_buf_marked. }
  split.
  - intros Hc. split.
    + intros ->. pose proof (complete_descriptor _ _ _ _ Hc) as Hd.
      apply (free_not_record _ _ _ _ (cr_descriptor_block rec) Hc); [apply Hfree; left|].
      unfold record_blocks. rewrite Hd. left.
    + eapply complete_frame; [exact Hc|]. intros x Hx. symmetry. apply Hun. intros Hx'.
      by apply (free_not_record _ _ _ _ _ Hc (Hfree _ Hx')).
  - intros [Hne Hc]. eapply complete_frame; [exact Hc|]. intros x Hx. apply Hun. intros Hx'.
    by destruct (Hne (complete_disjoint _ _ _ _ _ _ _ Hc Hrec Hx Hx')).
Qed.

Lemma erased_candidate rec img img' pattern k r :
  0 < bs → good_pattern pattern → complete bs img (cr_descriptor_block rec) rec →
  erased bs pattern (record_blocks rec) img img' →
  candidate bs img' (zlen img') k r ↔ r ≠ rec ∧ candidate bs img (zlen img) k r.
Proof.
  intros Hbs Hp Hrec He. pose proof He as [[Hl _] _]. unfold candidate.
  rewrite (erased_complete _ _ _ _ _ _ Hbs Hp Hrec He). rewrite Hl. split.
  - intros ([Hne Hc] & Hr). split; [congruence|done].
  - intros (Hne & Hc & Hr). split; [split; [|done]|done]. intros Heq. apply Hne.
    rewrite Heq in Hc. by eapply complete_functional.
Qed.

End Records.

(** ** The blocks that recovery keeps *)

Lemma valid_blocks_elem best x :
  x ∈ valid_blocks best ↔ x = 0 ∨ ∃ k rec, best !! k = Some rec ∧ x ∈ record_blocks rec.
Proof.
  unfold valid_blocks.
  assert (∀ l (s : gset Z),
    x ∈ foldl (λ valid rec, list_to_set (cr_chunk_blocks rec) ∪
                 ({[cr_descriptor_block rec]} ∪ valid)) s l
    ↔ x ∈ s ∨ ∃ rec, rec ∈ l ∧ x ∈ record_blocks rec) as Hfold.
  { intros l. induction l as [|r l IH]; intros s; simpl.
    - split; [by left|]. intros [?|(rec & Hr & _)]; [done|]. by apply not_elem_of_nil in Hr.
    - rewrite IH, !elem_of_union, elem_of_list_to_set, elem_of_singleton. split.
      + intros [[?|[?|?]]|(rec & ? & ?)]; [| |by left|].
        * right. exists r. split; [left|by right].
        * right. exists r. subst. split; left.
        * right. exists rec. split; [by right|done].
      + intros [?|(rec & [->|?]%elem_of_cons & Hx)]; [by left; right; right| |by right; exists rec].
        apply elem_of_cons in Hx as [->|?]; left; [right; by left|by left]. }
  rewrite Hfold, elem_of_singleton. split.
  - intros [?|(rec & Hr & Hx)]; [by left|]. right.
    apply list_elem_of_fmap in Hr as ([k r] & -> & Hm%elem_of_map_to_list). by exists k, r.
  - intros [?|(k & rec & Hk & Hx)]; [by left|]. right. exists rec. split; [|done].
    apply list_elem_of_fmap. exists (k, rec). split; [done|]. by apply elem_of_map_to_list.
Qed.

(** [img'] is [img] with every block outside [valid] free: the blocks that
    already look free keep their contents, the others are overwritten. *)
Definition swept (bs : Z) (pattern : byte) (valid : gset Z) (img img' : image) (lo hi : Z) : Prop :=
  length img' = length img ∧
  ∀ x, block_at img' x =
    if bool_decide (lo ≤ x < hi) && bool_decide (x ∉ valid) && negb (is_free img x)
    then Some (make_free_buf bs pattern) else block_at img x.

(** The records after recovery are those of the catalog. *)
Lemma swept_complete bs pattern img img' best d r :
  0 < bs → good_pattern pattern → catalog bs img best → 1 ≤ d < zlen img →
  swept bs pattern (valid_blocks best) img img' 1 (zlen img) →
  complete bs img' d r ↔ ∃ k, best !! k = Some r ∧ cr_descriptor_block r = d.
Proof.
  intros Hbs Hp Hcat Hd [Hl Hsw].
  assert (∀ x, x ∈ valid_blocks best → block_at img' x = block_at img x) as Hkeep.
  { intros x Hx. rewrite Hsw, (bool_decide_eq_false_2 (x ∉ _)) by (intros ?; done).
    by rewrite andb_false_r. }
  split.
  - intros Hc. pose proof (complete_descriptor _ _ _ _ Hc) as Hdb.
    assert (∀ x, x ∈ record_blocks r → x ∈ valid_blocks best) as Hval.
    { intros x Hx. apply dec_stable. intros Hnv.
      destruct (complete_owned _ _ _ _ _ Hc Hx) as (b & Hb & Ho).
      pose proof (complete_not_free _ _ _ _ _ _ Hc Hx Hb) as Hnf.
      apply block_at_range in Hb as Hr. rewrite Hl in Hr.
      rewrite Hsw in Hb. destruct (_ && _) eqn:E.
      - injection Hb as <-. by rewrite free_buf_marked in Hnf.
      - rewrite (bool_decide_eq_true_2 (x ∉ _)) in E by done. rewrite andb_true_r in E.
        destruct (decide (x = 0)) as [->|]; [apply Hnv, valid_blocks_elem; by left|].
        rewrite bool_decide_eq_true_2 in E by lia. apply negb_false_iff in E.
        unfold is_free in E. rewrite Hb in E. congruence. }
    assert (complete bs img d r) as Hci.
    { eapply complete_frame; [exact Hc|]. intros x Hx. symmetry. by apply Hkeep, Hval. }
    assert (d ∈ record_blocks r) as Hin by (unfold record_blocks; rewrite Hdb; left).
    destruct (proj1 (valid_blocks_elem _ _) (Hval _ Hin)) as [->|(k & rec & Hk & Hx)]; [lia|].
    exists k. split; [|done]. destruct (catalog_complete _ _ _ _ _ Hcat Hk) as (Hrec & _).
    pose proof (complete_disjoint _ _ _ _ _ _ _ Hci Hrec Hin Hx) as Heq.
    rewrite <- Heq in Hrec. rewrite Hk. f_equal. by eapply complete_functional.
  - intros (k & Hk & <-). destruct (catalog_complete _ _ _ _ _ Hcat Hk) as (Hrec & _).
    eapply complete_frame; [exact Hrec|]. intros x Hx. apply Hkeep, valid_blocks_elem. right.
    by exists k, r.
Qed.

(** The newest records survive, alone, and everything else is free. *)
Lemma swept_clean bs pattern img img' best :
  0 < bs → good_pattern pattern → catalog bs img best →
  swept bs pattern (valid_blocks best) img img' 1 (zlen img) →
  catalog bs img' best ∧ single bs img' ∧ tidy img' best ∧ block_at img' 0 = block_at img 0.
Proof.
  intros Hbs Hp Hcat Hsw. pose proof Hsw as [Hl Hat].
  assert (∀ k rec, best !! k = Some rec ↔ candidate bs img' (zlen img') k rec) as Hall.
  { intros k rec. rewrite Hl. split.
    - intros Hk. destruct (catalog_complete _ _ _ _ _ Hcat Hk) as (_ & Hr & <-).
      split_and!; [|lia|lia|done]. eapply swept_complete; [done..|]. eauto.
    - intros (Hc & Hr & Hk). eapply swept_complete in Hc as (k' & Hk' & _); [|done..].
      destruct (catalog_complete _ _ _ _ _ Hcat Hk') as (_ & _ & Heq). congruence. }
  destruct (catalog_of_single _ _ _ Hall) as [Hc Hs]. split_and!; [done|done| |].
  - intros x Hx. rewrite Hl in Hx. destruct (decide (x ∈ valid_blocks best)) as [Hv|Hv].
    { apply valid_blocks_elem in Hv as [->|?]; [lia|by right]. }
    left. destruct (is_free img x) eqn:Ef.
    + unfold is_free at 1. rewrite Hat, Ef, andb_false_r. exact Ef.
    + unfold is_free at 1. rewrite Hat, bool_decide_eq_true_2, bool_decide_eq_true_2, Ef by done.
      by apply free_buf_marked.
  - by rewrite Hat.
Qed.

(** ** recover *)

Section Recover.
Context `{Profile} `{ReliableDevice D}.
Implicit Types (d : D) (img : image).

Lemma recover_scan_spec d bs img n best buf :
  dev_at d bs img → 36 ≤ bs → 1 ≤ n < zlen img → zlen buf = bs → tracks bs img n best →
  ∃ d' best' buf', recover_scan n (buf, best) d = (d', Ok (buf', best')) ∧
    dev_at d' bs img ∧ zlen buf' = bs ∧ tracks bs img (n + 1) best'.
Proof.
  intros Hd Hbs Hn Hbuf Ht. unfold recover_scan.
  destruct (block_at_lt img n ltac:(lia)) as [b Hb].
  destruct (read_at _ bs img n b buf Hd Hb Hbuf) as (d1 & Hr & Hd1). mcall Hr.
  assert (zlen b = bs) as Hlb by by eapply dev_block_len.
  mlift (get_u8_ok b 0 ltac:(lia)). change (Z.to_nat 0) with O.
  destruct (field b 0 1 =? BLOCK_TYPE_RECORD_DESCRIPTOR) eqn:Et; cbn [negb]; zbool.
  2: { exists d1, best, b. split_and!; [done|done|done|].
       apply tracks_skip; [done|]. intros rec. by eapply not_descriptor. }
  destruct (verify_spec d1 bs img n Hd1 Hbs ltac:(lia)) as (d2 & o & Hv & Hd2 & Ho). mcall Hv.
  eexists d2, _, b. split_and!; [|done|done|by apply (tracks_step _ _ n o); [lia|..]].
  by destruct o.
Qed.

Lemma recover_scan_loop k : ∀ d bs img n best buf,
  dev_at d bs img → 36 ≤ bs → 1 ≤ n → n + Z.of_nat k ≤ zlen img → zlen buf = bs →
  tracks bs img n best →
  ∃ d' best' buf', for_fold recover_scan (seqZ n (Z.of_nat k)) (buf, best) d
      = (d', Ok (buf', best')) ∧
    dev_at d' bs img ∧ zlen buf' = bs ∧ tracks bs img (n + Z.of_nat k) best'.
Proof.
  induction k as [|k IH]; intros d bs img n best buf Hd Hbs Hn Hk Hbuf Ht.
  { exists d, best, buf. by rewrite seqZ_nil, Z.add_0_r by lia. }
  rewrite seqZ_cons by lia. cbn [for_fold].
  destruct (recover_scan_spec d bs img n best buf) as (d1 & best1 & buf1 & Hs & Hd1 & Hb1 & Ht1);
    [done|done|lia|done|done|]. mcall Hs.
  replace (Z.succ n) with (n + 1) by lia. replace (Z.pred (Z.of_nat (S k))) with (Z.of_nat k) by lia.
  replace (n + Z.of_nat (S k)) with (n + 1 + Z.of_nat k) by lia.
  eapply IH; [done|done|lia|lia|done|done].
Qed.

(** Extending the sweep by one block. *)
Lemma swept_step bs pattern valid img img1 img2 n :
  swept bs pattern valid img img1 1 n → 1 ≤ n → length img2 = length img1 →
  (∀ x, block_at img2 x =
     if bool_decide (x = n) && bool_decide (n ∉ valid) && negb (is_free img n)
     then Some (make_free_buf bs pattern) else block_at img1 x) →
  swept bs pattern valid img img2 1 (n + 1).
Proof.
  intros [Hl Hsw] Hn Hl2 Hat. split; [congruence|]. intros x. rewrite Hat, Hsw.
  destruct (decide (x = n)) as [->|Hne].
  - rewrite bool_decide_eq_true_2 by done. rewrite (bool_decide_eq_true_2 (1 ≤ n < n + 1)) by lia.
    destruct (_ && _); [done|]. by rewrite (bool_decide_eq_false_2 (1 ≤ n < n)) by lia.
  - rewrite (bool_decide_eq_false_2 (x = n)) by done. cbn [andb].
    by rewrite (bool_decide_ext (1 ≤ x < n) (1 ≤ x < n + 1)) by lia.
Qed.

Lemma swept_start bs pattern valid img : swept bs pattern valid img img 1 1.
Proof. split; [done|]. intros x. by rewrite bool_decide_eq_false_2 by lia. Qed.

Lemma recover_erase_spec d bs pattern valid img img1 n buf g :
  dev_at d bs img1 → swept bs pattern valid img img1 1 n → 1 ≤ n < zlen img → zlen buf = bs →
  ∃ d' img2 buf' g', recover_erase valid (make_free_buf bs pattern) n (buf, g) d
      = (d', Ok (buf', g')) ∧
    dev_at d' bs img2 ∧ zlen buf' = bs ∧ swept bs pattern valid img img2 1 (n + 1).
Proof.
  intros Hd Hsw Hn Hbuf. pose proof (dev_at_geometry _ _ _ Hd) as (_ & _ & Hbs32 & _).
  assert (block_at img1 n = block_at img n) as Hsame.
  { rewrite (proj2 Hsw n). by rewrite bool_decide_eq_false_2 by lia. }
  unfold recover_erase. case_bool_decide as Hv.
  { exists d, img1, buf, g. split_and!; [done|done|done|].
    eapply swept_step; [done|lia|done|]. intros x.
    by rewrite (bool_decide_eq_false_2 (n ∉ valid)), andb_false_r by (intros ?; done). }
  destruct (block_at_lt img n ltac:(lia)) as [b Hb]. rewrite <- Hsame in Hb.
  destruct (read_at _ bs img1 n b buf Hd Hb Hbuf) as (d1 & Hr & Hd1). mcall Hr.
  assert (zlen b = bs) as Hlb by by eapply dev_block_len.
  mlift (get_u8_ok b 0 ltac:(lia)). change (Z.to_nat 0) with O.
  assert (is_free img n = ((field b 0 1 =? 0) || (field b 0 1 =? 255))) as Hf.
  { unfold is_free. by rewrite <- Hsame, Hb. }
  destruct ((field b 0 1 =? 0) || (field b 0 1 =? 255)).
  - exists d1, img1, b, g. split_and!; [done|done|done|].
    eapply swept_step; [done|lia|done|]. intros x. by rewrite Hf, andb_false_r.
  - destruct (write_ok d1 bs img1 n (make_free_buf bs pattern) Hd1) as (d2 & Hw & Hd2);
      [rewrite (proj1 Hsw); lia|apply zlen_make_free_buf; lia|]. mcall Hw.
    eexists d2, _, b, true. split_and!; [done|exact Hd2|done|].
    eapply swept_step; [done|lia|by rewrite length_insert|]. intros x.
    rewrite block_at_insert by (rewrite (proj1 Hsw); lia).
    rewrite Hf, (bool_decide_eq_true_2 (n ∉ valid)) by done. rewrite !andb_true_r.
    case_decide; case_bool_decide; congruence.
Qed.

Lemma recover_erase_loop k : ∀ d bs pattern valid img img1 n buf g,
  dev_at d bs img1 → swept bs pattern valid img img1 1 n → 1 ≤ n →
  n + Z.of_nat k ≤ zlen img → zlen buf = bs →
  ∃ d' img2 buf' g',
    for_fold (recover_erase valid (make_free_buf bs pattern)) (seqZ n (Z.of_nat k)) (buf, g) d
      = (d', Ok (buf', g')) ∧
    dev_at d' bs img2 ∧ swept bs pattern valid img img2 1 (n + Z.of_nat k).
Proof.
  induction k as [|k IH]; intros d bs pattern valid img img1 n buf g Hd Hsw Hn Hk Hbuf.
  { exists d, img1, buf, g. by rewrite seqZ_nil, Z.add_0_r by lia. }
  rewrite seqZ_cons by lia. cbn [for_fold].
  destruct (recover_erase_spec d bs pattern valid img img1 n buf g)
    as (d1 & img2 & buf1 & g1 & Hs & Hd1 & Hb1 & Hsw1); [done|done|lia|done|]. mcall Hs.
  replace (Z.succ n) with (n + 1) by lia. replace (Z.pred (Z.of_nat (S k))) with (Z.of_nat k) by lia.
  replace (n + Z.of_nat (S k)) with (n + 1 + Z.of_nat k) by lia.
  eapply IH; [done|done|lia|lia|done].
Qed.

(** [recover] sweeps the blocks that no newest record uses: its two loops and
    the blocks they leave. *)
Lemma recover_script d bs img pattern :
  dev_at d bs img → 36 ≤ bs → 1 ≤ zlen img →
  ∃ d1 buf d2 buf2 g d' img' best, recover_device pattern d = (d', Ok tt) ∧
    for_fold recover_scan (seqZ 1 (zlen img - 1)) (replicate (Z.to_nat bs) x00, ∅) d
      = (d1, Ok (buf, best)) ∧
    for_fold (recover_erase (valid_blocks best) (make_free_buf bs pattern))
      (seqZ 1 (zlen img - 1)) (buf, false) d1 = (d2, Ok (buf2, g)) ∧
    (if g : bool then flush else mret tt) d2 = (d', Ok tt) ∧ dev_at d' bs img' ∧
    catalog bs img best ∧ swept bs pattern (valid_blocks best) img img' 1 (zlen img).
Proof.
  intros Hd Hbs Hn. pose proof (dev_at_geometry _ _ _ Hd) as (Hbsz & Hbc & Hbs32 & _).
  unfold recover_device. mgets. mgets. rewrite Hbsz, Hbc.
  assert (zlen img - 1 = Z.of_nat (length img - 1)) as Hcount by lia. rewrite Hcount.
  assert (1 + Z.of_nat (length img - 1) = zlen img) as Hend by lia.
  destruct (recover_scan_loop (length img - 1) d bs img 1 ∅ (replicate (Z.to_nat bs) x00))
    as (d1 & best & buf1 & Hs & Hd1 & Hb1 & Ht); [done|done|lia|lia|len|apply tracks_start|].
  mcall Hs. rewrite Hend in Ht.
  destruct (recover_erase_loop (length img - 1) d1 bs pattern (valid_blocks best) img img 1 buf1
    false) as (d2 & img2 & buf2 & g & He & Hd2 & Hsw);
    [done|apply swept_start|lia|lia|done|]. mcall He. rewrite Hend in Hsw.
  assert (∃ d3, (if g : bool then flush else mret tt) d2 = (d3, Ok tt) ∧ dev_at d3 bs img2)
    as (d3 & Hf & Hd3).
  { destruct g; [|by exists d2]. by apply flush_ok. }
  exists d1, buf1, d2, buf2, g, d3, img2, best. by split_and!.
Qed.

Lemma recover_device_spec d bs img pattern :
  dev_at d bs img → 36 ≤ bs → 1 ≤ zlen img →
  ∃ d' img' best, recover_device pattern d = (d', Ok tt) ∧ dev_at d' bs img' ∧
    catalog bs img best ∧ swept bs pattern (valid_blocks best) img img' 1 (zlen img).
Proof.
  intros Hd Hbs Hn. destruct (recover_script d bs img pattern Hd Hbs Hn)
    as (d1 & buf & d2 & buf2 & g & d' & img' & best & Hrun & _ & _ & _ & Hd' & Hc & Hsw).
  by exists d', img', best.
Qed.

End Recover.
