(* ===== verification/ReplicaSpec.v ===== *)
(** * What the operations of one replica do

    The invariant of a replica on a working device and the contract of every
    [Replica] method (rust/src/store.rs) against it: the index always is the
    catalog of the device. *)

From S2P Require Import Prelude Errors Rust Format Crc Block Device Record Utf8 Index Replica.
From S2P Require Import RecordWrite Allocation Catalog Recovery.

Abbreviation records := (gmap (list byte) CompleteRecord).

(** ** The catalog under the updates *)

Section Updates.
Context (bs : Z).
Implicit Types (img : image) (rec : CompleteRecord) (best : records).

(** Block 0 is the storage header of this image. *)
Definition header_ok (n : Z) (b : list byte) : Prop :=
  let h := decode_storage b in
  field b 0 1 = BLOCK_TYPE_STORAGE_HEADER ∧ crc_valid b = true ∧ sh_magic h = MAGIC ∧
  sh_block_size h = bs ∧ sh_block_count h = n ∧ 1 ≤ n.
Definition has_header (img : image) : Prop :=
  ∃ b, block_at img 0 = Some b ∧ header_ok (zlen img) b.

Lemma has_header_length img : has_header img → 1 ≤ zlen img.
Proof. intros (b & Hb & _). apply block_at_range in Hb. lia. Qed.

Lemma has_header_eq img img' :
  block_at img' 0 = block_at img 0 → length img' = length img → has_header img → has_header img'.
Proof. intros He Hl (b & Hb & Ht). exists b. by rewrite He, Hl. Qed.

Lemma header_not_record img d rec : has_header img → complete bs img d rec → 0 ∉ record_blocks rec.
Proof.
  intros (b & Hb & Ht & _) Hc Hx. destruct (complete_owned _ _ _ _ _ Hc Hx) as (b' & Hb' & Ho).
  rewrite Hb in Hb'. injection Hb' as <-. unfold owned_by in Ho. consts.
  destruct Ho as [[_ ?]|[? _]]; congruence.
Qed.

(** A new record of the highest generation takes the place of the old one. *)
Lemma catalog_adds rec img img' best :
  catalog bs img best → adds bs rec img img' →
  (∀ old, best !! key_str (cr_key rec) = Some old → cr_generation old < cr_generation rec) →
  catalog bs img' (<[key_str (cr_key rec) := rec]> best).
Proof.
  intros Hcat Ha Hgen k.
  assert (∀ r, candidate bs img' (zlen img') k r ↔
    r = rec ∧ key_str (cr_key rec) = k ∨ candidate bs img (zlen img) k r) as Hcand
    by (intros; by apply adds_candidate).
  destruct (decide (key_str (cr_key rec) = k)) as [<-|Hne].
  - rewrite lookup_insert_eq. split; [apply Hcand; by left|].
    intros r' [[-> _]|Hr']%Hcand; [lia|]. left.
    specialize (Hcat (key_str (cr_key rec))).
    destruct (best !! _) as [old|]; [|by destruct (Hcat r')].
    specialize (Hgen old eq_refl). destruct Hcat as [_ Hmax]. specialize (Hmax _ Hr'). lia.
  - rewrite lookup_insert_ne by done. specialize (Hcat k). destruct (best !! k) as [old|].
    + destruct Hcat as [Ho Hmax]. split; [apply Hcand; by right|].
      intros r' [[_ ?]|Hr']%Hcand; [done|]. by apply Hmax.
    + intros r [[_ ?]|Hr]%Hcand; [done|]. by destruct (Hcat r).
Qed.

(** Erasing a record that does not stand for its key keeps the catalog. *)
Lemma catalog_erase_old old img img' best pattern :
  0 < bs → good_pattern pattern → catalog bs img best →
  complete bs img (cr_descriptor_block old) old →
  best !! key_str (cr_key old) ≠ Some old →
  erased bs pattern (record_blocks old) img img' → catalog bs img' best.
Proof.
  intros Hbs Hp Hcat Hold Hne He k.
  assert (∀ r, candidate bs img' (zlen img') k r ↔ r ≠ old ∧ candidate bs img (zlen img) k r)
    as Hcand by (intros; by eapply erased_candidate).
  specialize (Hcat k). destruct (best !! k) as [r|] eqn:Ek.
  - destruct Hcat as [Hr Hmax]. split.
    + apply Hcand. split; [|done]. intros ->. destruct Hr as (_ & _ & <-). done.
    + intros r' [_ Hr']%Hcand. by apply Hmax.
  - intros r [_ Hr]%Hcand. by destruct (Hcat r).
Qed.

(** Erasing the only record of a key removes the key. *)
Lemma catalog_erase k rec img img' best pattern :
  0 < bs → good_pattern pattern → catalog bs img best → best !! k = Some rec →
  (∀ r, candidate bs img (zlen img) k r → r = rec) →
  erased bs pattern (record_blocks rec) img img' → catalog bs img' (delete k best).
Proof.
  intros Hbs Hp Hcat Hk Honly He k'.
  destruct (catalog_complete _ _ _ _ _ Hcat Hk) as (Hrec & _ & Hkey).
  assert (∀ r, candidate bs img' (zlen img') k' r ↔ r ≠ rec ∧ candidate bs img (zlen img) k' r)
    as Hcand by (intros; by eapply erased_candidate).
  specialize (Hcat k'). destruct (decide (k = k')) as [<-|Hne].
  - rewrite lookup_delete_eq. intros r [Hne Hr]%Hcand. by apply Hne, Honly.
  - rewrite lookup_delete_ne by done. destruct (best !! k') as [r|].
    + destruct Hcat as [Hr Hmax]. split.
      * apply Hcand. split; [|done]. intros ->. destruct Hr as (_ & _ & ?). congruence.
      * intros r' [_ Hr']%Hcand. by apply Hmax.
    + intros r [_ Hr]%Hcand. by destruct (Hcat r).
Qed.

(** A copy-on-write update: the new record is written to free blocks, then the
    record it replaces is erased. *)
Definition replaces (pattern : byte) (rec : CompleteRecord) (best : records)
    (img img' : image) : Prop :=
  ∃ img1, adds bs rec img img1 ∧
    match best !! key_str (cr_key rec) with
    | Some old => erased bs pattern (record_blocks old) img1 img'
    | None => img' = img1
    end.

Section Replaces.
Context (pattern : byte) (rec : CompleteRecord) (best : records) (img img' : image).
Hypotheses (Hbs : 0 < bs) (Hp : good_pattern pattern) (Hcat : catalog bs img best)
  (Hgen : ∀ old, best !! key_str (cr_key rec) = Some old → cr_generation old < cr_generation rec)
  (Hrep : replaces pattern rec best img img').

Lemma replaces_old img1 old :
  adds bs rec img img1 → best !! key_str (cr_key rec) = Some old →
  complete bs img1 (cr_descriptor_block old) old ∧ rec ≠ old.
Proof.
  intros Ha Hold. destruct (catalog_complete _ _ _ _ _ Hcat Hold) as (Hc & Hr & Hk).
  assert (candidate bs img1 (zlen img1) (key_str (cr_key rec)) old) as [? _].
  { eapply adds_candidate; [exact Ha|]. right. done. }
  split; [done|]. intros Heq. specialize (Hgen _ Hold). rewrite Heq in Hgen. lia.
Qed.

Lemma replaces_length : length img' = length img.
Proof.
  destruct Hrep as (img1 & ([Hl _] & _) & He). revert He.
  case (best !! key_str (cr_key rec)); [intros old [[Hl' _] _]; congruence|by intros ->].
Qed.

Lemma replaces_candidate k r :
  candidate bs img' (zlen img') k r ↔
  r = rec ∧ key_str (cr_key rec) = k ∨
  candidate bs img (zlen img) k r ∧ best !! key_str (cr_key rec) ≠ Some r.
Proof.
  destruct Hrep as (img1 & Ha & He). revert He. case_eq (best !! key_str (cr_key rec)); [intros old Hold He|intros Hold ->].
  - destruct (replaces_old _ _ Ha Hold) as [Hc Hne].
    rewrite (erased_candidate _ _ _ _ _ _ _ Hbs Hp Hc He), (adds_candidate _ _ _ _ _ _ Ha).
    split.
    + intros [Hro [Hr|Hr]]; [by left|]. right. split; [done|]. congruence.
    + intros [[-> ?]|[Hr Hro]]; [auto|]. split; [congruence|by right].
  - rewrite (adds_candidate _ _ _ _ _ _ Ha).
    split; [intros [?|?]; [by left|by right]|intros [?|[? _]]; [by left|by right]].
Qed.

Lemma replaces_catalog : catalog bs img' (<[key_str (cr_key rec) := rec]> best).
Proof.
  destruct Hrep as (img1 & Ha & He).
  pose proof (catalog_adds _ _ _ _ Hcat Ha Hgen) as Hcat1.
  revert He. case_eq (best !! key_str (cr_key rec)); [intros old Hold He|by intros _ ->].
  destruct (replaces_old _ _ Ha Hold) as [Hc Hne].
  destruct (catalog_complete _ _ _ _ _ Hcat Hold) as (_ & _ & Hk).
  eapply catalog_erase_old; [done|done|exact Hcat1|exact Hc| |exact He].
  rewrite Hk, lookup_insert_eq. congruence.
Qed.

Lemma replaces_single : single bs img → single bs img'.
Proof.
  intros Hs k r1 r2 H1 H2. apply replaces_candidate in H1, H2.
  assert (∀ r, candidate bs img (zlen img) (key_str (cr_key rec)) r →
               best !! key_str (cr_key rec) = Some r) as Hin
    by (intros r; by apply single_catalog).
  destruct H1 as [[-> <-]|[H1 Hn1]], H2 as [[-> Hk]|[H2 Hn2]]; [done|by apply Hin in H2| |by eapply Hs].
  subst k. by apply Hin in H1.
Qed.

Lemma replaces_tidy : tidy img best → tidy img' (<[key_str (cr_key rec) := rec]> best).
Proof.
  intros Ht x Hx. rewrite replaces_length in Hx. specialize (Ht x Hx).
  destruct Hrep as (img1 & Ha & He). pose proof Ha as ([Hl Hun] & _ & Hfree).
  destruct (decide (x ∈ record_blocks rec)) as [Hin|Hnin].
  { right. exists (key_str (cr_key rec)), rec. by rewrite lookup_insert_eq. }
  assert (is_free img1 x = is_free img x) as Hf1 by (unfold is_free; by rewrite Hun).
  revert He. case_eq (best !! key_str (cr_key rec)); [intros old Hold He|intros Hold ->].
  - destruct He as [[_ Hun2] He]. destruct (decide (x ∈ record_blocks old)) as [Ho|Hno].
    { left. unfold is_free. rewrite (He _ Ho). by apply free_buf_marked. }
    assert (is_free img' x = is_free img1 x) as -> by (unfold is_free; by rewrite Hun2).
    destruct Ht as [?|(k & r & Hk & Hxr)]; [left; congruence|]. right. exists k, r.
    split; [|done]. rewrite lookup_insert_ne; [done|]. intros <-. congruence.
  - destruct Ht as [?|(k & r & Hk & Hxr)]; [left; congruence|]. right. exists k, r.
    split; [|done]. rewrite lookup_insert_ne; [done|]. intros <-. congruence.
Qed.

Lemma replaces_block0 : has_header img → block_at img' 0 = block_at img 0.
Proof.
  intros Hh. destruct Hrep as (img1 & Ha & He). pose proof Ha as ([Hl Hun] & _ & Hfree).
  assert (block_at img1 0 = block_at img 0) as H1.
  { apply Hun. intros Hx. apply Hfree in Hx. lia. }
  revert He. case_eq (best !! key_str (cr_key rec)); [intros old Hold He|by intros _ ->].
  destruct (catalog_complete _ _ _ _ _ Hcat Hold) as (Hc & _ & _).
  destruct He as [[_ Hun2] _]. rewrite Hun2; [done|]. by eapply header_not_record.
Qed.

End Replaces.
(** Erasing a catalogued record, when it is the only one of its key. *)
Section Erases.
Context (pattern : byte) (k : list byte) (rec : CompleteRecord) (best : records) (img img' : image).
Hypotheses (Hbs : 0 < bs) (Hp : good_pattern pattern) (Hcat : catalog bs img best)
  (Hk : best !! k = Some rec) (He : erased bs pattern (record_blocks rec) img img').

Lemma erases_single : single bs img → single bs img'.
Proof.
  destruct (catalog_complete _ _ _ _ _ Hcat Hk) as (Hc & _ & _).
  intros Hs k' r1 r2 [_ H1]%(erased_candidate _ _ _ _ _ _ _ Hbs Hp Hc He)
    [_ H2]%(erased_candidate _ _ _ _ _ _ _ Hbs Hp Hc He). by eapply Hs.
Qed.

Lemma erases_tidy : tidy img best → tidy img' (delete k best).
Proof.
  intros Ht x Hx. destruct He as [[Hl Hun] Hfree]. rewrite Hl in Hx.
  destruct (decide (x ∈ record_blocks rec)) as [Hin|Hnin].
  { left. unfold is_free. rewrite (Hfree _ Hin). by apply free_buf_marked. }
  assert (is_free img' x = is_free img x) as -> by (unfold is_free; by rewrite Hun).
  destruct (Ht x Hx) as [?|(k' & r & Hk' & Hxr)]; [by left|]. right. exists k', r.
  split; [|done]. rewrite lookup_delete_ne; [done|]. intros <-. congruence.
Qed.

Lemma erases_block0 : has_header img → block_at img' 0 = block_at img 0.
Proof.
  intros Hh. destruct (catalog_complete _ _ _ _ _ Hcat Hk) as (Hc & _ & _).
  destruct He as [[_ Hun] _]. apply Hun. by eapply header_not_record.
Qed.

End Erases.
End Updates.

(** ** The methods *)

Section Methods.
Context `{Profile} `{ReliableDevice D}.
Implicit Types (r : Replica D) (img : image) (best : records).

(** A replica over the device contents [img], indexed by its catalog. *)
Record replica_at (bs : Z) (img : image) (best : records) (r : Replica D) : Prop := {
  ra_dev : dev_at (r_dev r) bs img;
  ra_bs : 36 ≤ bs;
  ra_header : has_header bs img;
  ra_index : r_index r = index_of best;
  ra_catalog : catalog bs img best;
}.

(** The same replica after device calls that only read. *)
Lemma replica_at_read bs img best r d' :
  replica_at bs img best r → dev_at d' bs img → replica_at bs img best (set_dev d' r).
Proof. intros [] Hd. by constructor. Qed.

(** *** Lookup *)

Lemma get_with_generation_spec bs img best r key :
  replica_at bs img best r →
  ∃ d', get_with_generation key r =
      (set_dev d' r, Ok ((λ rec, inl (cr_generation rec, cr_value rec)) <$> best !! key_str key)) ∧
    dev_at d' bs img.
Proof.
  intros Hr. pose proof Hr as [Hd Hbs Hh Hix Hcat]. unfold get_with_generation. mgets.
  rewrite Hix, get_index_of. destruct (best !! key_str key) as [rec|] eqn:Hk; simpl.
  2: { exists (r_dev r). split; [|done]. by destruct r. }
  destruct (catalog_complete _ _ _ _ _ Hcat Hk) as (Hc & Hrng & _).
  destruct (verify_spec (r_dev r) bs img (cr_descriptor_block rec) Hd Hbs ltac:(lia))
    as (d1 & o & Hv & Hd1 & Ho). exists d1. split; [|done].
  apply Ho in Hc as ->. unfold mbind, M_bind, attempt. by rewrite (on_dev_Ok _ _ _ _ Hv).
Qed.

(** *** Update *)

(** The arguments of [put] that fit the format. *)
Definition fits (bs : Z) (key : list byte) (generation user_flags : Z) : Prop :=
  zlen key ≤ bs - 36 ∧ zlen key < U16 ∧ u32 generation ∧ u32 user_flags.

(** The blocks a value takes. *)
Definition blocks_for (bs : Z) (key value : list byte) : Z :=
  match needed_blocks key value bs with Ok n => n | _ => 0 end.

(** The record [put] writes. *)
Definition put_record (bs : Z) (img : image) (key value : list byte) (generation user_flags : Z) :
    CompleteRecord :=
  let bl := take (Z.to_nat (blocks_for bs key value)) (free_list img) in
  new_record bs (default 0 (head bl)) (tail bl) key generation value user_flags.

Lemma blocks_for_spec bs key value :
  36 ≤ bs < U32 → zlen key ≤ bs - 36 →
  needed_blocks key value bs = Ok (blocks_for bs key value) ∧
  1 ≤ blocks_for bs key value < U32 - 1.
Proof.
  intros Hbs Hk. destruct (needed_blocks_spec key value bs Hbs Hk) as (n & Hn & Hr & _).
  unfold blocks_for. by rewrite Hn.
Qed.

Lemma put_record_blocks bs img key value generation user_flags :
  36 ≤ bs < U32 → fits bs key generation user_flags →
  blocks_for bs key value ≤ zlen (free_list img) →
  let rec := put_record bs img key value generation user_flags in
  take (Z.to_nat (blocks_for bs key value)) (free_list img) = record_blocks rec ∧
  writable bs img (cr_descriptor_block rec) (cr_chunk_blocks rec) key generation value user_flags.
Proof.
  intros Hbs (Hk & Hk16 & Hg & Hf) Hfree.
  destruct (needed_blocks_spec key value bs Hbs Hk) as (n & Hn & Hr & Hsz).
  unfold put_record, blocks_for in *. rewrite Hn in *.
  assert (zlen (take (Z.to_nat n) (free_list img)) = n) as Hlen by len.
  assert (NoDup (take (Z.to_nat n) (free_list img))) as Hnd.
  { eapply sublist_NoDup; [apply free_list_NoDup|apply sublist_take]. }
  assert (in_image img (take (Z.to_nat n) (free_list img))) as Hin.
  { apply Forall_forall. intros x Hx%elem_of_take. destruct Hx as (i & Hx & _).
    apply list_elem_of_lookup_2, free_list_elem in Hx. lia. }
  destruct (take _ _) as [|db chunks]; [simpl in Hlen; lia|].
  split; [done|]. rewrite length_cons in Hlen.
  replace (n - 1) with (zlen chunks) in Hsz by lia.
  constructor; [lia|done|done|done|done|done|done|simpl; lia|exact Hsz].
Qed.

(** The first half of [put]: the new record is on the device, flushed. *)
Lemma put_record_adds bs img key value generation user_flags d :
  dev_at d bs img → 36 ≤ bs → fits bs key generation user_flags →
  blocks_for bs key value ≤ zlen (free_list img) →
  let rec := put_record bs img key value generation user_flags in
  ∃ d' img', write_record (cr_descriptor_block rec) (cr_chunk_blocks rec) key generation value
               user_flags d = (d', Ok tt) ∧ dev_at d' bs img' ∧ adds bs rec img img'.
Proof.
  intros Hd Hbs Hfit Hfree rec. pose proof (dev_at_geometry _ _ _ Hd) as (_ & _ & Hbs32 & _).
  destruct (put_record_blocks bs img key value generation user_flags ltac:(lia) Hfit Hfree)
    as [Hbl Hw]. fold rec in Hbl, Hw.
  destruct (write_record_spec d bs img _ _ _ _ _ _ Hd Hw) as (d' & img' & Hrun & Hd' & Hun & Hc).
  exists d', img'. split_and!; [done|done|]. split_and!; [exact Hun|exact Hc|].
  intros x Hx. rewrite <- Hbl in Hx. apply elem_of_take in Hx as (i & Hx & _).
  by apply list_elem_of_lookup_2, free_list_elem in Hx.
Qed.

(** The arguments of the index entry [put] makes are those of its record. *)
Lemma put_entry bs img key value generation user_flags best :
  MemIndex_put {| ie_key := key_str key; ie_generation := generation;
    ie_descriptor_block :=
      cr_descriptor_block (put_record bs img key value generation user_flags);
    ie_total_size := as_u32 (zlen value) |} (index_of best) =
  index_of (<[key_str key := put_record bs img key value generation user_flags]> best).
Proof. apply (index_of_put best (put_record bs img key value generation user_flags)). Qed.

(** The second half of [put]: the record it replaces, if any, is erased. *)
Definition frees (bs : Z) (pattern : byte) (o : option CompleteRecord)
    (d : D) (img : image) (d' : D) (img' : image) : Prop :=
  match o with
  | Some old => ∃ d1, free_record (cr_descriptor_block old) pattern d = (d1, Ok tt) ∧
      flush d1 = (d', Ok tt) ∧ erased bs pattern (record_blocks old) img img'
  | None => d' = d ∧ img' = img
  end.

Lemma free_existing bs img r (o : option CompleteRecord) pattern :
  dev_at (r_dev r) bs img → 36 ≤ bs →
  (∀ old, o = Some old → complete bs img (cr_descriptor_block old) old) →
  ∃ d' img',
    match ie_descriptor_block <$> (entry_of <$> o) with
    | Some old_block => on_dev (free_record old_block pattern);; on_dev flush
    | None => mret tt
    end r = (set_dev d' r, Ok tt) ∧ dev_at d' bs img' ∧
    frees bs pattern o (r_dev r) img d' img'.
Proof.
  intros Hd Hbs Ho. destruct o as [old|]; cbn [fmap option_fmap option_map].
  2: { exists (r_dev r), img. by split_and!; [destruct r|..]. }
  destruct (free_record_spec (r_dev r) bs img _ old pattern Hd Hbs (Ho _ eq_refl))
    as (d4 & img4 & Hfr & Hd4 & He).
  destruct (flush_ok d4 bs img4 Hd4) as (d5 & Hfl & Hd5).
  exists d5, img4. split_and!; [|done|by exists d4].
  simpl ie_descriptor_block. mcall (on_dev_Ok _ r _ _ Hfr).
  by rewrite (on_dev_Ok _ (set_dev d4 r) _ _ Hfl).
Qed.

(** [put] when there is room: the calls it makes and the blocks they leave. *)
Lemma put_script bs img best r key value generation user_flags pattern :
  replica_at bs img best r → fits bs key generation user_flags →
  (∀ old, best !! key_str key = Some old → cr_generation old < generation) →
  blocks_for bs key value ≤ zlen (free_list img) →
  let rec := put_record bs img key value generation user_flags in
  ∃ d1 d2 d3 img1 d' img',
    Replica_put key value generation user_flags pattern r =
      ({| r_dev := d'; r_header := r_header r;
          r_index := index_of (<[key_str key := rec]> best) |}, Ok tt) ∧
    find_free_blocks (blocks_for bs key value) (r_dev r) = (d1, Ok (record_blocks rec)) ∧
    write_record (cr_descriptor_block rec) (cr_chunk_blocks rec) key generation value user_flags d1
      = (d2, Ok tt) ∧
    flush d2 = (d3, Ok tt) ∧ dev_at d3 bs img1 ∧ adds bs rec img img1 ∧
    frees bs pattern (best !! key_str key) d3 img1 d' img' ∧ dev_at d' bs img'.
Proof.
  intros Hr Hfit Hgen Hfree rec. pose proof Hr as [Hd Hbs Hh Hix Hcat].
  pose proof (dev_at_geometry _ _ _ Hd) as (Hbsz & _ & Hbs32 & _).
  destruct (blocks_for_spec bs key value ltac:(lia) (proj1 Hfit)) as [Hneed Hn].
  destruct (put_record_blocks bs img key value generation user_flags ltac:(lia) Hfit Hfree)
    as [Hbl _]. fold rec in Hbl.
  unfold Replica_put. mgets. rewrite Hix, get_index_of. mgets. rewrite Hbsz. mlift Hneed.
  destruct (find_free_blocks_spec (blocks_for bs key value) (r_dev r) bs img Hd ltac:(lia))
    as (d1 & Hff & Hd1).
  rewrite (proj2 (Z.leb_le _ _) Hfree), Hbl in Hff. mcall (on_dev_Ok _ _ _ _ Hff).
  assert (index (record_blocks rec) 0 = Ok (cr_descriptor_block rec)) as Hi0 by done. mlift Hi0.
  assert (slice (record_blocks rec) 1 (zlen (record_blocks rec)) = Ok (cr_chunk_blocks rec)) as Hs1.
  { unfold record_blocks. rewrite slice_ok by len. simpl drop. f_equal.
    apply take_ge. simpl length. lia. }
  mlift Hs1.
  destruct (put_record_adds bs img key value generation user_flags d1 Hd1 Hbs Hfit Hfree)
    as (d2 & img2 & Hw & Hd2 & Ha). fold rec in Hw, Ha.
  mcall (on_dev_Ok _ (set_dev d1 r) _ _ Hw).
  destruct (flush_ok d2 bs img2 Hd2) as (d3 & Hfl & Hd3).
  mcall (on_dev_Ok _ (set_dev d2 (set_dev d1 r)) _ _ Hfl).
  rewrite (bind_Ok (on_index _) _ _ {| r_dev := d3; r_header := r_header r;
    r_index := index_of (<[key_str key := rec]> best) |} tt)
    by (unfold on_index, modify, set_index_of, set_dev, rec; cbn [r_dev r_header r_index];
        by rewrite Hix, put_entry).
  destruct (free_existing bs img2 {| r_dev := d3; r_header := r_header r;
      r_index := index_of (<[key_str key := rec]> best) |} (best !! key_str key) pattern Hd3 Hbs)
    as (d4 & img4 & Hfr & Hd4 & He).
  { intros old Hold. by apply (replaces_old bs rec best img Hcat Hgen img2 old Ha Hold). }
  exists d1, d2, d3, img2, d4, img4. by split_and!; [exact Hfr|..].
Qed.

Lemma put_spec bs img best r key value generation user_flags pattern :
  replica_at bs img best r → fits bs key generation user_flags →
  (∀ old, best !! key_str key = Some old → cr_generation old < generation) →
  blocks_for bs key value ≤ zlen (free_list img) →
  let rec := put_record bs img key value generation user_flags in
  ∃ d' img', Replica_put key value generation user_flags pattern r =
      ({| r_dev := d'; r_header := r_header r;
          r_index := index_of (<[key_str key := rec]> best) |}, Ok tt) ∧
    dev_at d' bs img' ∧ replaces bs pattern rec best img img'.
Proof.
  intros Hr Hfit Hgen Hfree rec.
  destruct (put_script bs img best r key value generation user_flags pattern Hr Hfit Hgen Hfree)
    as (d1 & d2 & d3 & img1 & d' & img' & Hrun & _ & _ & _ & _ & Ha & Hfr & Hd').
  exists d', img'. split_and!; [exact Hrun|done|]. exists img1. split; [exact Ha|].
  revert Hfr. unfold frees. change (key_str (cr_key rec)) with (key_str key).
  destruct (best !! key_str key); [by intros (? & _ & _ & ?)|by intros [_ ?]].
Qed.

(** [put] when there is not: nothing changes. *)
Lemma put_full bs img best r key value generation user_flags pattern :
  replica_at bs img best r → fits bs key generation user_flags →
  zlen (free_list img) < blocks_for bs key value →
  ∃ d', Replica_put key value generation user_flags pattern r
      = (set_dev d' r, Err StorageFull) ∧ dev_at d' bs img ∧
    find_free_blocks (blocks_for bs key value) (r_dev r) = (d', Err StorageFull).
Proof.
  intros Hr Hfit Hfree. pose proof Hr as [Hd Hbs Hh Hix Hcat].
  pose proof (dev_at_geometry _ _ _ Hd) as (Hbsz & _ & Hbs32 & _).
  destruct (blocks_for_spec bs key value ltac:(lia) (proj1 Hfit)) as [Hneed Hn].
  unfold Replica_put. mgets. mgets. rewrite Hbsz. mlift Hneed.
  destruct (find_free_blocks_spec (blocks_for bs key value) (r_dev r) bs img Hd ltac:(lia))
    as (d1 & Hff & Hd1). rewrite (proj2 (Z.leb_gt _ _) Hfree) in Hff.
  exists d1. split_and!; [|done|done]. by rewrite (bind_Err _ _ _ _ _ (on_dev_Err _ _ _ _ Hff)).
Qed.

(** [put] keeps the invariant. *)
Lemma put_replica_at bs img img' best r rec pattern d' hdr :
  replica_at bs img best r → good_pattern pattern →
  (∀ old, best !! key_str (cr_key rec) = Some old → cr_generation old < cr_generation rec) →
  dev_at d' bs img' → replaces bs pattern rec best img img' →
  replica_at bs img' (<[key_str (cr_key rec) := rec]> best)
    {| r_dev := d'; r_header := hdr;
       r_index := index_of (<[key_str (cr_key rec) := rec]> best) |}.
Proof.
  intros [Hd Hbs Hh Hix Hcat] Hp Hgen Hd' Hrep. constructor; [done|done| |done|].
  - eapply has_header_eq; [by eapply replaces_block0|by eapply replaces_length|done].
  - by eapply replaces_catalog; [lia|..].
Qed.

(** *** Recovery and indexing *)

(** A replica whose index may be stale. *)
Record mounted (bs : Z) (img : image) (r : Replica D) : Prop := {
  mo_dev : dev_at (r_dev r) bs img;
  mo_bs : 36 ≤ bs;
  mo_header : has_header bs img;
}.

Lemma replica_at_mounted bs img best r : replica_at bs img best r → mounted bs img r.
Proof. intros []. by constructor. Qed.

Lemma build_index_at bs img r :
  mounted bs img r →
  ∃ r' best, Replica_build_index r = (r', Ok tt) ∧ r_header r' = r_header r ∧
    replica_at bs img best r'.
Proof.
  intros [Hd Hbs Hh]. destruct (build_index_spec r bs img Hd Hbs (has_header_length _ _ Hh))
    as (d' & best & Hrun & Hd' & Hcat). eexists _, best. split_and!; [exact Hrun|done|].
  by constructor.
Qed.

(** [recover] keeps the newest record of every key and erases the rest. *)
Lemma recover_at bs img r pattern :
  mounted bs img r → good_pattern pattern →
  ∃ d' img' best, Replica_recover pattern r = (set_dev d' r, Ok tt) ∧
    mounted bs img' (set_dev d' r) ∧ length img' = length img ∧
    catalog bs img best ∧ catalog bs img' best ∧
    single bs img' ∧ tidy img' best.
Proof.
  intros [Hd Hbs Hh] Hp. pose proof (has_header_length _ _ Hh) as Hn.
  destruct (recover_device_spec (r_dev r) bs img pattern Hd Hbs Hn)
    as (d' & img' & best & Hrun & Hd' & Hcat & Hsw).
  destruct (swept_clean bs pattern img img' best ltac:(lia) Hp Hcat Hsw) as (Hc & Hs & Ht & Hb0).
  exists d', img', best. split_and!; [by apply on_dev_Ok| |apply Hsw|done..].
  constructor; [done|done|]. eapply has_header_eq; [done|apply Hsw|done].
Qed.

End Methods.

(** ** Properties *)

(** C10: [recover] of a replica on a working device returns and keeps, block for
    block, the storage header and the newest complete record of every key;
    afterwards the device holds exactly those records, one per key, and every
    other data block is free. *)
Theorem recover_keeps_newest `{Profile} `{ReliableDevice D} (r : Replica D) bs img pattern :
  mounted bs img r → good_pattern pattern →
  ∃ r' img' best, Replica_recover pattern r = (r', Ok tt) ∧ mounted bs img' r' ∧
    r_index r' = r_index r ∧ catalog bs img best ∧ catalog bs img' best ∧
    (∀ x, x ∈ valid_blocks best → block_at img' x = block_at img x) ∧
    (∀ k rec, candidate bs img' (zlen img') k rec ↔ best !! k = Some rec) ∧ tidy img' best.
Proof.
  intros [Hd Hbs Hh] Hp.
  destruct (recover_device_spec (r_dev r) bs img pattern Hd Hbs (has_header_length _ _ Hh))
    as (d' & img' & best & Hrun & Hd' & Hcat & Hsw).
  destruct (swept_clean bs pattern img img' best ltac:(lia) Hp Hcat Hsw) as (Hc & Hs & Ht & Hb0).
  exists (set_dev d' r), img', best. split_and!; [by apply on_dev_Ok| |done|done|done| | |done].
  - constructor; [done|done|]. eapply has_header_eq; [done|apply Hsw|done].
  - intros x Hx. destruct Hsw as [_ Hsw]. rewrite Hsw.
    rewrite (bool_decide_eq_false_2 (x ∉ _)) by (intros Hn; done). by rewrite andb_false_r.
  - intros k rec. symmetry. by apply single_catalog.
Qed.

(** [recover] is idempotent: on a recovered replica it changes no block. *)
Theorem recover_idempotent `{Profile} `{ReliableDevice D} (r : Replica D) bs img pattern pattern' :
  mounted bs img r → good_pattern pattern →
  ∃ r' r'' img', Replica_recover pattern r = (r', Ok tt) ∧ mounted bs img' r' ∧
    Replica_recover pattern' r' = (r'', Ok tt) ∧ mounted bs img' r''.
Proof.
  intros Hm Hp. destruct (recover_at bs img r pattern Hm Hp)
    as (d' & img' & best & Hrun & Hm' & _ & _ & Hcat & Hs & Ht).
  exists (set_dev d' r). pose proof Hm' as [Hd' Hbs Hh'].
  destruct (recover_device_spec d' bs img' pattern' Hd' Hbs (has_header_length _ _ Hh'))
    as (d'' & img'' & best' & Hrun' & Hd'' & Hcat' & [Hl Hsw]).
  assert (best' = best) as -> by exact (tracks_unique _ _ _ _ _ Hcat' Hcat).
  assert (img'' = img') as ->.
  { apply list_eq. intros i. pose proof (Hsw (Z.of_nat i)) as Hi.
    assert (bool_decide (1 ≤ Z.of_nat i < zlen img') && bool_decide (Z.of_nat i ∉ valid_blocks best)
      && negb (is_free img' (Z.of_nat i)) = false) as Hno.
    { apply not_true_is_false. rewrite !andb_true_iff, !bool_decide_eq_true, negb_true_iff.
      intros [[Hr Hv] Hf]. destruct (Ht _ Hr) as [?|Hin]; [congruence|].
      apply Hv, valid_blocks_elem. by right. }
    rewrite Hno in Hi. unfold block_at in Hi.
    by rewrite (proj2 (Z.ltb_ge _ _)), Nat2Z.id in Hi by lia. }
  exists (set_dev d'' (set_dev d' r)), img'. split_and!; [done|done| |by constructor].
  by apply on_dev_Ok.
Qed.

(** C9: [put] on one replica is copy-on-write.  With room, it returns, the key's
    record is the one with the given value and generation (of a value of 4 GiB or
    more, the prefix of its length modulo 2^32), no block outside the free blocks
    it allocated and the replaced record's blocks changes, so every other key
    keeps its record, and the replica stays in order (one record per key, no
    garbage, if so before).  Without room it fails with [StorageFull] and neither
    the device nor the index changes. *)
Theorem replica_put_copy_on_write `{Profile} `{ReliableDevice D} (r : Replica D) bs img best
    key value generation user_flags pattern :
  replica_at bs img best r → fits bs key generation user_flags → good_pattern pattern →
  (∀ old, best !! key_str key = Some old → cr_generation old < generation) →
  let rec := put_record bs img key value generation user_flags in
  if decide (blocks_for bs key value ≤ zlen (free_list img)) then
    ∃ r' img', Replica_put key value generation user_flags pattern r = (r', Ok tt) ∧
      replica_at bs img' (<[key_str key := rec]> best) r' ∧
      cr_value rec = stored_value value ∧ cr_generation rec = generation ∧
      (∀ x, x ∈ record_blocks rec → is_free img x = true) ∧
      (∀ x, block_at img' x ≠ block_at img x → x ∈ record_blocks rec ∨
         ∃ old, best !! key_str key = Some old ∧ x ∈ record_blocks old) ∧
      (single bs img → single bs img') ∧
      (tidy img best → tidy img' (<[key_str key := rec]> best))
  else ∃ r', Replica_put key value generation user_flags pattern r = (r', Err StorageFull) ∧
      replica_at bs img best r' ∧ r_index r' = r_index r.
Proof.
  intros Hr Hfit Hp Hgen rec. case_decide as Hroom.
  - destruct (put_spec bs img best r key value generation user_flags pattern Hr Hfit Hgen Hroom)
      as (d' & img' & Hrun & Hd' & Hrep). pose proof Hr as [Hd Hbs Hh Hix Hcat].
    eexists _, img'. split_and!; [exact Hrun| |done|done|..].
    + by apply (put_replica_at bs img img' best r rec pattern d' (r_header r)).
    + destruct Hrep as (img1 & (_ & _ & Hfree) & _). intros x Hx. by apply Hfree.
    + destruct Hrep as (img1 & ([_ Hun] & _ & _) & He). intros x Hx.
      destruct (decide (x ∈ record_blocks rec)) as [?|Hno]; [by left|]. right.
      change (match best !! key_str key with
        | Some old => erased bs pattern (record_blocks old) img1 img' | None => img' = img1 end) in He.
      revert He.
      destruct (best !! key_str key) as [old|]; [|intros ->; destruct Hx; by apply Hun].
      intros [[_ Hun2] _]. exists old. split; [done|]. apply dec_stable. intros Hno2.
      destruct Hx. rewrite Hun2 by done. by apply Hun.
    + apply (replaces_single bs pattern rec best img img'); [lia|done..].
    + apply (replaces_tidy bs pattern rec best img img'); [lia|done..].
  - destruct (put_full bs img best r key value generation user_flags pattern Hr Hfit)
      as (d' & Hrun & Hd' & _); [lia|]. exists (set_dev d' r). split_and!; [done| |done].
    by apply replica_at_read.
Qed.

(** *** A small replica, for concrete runs *)

Definition sample_header : StorageHeader := {|
  sh_block_type := BLOCK_TYPE_STORAGE_HEADER; sh_magic := MAGIC; sh_version_major := 1;
  sh_version_minor := 0; sh_block_size := 64; sh_block_count := 4; sh_replica_id := 0;
  sh_format_seq := 0; sh_flags := 0 |}.

Definition sample_image : image :=
  seal (encode_storage sample_header ++ replicate 32 x00) :: replicate 3 (replicate 64 x00).

Definition sample_device : MemDevice :=
  {| md_block_size := 64; md_block_count := 4; md_data := mjoin sample_image |}.

Definition sample_replica : Replica MemDevice :=
  {| r_dev := sample_device; r_header := sample_header; r_index := MemIndex_new |}.

Lemma sample_mounted : mounted 64 sample_image sample_replica.
Proof.
  constructor; [|lia|].
  - split_and!; [by vm_compute|done|by vm_compute].
  - eexists. split; [done|]. by vm_compute.
Qed.

Lemma sample_blank : blank sample_image.
Proof.
  intros x Hx. assert (x = 1 ∨ x = 2 ∨ x = 3) as [->|[->| ->]] by (simpl in Hx; lia); done.
Qed.

Lemma sample_replica_at : replica_at 64 sample_image ∅ sample_replica.
Proof.
  destruct sample_mounted as [Hd Hbs Hh]. constructor; [done|done|done|reflexivity|].
  destruct (build_index_spec (H := dev_profile) sample_replica 64 sample_image Hd Hbs ltac:(simpl; lia))
    as (d' & best & _ & _ & Hc).
  by destruct (blank_catalog 64 sample_image best sample_blank Hc) as (-> & _).
Qed.

Lemma recover_keeps_newest_witness :
  ∃ r' img', Replica_recover (H := dev_profile) x00 sample_replica = (r', Ok tt) ∧
    mounted 64 img' r'.
Proof.
  destruct (recover_keeps_newest (H := dev_profile) sample_replica 64 sample_image x00)
    as (r' & img' & best & Hrun & Hm & _); [exact sample_mounted|by left|].
  exists r', img'. split; [exact Hrun|exact Hm].
Defined.

Lemma replica_put_copy_on_write_witness :
  ∃ r' img' best', Replica_put (H := dev_profile) [x6b] [x76] 1 0 x00 sample_replica = (r', Ok tt) ∧
    replica_at 64 img' best' r'.
Proof.
  pose proof (replica_put_copy_on_write (H := dev_profile) sample_replica 64 sample_image ∅
    [x6b] [x76] 1 0 x00 sample_replica_at) as Hput. cbv zeta in Hput.
  rewrite decide_True in Hput by (by vm_compute).
  destruct Hput as (r' & img' & Hrun & Hr & _).
  - unfold fits, u32. simpl. lia.
  - by left.
  - intros old Hold. by rewrite lookup_empty in Hold.
  - eexists r', img', _. split; [exact Hrun|exact Hr].
Defined.

(** *** Space *)

(** The blocks in use by the records of a catalog. *)
Definition used_blocks (best : records) : list Z := mjoin (record_blocks <$> (map_to_list best).*2).

Lemma used_blocks_elem best x :
  x ∈ used_blocks best ↔ ∃ k rec, best !! k = Some rec ∧ x ∈ record_blocks rec.
Proof.
  unfold used_blocks. rewrite list_elem_of_join. split.
  - intros (l & Hx & Hl). apply list_elem_of_fmap in Hl as (rec & -> & Hr).
    apply list_elem_of_fmap in Hr as ([k rec'] & -> & Hm%elem_of_map_to_list). by exists k, rec'.
  - intros (k & rec & Hk & Hx). exists (record_blocks rec). split; [done|].
    apply list_elem_of_fmap. exists rec. split; [done|]. apply list_elem_of_fmap.
    exists (k, rec). split; [done|]. by apply elem_of_map_to_list.
Qed.

Lemma join_NoDup {A B} (f : A → list B) (l : list A) :
  NoDup l → (∀ a, a ∈ l → NoDup (f a)) →
  (∀ a b x, a ∈ l → b ∈ l → x ∈ f a → x ∈ f b → a = b) → NoDup (mjoin (f <$> l)).
Proof.
  intros Hnd. induction Hnd as [|a l Ha Hnd IH]; intros Hf Hd; [constructor|].
  rewrite fmap_cons. cbn [mjoin list_join]. apply NoDup_app. split_and!.
  - apply Hf. left.
  - intros x Hx Hy. apply list_elem_of_join in Hy as (m & Hxm & Hm).
    apply list_elem_of_fmap in Hm as (b & -> & Hb). apply Ha.
    rewrite (Hd a b x); [done|left|by right|done|done].
  - apply IH; [intros b Hb; apply Hf; by right|]. intros b c x Hb Hc. apply Hd; by right.
Qed.

Lemma used_blocks_NoDup bs img best : catalog bs img best → NoDup (used_blocks best).
Proof.
  intros Hcat.
  assert (∀ rec, rec ∈ (map_to_list best).*2 → ∃ k, best !! k = Some rec) as Hin.
  { intros rec Hr. apply list_elem_of_fmap in Hr as ([k r] & -> & Hm%elem_of_map_to_list).
    by exists k. }
  apply join_NoDup.
  - apply NoDup_fmap_2_strong; [|apply NoDup_map_to_list].
    intros [k1 r1] [k2 r2] H1%elem_of_map_to_list H2%elem_of_map_to_list Heq. simpl in Heq.
    subst r2. destruct (catalog_complete _ _ _ _ _ Hcat H1) as (_ & _ & <-).
    by destruct (catalog_complete _ _ _ _ _ Hcat H2) as (_ & _ & <-).
  - intros rec [k Hk]%Hin. destruct (catalog_complete _ _ _ _ _ Hcat Hk) as (Hc & _).
    by eapply complete_NoDup.
  - intros r1 r2 x [k1 H1]%Hin [k2 H2]%Hin Hx1 Hx2.
    destruct (catalog_complete _ _ _ _ _ Hcat H1) as (Hc1 & _).
    destruct (catalog_complete _ _ _ _ _ Hcat H2) as (Hc2 & _).
    pose proof (complete_disjoint _ _ _ _ _ _ _ Hc1 Hc2 Hx1 Hx2) as Heq. rewrite Heq in Hc1.
    by eapply complete_functional.
Qed.

(** The free blocks and the blocks of the records. *)
Lemma space_partition bs img best :
  has_header bs img → catalog bs img best → tidy img best →
  free_list img ++ used_blocks best ≡ₚ seqZ 1 (zlen img - 1).
Proof.
  intros Hh Hcat Ht.
  assert (∀ x, x ∈ used_blocks best → 1 ≤ x < zlen img ∧ is_free img x = false) as Hused.
  { intros x (k & rec & Hk & Hx)%used_blocks_elem.
    destruct (catalog_complete _ _ _ _ _ Hcat Hk) as (Hc & _).
    destruct (complete_owned _ _ _ _ _ Hc Hx) as (b & Hb & _). apply block_at_range in Hb as Hr.
    split; [|by apply not_true_is_false; intros Hf; apply (free_not_record _ _ _ _ _ Hc Hf)].
    assert (x ≠ 0); [|lia]. intros ->. by apply (header_not_record _ _ _ _ Hh Hc). }
  apply NoDup_Permutation; [|apply NoDup_seqZ|].
  - apply NoDup_app. split_and!; [apply free_list_NoDup| |by eapply used_blocks_NoDup].
    intros x [_ Hf]%free_list_elem [_ Hu]%Hused. congruence.
  - intros x. rewrite elem_of_app, elem_of_seqZ, free_list_elem. split.
    + intros [?|[? _]%Hused]; lia.
    + intros Hx. destruct (Ht x ltac:(lia)) as [?|?]; [left; split; [lia|done]|].
      right. by apply used_blocks_elem.
Qed.

Lemma free_list_count bs img best :
  has_header bs img → catalog bs img best → tidy img best →
  zlen (free_list img) = zlen img - 1 - zlen (used_blocks best).
Proof.
  intros Hh Hcat Ht. pose proof (space_partition bs img best Hh Hcat Ht) as Hperm.
  apply Permutation_length in Hperm. rewrite length_app, length_seqZ in Hperm.
  pose proof (has_header_length _ _ Hh). lia.
Qed.

Lemma used_blocks_insert best k rec :
  best !! k = None →
  zlen (used_blocks (<[k := rec]> best)) = zlen (record_blocks rec) + zlen (used_blocks best).
Proof.
  intros Hk.
  assert (used_blocks (<[k := rec]> best) ≡ₚ record_blocks rec ++ used_blocks best) as Hp.
  { unfold used_blocks. by rewrite map_to_list_insert. }
  rewrite (Permutation_length Hp). len.
Qed.

(** The number of blocks of the record of a key, if it has one. *)
Definition blocks_of (k : list byte) (best : records) : Z :=
  match best !! k with Some rec => zlen (record_blocks rec) | None => 0 end.

Lemma used_blocks_delete best k :
  zlen (used_blocks (base.delete k best)) = zlen (used_blocks best) - blocks_of k best.
Proof.
  unfold blocks_of. destruct (best !! k) as [rec|] eqn:Hk.
  - rewrite <- (insert_delete_id best k rec Hk) at 2.
    rewrite used_blocks_insert by apply lookup_delete_eq. lia.
  - rewrite delete_id by done. lia.
Qed.

Lemma used_blocks_replace best k rec :
  zlen (used_blocks (<[k := rec]> best)) =
    zlen (used_blocks best) + zlen (record_blocks rec) - blocks_of k best.
Proof.
  rewrite <- insert_delete_eq, used_blocks_insert by apply lookup_delete_eq.
  rewrite used_blocks_delete. lia.
Qed.
