(* ===== verification/StoreSpec.v ===== *)
(** * What the store promises

    The abstract state of a store is a finite map from keys to values.  This
    file proves that the operations of [Store] (rust/src/store.rs) implement
    the operations on that map, over any number of replicas. *)

From S2P Require Import Prelude Errors Rust Format Crc Block Device Record Utf8 Index Replica.
From S2P Require Import Store RecordWrite Allocation Catalog Recovery ReplicaSpec.

(** The contents of one replica: its blocks and its catalog. *)
Abbreviation shard := (image * records)%type.

(** ** The abstract state *)

(** Of two records for one key the newer one counts, the first on a tie. *)
Definition newer (a b : CompleteRecord) : option CompleteRecord :=
  Some (if cr_generation a <? cr_generation b then b else a).

(** The record that stands for each key over all replicas. *)
Definition winners (ps : list shard) : records :=
  foldl (λ acc p, union_with newer acc p.2) ∅ ps.

(** The abstract map. *)
Definition contents (ps : list shard) : gmap (list byte) (list byte) := cr_value <$> winners ps.

(** The highest generation of a key. *)
Definition top_generation (k : list byte) (ps : list shard) : Z :=
  foldl (λ g p, match p.2 !! k with
                | Some rec => if g <? cr_generation rec then cr_generation rec else g
                | None => g
                end) 0 ps.

(** One step of the search for the newest record of a key. *)
Definition pick (k : list byte) (o : option CompleteRecord) (p : shard) : option CompleteRecord :=
  match p.2 !! k with
  | None => o
  | Some rec => match o with
                | None => Some rec
                | Some a => newer a rec
                end
  end.

Section Abstract.
Implicit Types (ps : list shard) (k : list byte) (p : shard).

Lemma winners_from ps acc k :
  foldl (λ acc p, union_with newer acc p.2) acc ps !! k = foldl (pick k) (acc !! k) ps.
Proof.
  revert acc. induction ps as [|p ps IH]; intros acc; simpl; [done|].
  rewrite IH. f_equal. rewrite lookup_union_with. unfold pick.
  by destruct (acc !! k) as [a|], (p.2 !! k) as [b|].
Qed.

Lemma winners_lookup ps k : winners ps !! k = foldl (pick k) None ps.
Proof. unfold winners. by rewrite winners_from, lookup_empty. Qed.

Lemma contents_lookup ps k : contents ps !! k = cr_value <$> foldl (pick k) None ps.
Proof. unfold contents. by rewrite lookup_fmap, winners_lookup. Qed.

(** Replicas without the key do not count. *)
Lemma contents_skip pre post k :
  Forall (λ p : shard, p.2 !! k = None) pre → contents (pre ++ post) !! k = contents post !! k.
Proof.
  intros Hn. rewrite !contents_lookup, foldl_app. do 2 f_equal.
  induction Hn as [|p pre Hp _ IH]; [done|]. simpl. unfold pick at 2. by rewrite Hp.
Qed.

Lemma contents_winner ps k : contents ps !! k = cr_value <$> winners ps !! k.
Proof. apply lookup_fmap. Qed.

(** The winner only depends on what the replicas hold for the key. *)
Lemma pick_ext ps ps' k o :
  Forall2 (λ p p', p'.2 !! k = p.2 !! k) ps ps' → foldl (pick k) o ps' = foldl (pick k) o ps.
Proof.
  intros Hf. revert o. induction Hf as [|p p' ps ps' Hp _ IH]; intros o; simpl; [done|].
  rewrite IH. unfold pick. by rewrite Hp.
Qed.

(** The winner is one of the records, and none has a higher generation. *)
Lemma pick_max ps k o :
  match foldl (pick k) o ps with
  | Some rec =>
      (o = Some rec ∨ ∃ p, p ∈ ps ∧ p.2 !! k = Some rec) ∧
      (∀ a, o = Some a → cr_generation a ≤ cr_generation rec) ∧
      ∀ p r, p ∈ ps → p.2 !! k = Some r → cr_generation r ≤ cr_generation rec
  | None => o = None ∧ ∀ p, p ∈ ps → p.2 !! k = None
  end.
Proof.
  revert o. induction ps as [|p ps IH]; intros o; simpl.
  { destruct o as [a|]; [|split; [done|]; intros p Hp; by apply not_elem_of_nil in Hp].
    split_and!; [by left|intros ? [= ->]; lia|]. intros p r Hp. by apply not_elem_of_nil in Hp. }
  specialize (IH (pick k o p)).
  destruct (foldl _ _ _) as [rec|].
  - destruct IH as (Hin & Ho & Hps). split_and!.
    + destruct Hin as [Hin|(q & Hq & Hk)]; [|right; exists q; split; [by right|done]].
      unfold pick, newer in Hin. destruct (p.2 !! k) as [r|] eqn:Ek; [|by left].
      destruct o as [a|]; [destruct (_ <? _)|]; [|by left|]; right; exists p;
        (split; [left|congruence]).
    + intros a ->. unfold pick, newer in Ho. destruct (p.2 !! k) as [r|]; [|by apply Ho].
      destruct (cr_generation a <? cr_generation r) eqn:E; zbool; specialize (Ho _ eq_refl); lia.
    + intros q r [->|Hq]%elem_of_cons Hk; [|by eapply Hps].
      unfold pick, newer in Ho. rewrite Hk in Ho. destruct o as [a|]; [|by apply Ho].
      destruct (cr_generation a <? cr_generation r) eqn:E; zbool; specialize (Ho _ eq_refl); lia.
  - destruct IH as (Hp & Hps). unfold pick, newer in Hp.
    destruct (p.2 !! k) eqn:Ek; [by destruct o|]. split; [done|].
    intros q [->|Hq]%elem_of_cons; [done|by apply Hps].
Qed.

Lemma winners_max ps k :
  match winners ps !! k with
  | Some rec => (∃ p, p ∈ ps ∧ p.2 !! k = Some rec) ∧
      ∀ p r, p ∈ ps → p.2 !! k = Some r → cr_generation r ≤ cr_generation rec
  | None => ∀ p, p ∈ ps → p.2 !! k = None
  end.
Proof.
  rewrite winners_lookup. pose proof (pick_max ps k None) as Hm.
  destruct (foldl _ _ _); [|by destruct Hm]. by destruct Hm as ([|] & _ & ?).
Qed.

Lemma top_generation_max ps k :
  0 ≤ top_generation k ps ∧
  (∀ p r, p ∈ ps → p.2 !! k = Some r → cr_generation r ≤ top_generation k ps) ∧
  ∀ g, 0 ≤ g → (∀ p r, p ∈ ps → p.2 !! k = Some r → cr_generation r ≤ g) →
    top_generation k ps ≤ g.
Proof.
  unfold top_generation.
  induction ps as [|p ps IH] using rev_ind; simpl.
  { split_and!; [done|intros p r Hp; by apply not_elem_of_nil in Hp|done]. }
  rewrite foldl_app. simpl. set (t := foldl _ _ _) in *. destruct IH as (H0 & Hle & Hlub).
  assert (∀ g, 0 ≤ g → (∀ q r, q ∈ ps ++ [p] → q.2 !! k = Some r → cr_generation r ≤ g) →
    t ≤ g) as Hlub'.
  { intros g Hg Hq. apply Hlub; [done|]. intros q r Hin. apply Hq, elem_of_app. by left. }
  assert (∀ q r, q ∈ ps ++ [p] → q.2 !! k = Some r →
    cr_generation r ≤ t ∨ p.2 !! k = Some r) as Hcase.
  { intros q r [Hin| ->%list_elem_of_singleton]%elem_of_app Hk; [left; by eapply Hle|by right]. }
  destruct (p.2 !! k) as [rec|] eqn:Ek; [destruct (t <? cr_generation rec) eqn:E; zbool|].
  - split_and!; [lia| |].
    + intros q r Hin Hk. destruct (Hcase _ _ Hin Hk) as [|[= ->]]; lia.
    + intros g Hg Hq. eapply Hq; [|exact Ek]. apply elem_of_app. right. by apply list_elem_of_singleton.
  - split_and!; [lia| |done].
    intros q r Hin Hk. destruct (Hcase _ _ Hin Hk) as [|[= ->]]; lia.
  - split_and!; [lia| |done].
    intros q r Hin Hk. by destruct (Hcase _ _ Hin Hk).
Qed.

End Abstract.

(** ** The store over working devices *)

Section Concrete.
Context `{Profile} `{ReliableDevice D}.
Implicit Types (s : Store D) (ps : list shard) (rs : list (Replica D)).

(** Every replica is in order and holds the given shard. *)
Definition replicas_at (bs : Z) (rs : list (Replica D)) (ps : list shard) : Prop :=
  Forall2 (λ r p, replica_at bs p.1 p.2 r) rs ps.

Definition store_at (bs : Z) (ps : list shard) (s : Store D) : Prop :=
  replicas_at bs (replicas s) ps ∧ good_pattern (free_pattern (opts s)).

(** *** get *)

(** What the loop of [get] carries when [o] is the newest record so far. *)
Definition carried (o : option CompleteRecord) : option (list byte) * Z :=
  (cr_value <$> o, default 0 (cr_generation <$> o)).

Lemma get_best_spec bs p r key o :
  replica_at bs p.1 p.2 r →
  ∃ r', get_best key (carried o) r = (r', Ok (carried (pick (key_str key) o p))) ∧
    replica_at bs p.1 p.2 r'.
Proof.
  intros Hr. destruct (get_with_generation_spec bs _ _ r key Hr) as (d' & Hg & Hd').
  exists (set_dev d' r). split; [|by apply replica_at_read].
  unfold get_best, carried at 1. mcall Hg. unfold pick.
  destruct (p.2 !! key_str key) as [rec|]; [|done]. cbn [fmap option_fmap option_map].
  destruct o as [a|]; cbn [fmap option_fmap option_map default]; [|done].
  unfold newer. rewrite bool_decide_eq_false_2 by done. cbn [orb].
  by destruct (_ <? _).
Qed.

Lemma get_loop bs rs ps key o :
  replicas_at bs rs ps →
  ∃ rs', for_each_fold (get_best key) rs (carried o)
           = (rs', Ok (carried (foldl (pick (key_str key)) o ps))) ∧ replicas_at bs rs' ps.
Proof.
  intros Hf. revert o. induction Hf as [|r p rs ps Hr _ IH]; intros o;
    cbn [for_each_fold foldl].
  { exists []. split; [done|constructor]. }
  destruct (get_best_spec bs p r key o Hr) as (r' & -> & Hr').
  destruct (IH (pick (key_str key) o p)) as (rs' & -> & Hrs').
  exists (r' :: rs'). split; [done|by constructor].
Qed.

Lemma store_get_spec bs ps s key :
  store_at bs ps s →
  ∃ s', get key s = (s', match contents ps !! key_str key with
                         | Some v => Ok v | None => Err KeyNotFound end) ∧
    store_at bs ps s' ∧ opts s' = opts s.
Proof.
  intros [Hrs Hp]. destruct (get_loop bs _ _ key None Hrs) as (rs' & Hl & Hrs').
  exists {| replicas := rs'; opts := opts s |}. split_and!; [|by split|done].
  unfold get. rewrite (bind_Ok (on_replicas _) _ s {| replicas := rs'; opts := opts s |} _)
    by (unfold on_replicas; change (None, 0) with (carried None); by rewrite Hl).
  rewrite contents_lookup. unfold carried. by destruct (foldl _ _ _).
Qed.

Lemma get_value bs ps s key :
  store_at bs ps s →
  (get key s).2 = match contents ps !! key_str key with
                  | Some v => Ok v | None => Err KeyNotFound end.
Proof. intros Hs. by destruct (store_get_spec bs ps s key Hs) as (s' & -> & _). Qed.

(** *** put *)

Definition room (bs : Z) (key value : list byte) (p : shard) : Prop :=
  blocks_for bs key value ≤ zlen (free_list p.1).

#[export] Instance room_decision bs key value p : Decision (room bs key value p).
Proof. unfold room. apply _. Defined.

(** One replica before and after a successful [put]. *)
Definition put_shard (bs : Z) (key value : list byte) (generation user_flags : Z)
    (pattern : byte) (p p' : shard) : Prop :=
  let rec := put_record bs p.1 key value generation user_flags in
  p'.2 = <[key_str key := rec]> p.2 ∧ replaces bs pattern rec p.2 p.1 p'.1.

(** The loop of [put] stops at the first replica without room: those before
    it are updated, it and those after it are not. *)
Lemma put_loop bs rs ps key value generation user_flags pattern :
  replicas_at bs rs ps → fits bs key generation user_flags → good_pattern pattern →
  (∀ p old, p ∈ ps → p.2 !! key_str key = Some old → cr_generation old < generation) →
  ∃ rs' pre pre' rest, ps = pre ++ rest ∧
    for_each_mut (Replica_put key value generation user_flags pattern) rs
      = (rs', match rest with [] => Ok tt | _ => Err StorageFull end) ∧
    replicas_at bs rs' (pre' ++ rest) ∧
    Forall2 (put_shard bs key value generation user_flags pattern) pre pre' ∧
    Forall (room bs key value) pre ∧
    match rest with [] => True | p :: _ => ¬ room bs key value p end.
Proof.
  intros Hf Hfit Hp. induction Hf as [|r p rs ps Hr Hrs IH]; intros Hgen.
  { exists [], [], [], []. by split_and!; [..|constructor|constructor|constructor|]. }
  destruct (decide (room bs key value p)) as [Hroom|Hno]; unfold room in *.
  - destruct (put_spec bs p.1 p.2 r key value generation user_flags pattern)
      as (d' & img' & Hput & Hd' & Hrep); [done|done|intros old; apply Hgen; left|done|].
    destruct IH as (rs' & pre & pre' & rest & -> & Hl & Hrs' & Hpre & Hroom' & Hrest).
    { intros q old Hq. apply Hgen. by right. }
    eexists (_ :: rs'), (p :: pre), ((img', _) :: pre'), rest.
    split_and!; [done| | |by constructor|by constructor|done].
    + simpl. rewrite Hput, Hl. done.
    + constructor; [|exact Hrs'].
      eapply put_replica_at; [exact Hr|exact Hp| |exact Hd'|exact Hrep].
      intros old. apply Hgen. left.
  - destruct (put_full bs p.1 p.2 r key value generation user_flags pattern)
      as (d' & Hput & Hd' & _); [done|done|lia|].
    exists (set_dev d' r :: rs), [], [], (p :: ps). split_and!; [done| | |constructor|constructor|done].
    + simpl. by rewrite Hput.
    + constructor; [by apply replica_at_read|done].
Qed.

(** The generation [put] computes from the indexes. *)
Lemma max_generation_spec bs rs ps k :
  replicas_at bs rs ps → max_generation k rs = top_generation k ps.
Proof.
  unfold max_generation, top_generation. generalize 0. intros g Hf. revert g.
  induction Hf as [|r p rs ps Hr _ IH]; intros g; [done|]. cbn [foldl].
  rewrite (ra_index _ _ _ _ Hr), get_index_of. rewrite <- IH. by destruct (p.2 !! k).
Qed.

(** A shard in which a key may have been given a new record of generation [g]
    and value [v]. *)
Definition updated (k : list byte) (g : Z) (v : list byte) (p p' : shard) : Prop :=
  ∃ rec, p'.2 = <[k := rec]> p.2 ∧ cr_generation rec = g ∧ cr_value rec = v.

(** One updated replica is enough for the new value to be the current one. *)
Lemma update_contents_some k g v ps ps' :
  Forall2 (λ p p', p'.2 = p.2 ∨ updated k g v p p') ps ps' →
  (∀ p old, p ∈ ps → p.2 !! k = Some old → cr_generation old < g) →
  Exists (λ p', cr_generation <$> p'.2 !! k = Some g) ps' →
  contents ps' = <[k := v]> (contents ps).
Proof.
  intros Hf Hgen Hex. apply map_eq. intros k'. destruct (decide (k = k')) as [<-|Hne].
  - rewrite lookup_insert_eq. unfold contents. rewrite lookup_fmap.
    apply Exists_exists in Hex as (q & Hq & Hg). apply fmap_Some in Hg as (r & Hr & Hrg).
    pose proof (winners_max ps' k) as Hw. destruct (winners ps' !! k) as [rec|].
    2: { by rewrite (Hw q Hq) in Hr. }
    destruct Hw as [(p' & Hp' & Hk) Hmax]. specialize (Hmax _ _ Hq Hr).
    apply list_elem_of_lookup in Hp' as [i Hi].
    destruct (Forall2_lookup_r _ _ _ _ _ Hf Hi) as (p & Hpi & [Heq|(rec' & Heq & _ & <-)]).
    + rewrite Heq in Hk. apply list_elem_of_lookup_2 in Hpi.
      specialize (Hgen _ _ Hpi Hk). lia.
    + rewrite Heq, lookup_insert_eq in Hk. by injection Hk as ->.
  - rewrite lookup_insert_ne by done. rewrite !contents_lookup. f_equal. apply pick_ext.
    eapply Forall2_impl; [exact Hf|]. intros p p' [->|(rec & -> & _)]; [done|].
    by rewrite lookup_insert_ne.
Qed.

(** Shards with the same catalogs hold the same contents. *)
Lemma contents_catalogs ps ps' : ps'.*2 = ps.*2 → contents ps' = contents ps.
Proof.
  assert (∀ qs : list shard, winners qs = foldl (union_with newer) ∅ qs.*2) as Hw.
  { unfold winners. generalize (∅ : records). intros acc qs. revert acc.
    induction qs as [|q qs IH]; intros acc; [done|]. simpl. apply IH. }
  intros Heq. unfold contents. by rewrite !Hw, Heq.
Qed.

Lemma update_none k g v ps ps' :
  Forall2 (λ p p', p'.2 = p.2 ∨ updated k g v p p') ps ps' →
  ¬ Exists (λ p', cr_generation <$> p'.2 !! k = Some g) ps' → ps'.*2 = ps.*2.
Proof.
  intros Hf Hx. induction Hf as [|p p' ps ps' Hp _ IH]; [done|].
  rewrite Exists_cons in Hx. rewrite !fmap_cons, IH by tauto. f_equal.
  destruct Hp as [?|(rec & Heq & Hg & _)]; [done|]. exfalso. apply Hx. left.
  by rewrite Heq, lookup_insert_eq, <- Hg.
Qed.

Lemma update_contents k g v ps ps' :
  Forall2 (λ p p', p'.2 = p.2 ∨ updated k g v p p') ps ps' →
  (∀ p old, p ∈ ps → p.2 !! k = Some old → cr_generation old < g) →
  contents ps' = contents ps ∨ contents ps' = <[k := v]> (contents ps).
Proof.
  intros Hf Hgen. destruct (decide (Exists (λ p', cr_generation <$> p'.2 !! k = Some g) ps')) as [Hx|Hx].
  - right. by eapply update_contents_some.
  - left. by eapply contents_catalogs, update_none.
Qed.

Lemma put_shard_updated bs key value generation flags pattern p p' :
  put_shard bs key value generation flags pattern p p' →
  updated (key_str key) generation (stored_value value) p p'.
Proof. intros [Hp _]. eexists. split_and!; [exact Hp|done|done]. Qed.

Lemma put_contents key value pre pre' rest g :
  (∀ p old, p ∈ pre ++ rest → p.2 !! key_str key = Some old → cr_generation old < g) →
  Forall2 (updated (key_str key) g value) pre pre' →
  contents (pre' ++ rest) =
    if decide (pre = []) then contents (pre ++ rest)
    else <[key_str key := value]> (contents (pre ++ rest)).
Proof.
  intros Hgen Hf. case_decide as Hnil.
  { subst. by inversion Hf. }
  eapply (update_contents_some _ g); [|done|].
  - apply Forall2_app; [|apply Forall_Forall2_diag, Forall_true; by left].
    eapply Forall2_impl; [exact Hf|]. by right.
  - destruct Hf as [|p p' pre pre' (rec & Hp & Hg & _) _]; [done|]. left.
    by rewrite Hp, lookup_insert_eq, <- Hg.
Qed.

(** A replica with one record per key and no garbage. *)
Definition clean (bs : Z) (p : shard) : Prop := single bs p.1 ∧ tidy p.1 p.2.

Lemma put_clean bs p p' r key value generation user_flags pattern :
  replica_at bs p.1 p.2 r → good_pattern pattern →
  (∀ old, p.2 !! key_str key = Some old → cr_generation old < generation) →
  put_shard bs key value generation user_flags pattern p p' → clean bs p → clean bs p'.
Proof.
  intros [Hd Hbs Hh Hix Hcat] Hp Hgen [Hp2 Hrep] [Hs Ht]. split.
  - eapply replaces_single; [|exact Hp|exact Hcat| |exact Hrep|exact Hs]; [lia|exact Hgen].
  - rewrite Hp2.
    by apply (replaces_tidy bs pattern (put_record bs p.1 key value generation user_flags)
                p.2 p.1 p'.1 ltac:(lia)).
Qed.

Lemma replicas_at_block_size bs rs ps r p :
  replicas_at bs rs ps → head ps = Some p → head rs = Some r →
  block_size (r_dev r) = bs ∧ 36 ≤ bs < U32.
Proof.
  intros Hf Hp Hr. destruct Hf as [|r0 p0 rs ps Hr0 _]; [done|].
  injection Hr as <-. injection Hp as <-. destruct Hr0 as [Hd Hbs _ _ _].
  pose proof (dev_at_geometry _ _ _ Hd) as (Hb & _ & Hbs32 & _). split; [done|lia].
Qed.

(** [put] up to its loop: the key is checked against the block size. *)
Lemma put_flagged_start bs ps s key value user_flags :
  store_at bs ps s → ps ≠ [] → zlen key < U32 → top_generation (key_str key) ps + 1 < U32 →
  36 ≤ bs < U32 ∧
  put_flagged key value user_flags s =
    if bs - 36 <? zlen key then (s, Err KeyTooLong) else
    let '(rs, r) := for_each_mut (Replica_put key value (top_generation (key_str key) ps + 1)
                      user_flags (free_pattern (opts s))) (replicas s) in
    ({| replicas := rs; opts := opts s |}, r).
Proof.
  intros [Hrs Hp] Hne Hkey Hgen. pose proof Hrs as Hrs'.
  destruct (replicas s) as [|r0 rs] eqn:Er; [by inversion Hrs|].
  destruct ps as [|p0 ps']; [done|].
  destruct (replicas_at_block_size _ _ _ r0 p0 Hrs eq_refl eq_refl) as [Hb Hbs].
  split; [lia|]. unfold put_flagged. mgets. rewrite Er.
  assert (index (r0 :: rs) 0 = Ok r0) as H0' by done. mlift H0'. rewrite Hb.
  mlift (room_ok bs Hbs). rewrite (as_u32_small (zlen key)) by lia.
  destruct (bs - 36 <? zlen key); [done|].
  rewrite (max_generation_spec bs _ _ (key_str key) Hrs).
  pose proof (top_generation_max (p0 :: ps') (key_str key)) as (Hge & _).
  mlift (u32_add_ok (top_generation (key_str key) (p0 :: ps')) 1 ltac:(lia)).
  mgets. unfold on_replicas. by rewrite Er.
Qed.

(** The outcome of [put] on the store. *)
Lemma store_put_spec bs ps s key value user_flags :
  store_at bs ps s → ps ≠ [] → zlen key ≤ bs - 36 → zlen key < U16 → u32 user_flags →
  top_generation (key_str key) ps + 1 < U32 →
  ∃ s' pre pre' rest, ps = pre ++ rest ∧
    put_flagged key value user_flags s
      = (s', match rest with [] => Ok tt | _ => Err StorageFull end) ∧
    store_at bs (pre' ++ rest) s' ∧ opts s' = opts s ∧
    Forall2 (put_shard bs key value (top_generation (key_str key) ps + 1) user_flags
      (free_pattern (opts s))) pre pre' ∧
    Forall (room bs key value) pre ∧
    match rest with [] => True | p :: _ => ¬ room bs key value p end.
Proof.
  intros Hs Hne Hkey Hk16 Hfl Hgen. pose proof Hs as [Hrs Hp].
  destruct (put_flagged_start bs ps s key value user_flags Hs Hne ltac:(lia) Hgen) as [Hbs Hrun].
  rewrite (proj2 (Z.ltb_ge _ _) Hkey) in Hrun.
  pose proof (top_generation_max ps (key_str key)) as (Hge & Htop & _).
  destruct (put_loop bs (replicas s) ps key value (top_generation (key_str key) ps + 1) user_flags
    (free_pattern (opts s))) as (rs' & pre & pre' & rest & -> & Hl & Hrs' & Hpre & Hroom & Hrest);
    [done| |done| |].
  { unfold fits, u32 in *. split_and!; lia. }
  { intros p old Hin Hold. specialize (Htop p old Hin Hold). lia. }
  rewrite Hl in Hrun. eexists _, pre, pre', rest.
  by split_and!; [|exact Hrun|..].
Qed.

(** *** delete *)

(** One replica before and after a [delete]. *)
Definition delete_shard (bs : Z) (pattern : byte) (k : list byte) (p p' : shard) : Prop :=
  match p.2 !! k with
  | None => p' = p
  | Some rec => p'.2 = base.delete k p.2 ∧ erased bs pattern (record_blocks rec) p.1 p'.1
  end.

Lemma delete_one_spec bs p r k pattern found :
  replica_at bs p.1 p.2 r → good_pattern pattern → single bs p.1 →
  ∃ r' p', delete_one k pattern found r =
      (r', Ok (found || bool_decide (is_Some (p.2 !! k)))) ∧
    replica_at bs p'.1 p'.2 r' ∧ delete_shard bs pattern k p p'.
Proof.
  intros Hr Hp Hs. pose proof Hr as [Hd Hbs Hh Hix Hcat]. unfold delete_one, delete_shard. mgets.
  rewrite Hix, get_index_of. destruct (p.2 !! k) as [rec|] eqn:Hk; cbn [fmap option_fmap option_map].
  2: { exists r, p. rewrite bool_decide_eq_false_2 by (by intros []). by rewrite orb_false_r. }
  destruct (catalog_complete _ _ _ _ _ Hcat Hk) as (Hc & _ & _). simpl ie_descriptor_block.
  destruct (free_record_spec (r_dev r) bs p.1 _ rec pattern Hd Hbs Hc) as (d1 & img' & Hfr & Hd1 & He).
  mcall (on_dev_Ok _ r _ _ Hfr). destruct (flush_ok d1 bs img' Hd1) as (d2 & Hfl & Hd2).
  mcall (on_dev_Ok _ (set_dev d1 r) _ _ Hfl).
  eexists _, (img', base.delete k p.2). split_and!.
  - rewrite bool_decide_eq_true_2 by done. rewrite orb_true_r. reflexivity.
  - constructor; [done|done| | |].
    + eapply has_header_eq; [by eapply erases_block0|apply He|done].
    + simpl. by rewrite Hix, index_of_delete.
    + eapply catalog_erase; [|done|done|done| |done]; [lia|].
      intros r' Hr'. eapply Hs; [done|by eapply catalog_candidate].
  - done.
  - done.
Qed.

Lemma delete_loop bs rs ps k pattern found :
  replicas_at bs rs ps → good_pattern pattern → Forall (λ p, single bs p.1) ps →
  ∃ rs' ps', for_each_fold (delete_one k pattern) rs found =
      (rs', Ok (found || bool_decide (Exists (λ p, is_Some (p.2 !! k)) ps))) ∧
    replicas_at bs rs' ps' ∧ Forall2 (delete_shard bs pattern k) ps ps'.
Proof.
  intros Hf Hp. revert found. induction Hf as [|r p rs ps Hr _ IH]; intros found Hs;
    cbn [for_each_fold].
  { exists [], []. rewrite bool_decide_eq_false_2 by (intros Hx; by inversion Hx).
    rewrite orb_false_r. split_and!; [done|constructor|constructor]. }
  apply Forall_cons in Hs as [Hsp Hs].
  destruct (delete_one_spec bs p r k pattern found Hr Hp Hsp) as (r' & p' & -> & Hr' & Hdel).
  destruct (IH (found || bool_decide (is_Some (p.2 !! k))) Hs) as (rs' & ps' & -> & Hrs' & Hdels).
  exists (r' :: rs'), (p' :: ps'). split_and!; [|by constructor|by constructor].
  do 2 f_equal. rewrite <- orb_assoc. f_equal. rewrite <- bool_decide_or.
  apply bool_decide_ext. rewrite Exists_cons. done.
Qed.

Lemma winners_dom ps k :
  is_Some (contents ps !! k) ↔ Exists (λ p, is_Some (p.2 !! k)) ps.
Proof.
  unfold contents. rewrite lookup_fmap, fmap_is_Some. pose proof (winners_max ps k) as Hw.
  rewrite Exists_exists. destruct (winners ps !! k) as [rec|]; split.
  - intros _. destruct Hw as [(p & Hp & Hk) _]. exists p. by rewrite Hk.
  - done.
  - by intros [].
  - intros (p & Hp & Hk). rewrite Hw in Hk by done. by destruct Hk.
Qed.

Lemma contents_empty ps : Forall (λ p, p.2 = ∅) ps → contents ps = ∅.
Proof.
  intros He. apply map_eq. intros k. rewrite lookup_empty. apply eq_None_not_Some.
  rewrite winners_dom, Exists_exists. intros (p & Hin & Hk).
  eapply Forall_forall in He; [|exact Hin]. rewrite He, lookup_empty in Hk. by destruct Hk.
Qed.

Lemma delete_shard_catalog bs pattern k p p' :
  delete_shard bs pattern k p p' → p'.2 = base.delete k p.2.
Proof.
  unfold delete_shard. destruct (p.2 !! k) eqn:Hk; [by intros []|]. intros ->. by rewrite delete_id.
Qed.

Lemma delete_contents k ps ps' :
  Forall2 (λ p p', p'.2 = base.delete k p.2) ps ps' → contents ps' = base.delete k (contents ps).
Proof.
  intros Hf. apply map_eq. intros k'.
  destruct (decide (k = k')) as [<-|Hne].
  - rewrite lookup_delete_eq. apply eq_None_not_Some. rewrite winners_dom, Exists_exists.
    intros (p' & Hp' & Hk). apply list_elem_of_lookup in Hp' as [i Hi].
    destruct (Forall2_lookup_r _ _ _ _ _ Hf Hi) as (p & _ & Hdel).
    rewrite Hdel, lookup_delete_eq in Hk. by destruct Hk.
  - rewrite lookup_delete_ne by done. rewrite !contents_lookup. f_equal. apply pick_ext.
    eapply Forall2_impl; [exact Hf|]. intros p p' ->. by rewrite lookup_delete_ne.
Qed.

Lemma delete_clean bs p p' r k pattern :
  replica_at bs p.1 p.2 r → good_pattern pattern → delete_shard bs pattern k p p' →
  clean bs p → clean bs p'.
Proof.
  intros [Hd Hbs Hh Hix Hcat] Hp Hdel [Hs Ht]. unfold delete_shard in Hdel.
  destruct (p.2 !! k) as [rec|] eqn:Hk; [|by subst]. destruct Hdel as [Hp2 He]. split.
  - eapply erases_single; [|exact Hp|exact Hcat|exact Hk|exact He|exact Hs]. lia.
  - rewrite Hp2. by eapply erases_tidy; [..|exact Hp| |exact He|exact Ht]; [lia|].
Qed.

(** The outcome of [delete] on the store. *)
Lemma store_delete_spec bs ps s key :
  store_at bs ps s → Forall (λ p, single bs p.1) ps →
  ∃ s' ps', delete key s =
      (s', if decide (is_Some (contents ps !! key_str key)) then Ok tt else Err KeyNotFound) ∧
    store_at bs ps' s' ∧ opts s' = opts s ∧
    Forall2 (delete_shard bs (free_pattern (opts s)) (key_str key)) ps ps'.
Proof.
  intros [Hrs Hp] Hs. destruct (delete_loop bs _ _ (key_str key) _ false Hrs Hp Hs)
    as (rs' & ps' & Hl & Hrs' & Hdel).
  exists {| replicas := rs'; opts := opts s |}, ps'. split_and!; [|by split|done|done].
  unfold delete. mgets.
  rewrite (bind_Ok (on_replicas _) _ s {| replicas := rs'; opts := opts s |} _)
    by (unfold on_replicas; by rewrite Hl).
  cbn [orb]. case_decide as Hd; rewrite winners_dom in Hd.
  - by rewrite bool_decide_eq_true_2.
  - by rewrite bool_decide_eq_false_2.
Qed.

(** *** keys and iterate *)

Lemma key_set_spec bs ps s k :
  store_at bs ps s → k ∈ key_set s ↔ is_Some (contents ps !! k).
Proof.
  intros [Hrs _]. rewrite winners_dom. unfold key_set.
  assert (∀ es (acc : gset (list byte)), k ∈ foldl (λ set e, {[ie_key e]} ∪ set) acc es ↔
    k ∈ acc ∨ ∃ e, e ∈ es ∧ ie_key e = k) as Hes.
  { intros es. induction es as [|e es IH]; intros acc; simpl.
    - split; [by left|]. intros [?|(e & He & _)]; [done|]. by apply not_elem_of_nil in He.
    - rewrite IH, elem_of_union, elem_of_singleton. split.
      + intros [[->|?]|(e' & ? & ?)]; [right; exists e; split; [left|done]|by left|].
        right. exists e'. split; [by right|done].
      + intros [?|(e' & [->|?]%elem_of_cons & <-)]; [by left; right|by left; left|].
        right. by exists e'. }
  assert (∀ (acc : gset (list byte)), k ∈ foldl (λ set r, foldl (λ set e, {[ie_key e]} ∪ set) set
    (MemIndex_all_entries (r_index r))) acc (replicas s) ↔
    k ∈ acc ∨ Exists (λ p : shard, is_Some (p.2 !! k)) ps) as Hall.
  { unfold replicas_at in Hrs. revert Hrs. generalize (replicas s). intros rs Hf.
    induction Hf as [|r p rs ps Hr _ IH]; intros acc; simpl.
    - rewrite Exists_nil. tauto.
    - rewrite IH, Hes, Exists_cons.
      assert ((∃ e, e ∈ MemIndex_all_entries (r_index r) ∧ ie_key e = k) ↔ is_Some (p.2 !! k)) as ->;
        [|tauto]. rewrite (ra_index _ _ _ _ Hr). split.
      + intros (e & (k' & He)%all_entries_elem & <-). rewrite get_index_of in He.
        apply fmap_Some in He as (rec & Hk & ->). simpl.
        destruct (catalog_complete _ _ _ _ _ (ra_catalog _ _ _ _ Hr) Hk) as (_ & _ & ->). by exists rec.
      + intros [rec Hk]. exists (entry_of rec). split.
        * apply all_entries_elem. exists k. by rewrite get_index_of, Hk.
        * by destruct (catalog_complete _ _ _ _ _ (ra_catalog _ _ _ _ Hr) Hk) as (_ & _ & ?). }
  rewrite Hall, elem_of_empty. tauto.
Qed.

End Concrete.

(** ** Properties *)

(** C15: [put] on the store takes the next generation of the key over all
    replicas and updates the replicas in order up to the first one without
    room.  If there is none it succeeds; otherwise it reports [StorageFull], the
    replicas before that one hold the new value and the others the old.  In both
    cases a following [get] of the key returns the new value as soon as one
    replica was updated, also after [StorageFull], and what it returned before
    otherwise; and [get] of every other key returns what it returned before. *)
Theorem store_put_outcome `{Profile} `{ReliableDevice D} (s : Store D) bs ps key value user_flags :
  store_at bs ps s → ps ≠ [] → zlen key ≤ bs - 36 → zlen key < U16 → zlen value < U32 →
  u32 user_flags → top_generation (key_str key) ps + 1 < U32 →
  ∃ s' pre pre' rest, ps = pre ++ rest ∧
    put_flagged key value user_flags s
      = (s', match rest with [] => Ok tt | _ => Err StorageFull end) ∧
    store_at bs (pre' ++ rest) s' ∧
    Forall2 (put_shard bs key value (top_generation (key_str key) ps + 1) user_flags
      (free_pattern (opts s))) pre pre' ∧
    Forall (room bs key value) pre ∧
    (match rest with [] => True | p :: _ => ¬ room bs key value p end) ∧
    contents (pre' ++ rest) =
      (if decide (pre = []) then contents ps else <[key_str key := value]> (contents ps)) ∧
    (get key s').2 = (if decide (pre = []) then (get key s).2 else Ok value) ∧
    ∀ k', key_str k' ≠ key_str key → (get k' s').2 = (get k' s).2.
Proof.
  intros Hs Hne Hk Hk16 Hv Hfl Hg.
  destruct (store_put_spec bs ps s key value user_flags Hs Hne Hk Hk16 Hfl Hg)
    as (s' & pre & pre' & rest & -> & Hrun & Hs' & _ & Hpre & Hroom & Hrest).
  assert (contents (pre' ++ rest) = if decide (pre = []) then contents (pre ++ rest)
    else <[key_str key := value]> (contents (pre ++ rest))) as Hc; cycle 1.
  { exists s', pre, pre', rest. split_and!; [done..| |].
    - rewrite (get_value _ _ _ key Hs'), (get_value _ _ _ key Hs), Hc.
      by case_decide; rewrite ?lookup_insert_eq.
    - intros k' Hne'. rewrite (get_value _ _ _ k' Hs'), (get_value _ _ _ k' Hs), Hc.
      by case_decide; rewrite ?lookup_insert_ne by done. }
  apply (put_contents _ _ _ _ _ (top_generation (key_str key) (pre ++ rest) + 1)).
  2: { eapply Forall2_impl; [exact Hpre|]. intros p p' Hp. rewrite <- (stored_value_small value) by done.
       by eapply put_shard_updated. }
  intros p old Hp Hold.
  destruct (top_generation_max (pre ++ rest) (key_str key)) as (_ & Hmax & _).
  specialize (Hmax _ _ Hp Hold). lia.
Qed.

(** A loop over the keys that collects them visits all of them in order; one
    whose callback fails stops there. *)
Lemma for_fold_collect {A} (l seen : list A) :
  for_fold (λ k _, modify (λ seen, seen ++ [k])) l tt seen = (seen ++ l, Ok tt).
Proof.
  revert seen. induction l as [|k l IH]; intros seen; cbn [for_fold]; [by rewrite app_nil_r|].
  unfold mbind, M_bind, modify at 1. rewrite IH. by rewrite <- app_assoc.
Qed.

Lemma for_fold_stops {A T} (f : A → M T unit) pre k post t t' t'' e :
  for_fold (λ k _, f k) pre tt t = (t', Ok tt) → f k t' = (t'', Err e) →
  for_fold (λ k _, f k) (pre ++ k :: post) tt t = (t'', Err e).
Proof.
  intros Hpre Hf. revert t Hpre. induction pre as [|x pre IH]; intros t Hpre; cbn [for_fold app] in *.
  - injection Hpre as <-. unfold mbind, M_bind. by rewrite Hf.
  - unfold mbind, M_bind in *. destruct (f x t) as [t1 [[]|e'| |]]; try done. by apply IH.
Qed.

(** C35: [keys] lists every key of the store exactly once, and nothing else, in
    whatever order its hash set has.  [iterate] visits the same keys, each once,
    in the order of its own hash set, which need not be that of [keys]: it calls
    the callback on all of them when every call succeeds, and up to and including
    the first call that fails, whose error it returns. *)
Theorem keys_and_iterate `{Profile} `{ReliableDevice D} `{HashOrder} (s : Store D) bs ps :
  store_at bs ps s →
  (∀ seed, NoDup (keys seed s) ∧ ∀ k, k ∈ keys seed s ↔ is_Some (contents ps !! k)) ∧
  ∀ seed, ∃ order, (∀ seed', order ≡ₚ keys seed' s) ∧
    (∀ seen, iterate seed (λ k, modify (λ seen, seen ++ [k])) s seen = (seen ++ order, Ok tt)) ∧
    ∀ T (f : list byte → M T unit) pre k post t t' t'' e,
      order = pre ++ k :: post → for_fold (λ k _, f k) pre tt t = (t', Ok tt) →
      f k t' = (t'', Err e) → iterate seed f s t = (t'', Err e).
Proof.
  intros Hs. unfold keys, iterate. split; intros seed.
  - split; [rewrite hash_order_elements; apply NoDup_elements|].
    intros k. rewrite hash_order_elements, elem_of_elements. by eapply key_set_spec.
  - exists (hash_order seed (key_set s)). split_and!.
    + intros seed'. by rewrite !hash_order_elements.
    + intros seen. apply for_fold_collect.
    + intros T f pre k post t t' t'' e -> Hpre Hf. by eapply for_fold_stops.
Qed.

(** *** Concrete runs *)

Definition sample_store : Store MemDevice :=
  {| replicas := [sample_replica; sample_replica]; opts := Options_new |}.

Lemma sample_store_at : store_at 64 [(sample_image, ∅); (sample_image, ∅)] sample_store.
Proof. split; [|by left]. repeat constructor; apply sample_replica_at. Qed.

Lemma store_put_outcome_witness :
  ∃ s' ps', put_flagged (H := dev_profile) [x6b] [x76] 0 sample_store = (s', Ok tt) ∧
    store_at 64 ps' s'.
Proof.
  destruct (store_put_outcome (H := dev_profile) sample_store 64 _ [x6b] [x76] 0 sample_store_at)
    as (s' & pre & pre' & rest & _ & Hrun & Hs & _); [done|simpl; lia|simpl; lia|simpl; lia| | |].
  - unfold u32. lia.
  - by vm_compute.
  - exists s', (pre' ++ rest). split; [|exact Hs]. rewrite Hrun.
    destruct rest as [|p rest]; [reflexivity|]. exfalso. vm_compute in Hrun. discriminate Hrun.
Defined.

(** A family of two orders: that of the finite set and its reverse. *)
Definition sample_order : HashOrder := {|
  hash_seed := bool;
  hash_order seed s := (if seed : bool then elements s else reverse (elements s));
  hash_order_elements seed s := match seed with
    | true => Permutation_refl _ | false => reverse_Permutation _ end |}.

(** On a store with a key, listed by both orders. *)
Lemma keys_and_iterate_witness :
  ∃ s', put (H := dev_profile) [x6b] [x76] sample_store = (s', Ok tt) ∧
    ∀ seed : bool, NoDup (keys (H1 := sample_order) seed s') ∧
      [x6b] ∈ keys (H1 := sample_order) seed s'.
Proof.
  destruct (store_put_spec (H := dev_profile) 64 _ sample_store [x6b] [x76] 0 sample_store_at)
    as (s' & pre & pre' & rest & Hps & Hrun & Hs' & _ & Hpre & _);
    [done|simpl; lia|simpl; lia|unfold u32; lia|by vm_compute|].
  assert (rest = []) as ->.
  { destruct rest as [|p rest]; [done|]. exfalso. vm_compute in Hrun. discriminate Hrun. }
  exists s'. split; [exact Hrun|]. intros seed.
  destruct (keys_and_iterate (H := dev_profile) (H2 := sample_order) s' 64 _ Hs') as [Hk _].
  destruct (Hk seed) as [Hn Hin]. split; [exact Hn|]. apply Hin, winners_dom.
  rewrite app_nil_r in Hps |- *. subst pre. inversion Hpre as [|p p' ? ? [Hp' _]]; subst.
  left. rewrite Hp'. change (key_str [x6b]) with [x6b]. rewrite lookup_insert_eq. by eexists.
Defined.

(** [delete] on a store with one record per key removes the key from every
    replica: it returns [Ok] if some replica had the key and [KeyNotFound]
    otherwise, afterwards the key is gone from the map and all others are
    untouched, and the freed blocks are free again (the replicas stay without
    garbage). *)
Theorem delete_removes_key `{Profile} `{ReliableDevice D} (s : Store D) bs ps key :
  store_at bs ps s → Forall (clean bs) ps →
  ∃ s' ps', delete key s =
      (s', if decide (is_Some (contents ps !! key_str key)) then Ok tt else Err KeyNotFound) ∧
    store_at bs ps' s' ∧ Forall (clean bs) ps' ∧
    contents ps' = base.delete (key_str key) (contents ps).
Proof.
  intros Hs Hcl. destruct (store_delete_spec bs ps s key Hs) as (s' & ps' & Hrun & Hs' & _ & Hdel).
  { eapply Forall_impl; [exact Hcl|]. by intros p []. }
  exists s', ps'. split_and!; [done|done| |].
  2: { apply delete_contents. eapply Forall2_impl; [exact Hdel|]. intros. by eapply delete_shard_catalog. }
  destruct Hs as [Hrs Hpat]. apply Forall_lookup_2. intros i p' Hi.
  destruct (Forall2_lookup_r _ _ _ _ _ Hdel Hi) as (p & Hpi & Hp').
  destruct (Forall2_lookup_r _ _ _ _ _ Hrs Hpi) as (r & _ & Hr).
  eapply delete_clean; [exact Hr|exact Hpat|exact Hp'|by eapply Forall_lookup_1].
Qed.

Lemma sample_clean : clean 64 (sample_image, ∅).
Proof.
  destruct sample_replica_at as [_ _ _ _ Hcat].
  by destruct (blank_catalog 64 sample_image ∅ sample_blank Hcat) as (_ & Hs & Ht).
Qed.
