(* ===== verification/Lifecycle.v ===== *)
(** * The life of a store

    [format], [open], [build_index] and [recover] (rust/src/store.rs): which
    devices they accept, what they leave on them, and that a store can be
    closed and opened again without losing anything. *)

From S2P Require Import Prelude Errors Rust Format Crc Block Device Record Utf8 Index Replica.
From S2P Require Import Store RecordWrite Allocation Catalog Recovery ReplicaSpec StoreSpec.

(** ** One device *)

(** The header [format] writes on device number [i]. *)
Definition new_header (opts : Options) (i bs n : Z) : StorageHeader := {|
  sh_block_type := BLOCK_TYPE_STORAGE_HEADER;
  sh_magic := MAGIC;
  sh_version_major := VERSION_MAJOR;
  sh_version_minor := VERSION_MINOR;
  sh_block_size := bs;
  sh_block_count := n;
  sh_replica_id := replica_id opts + i;
  sh_format_seq := format_seq opts;
  sh_flags := 0 |}.

(** What [open] answers for a header block. *)
Definition header_verdict (bs n : Z) (b : list byte) : outcome StorageHeader :=
  let h := decode_storage b in
  if negb (field b 0 1 =? BLOCK_TYPE_STORAGE_HEADER) then Err InvalidHeader else
  if negb (crc_valid b) then Err CrcMismatch else
  if negb (bool_decide (sh_magic h = MAGIC)) then Err InvalidHeader else
  if negb (sh_block_size h =? bs) then Err InvalidHeader else
  if negb (sh_block_count h =? n) then Err InvalidHeader else Ok h.

Lemma header_verdict_ok bs n b h :
  1 ≤ n → header_verdict bs n b = Ok h ↔ header_ok bs n b ∧ h = decode_storage b.
Proof.
  intros Hn. unfold header_verdict, header_ok.
  destruct (field b 0 1 =? _) eqn:E1; cbn [negb]; zbool; [|by split; [|intros [[] ?]]].
  destruct (crc_valid b) eqn:E2; cbn [negb]; [|by split; [|intros [(_ & ? & _) ?]]].
  case_bool_decide as E3; cbn [negb]; [|by split; [|intros [(_ & _ & ? & _) ?]]].
  destruct (_ =? bs) eqn:E4; cbn [negb]; zbool; [|by split; [|intros [(_ & _ & _ & ? & _) ?]]].
  destruct (_ =? n) eqn:E5; cbn [negb]; zbool; [|by split; [|intros [(_ & _ & _ & _ & ? & _) ?]]].
  split; [by intros [= <-]|by intros [_ ->]].
Qed.

Section Device.
Context `{Profile} `{ReliableDevice D}.
Implicit Types (d : D) (img : image).

Lemma header_block_ok opts i bs n pad :
  32 ≤ bs < U32 → 1 ≤ n < U32 → u32 (replica_id opts + i) → u32 (format_seq opts) →
  zlen pad = bs - 32 →
  let b := seal (encode_storage (new_header opts i bs n) ++ pad) in
  zlen b = bs ∧ header_ok bs n b ∧ decode_storage b = new_header opts i bs n.
Proof.
  intros Hbs Hn Hid Hseq Hl b.
  assert (StorageHeader_wf (new_header opts i bs n)) as Hwf.
  { unfold StorageHeader_wf, u8, u16, u32 in *. simpl. consts. split_and!; done || lia. }
  assert (decode_storage b = new_header opts i bs n) as Hdec.
  { unfold b, seal. rewrite <- app_assoc. by apply decode_encode_storage. }
  assert (field b 0 1 = sh_block_type (new_header opts i bs n)) as Hft by (by rewrite <- Hdec).
  split_and!; [unfold b; len| |done].
  unfold header_ok. rewrite Hdec, Hft. unfold b. rewrite crc_valid_seal. split_and!; done || lia.
Qed.

Lemma format_device_spec opts i d bs img :
  dev_at d bs img → 32 ≤ bs → 1 ≤ zlen img → 0 ≤ i < U32 → u32 (replica_id opts + i) →
  u32 (format_seq opts) →
  ∃ d' b, format_device opts i d = (d', Ok tt) ∧ dev_at d' bs (<[0%nat := b]> img) ∧
    header_ok bs (zlen img) b ∧ decode_storage b = new_header opts i bs (zlen img).
Proof.
  intros Hd Hbs Hn Hi Hid Hseq. pose proof (dev_at_geometry _ _ _ Hd) as (Hb & Hbc & Hbs32 & Hbc32 & _).
  unfold format_device. mgets. rewrite Hb. consts. rewrite (proj2 (Z.ltb_ge _ _)) by lia. mgets.
  rewrite Hbc, as_u32_small by lia. mlift (u32_add_ok (replica_id opts) i Hid).
  fold (new_header opts i bs (zlen img)). consts.
  assert (marshal_storage_header (new_header opts i bs (zlen img)) (replicate (Z.to_nat bs) x00) =
    Ok (encode_storage (new_header opts i bs (zlen img)) ++ drop 28 (replicate (Z.to_nat bs) x00)))
    as Hm by (apply marshal_storage_header_ok; [done|len]).
  mlift Hm. rewrite drop_replicate.
  destruct (header_block_ok opts i bs (zlen img) (replicate (Z.to_nat bs - 32) x00))
    as (Hlb & Hok & Hdec); [lia|lia|done|done|len|].
  set (b := seal _) in *.
  assert (write_block_crc (encode_storage (new_header opts i bs (zlen img)) ++
            replicate (Z.to_nat bs - 28) x00) = Ok b) as Hw.
  { rewrite write_block_crc_ok by len. rewrite crc_body_prefix by len.
    unfold b, crc_body. rewrite take_replicate, length_replicate. do 4 f_equal. lia. }
  mlift Hw. destruct (write_ok d bs img 0 b Hd ltac:(lia) Hlb) as (d1 & Hwr & Hd1). mcall Hwr.
  destruct (flush_ok d1 bs _ Hd1) as (d2 & Hfl & Hd2).
  exists d2, b. by split_and!.
Qed.

Lemma open_replica_header_spec d bs img b :
  dev_at d bs img → 32 ≤ bs → block_at img 0 = Some b →
  ∃ d', open_replica_header d = (d', header_verdict bs (zlen img) b) ∧ dev_at d' bs img.
Proof.
  intros Hd Hbs Hb0. pose proof (dev_at_geometry _ _ _ Hd) as (Hb & Hbc & Hbs32 & Hbc32 & _).
  apply block_at_range in Hb0 as Hn.
  unfold open_replica_header. mgets. rewrite Hb. consts. rewrite (proj2 (Z.ltb_ge _ _)) by lia.
  destruct (read_at d bs img 0 b (replicate (Z.to_nat bs) x00) Hd Hb0) as (d1 & Hr & Hd1); [len|].
  mcall Hr. assert (zlen b = bs) as Hlb by by eapply dev_block_len.
  pose proof (dev_at_geometry _ _ _ Hd1) as (_ & Hbc1 & _).
  exists d1. split; [|done]. mlift (get_u8_ok b 0 ltac:(lia)). change (Z.to_nat 0) with O.
  unfold header_verdict. consts. destruct (negb _); [done|].
  mlift (unmarshal_storage_header_ok b ltac:(lia)). destruct (negb _); [done|].
  destruct (negb _); [done|]. destruct (negb _); [done|]. mgets. rewrite Hbc1.
  destruct (_ =? zlen img) eqn:E; cbn [negb]; zbool; [|done].
  rewrite E. by rewrite (proj2 (Z.ltb_ge _ _)) by lia.
Qed.

End Device.

(** ** All devices *)

(** [img'] is [img] with a storage header in block 0. *)
Definition formatted (bs : Z) (img img' : image) : Prop :=
  has_header bs img' ∧ unchanged [0] img img'.

Lemma formatted_blank bs img img' : formatted bs img img' → blank img → blank img'.
Proof.
  intros [_ [Hl Hun]] Hb x Hx. rewrite Hl in Hx. unfold is_free. rewrite Hun; [by apply Hb|].
  rewrite list_elem_of_singleton. lia.
Qed.

Section Devices.
Context `{Profile} `{ReliableDevice D}.
Implicit Types (devs : list D) (imgs : list image) (rs : list (Replica D)) (s : Store D)
  (ps : list shard).

Lemma format_devices_spec opts bs devs imgs i :
  Forall2 (λ d img, dev_at d bs img) devs imgs → 32 ≤ bs → Forall (λ img, 1 ≤ zlen img) imgs →
  0 ≤ i → i + zlen devs < U32 → 0 ≤ replica_id opts → replica_id opts + i + zlen devs < U32 →
  u32 (format_seq opts) →
  ∃ devs' imgs', format_devices opts i devs = (devs', Ok tt) ∧
    Forall2 (λ d img, dev_at d bs img) devs' imgs' ∧ Forall2 (formatted bs) imgs imgs'.
Proof.
  intros Hf Hbs. revert i. induction Hf as [|d img devs imgs Hd _ IH]; intros i Hn Hi Hlt Hid Hlt' Hseq.
  { exists [], []. split_and!; [done|constructor|constructor]. }
  apply Forall_cons in Hn as [Hn Hns]. rewrite length_cons in *. cbn [format_devices].
  destruct (format_device_spec opts i d bs img) as (d' & b & -> & Hd' & Hh & _);
    [done|done|done|lia|unfold u32; lia|done|].
  destruct (IH (i + 1)) as (devs' & imgs' & -> & Hds & Hfs); [done|lia|lia|done|lia|done|].
  eexists (d' :: devs'), (_ :: imgs'). split_and!; [done|by constructor|constructor; [|done]].
  split; [|exact (unchanged_insert img 0 b ltac:(lia))].
  exists b. split; [exact (eq_trans (block_at_insert img 0 0 b ltac:(lia)) eq_refl)|].
  by rewrite length_insert.
Qed.

(** The devices from number [i] on, each with its own geometry. *)
Lemma format_devices_each opts devs gs i :
  Forall2 (λ d g, dev_at d g.1 g.2 ∧ 32 ≤ g.1 ∧ 1 ≤ zlen g.2) devs gs →
  0 ≤ i → i + zlen devs < U32 → 0 ≤ replica_id opts → replica_id opts + i + zlen devs < U32 →
  u32 (format_seq opts) →
  ∃ devs', format_devices opts i devs = (devs', Ok tt) ∧ length devs' = length devs ∧
    ∀ k g, gs !! k = Some g → ∃ d' img', devs' !! k = Some d' ∧ dev_at d' g.1 img' ∧
      unchanged [0] g.2 img' ∧
      (open_replica_header d').2 = Ok (new_header opts (i + Z.of_nat k) g.1 (zlen g.2)).
Proof.
  intros Hf. revert i. induction Hf as [|d g devs gs (Hd & Hbs & Hn) _ IH]; intros i Hi Hlt Hid Hlt' Hseq.
  { by exists []. }
  rewrite length_cons in *. cbn [format_devices].
  destruct (format_device_spec opts i d g.1 g.2) as (d' & b & -> & Hd' & Hh & Hdec);
    [done|done|done|lia|unfold u32; lia|done|].
  destruct (IH (i + 1)) as (devs' & -> & Hl & Hall); [lia|lia|done|lia|done|].
  exists (d' :: devs'). split_and!; [done|simpl; by rewrite Hl|].
  intros [|k] g' Hg'; simpl in Hg'.
  - injection Hg' as <-. exists d', (<[0%nat := b]> g.2).
    split_and!; [done|done|exact (unchanged_insert g.2 0 b ltac:(lia))|].
    destruct (open_replica_header_spec d' g.1 _ b Hd' Hbs
      (eq_trans (block_at_insert g.2 0 0 b ltac:(lia)) eq_refl)) as (d'' & -> & _).
    rewrite length_insert, Z.add_0_r, <- Hdec. by apply header_verdict_ok.
  - destruct (Hall _ _ Hg') as (d1 & img1 & Hk & Hd1 & Hun & Hop). exists d1, img1.
    split_and!; [done|done|done|]. rewrite Hop. do 2 f_equal. lia.
Qed.

Lemma open_devices_spec bs n devs imgs g :
  Forall2 (λ d img, dev_at d bs img) devs imgs → 32 ≤ bs →
  Forall (λ img, has_header bs img ∧ zlen img = n) imgs → g = None ∨ g = Some (bs, n) →
  ∃ rs, open_devices devs g = Ok rs ∧
    Forall2 (λ r img, dev_at (r_dev r) bs img ∧ r_index r = MemIndex_new) rs imgs.
Proof.
  intros Hf Hbs. revert g. induction Hf as [|d img devs imgs Hd _ IH]; intros g Hh Hg.
  { exists []. split; [done|constructor]. }
  apply Forall_cons in Hh as [[(b & Hb & Hok) Hlen] Hh]. cbn [open_devices].
  destruct (open_replica_header_spec d bs img b Hd Hbs Hb) as (d' & Hop & Hd'). rewrite Hop.
  pose proof (block_at_range _ _ _ Hb) as Hr0.
  rewrite (proj2 (header_verdict_ok bs (zlen img) b (decode_storage b) ltac:(lia))) by done.
  pose proof (dev_at_geometry _ _ _ Hd') as (-> & -> & _). rewrite Hlen.
  destruct (IH (Some (bs, n)) Hh ltac:(by right)) as (rs & Hrs & Hrel).
  assert (∀ r, Forall2 (λ r img, dev_at (r_dev r) bs img ∧ r_index r = MemIndex_new)
    ({| r_dev := d'; r_header := r; r_index := MemIndex_new |} :: rs) (img :: imgs)) as Hall
    by (intros r; by constructor).
  destruct Hg as [-> | ->]; cbn [from_option id fst snd];
    [|rewrite !Z.eqb_refl; cbn [negb orb]];
    rewrite Hrs; cbn [mbind outcome_bind]; by eexists.
Qed.

(** Indexing and recovering every replica, whatever the indexes were. *)
Lemma build_index_mounted bs imgs s :
  Forall2 (λ r img, mounted bs img r) (replicas s) imgs →
  ∃ rs ps, build_index s = ({| replicas := rs; opts := opts s |}, Ok tt) ∧
    replicas_at bs rs ps ∧ Forall2 (λ img p, p.1 = img) imgs ps.
Proof.
  intros Hf. destruct (for_each_mut_ok Replica_build_index _ (λ r p, replica_at bs p.1 p.2 r)
    (λ img p, p.1 = img) _ _ Hf) as (rs & ps & Hl & Hrs & Hps).
  - intros r img Hr. destruct (build_index_at bs img r Hr) as (r' & best & Hrun & _ & Hr').
    by exists r', (img, best).
  - exists rs, ps. split_and!; [|done|done]. unfold build_index, on_replicas. by rewrite Hl.
Qed.

(** What [recover] makes of a shard. *)
Definition recovered (bs : Z) (img : image) (p : shard) : Prop :=
  catalog bs img p.2 ∧ catalog bs p.1 p.2 ∧ clean bs p ∧ length p.1 = length img.

Lemma recover_mounted bs imgs s :
  Forall2 (λ r img, mounted bs img r) (replicas s) imgs → good_pattern (free_pattern (opts s)) →
  ∃ rs ps, recover s = ({| replicas := rs; opts := opts s |}, Ok tt) ∧
    Forall2 (λ r p, mounted bs p.1 r) rs ps ∧ Forall2 (recovered bs) imgs ps.
Proof.
  intros Hf Hp.
  destruct (for_each_mut_ok (Replica_recover (free_pattern (opts s))) _
    (λ r p, mounted bs p.1 r) (recovered bs) _ _ Hf) as (rs & ps & Hl & Hrs & Hps).
  - intros r img Hr. destruct (recover_at bs img r _ Hr Hp)
      as (d' & img' & best & Hrun & Hm & Hlen & Hc & Hc' & Hs & Ht).
    exists (set_dev d' r), (img', best). split; [exact Hrun|]. split; [exact Hm|].
    by split_and!.
  - exists rs, ps. split_and!; [|done|done]. unfold recover. mgets. unfold on_replicas. by rewrite Hl.
Qed.

(** On indexed replicas, both keep the catalogs. *)
Lemma build_index_again bs ps s :
  replicas_at bs (replicas s) ps →
  ∃ rs, build_index s = ({| replicas := rs; opts := opts s |}, Ok tt) ∧ replicas_at bs rs ps.
Proof.
  intros Hf. destruct (for_each_mut_ok Replica_build_index _ (λ r p, replica_at bs p.1 p.2 r) eq
    _ _ Hf) as (rs & qs & Hl & Hrs & Hqs).
  - intros r p Hr. destruct (build_index_at bs p.1 r (replica_at_mounted _ _ _ _ Hr))
      as (r' & best & Hrun & _ & Hr').
    exists r', p. assert (best = p.2) as -> by (eapply tracks_unique; [apply Hr'|apply Hr]).
    split_and!; [exact Hrun|exact Hr'|exact (eq_refl p)].
  - exists rs. unfold build_index, on_replicas. rewrite Hl. split; [done|].
    by apply list_eq_Forall2 in Hqs as ->.
Qed.

Lemma recover_again bs ps s :
  replicas_at bs (replicas s) ps → good_pattern (free_pattern (opts s)) →
  ∃ rs qs, recover s = ({| replicas := rs; opts := opts s |}, Ok tt) ∧ replicas_at bs rs qs ∧
    Forall2 (λ p q, q.2 = p.2 ∧ clean bs q ∧ length q.1 = length p.1) ps qs.
Proof.
  intros Hf Hp.
  destruct (for_each_mut_ok (Replica_recover (free_pattern (opts s))) _
    (λ r p, replica_at bs p.1 p.2 r)
    (λ p q, q.2 = p.2 ∧ clean bs q ∧ length q.1 = length p.1) _ _ Hf) as (rs & qs & Hl & Hrs & Hqs).
  - intros r p Hr. destruct (recover_at bs p.1 r _ (replica_at_mounted _ _ _ _ Hr) Hp)
      as (d' & img' & best & Hrun & [Hd Hbs Hh] & Hlen & Hc & Hc' & Hs & Ht).
    assert (best = p.2) as -> by (eapply tracks_unique; [exact Hc|apply Hr]).
    exists (set_dev d' r), (img', p.2). split; [exact Hrun|]. split.
    + constructor; [done|done|done| |done]. apply Hr.
    + by split_and!.
  - exists rs, qs. split_and!; [|done|done]. unfold recover. mgets. unfold on_replicas. by rewrite Hl.
Qed.

(** *** Space *)

(** The number of blocks a [put] can still take on a replica. *)
Definition free_space (p : shard) : Z := zlen (free_list p.1).

Lemma free_space_used bs p r :
  replica_at bs p.1 p.2 r → clean bs p → free_space p = zlen p.1 - 1 - zlen (used_blocks p.2).
Proof. intros [_ _ Hh _ Hcat] [_ Ht]. by eapply free_list_count. Qed.

Lemma put_shard_space bs p p' r r' key value generation user_flags pattern :
  replica_at bs p.1 p.2 r → replica_at bs p'.1 p'.2 r' → good_pattern pattern →
  fits bs key generation user_flags → room bs key value p →
  (∀ old, p.2 !! key_str key = Some old → cr_generation old < generation) →
  put_shard bs key value generation user_flags pattern p p' → clean bs p →
  clean bs p' ∧
  free_space p' = free_space p - blocks_for bs key value + blocks_of (key_str key) p.2.
Proof.
  intros Hr Hr' Hp Hfit Hroom Hgen Hput Hcl.
  assert (clean bs p') as Hcl' by (eapply put_clean; [exact Hr|exact Hp|exact Hgen|exact Hput|exact Hcl]).
  split; [done|]. pose proof (ra_bs _ _ _ _ Hr) as Hbs.
  pose proof (dev_at_geometry _ _ _ (ra_dev _ _ _ _ Hr)) as (_ & _ & Hbs32 & _).
  rewrite (free_space_used bs p r), (free_space_used bs p' r') by done.
  destruct Hput as [Hp2 Hrep]. rewrite (replaces_length _ _ _ _ _ _ Hrep), Hp2, used_blocks_replace.
  destruct (put_record_blocks bs p.1 key value generation user_flags ltac:(lia) Hfit Hroom) as [<- _].
  destruct (blocks_for_spec bs key value ltac:(lia) ltac:(apply Hfit)) as [_ Hn].
  unfold room in Hroom. assert (zlen (take (Z.to_nat (blocks_for bs key value)) (free_list p.1))
    = blocks_for bs key value) as -> by len. lia.
Qed.

Lemma delete_shard_space bs p p' r r' k pattern :
  replica_at bs p.1 p.2 r → replica_at bs p'.1 p'.2 r' → good_pattern pattern →
  delete_shard bs pattern k p p' → clean bs p →
  clean bs p' ∧ free_space p' = free_space p + blocks_of k p.2.
Proof.
  intros Hr Hr' Hp Hdel Hcl. assert (clean bs p') as Hcl' by (eapply delete_clean; [exact Hr|exact Hp|exact Hdel|exact Hcl]).
  split; [done|]. rewrite (free_space_used bs p r), (free_space_used bs p' r') by done.
  rewrite (delete_shard_catalog _ _ _ _ _ Hdel), used_blocks_delete.
  assert (length p'.1 = length p.1) as ->; [|lia].
  revert Hdel. unfold delete_shard. destruct (p.2 !! k); [by intros (_ & [? _] & _)|by intros ->].
Qed.

(** Over the replicas that [put] updates, and over all for [delete]. *)
Lemma put_shards_space bs pre pre' rest s s' key value generation user_flags :
  store_at bs (pre ++ rest) s → store_at bs (pre' ++ rest) s' → Forall (clean bs) (pre ++ rest) →
  fits bs key generation user_flags →
  (∀ p old, p ∈ pre ++ rest → p.2 !! key_str key = Some old → cr_generation old < generation) →
  Forall (room bs key value) pre →
  Forall2 (put_shard bs key value generation user_flags (free_pattern (opts s))) pre pre' →
  Forall (clean bs) (pre' ++ rest) ∧
  Forall2 (λ p p', free_space p' =
    free_space p - blocks_for bs key value + blocks_of (key_str key) p.2) pre pre'.
Proof.
  intros [Hrs Hp] [Hrs' _] Hcl Hfit Hgen Hroom Hput.
  apply Forall2_app_inv_r in Hrs as (rs1 & rs2 & Hrs & _ & _).
  apply Forall2_app_inv_r in Hrs' as (rs1' & rs2' & Hrs' & _ & _).
  apply Forall_app in Hcl as [Hcl Hrest]. rewrite Forall_app.
  assert (Forall2 (λ p p', clean bs p' ∧ free_space p' =
    free_space p - blocks_for bs key value + blocks_of (key_str key) p.2) pre pre') as Hall.
  { apply Forall2_same_length_lookup_2; [by eapply Forall2_length|]. intros i p p' Hi Hj.
    destruct (Forall2_lookup_r _ _ _ _ _ Hrs Hi) as (r & _ & Hr).
    destruct (Forall2_lookup_r _ _ _ _ _ Hrs' Hj) as (r' & _ & Hr').
    eapply put_shard_space; [exact Hr|exact Hr'|exact Hp|exact Hfit|exact (Forall_lookup_1 _ _ _ _ Hroom Hi)| |
      exact (Forall2_lookup_lr _ _ _ _ _ _ Hput Hi Hj)|
      exact (Forall_lookup_1 _ _ _ _ Hcl Hi)].
    intros old. apply Hgen, elem_of_app. left. by eapply list_elem_of_lookup_2. }
  split; [split; [|done]|]; [eapply Forall2_Forall_r|eapply Forall2_impl]; try exact Hall.
  - apply Forall_true. by intros p p' [].
  - by intros p p' [].
Qed.

Lemma delete_shards_space bs ps ps' s s' k :
  store_at bs ps s → store_at bs ps' s' → Forall (clean bs) ps →
  Forall2 (delete_shard bs (free_pattern (opts s)) k) ps ps' →
  Forall (clean bs) ps' ∧ Forall2 (λ p p', free_space p' = free_space p + blocks_of k p.2) ps ps'.
Proof.
  intros [Hrs Hp] [Hrs' _] Hcl Hdel.
  assert (Forall2 (λ p p', clean bs p' ∧ free_space p' = free_space p + blocks_of k p.2) ps ps') as Hall.
  { apply Forall2_same_length_lookup_2; [by eapply Forall2_length|]. intros i p p' Hi Hj.
    destruct (Forall2_lookup_r _ _ _ _ _ Hrs Hi) as (r & _ & Hr).
    destruct (Forall2_lookup_r _ _ _ _ _ Hrs' Hj) as (r' & _ & Hr').
    eapply delete_shard_space; [exact Hr|exact Hr'|exact Hp|exact (Forall2_lookup_lr _ _ _ _ _ _ Hdel Hi Hj)|].
    by eapply Forall_lookup_1. }
  split; [eapply Forall2_Forall_r|eapply Forall2_impl]; try exact Hall.
  - apply Forall_true. by intros p p' [].
  - by intros p p' [].
Qed.

End Devices.

(** ** Properties *)

(** C24: [open] of one device decides by its block size and block 0: blocks below
    32 bytes give [InvalidBlockSize]; then a block 0 that is not marked as a
    storage header gives [InvalidHeader], one whose CRC does not match
    [CrcMismatch], one with another magic or another geometry than the device's
    [InvalidHeader]; otherwise the header is returned.  The header's version is
    not looked at.  Nothing is written. *)
Theorem open_replica_header_decides `{Profile} `{ReliableDevice D} (d : D) bs img :
  dev_at d bs img → 1 ≤ zlen img →
  ∃ d' b, block_at img 0 = Some b ∧ dev_at d' bs img ∧
    open_replica_header d =
      (d', if bs <? 32 then Err InvalidBlockSize else header_verdict bs (zlen img) b) ∧
    (32 ≤ bs → has_header bs img ↔ open_replica_header d = (d', Ok (decode_storage b))).
Proof.
  intros Hd Hn. destruct (block_at_lt img 0 ltac:(lia)) as [b Hb].
  destruct (bs <? 32) eqn:E; zbool.
  - exists d, b. split_and!; [done|done| |lia]. pose proof (dev_at_geometry _ _ _ Hd) as (Hbs & _).
    unfold open_replica_header. mgets. rewrite Hbs. consts. by rewrite (proj2 (Z.ltb_lt _ _)) by lia.
  - destruct (open_replica_header_spec d bs img b Hd E Hb) as (d' & Hrun & Hd').
    exists d', b. split_and!; [done|done|done|]. intros _. rewrite Hrun. split.
    + intros (b' & Hb' & Hok). rewrite Hb in Hb'. injection Hb' as <-. f_equal.
      by apply header_verdict_ok.
    + intros [= Hv]. apply header_verdict_ok in Hv as [Hok _]; [|done]. by exists b.
Qed.

Lemma open_replica_header_decides_witness :
  ∃ d', open_replica_header (H := dev_profile) (MemDevice_new 64 4) = (d', Err InvalidHeader).
Proof.
  destruct (open_replica_header_decides (H := dev_profile) (MemDevice_new 64 4) 64 _
    (MemDevice_new_at 64 4 ltac:(lia) ltac:(lia)) ltac:(simpl; lia))
    as (d' & b & Hb & _ & Hrun & _).
  exists d'. rewrite Hrun. vm_compute in Hb. injection Hb as <-. reflexivity.
Defined.

(** The devices hold these images, with a valid header each. *)
Definition headed `{ReliableDevice D} (d : D) (g : Z * image) : Prop :=
  dev_at d g.1 g.2 ∧ 32 ≤ g.1 ∧ has_header g.1 g.2.

Lemma open_devices_geometry `{Profile} `{ReliableDevice D} (devs : list D) gs g0 :
  Forall2 headed devs gs →
  if decide (Forall (λ g : Z * image, (g.1, zlen g.2) = g0) gs)
  then ∃ rs, open_devices devs (Some g0) = Ok rs ∧ length rs = length devs
  else open_devices devs (Some g0) = Err ReplicaMismatch.
Proof.
  intros Hf. induction Hf as [|d [bs img] devs gs (Hd & Hbs & Hh) _ IH]; cbn [open_devices].
  { rewrite decide_True by constructor. by exists []. }
  simpl in *. destruct Hh as (b & Hb & Hok).
  destruct (open_replica_header_spec d bs img b Hd Hbs Hb) as (d' & Hop & Hd'). rewrite Hop.
  pose proof (block_at_range _ _ _ Hb) as Hr0.
  rewrite (proj2 (header_verdict_ok bs (zlen img) b (decode_storage b) ltac:(lia))) by done.
  pose proof (dev_at_geometry _ _ _ Hd') as (-> & -> & _). destruct g0 as [b0 n0]. simpl.
  destruct (bs =? b0) eqn:E1, (zlen img =? n0) eqn:E2; zbool; cbn [negb orb].
  2-4: rewrite decide_False; [done|]; rewrite Forall_cons; intros [[=] _]; congruence.
  subst. destruct (decide (Forall _ (_ :: gs))) as [Hall|Hall].
  - apply Forall_cons in Hall as [_ Hall]. rewrite decide_True in IH by done.
    destruct IH as (rs & -> & Hl). cbn [mbind outcome_bind]. eexists. split; [done|]. simpl. by rewrite Hl.
  - rewrite decide_False in IH; [by rewrite IH|]. intros Hall'. apply Hall. by constructor.
Qed.

(** C23: [open] accepts a set of valid replicas exactly when they all have the
    block size and block count of the first, and otherwise fails with
    [ReplicaMismatch]; without devices it fails with [NoReplicas]. *)
Theorem open_checks_geometry `{Profile} `{ReliableDevice D} (devs : list D) gs o :
  Forall2 headed devs gs →
  match gs with
  | [] => open devs o = Err NoReplicas
  | g0 :: _ =>
      if decide (Forall (λ g : Z * image, g.1 = g0.1 ∧ zlen g.2 = zlen g0.2) gs)
      then ∃ s, open devs o = Ok s ∧ opts s = o ∧ replica_count s = zlen devs
      else open devs o = Err ReplicaMismatch
  end.
Proof.
  intros Hf. destruct Hf as [|d [bs img] devs gs (Hd & Hbs & Hh) Hf]; [done|].
  pose proof (open_devices_geometry devs gs (bs, zlen img) Hf) as Hrest.
  simpl in *. destruct Hh as (b & Hb & Hok). unfold open. cbn [open_devices].
  destruct (open_replica_header_spec d bs img b Hd Hbs Hb) as (d' & Hop & Hd'). rewrite Hop.
  pose proof (block_at_range _ _ _ Hb) as Hr0.
  rewrite (proj2 (header_verdict_ok bs (zlen img) b (decode_storage b) ltac:(lia))) by done.
  pose proof (dev_at_geometry _ _ _ Hd') as (-> & -> & _). cbn [from_option id].
  assert (Forall (λ g : Z * image, (g.1, zlen g.2) = (bs, zlen img)) gs ↔
    Forall (λ g : Z * image, g.1 = bs ∧ zlen g.2 = zlen img) ((bs, img) :: gs)) as Hiff.
  { rewrite Forall_cons. simpl. split.
    - intros Hall. split; [done|]. eapply Forall_impl; [exact Hall|]. by intros g [= -> ->].
    - intros [_ Hall]. eapply Forall_impl; [exact Hall|]. by intros g [-> ->]. }
  case_decide as Hall; case_decide as Hall'; try tauto.
  - destruct Hrest as (rs & -> & Hl). cbn [mbind outcome_bind].
    eexists. split_and!; [done|done|]. unfold replica_count. simpl. by rewrite Hl.
  - by rewrite Hrest.
Qed.

Lemma open_checks_geometry_witness :
  open (H := dev_profile) [sample_device; sample_device] Options_new ≠ Err ReplicaMismatch.
Proof.
  pose proof (open_checks_geometry (H := dev_profile) [sample_device; sample_device]
    [(64, sample_image); (64, sample_image)] Options_new) as Ho. cbv iota in Ho.
  destruct sample_mounted as [Hd _ Hh].
  rewrite decide_True in Ho by (by repeat constructor).
  destruct Ho as (s & -> & _); [|discriminate].
  assert (headed sample_device (64, sample_image)) as Hs by (split_and!; [exact Hd|simpl; lia|exact Hh]).
  constructor; [exact Hs|]. constructor; [exact Hs|constructor].
Defined.

(** C25: [format] stamps every device and erases nothing: on devices with blocks of
    at least 32 bytes, of whatever geometry each, it returns, changes no block but
    block 0, and device number [k] then passes [open] with a header that carries
    the current version, the device's geometry, the replica id [replica_id + k]
    and the format sequence of the options.  Without devices it is [NoReplicas]. *)
Theorem format_stamps_headers `{Profile} `{ReliableDevice D} (devs : list D) gs o :
  Forall2 (λ d g, dev_at d g.1 g.2 ∧ 32 ≤ g.1 ∧ 1 ≤ zlen g.2) devs gs →
  0 ≤ replica_id o → replica_id o + zlen devs < U32 → u32 (format_seq o) →
  match devs with
  | [] => format o devs = ([], Err NoReplicas)
  | _ => ∃ devs', format o devs = (devs', Ok tt) ∧ length devs' = length devs ∧
      ∀ k g, gs !! k = Some g → ∃ d' img', devs' !! k = Some d' ∧ dev_at d' g.1 img' ∧
        unchanged [0] g.2 img' ∧
        (open_replica_header d').2 = Ok (new_header o (Z.of_nat k) g.1 (zlen g.2))
  end.
Proof.
  intros Hf Hid Hlt Hseq. destruct devs as [|d devs]; [done|].
  apply (format_devices_each o (d :: devs) gs 0 Hf); done || lia.
Qed.

Lemma format_stamps_headers_witness :
  ∃ devs', format (H := dev_profile) Options_new [MemDevice_new 64 4; MemDevice_new 256 2]
    = (devs', Ok tt) ∧ length devs' = 2%nat.
Proof.
  destruct (format_stamps_headers (H := dev_profile) [MemDevice_new 64 4; MemDevice_new 256 2]
    [(64, replicate 4 (replicate 64 x00)); (256, replicate 2 (replicate 256 x00))] Options_new)
    as (devs' & Hrun & Hl & _); [|simpl; lia|simpl; lia|unfold u32; simpl; lia|by exists devs'].
  constructor; [|constructor; [|constructor]].
  - split_and!; [by apply (MemDevice_new_at 64 4)|simpl; lia|simpl; lia].
  - split_and!; [by apply (MemDevice_new_at 256 2)|simpl; lia|simpl; lia].
Defined.

(** ** Space *)

(** C19: no block is lost.  On replicas without garbage, [put] takes exactly the
    blocks of the new record from the free space of each replica it updates and
    gives back those of the record it replaces, [delete] gives back exactly the
    blocks of the deleted record, and both leave replicas without garbage, so
    this goes on; [recover], on replicas in any state, leaves free every block but
    the header and those of the records it keeps. *)
Theorem space_accounting `{Profile} `{ReliableDevice D} (s : Store D) bs :
  (∀ ps, store_at bs ps s → ps ≠ [] → Forall (clean bs) ps →
    (∀ key value user_flags, zlen key ≤ bs - 36 → zlen key < U16 → u32 user_flags →
      top_generation (key_str key) ps + 1 < U32 →
      ∃ s' pre pre' rest, ps = pre ++ rest ∧
        put_flagged key value user_flags s
          = (s', match rest with [] => Ok tt | _ => Err StorageFull end) ∧
        store_at bs (pre' ++ rest) s' ∧ Forall (clean bs) (pre' ++ rest) ∧
        Forall2 (λ p p', free_space p' =
          free_space p - blocks_for bs key value + blocks_of (key_str key) p.2) pre pre') ∧
    ∀ key, ∃ s' ps', delete key s =
        (s', if decide (is_Some (contents ps !! key_str key)) then Ok tt else Err KeyNotFound) ∧
      store_at bs ps' s' ∧ Forall (clean bs) ps' ∧
      Forall2 (λ p p', free_space p' = free_space p + blocks_of (key_str key) p.2) ps ps') ∧
  ∀ imgs, Forall2 (λ r img, mounted bs img r) (replicas s) imgs →
    good_pattern (free_pattern (opts s)) →
    ∃ s' ps', recover s = (s', Ok tt) ∧ Forall2 (λ r p, mounted bs p.1 r) (replicas s') ps' ∧
      Forall2 (λ img p, catalog bs img p.2 ∧
        free_space p = zlen img - 1 - zlen (used_blocks p.2)) imgs ps'.
Proof.
  split; [intros ps Hs Hne Hcl; split|].
  - intros key value fl Hk Hk16 Hfl Hg.
    destruct (store_put_spec bs ps s key value fl Hs Hne Hk Hk16 Hfl Hg)
      as (s' & pre & pre' & rest & -> & Hrun & Hs' & _ & Hpre & Hroom & _).
    exists s', pre, pre', rest. split; [done|]. split; [done|]. split; [done|].
    eapply put_shards_space; [exact Hs|exact Hs'|exact Hcl| | |exact Hroom|exact Hpre].
    + unfold fits, u32 in *. pose proof (top_generation_max (pre ++ rest) (key_str key)) as (? & _).
      split_and!; lia.
    + intros p old Hp Hold.
      destruct (top_generation_max (pre ++ rest) (key_str key)) as (_ & Hmax & _).
      specialize (Hmax _ _ Hp Hold). lia.
  - intros key. destruct (store_delete_spec bs ps s key Hs) as (s' & ps' & Hrun & Hs' & _ & Hdel).
    { eapply Forall_impl; [exact Hcl|]. by intros p []. }
    exists s', ps'. split; [exact Hrun|]. split; [done|].
    by eapply delete_shards_space; [exact Hs|exact Hs'|..].
  - intros imgs Hm Hp. destruct (recover_mounted bs imgs s Hm Hp) as (rs & ps & Hrun & Hrs & Hps).
    exists {| replicas := rs; opts := opts s |}, ps. split_and!; [exact Hrun|exact Hrs|].
    apply Forall2_same_length_lookup_2; [by eapply Forall2_length|]. intros i img p Hi Hj.
    destruct (Forall2_lookup_lr _ _ _ _ _ _ Hps Hi Hj) as (Hc & Hc' & [_ Ht] & <-).
    destruct (Forall2_lookup_r _ _ _ _ _ Hrs Hj) as (r & _ & [_ _ Hh]).
    split; [done|]. by eapply free_list_count.
Qed.

Lemma space_accounting_witness :
  ∃ s' pre pre' (rest : list shard), put_flagged (H := dev_profile) [x6b] [x76] 0 sample_store =
      (s', match rest with [] => Ok tt | _ => Err StorageFull end) ∧
    Forall2 (λ p p', free_space p' = free_space p - 1 + blocks_of [x6b] p.2) pre pre'.
Proof.
  destruct (space_accounting (H := dev_profile) sample_store 64) as [Hsp _].
  destruct (Hsp _ sample_store_at) as [Hput _]; [done|constructor; [|constructor; [|constructor]]; apply sample_clean|].
  destruct (Hput [x6b] [x76] 0) as (s' & pre & pre' & rest & _ & Hrun & _ & _ & Hf);
    [simpl; lia|simpl; lia|unfold u32; lia|by vm_compute|].
  exists s', pre, pre', rest. split; [exact Hrun|exact Hf].
Defined.

(** ** Blocks too small for a record *)

(** Blocks with room for the storage header and its CRC, but not for a record
    descriptor and its CRC. *)
Definition header_only (bs : Z) : Prop := 32 ≤ bs < 36.

Lemma put_header_only `{Profile} `{ReliableDevice D} (s : Store D) r rs bs img key value flags :
  overflow_checks = true → header_only bs → replicas s = r :: rs → dev_at (r_dev r) bs img →
  put_flagged key value flags s = (s, Panic).
Proof.
  intros Hov [Hlo Hhi] Hrs Hd. pose proof (dev_at_geometry _ _ _ Hd) as (Hbs & _).
  unfold put_flagged. mgets. rewrite Hrs. assert (index (r :: rs) 0 = Ok r) as Hi by done. mlift Hi.
  rewrite Hbs. unfold u32_sub, checked. consts. rewrite Hov.
  rewrite (proj2 (Z.leb_le 0 (bs - 32))), (proj2 (Z.ltb_lt (bs - 32) U32)) by lia.
  cbn [andb mbind outcome_bind]. by rewrite (proj2 (Z.leb_gt 0 (bs - 32 - 4))) by lia.
Qed.

(** C39: blocks of 32 to 35 bytes are accepted but not usable: on any devices with
    such blocks, however many and whatever they hold, [format] and then [open]
    succeed, since they only ask for room for the storage header; but in a build
    with overflow checks every [put] on the store so opened panics, whatever the
    key and the value, because it computes [block_size - 32 - 4]. *)
Theorem small_blocks_panic `{Profile} `{ReliableDevice D} (devs : list D) imgs bs n o o' :
  overflow_checks = true → header_only bs →
  Forall2 (λ d img, dev_at d bs img) devs imgs → devs ≠ [] →
  1 ≤ n → Forall (λ img, zlen img = n) imgs →
  0 ≤ replica_id o → replica_id o + zlen devs < U32 → u32 (format_seq o) →
  ∃ devs' s, format o devs = (devs', Ok tt) ∧ open devs' o' = Ok s ∧
    ∀ key value flags, put_flagged key value flags s = (s, Panic).
Proof.
  intros Hov Hbs Hf Hne Hn Hlen Hid Hlt Hseq. pose proof Hbs as [Hlo _].
  destruct (format_devices_spec o bs devs imgs 0 Hf Hlo) as (devs' & imgs' & Hfmt & Hf' & Hfs);
    [eapply Forall_impl; [exact Hlen|]; simpl; lia|lia|lia|done|lia|done|].
  assert (Forall (λ img, has_header bs img ∧ zlen img = n) imgs') as Hh.
  { apply Forall_lookup_2. intros i img' Hi.
    destruct (Forall2_lookup_r _ _ _ _ _ Hfs Hi) as (img & Hj & Hhd & [Hl _]).
    split; [done|]. rewrite Hl. exact (Forall_lookup_1 _ _ _ _ Hlen Hj). }
  destruct (open_devices_spec bs n devs' imgs' None Hf' Hlo Hh ltac:(by left)) as (rs & Hop & Hrs).
  destruct Hf as [|d img devs imgs Hd Hf]; [done|]. inversion Hfs as [|? img' ? ? _ _]; subst.
  inversion Hf' as [|d' ? ds' ? _ _]; subst. inversion Hrs as [|r ? rs' ? [Hr _] _]; subst.
  eexists (d' :: ds'), {| replicas := r :: rs'; opts := o' |}. split_and!; [exact Hfmt| |].
  - unfold open. by rewrite Hop.
  - intros key value flags. by eapply put_header_only.
Qed.

Lemma small_blocks_panic_witness :
  ∃ devs' s, format (H := dev_profile) Options_new [MemDevice_new 35 4; MemDevice_new 35 4]
      = (devs', Ok tt) ∧
    open (H := dev_profile) devs' Options_new = Ok s ∧
    put_flagged (H := dev_profile) [] [x76] 0 s = (s, Panic).
Proof.
  pose proof (MemDevice_new_at 35 4 ltac:(lia) ltac:(lia)) as Hd.
  destruct (small_blocks_panic (H := dev_profile) [MemDevice_new 35 4; MemDevice_new 35 4] [_; _]
    35 4 Options_new Options_new eq_refl ltac:(unfold header_only; lia)
    ltac:(by repeat constructor)) as (devs' & s & Hfmt & Hop & Hput);
    [done|lia|by repeat constructor|simpl; lia|simpl; lia|unfold u32; simpl; lia|].
  exists devs', s. split_and!; [exact Hfmt|exact Hop|apply Hput].
Defined.
