(* ===== verification/Shards.v ===== *)
(** * The store as a list of shards

    Between the code and the abstract map stands the list of the replicas'
    catalogs.  Every command, on a store in order, makes one step of this list;
    the map and the theorems on power loss are obtained from these steps. *)

From S2P Require Import Prelude Errors Rust Format Crc Block Device Record Utf8 Index Replica.
From S2P Require Import Store RecordWrite Allocation Catalog Recovery ReplicaSpec StoreSpec.
From S2P Require Import Lifecycle.

(** ** The commands *)

Inductive command :=
| CGet (key : list byte)
| CPut (key value : list byte) (user_flags : Z)
| CDelete (key : list byte)
| CBuildIndex
| CRecover
| CReopen.

Inductive reply := RUnit | RValue (v : list byte).

(** Arguments the type of the crate's API and the record format can hold. *)
Definition command_ok (bs : Z) (c : command) : Prop :=
  match c with
  | CPut key value flags =>
      zlen key < U32 ∧ (zlen key ≤ bs - 36 → zlen key < U16) ∧ zlen value < U32 ∧ u32 flags
  | _ => True
  end.

Section Exec.
Context `{Profile} `{BlockDevice D}.

(** Take the devices out of the store, open them again and index them. *)
Definition reopen : M (Store D) unit := λ s,
  match open (into_devices s) (opts s) with
  | Ok s' => build_index s'
  | Err e => (s, Err e)
  | Panic => (s, Panic)
  | Diverge => (s, Diverge)
  end.

Definition exec (c : command) : M (Store D) reply :=
  match c with
  | CGet key => v ← get key; mret (RValue v)
  | CPut key value flags => put_flagged key value flags;; mret RUnit
  | CDelete key => delete key;; mret RUnit
  | CBuildIndex => build_index;; mret RUnit
  | CRecover => recover;; mret RUnit
  | CReopen => reopen;; mret RUnit
  end.

(** The caller goes on after an error. *)
Fixpoint exec_all (cs : list command) (s : Store D) : Store D * list (outcome reply) :=
  match cs with
  | [] => (s, [])
  | c :: cs =>
      let '(s', r) := exec c s in
      let '(s'', rs) := exec_all cs s' in (s'', r :: rs)
  end.

End Exec.

(** ** Steps of the list of shards *)

(** A shard in which [put] has replaced the record of the key. *)
Definition put_on `{Profile} (bs : Z) (key value : list byte) (g : Z) (p p' : shard) : Prop :=
  ∃ rec, p'.2 = <[key_str key := rec]> p.2 ∧ cr_generation rec = g ∧ cr_value rec = value ∧
    zlen (record_blocks rec) = blocks_for bs key value.

(** The generation [g] is above all those of the key. *)
Definition above (k : list byte) (g : Z) (ps : list shard) : Prop :=
  ∀ p old, p ∈ ps → p.2 !! k = Some old → cr_generation old < g.

(** What a command answers and does to the catalogs. *)
Definition shards_step `{Profile} (bs : Z) (c : command) (r : outcome reply) (ps ps' : list shard) : Prop :=
  match c with
  | CGet key =>
      r = match contents ps !! key_str key with
          | Some v => Ok (RValue v)
          | None => Err KeyNotFound
          end ∧ ps'.*2 = ps.*2
  | CPut key value _ =>
      if decide (zlen key ≤ bs - 36) then
        ∃ g pre pre' rest, ps = pre ++ rest ∧ ps' = pre' ++ rest ∧ above (key_str key) g ps ∧
          Forall2 (put_on bs key value g) pre pre' ∧
          match rest with
          | [] => r = Ok RUnit
          | p :: _ => r = Err StorageFull ∧ ¬ room bs key value p
          end
      else r = Err KeyTooLong ∧ ps' = ps
  | CDelete key =>
      r = (if decide (is_Some (contents ps !! key_str key)) then Ok RUnit else Err KeyNotFound) ∧
      Forall2 (λ p p', p'.2 = base.delete (key_str key) p.2) ps ps'
  | CBuildIndex | CRecover | CReopen => r = Ok RUnit ∧ ps'.*2 = ps.*2
  end.

Lemma put_on_updated `{Profile} bs key value g p p' :
  put_on bs key value g p p' → updated (key_str key) g value p p'.
Proof. intros (rec & ? & ? & ? & _). by exists rec. Qed.

(** ** Stores in order *)

Section Stored.
Context `{Profile} `{ReliableDevice D}.
Implicit Types (s : Store D) (ps : list shard).

Definition shard_ok (bs n G : Z) (p : shard) : Prop :=
  zlen p.1 = n ∧ clean bs p ∧ ∀ k rec, p.2 !! k = Some rec → cr_generation rec ≤ G.

(** The store [s] holds the shards [ps], each of [n] blocks of [bs] bytes, with
    one record per key, no garbage and no generation above [G]. *)
Definition stored (bs n G : Z) (ps : list shard) (s : Store D) : Prop :=
  store_at bs ps s ∧ ps ≠ [] ∧ Forall (shard_ok bs n G) ps.

Lemma shards_top bs n G ps k : 0 ≤ G → Forall (shard_ok bs n G) ps → top_generation k ps ≤ G.
Proof.
  intros HG Hf. apply (top_generation_max ps k); [done|]. intros p r Hp Hk.
  eapply Forall_forall in Hf as (_ & _ & Hg); [|exact Hp]. by eapply Hg.
Qed.

Lemma shard_ok_mono bs n G G' p : G ≤ G' → shard_ok bs n G p → shard_ok bs n G' p.
Proof. intros HG (? & ? & Hg). split_and!; [done|done|]. intros k rec Hk. specialize (Hg _ _ Hk). lia. Qed.

Lemma stored_mono bs n G G' ps s : G ≤ G' → stored bs n G ps s → stored bs n G' ps s.
Proof.
  intros HG (? & ? & Hf). split_and!; try done.
  eapply Forall_impl; [exact Hf|]. intros p. by apply shard_ok_mono.
Qed.

Lemma stored_get bs n G ps s key :
  stored bs n G ps s →
  ∃ s', get key s = (s', match contents ps !! key_str key with
                         | Some v => Ok v | None => Err KeyNotFound end) ∧
    stored bs n G ps s'.
Proof.
  intros (Hs & Hne & Hok). destruct (store_get_spec bs ps s key Hs) as (s' & Hg & Hs' & _).
  exists s'. by split_and!.
Qed.

Lemma put_shard_ok bs n G p p' r key value generation flags pattern :
  replica_at bs p.1 p.2 r → good_pattern pattern →
  (∀ old, p.2 !! key_str key = Some old → cr_generation old < generation) →
  generation ≤ G + 1 →
  put_shard bs key value generation flags pattern p p' →
  shard_ok bs n G p → shard_ok bs n (G + 1) p'.
Proof.
  intros Hr Hp Hold Hg Hput (Hn & Hc & Hgs). pose proof Hput as [Hp2 Hrep]. split_and!.
  - by rewrite (replaces_length _ _ _ _ _ _ Hrep).
  - by eapply put_clean.
  - intros k rec. rewrite Hp2, lookup_insert. case_decide; [by intros [= <-]|].
    intros Hk. specialize (Hgs _ _ Hk). lia.
Qed.

Lemma put_inserted_on bs p p' r key value generation flags :
  replica_at bs p.1 p.2 r → fits bs key generation flags → zlen value < U32 →
  room bs key value p →
  p'.2 = <[key_str key := put_record bs p.1 key value generation flags]> p.2 →
  put_on bs key value generation p p'.
Proof.
  intros [Hd Hbs _ _ _] Hfit Hv Hroom Hp2.
  pose proof (dev_at_geometry _ _ _ Hd) as (_ & _ & Hbs32 & _).
  destruct (put_record_blocks bs p.1 key value generation flags ltac:(lia) Hfit Hroom) as [Hbl _].
  destruct (blocks_for_spec bs key value ltac:(lia) ltac:(apply Hfit)) as [_ Hbf].
  eexists. split_and!; [exact Hp2|done|by apply stored_value_small|].
  rewrite <- Hbl. unfold room in Hroom. len.
Qed.

Lemma stored_put bs n G ps s key value flags :
  stored bs n G ps s → 0 ≤ G → G + 1 < U32 → zlen key ≤ bs - 36 → zlen key < U16 →
  zlen value < U32 → u32 flags →
  ∃ s' g pre pre' rest, ps = pre ++ rest ∧
    put_flagged key value flags s
      = (s', match rest with [] => Ok tt | _ => Err StorageFull end) ∧
    stored bs n (G + 1) (pre' ++ rest) s' ∧ above (key_str key) g ps ∧
    Forall2 (put_on bs key value g) pre pre' ∧
    match rest with [] => True | p :: _ => ¬ room bs key value p end.
Proof.
  intros (Hs & Hne & Hok) HG HG1 Hk Hk16 Hv Hfl.
  pose proof (shards_top bs n G ps (key_str key) HG Hok) as Htop.
  destruct (store_put_spec bs ps s key value flags)
    as (s' & pre & pre' & rest & -> & Hput & Hs' & _ & Hpre & Hroom & Hrest);
    [done|done|done|done|done|lia|].
  set (g := top_generation _ _ + 1) in *.
  destruct (top_generation_max (pre ++ rest) (key_str key)) as (Hge & Hm & _).
  assert (above (key_str key) g (pre ++ rest)) as Hold.
  { intros p old Hp Hpk. specialize (Hm _ _ Hp Hpk). lia. }
  destruct Hs as [Hrs Hpat]. apply Forall2_app_inv_r in Hrs as (rs1 & rs2 & Hrs1 & _ & _).
  apply Forall_app in Hok as [Hok1 Hok2].
  assert (∀ i p', pre' !! i = Some p' → shard_ok bs n (G + 1) p' ∧
    ∃ p, pre !! i = Some p ∧ put_on bs key value g p p') as Hall.
  { intros i p' Hi. destruct (Forall2_lookup_r _ _ _ _ _ Hpre Hi) as (p & Hpi & Hput').
    destruct (Forall2_lookup_r _ _ _ _ _ Hrs1 Hpi) as (r & _ & Hr).
    split; [|exists p; split; [done|]].
    - eapply put_shard_ok; [exact Hr|exact Hpat| | |exact Hput'|exact (Forall_lookup_1 _ _ _ _ Hok1 Hpi)]; [|lia].
      intros old. apply Hold. apply elem_of_app. left. by eapply list_elem_of_lookup_2.
    - eapply put_inserted_on; [exact Hr| |done|exact (Forall_lookup_1 _ _ _ _ Hroom Hpi)|apply Hput'].
      unfold fits, u32 in *. split_and!; lia. }
  exists s', g, pre, pre', rest. split_and!; [done|exact Hput| |done| |done].
  - split_and!; [done|intros [-> ->]%app_nil; by inversion Hpre; subst|].
    apply Forall_app. split; [apply Forall_lookup_2; intros i p' Hi; by apply (Hall i)|].
    eapply Forall_impl; [exact Hok2|]. intros p. apply shard_ok_mono. lia.
  - apply Forall2_same_length_lookup_2; [by eapply Forall2_length|]. intros i p p' Hi Hj.
    destruct (Hall _ _ Hj) as [_ (p0 & Hi0 & Hon)]. rewrite Hi in Hi0. by injection Hi0 as <-.
Qed.

(** A key that does not fit is refused and nothing changes. *)
Lemma stored_put_too_long bs n G ps s key value flags :
  stored bs n G ps s → 0 ≤ G → G + 1 < U32 → zlen key < U32 → bs - 36 < zlen key →
  put_flagged key value flags s = (s, Err KeyTooLong).
Proof.
  intros (Hs & Hne & Hok) HG HG1 Hk Hlong.
  pose proof (shards_top bs n G ps (key_str key) HG Hok) as Htop.
  destruct (put_flagged_start bs ps s key value flags Hs Hne Hk ltac:(lia)) as [_ ->].
  by rewrite (proj2 (Z.ltb_lt _ _) Hlong).
Qed.

Lemma delete_shard_ok bs n G p p' r k pattern :
  replica_at bs p.1 p.2 r → good_pattern pattern → delete_shard bs pattern k p p' →
  shard_ok bs n G p → shard_ok bs n G p'.
Proof.
  intros Hr Hp Hdel (Hn & Hc & Hgs). pose proof (delete_clean _ _ _ _ _ _ Hr Hp Hdel Hc) as Hc'.
  unfold delete_shard in Hdel. destruct (p.2 !! k) as [rec|]; [|by subst].
  destruct Hdel as [Hp2 [[Hl _] _]]. split_and!; [by rewrite Hl|done|].
  intros k' rec'. rewrite Hp2, lookup_delete_Some. intros [_ Hk']. by eapply Hgs.
Qed.

Lemma stored_delete bs n G ps s key :
  stored bs n G ps s →
  ∃ s' ps', delete key s =
      (s', if decide (is_Some (contents ps !! key_str key)) then Ok tt else Err KeyNotFound) ∧
    stored bs n G ps' s' ∧ Forall2 (λ p p', p'.2 = base.delete (key_str key) p.2) ps ps'.
Proof.
  intros (Hs & Hne & Hok). destruct (store_delete_spec bs ps s key Hs)
    as (s' & ps' & Hrun & Hs' & _ & Hdel).
  { eapply Forall_impl; [exact Hok|]. intros p (_ & [? _] & _). done. }
  exists s', ps'. split_and!; [done|split_and!; [done|intros ->; by inversion Hdel; subst|]|].
  - destruct Hs as [Hrs Hpat]. apply Forall_lookup_2. intros i p' Hi.
    destruct (Forall2_lookup_r _ _ _ _ _ Hdel Hi) as (p & Hpi & Hp').
    destruct (Forall2_lookup_r _ _ _ _ _ Hrs Hpi) as (r & _ & Hr).
    eapply delete_shard_ok; [exact Hr|exact Hpat|exact Hp'|].
    by eapply Forall_lookup_1 in Hok.
  - eapply Forall2_impl; [exact Hdel|]. intros. by eapply delete_shard_catalog.
Qed.

(** *** Maintenance *)

Lemma stored_build_index bs n G ps s :
  stored bs n G ps s → ∃ s', build_index s = (s', Ok tt) ∧ stored bs n G ps s'.
Proof.
  intros ([Hrs Hp] & Hne & Hok).
  destruct (build_index_again bs ps s Hrs) as (rs & Hrun & Hrs').
  eexists. split; [exact Hrun|]. by split_and!.
Qed.

Lemma stored_recover bs n G ps s :
  stored bs n G ps s →
  ∃ s' ps', recover s = (s', Ok tt) ∧ stored bs n G ps' s' ∧ ps'.*2 = ps.*2.
Proof.
  intros ([Hrs Hp] & Hne & Hok).
  destruct (recover_again bs ps s Hrs Hp) as (rs & qs & Hrun & Hrs' & Hqs).
  eexists _, qs. split_and!; [exact Hrun|split_and!; [by split|intros ->; by inversion Hqs; subst|]|].
  - apply Forall_lookup_2. intros i q Hi.
    destruct (Forall2_lookup_r _ _ _ _ _ Hqs Hi) as (p & Hpi & Hq2 & Hcl & Hlen).
    eapply Forall_lookup_1 in Hok as (Hn & _ & Hg); [|exact Hpi].
    split_and!; [by rewrite Hlen|done|by rewrite Hq2].
  - clear -Hqs. induction Hqs as [|p q ps qs (Hq & _) _ IH]; [done|]. by rewrite !fmap_cons, Hq, IH.
Qed.

(** The devices of a store can be opened again. *)
Lemma into_devices_spec bs s ps :
  replicas_at bs (replicas s) ps →
  Forall2 (λ d img, dev_at d bs img) (into_devices s) ps.*1 ∧
  Forall (λ img, has_header bs img) ps.*1.
Proof.
  intros Hf. unfold into_devices. split.
  - apply Forall2_fmap. eapply Forall2_impl; [exact Hf|]. intros r p Hr. apply Hr.
  - apply Forall_fmap. eapply Forall2_Forall_r; [exact Hf|].
    apply Forall_true. intros r p Hr. apply Hr.
Qed.

Lemma open_spec bs n devs imgs o :
  Forall2 (λ d img, dev_at d bs img) devs imgs → imgs ≠ [] → 36 ≤ bs →
  Forall (λ img, has_header bs img ∧ zlen img = n) imgs →
  ∃ s, open devs o = Ok s ∧ opts s = o ∧
    Forall2 (λ r img, mounted bs img r) (replicas s) imgs.
Proof.
  intros Hd Hne Hbs Hh.
  destruct (open_devices_spec bs n devs imgs None Hd ltac:(lia) Hh ltac:(by left)) as (rs & Hrs & Hm).
  exists {| replicas := rs; opts := o |}. split_and!; [|done|].
  - unfold open. rewrite Hrs. destruct devs; [by inversion Hd; subst|done].
  - apply Forall2_same_length_lookup_2; [by eapply Forall2_length|].
    intros i r img Hi Hj. destruct (Forall2_lookup_lr _ _ _ _ _ _ Hm Hi Hj) as [Hdev _].
    eapply Forall_lookup_1 in Hh as [Hh _]; [|exact Hj]. by constructor.
Qed.

(** Two indexed views of the same blocks are equal. *)
Lemma replicas_at_unique bs rs rs' ps qs :
  replicas_at bs rs ps → replicas_at bs rs' qs → Forall2 (λ img p, p.1 = img) ps.*1 qs → qs = ps.
Proof.
  intros Hrs. revert rs' qs. induction Hrs as [|r p rs ps Hr _ IH]; intros rs' qs Hrs' Hqs;
    [by inversion Hqs|].
  inversion Hqs as [|? q ? qs' Hq Hqs']; subst. inversion Hrs' as [|r' ? rs2 ? Hr' Hrs2]; subst.
  f_equal; [|by eapply IH]. destruct Hr as [_ _ _ _ Hc], Hr' as [_ _ _ _ Hc'].
  destruct p, q; simpl in *; subst. f_equal. by eapply tracks_unique.
Qed.

Lemma stored_open bs n G ps s :
  stored bs n G ps s → 36 ≤ bs →
  ∃ s1 s2, open (into_devices s) (opts s) = Ok s1 ∧ replica_count s1 = replica_count s ∧
    build_index s1 = (s2, Ok tt) ∧ stored bs n G ps s2.
Proof.
  intros ([Hrs Hp] & Hne & Hok) Hbs.
  destruct (into_devices_spec bs s ps Hrs) as [Hd Hh].
  destruct (open_spec bs n (into_devices s) ps.*1 (opts s)) as (s1 & Hop & Ho & Hm); [done| |done| |].
  { intros ?%fmap_nil_inv. done. }
  { apply Forall_and. split; [done|]. apply Forall_fmap.
    eapply Forall_impl; [exact Hok|]. by intros p [? _]. }
  destruct (build_index_mounted bs ps.*1 s1 Hm) as (rs' & qs & Hrun & Hrs' & Hqs).
  assert (qs = ps) as -> by (by eapply replicas_at_unique).
  exists s1. eexists. split_and!; [done| |exact Hrun|].
  - unfold replica_count. rewrite (Forall2_length _ _ _ Hm), (Forall2_length _ _ _ Hrs).
    by rewrite length_fmap.
  - split_and!; [|done|done]. split; [done|]. simpl. by rewrite Ho.
Qed.

Lemma stored_reopen bs n G ps s :
  stored bs n G ps s → 36 ≤ bs → ∃ s', reopen s = (s', Ok tt) ∧ stored bs n G ps s'.
Proof.
  intros Hr Hbs. destruct (stored_open bs n G ps s Hr Hbs) as (s1 & s2 & Hop & _ & Hrun & Hr').
  exists s2. unfold reopen. by rewrite Hop.
Qed.

(** A freshly formatted set of blank devices is a store of empty shards. *)
Lemma stored_fresh o bs n devs imgs :
  Forall2 (λ d img, dev_at d bs img) devs imgs → imgs ≠ [] → 36 ≤ bs → 1 ≤ n →
  Forall (λ img, zlen img = n ∧ blank img) imgs → 0 ≤ replica_id o →
  replica_id o + zlen devs < U32 → u32 (format_seq o) → good_pattern (free_pattern o) →
  ∃ devs' s s' ps, format o devs = (devs', Ok tt) ∧ open devs' o = Ok s ∧
    build_index s = (s', Ok tt) ∧ stored bs n 0 ps s' ∧ Forall (λ p, p.2 = ∅) ps ∧
    length ps = length devs.
Proof.
  intros Hd Hne Hbs Hn Himgs Hid Hlt Hseq Hp.
  destruct (format_devices_spec o bs devs imgs 0) as (devs' & imgs' & Hf & Hd' & Hfs);
    [done|lia| |lia|lia|done|lia|done|].
  { eapply Forall_impl; [exact Himgs|]. intros img [-> _]. done. }
  assert (Forall (λ img, (has_header bs img ∧ zlen img = n) ∧ blank img) imgs') as Hok.
  { apply Forall_lookup_2. intros i img' Hi.
    destruct (Forall2_lookup_r _ _ _ _ _ Hfs Hi) as (img & Hj & Hfm).
    eapply Forall_lookup_1 in Himgs as [Hl Hb]; [|exact Hj].
    split; [|by eapply formatted_blank]. destruct Hfm as [Hh [Hl' _]]. by rewrite Hl'. }
  apply Forall_and in Hok as [Hok Hblank].
  destruct (open_spec bs n devs' imgs' o Hd') as (s & Hop & Ho & Hm); [|done|done|].
  { intros ->. by inversion Hfs; subst. }
  destruct (build_index_mounted bs imgs' s Hm) as (rs & ps & Hrun & Hrs & Hps).
  exists devs', s, {| replicas := rs; opts := opts s |}, ps.
  assert (length ps = length devs) as Hlen.
  { by rewrite (Forall2_length _ _ _ Hd), (Forall2_length _ _ _ Hfs), (Forall2_length _ _ _ Hps). }
  assert (Forall (λ p, p.2 = ∅ ∧ clean bs p ∧ zlen p.1 = n) ps) as Hclean.
  { apply Forall_lookup_2. intros i p Hi.
    destruct (Forall2_lookup_r _ _ _ _ _ Hps Hi) as (img & Hj & <-).
    destruct (Forall2_lookup_r _ _ _ _ _ Hrs Hi) as (r & _ & Hr).
    eapply Forall_lookup_1 in Hblank; [|exact Hj]. eapply Forall_lookup_1 in Hok as [_ Hl]; [|exact Hj].
    destruct (blank_catalog bs p.1 p.2 Hblank ltac:(apply Hr)) as (He & Hs & Ht). by split_and!. }
  split_and!; [|done|done| | |done].
  { unfold format. destruct devs; [by inversion Hd; subst|done]. }
  - split_and!; [split; [done|simpl; by rewrite Ho]| |].
    + intros ->. inversion Hps; subst. by inversion Hfs; subst.
    + eapply Forall_impl; [exact Hclean|]. intros p (He & Hc & Hl). split_and!; [done|done|].
      rewrite He. intros k rec. by rewrite lookup_empty.
  - eapply Forall_impl; [exact Hclean|]. by intros p [? _].
Qed.

(** *** Every command makes a step *)

Lemma exec_shards bs n G ps s c :
  stored bs n G ps s → 36 ≤ bs → 0 ≤ G → G + 1 < U32 → command_ok bs c →
  ∃ s' r ps', exec c s = (s', r) ∧ shards_step bs c r ps ps' ∧ stored bs n (G + 1) ps' s'.
Proof.
  intros Hst Hbs HG HG1 Hc.
  assert (∀ s' ps', stored bs n G ps' s' → stored bs n (G + 1) ps' s') as Hup
    by (intros; eapply stored_mono; [|done]; lia).
  destruct c as [key|key value flags|key| | |]; unfold exec; cbn [shards_step].
  - destruct (stored_get bs n G ps s key Hst) as (s' & Hrun & Hst').
    destruct (contents ps !! key_str key) as [v|].
    + eexists s', _, ps. rewrite (bind_Ok _ _ _ _ _ Hrun). split_and!; auto.
    + eexists s', _, ps. rewrite (bind_Err _ _ _ _ _ Hrun). split_and!; auto.
  - destruct Hc as (Hk32 & Hk16 & Hv & Hfl). destruct (decide (zlen key ≤ bs - 36)) as [Hk|Hk].
    + destruct (stored_put bs n G ps s key value flags)
        as (s' & g & pre & pre' & rest & -> & Hrun & Hst' & Hab & Hpre & Hrest);
        [done|done|done|done|by apply Hk16|done|done|].
      destruct rest as [|p rest]; eexists s', _, _.
      * rewrite (bind_Ok _ _ _ _ _ Hrun).
        split_and!; [done|exists g, pre, pre', []; by split_and!|done].
      * rewrite (bind_Err _ _ _ _ _ Hrun).
        split_and!; [done|exists g, pre, pre', (p :: rest); by split_and!|done].
    + eexists s, _, ps. rewrite (bind_Err _ _ _ _ _
        (stored_put_too_long bs n G ps s key value flags Hst HG HG1 Hk32 ltac:(lia))).
      split_and!; auto.
  - destruct (stored_delete bs n G ps s key Hst) as (s' & ps' & Hrun & Hst' & Hdel).
    case_decide as Hk; eexists s', _, ps'.
    + rewrite (bind_Ok _ _ _ _ _ Hrun). split_and!; auto.
    + rewrite (bind_Err _ _ _ _ _ Hrun). split_and!; auto.
  - destruct (stored_build_index bs n G ps s Hst) as (s' & Hrun & Hst').
    eexists s', _, ps. rewrite (bind_Ok _ _ _ _ _ Hrun). split_and!; auto.
  - destruct (stored_recover bs n G ps s Hst) as (s' & ps' & Hrun & Hst' & Hps).
    eexists s', _, ps'. rewrite (bind_Ok _ _ _ _ _ Hrun). split_and!; auto.
  - destruct (stored_reopen bs n G ps s Hst Hbs) as (s' & Hrun & Hst').
    eexists s', _, ps. rewrite (bind_Ok _ _ _ _ _ Hrun). split_and!; auto.
Qed.

End Stored.
