(* ===== verification/Refinement.v ===== *)
(** * The store refines a finite map

    The abstract key-value store is a finite map with three operations.  Any
    sequence of calls on a formatted store, with recoveries, index rebuilds and
    reopenings in between, answers as the map does. *)

From S2P Require Import Prelude Errors Rust Format Crc Block Device Record Utf8 Index Replica.
From S2P Require Import Store RecordWrite Allocation Catalog Recovery ReplicaSpec StoreSpec.
From S2P Require Import Lifecycle Shards.

(** ** The abstract store *)

Abbreviation kv := (gmap (list byte) (list byte)).

(** One call on the abstract store.  A [put] that reports [StorageFull] may
    have reached some replicas, and then its value is the current one. *)
Inductive kv_step (bs : Z) (m : kv) : command → outcome reply → kv → Prop :=
| kv_get key v : m !! key_str key = Some v → kv_step bs m (CGet key) (Ok (RValue v)) m
| kv_get_none key : m !! key_str key = None → kv_step bs m (CGet key) (Err KeyNotFound) m
| kv_put key value flags :
    zlen key ≤ bs - 36 →
    kv_step bs m (CPut key value flags) (Ok RUnit) (<[key_str key := value]> m)
| kv_put_too_long key value flags :
    bs - 36 < zlen key → kv_step bs m (CPut key value flags) (Err KeyTooLong) m
| kv_put_full key value flags :
    zlen key ≤ bs - 36 → kv_step bs m (CPut key value flags) (Err StorageFull) m
| kv_put_partly key value flags :
    zlen key ≤ bs - 36 →
    kv_step bs m (CPut key value flags) (Err StorageFull) (<[key_str key := value]> m)
| kv_delete key : is_Some (m !! key_str key) →
    kv_step bs m (CDelete key) (Ok RUnit) (base.delete (key_str key) m)
| kv_delete_none key : m !! key_str key = None →
    kv_step bs m (CDelete key) (Err KeyNotFound) m
| kv_maintain c : c = CBuildIndex ∨ c = CRecover ∨ c = CReopen →
    kv_step bs m c (Ok RUnit) m.

Inductive kv_steps (bs : Z) : kv → list command → list (outcome reply) → kv → Prop :=
| kv_nil m : kv_steps bs m [] [] m
| kv_cons m c r m' cs rs m'' :
    kv_step bs m c r m' → kv_steps bs m' cs rs m'' → kv_steps bs m (c :: cs) (r :: rs) m''.

(** A step of the shards is a step of the map. *)
Lemma shards_step_kv `{Profile} bs c r ps ps' :
  ps ≠ [] → shards_step bs c r ps ps' → kv_step bs (contents ps) c r (contents ps').
Proof.
  intros Hne. destruct c as [key|key value flags|key| | |]; cbn [shards_step].
  - intros [-> Hps]. rewrite (contents_catalogs _ _ Hps).
    destruct (contents ps !! key_str key) eqn:Hk; by constructor.
  - case_decide as Hk; [|intros [-> ->]; constructor; lia].
    intros (g & pre & pre' & rest & -> & -> & Hab & Hpre & Hr).
    rewrite (put_contents key value pre pre' rest g Hab)
      by (eapply Forall2_impl; [exact Hpre|]; intros; by eapply put_on_updated).
    destruct rest as [|p rest]; [subst r|destruct Hr as [-> _]]; case_decide;
      [by subst|by constructor..].
  - intros [-> Hdel]. rewrite (delete_contents _ _ _ Hdel).
    case_decide as Hk; [by constructor|]. apply eq_None_not_Some in Hk.
    rewrite delete_id by done. by constructor.
  - intros [-> Hps]. rewrite (contents_catalogs _ _ Hps). constructor. auto.
  - intros [-> Hps]. rewrite (contents_catalogs _ _ Hps). constructor. auto.
  - intros [-> Hps]. rewrite (contents_catalogs _ _ Hps). constructor. auto.
Qed.

(** ** The representation *)

Section Represents.
Context `{Profile} `{ReliableDevice D}.
Implicit Types (s : Store D) (m : kv) (ps : list shard).

(** The store [s], with blocks of [bs] bytes, [n] of them on every replica,
    and no generation above [G], stands for the map [m]. *)
Definition represents (bs n G : Z) (s : Store D) (m : kv) : Prop :=
  ∃ ps, stored bs n G ps s ∧ contents ps = m.

Lemma represents_get bs n G s m key :
  represents bs n G s m →
  ∃ s', get key s = (s', match m !! key_str key with
                         | Some v => Ok v | None => Err KeyNotFound end) ∧
    represents bs n G s' m.
Proof.
  intros (ps & Hs & <-). destruct (stored_get bs n G ps s key Hs) as (s' & Hg & Hs').
  exists s'. split; [done|]. by exists ps.
Qed.

Lemma represents_put bs n G s m key value flags :
  represents bs n G s m → 0 ≤ G → G + 1 < U32 → zlen key ≤ bs - 36 → zlen key < U16 →
  zlen value < U32 → u32 flags →
  ∃ s' r m', put_flagged key value flags s = (s', r) ∧ represents bs n (G + 1) s' m' ∧
    (r = Ok tt ∧ m' = <[key_str key := value]> m ∨
     r = Err StorageFull ∧ (m' = m ∨ m' = <[key_str key := value]> m)).
Proof.
  intros (ps & Hs & <-) HG HG1 Hk Hk16 Hv Hfl.
  destruct (stored_put bs n G ps s key value flags Hs HG HG1 Hk Hk16 Hv Hfl)
    as (s' & g & pre & pre' & rest & -> & Hput & Hs' & Hab & Hpre & _).
  pose proof (put_contents key value pre pre' rest g Hab) as Hcont.
  eexists s', _, (contents (pre' ++ rest)). split_and!; [exact Hput|by eexists|].
  rewrite Hcont by (eapply Forall2_impl; [exact Hpre|]; intros; by eapply put_on_updated).
  destruct rest; [left; split; [done|]|right; split; [done|]]; case_decide; subst; auto.
  by destruct Hs as (_ & Hne & _).
Qed.

Lemma represents_put_too_long bs n G s m key value flags :
  represents bs n G s m → 0 ≤ G → G + 1 < U32 → zlen key < U32 → bs - 36 < zlen key →
  put_flagged key value flags s = (s, Err KeyTooLong).
Proof. intros (ps & Hs & _). by apply (stored_put_too_long bs n G ps). Qed.

Lemma represents_delete bs n G s m key :
  represents bs n G s m →
  ∃ s', delete key s =
      (s', if decide (is_Some (m !! key_str key)) then Ok tt else Err KeyNotFound) ∧
    represents bs n G s' (base.delete (key_str key) m).
Proof.
  intros (ps & Hs & <-). destruct (stored_delete bs n G ps s key Hs) as (s' & ps' & Hrun & Hs' & Hdel).
  exists s'. split; [done|]. exists ps'. split; [done|by apply delete_contents].
Qed.

(** A freshly formatted set of blank devices is the empty map. *)
Lemma represents_fresh o bs n devs imgs :
  Forall2 (λ d img, dev_at d bs img) devs imgs → imgs ≠ [] → 36 ≤ bs → 1 ≤ n →
  Forall (λ img, zlen img = n ∧ blank img) imgs → 0 ≤ replica_id o →
  replica_id o + zlen devs < U32 → u32 (format_seq o) → good_pattern (free_pattern o) →
  ∃ devs' s s', format o devs = (devs', Ok tt) ∧ open devs' o = Ok s ∧
    build_index s = (s', Ok tt) ∧ represents bs n 0 s' ∅.
Proof.
  intros Hd Hne Hbs Hn Himgs Hid Hlt Hseq Hp.
  destruct (stored_fresh o bs n devs imgs Hd Hne Hbs Hn Himgs Hid Hlt Hseq Hp)
    as (devs' & s & s' & ps & Hf & Hop & Hb & Hst & Hempty & _).
  exists devs', s, s'. split_and!; [done|done|done|]. exists ps. split; [done|].
  by apply contents_empty.
Qed.

(** *** Any sequence of commands *)

Lemma exec_step bs n G s m c :
  represents bs n G s m → 36 ≤ bs → 0 ≤ G → G + 1 < U32 → command_ok bs c →
  ∃ s' r m', exec c s = (s', r) ∧ kv_step bs m c r m' ∧ represents bs n (G + 1) s' m'.
Proof.
  intros (ps & Hs & <-) Hbs HG HG1 Hc.
  destruct (exec_shards bs n G ps s c Hs Hbs HG HG1 Hc) as (s' & r & ps' & Hrun & Hst & Hs').
  exists s', r, (contents ps'). split_and!; [done|apply shards_step_kv; [apply Hs|done]|by exists ps'].
Qed.

Lemma exec_steps bs n G s m cs :
  represents bs n G s m → 36 ≤ bs → 0 ≤ G → G + zlen cs < U32 → Forall (command_ok bs) cs →
  ∃ s' rs m', exec_all cs s = (s', rs) ∧ kv_steps bs m cs rs m' ∧
    represents bs n (G + zlen cs) s' m'.
Proof.
  intros Hrep Hbs HG HG1 Hcs. revert G s m Hrep HG HG1.
  induction Hcs as [|c cs Hc _ IH]; intros G s m Hrep HG HG1; cbn [exec_all].
  { exists s, [], m. split_and!; [done|constructor|]. by rewrite Z.add_0_r. }
  rewrite length_cons in *.
  destruct (exec_step bs n G s m c Hrep Hbs HG ltac:(lia) Hc) as (s1 & r & m1 & -> & Hst & Hrep1).
  destruct (IH (G + 1) s1 m1 Hrep1 ltac:(lia) ltac:(lia)) as (s2 & rs & m2 & -> & Hsts & Hrep2).
  exists s2, (r :: rs), m2. split_and!; [done|by econstructor|].
  by replace (G + Z.of_nat (S (length cs))) with (G + 1 + zlen cs) by lia.
Qed.

End Represents.

(** ** Properties *)

(** C1: the store is a finite map.  Format any number of working, blank devices
    of one geometry, open and index them; then any sequence of [get], [put],
    [delete], [build_index], [recover] and reopening answers, call by call, as a
    finite map from keys to values does: [get] returns the value last put under
    the key and not deleted since or [KeyNotFound], [put] and [delete] change
    only their key, maintenance changes nothing, a key too long for the block is
    refused with [KeyTooLong], and the only other error is [StorageFull].  The
    final store again represents the final map. *)
Theorem store_refines_map `{Profile} `{ReliableDevice D} o bs n (devs : list D) imgs :
  Forall2 (λ d img, dev_at d bs img) devs imgs → imgs ≠ [] → 36 ≤ bs → 1 ≤ n →
  Forall (λ img, zlen img = n ∧ blank img) imgs → 0 ≤ replica_id o →
  replica_id o + zlen devs < U32 → u32 (format_seq o) → good_pattern (free_pattern o) →
  ∃ devs' s s', format o devs = (devs', Ok tt) ∧ open devs' o = Ok s ∧
    build_index s = (s', Ok tt) ∧
    ∀ cs, Forall (command_ok bs) cs → zlen cs < U32 →
      ∃ s'' rs m, exec_all cs s' = (s'', rs) ∧ kv_steps bs ∅ cs rs m ∧
        represents bs n (zlen cs) s'' m.
Proof.
  intros Hd Hne Hbs Hn Himgs Hid Hlt Hseq Hp.
  destruct (represents_fresh o bs n devs imgs Hd Hne Hbs Hn Himgs Hid Hlt Hseq Hp)
    as (devs' & s & s' & Hf & Hop & Hb & Hrep).
  exists devs', s, s'. split_and!; [done|done|done|]. intros cs Hcs Hlen.
  by apply (exec_steps bs n 0 s' ∅ cs).
Qed.

Lemma store_refines_map_witness :
  ∃ devs' s s' s'' rs m,
    format (H := dev_profile) Options_new [MemDevice_new 64 4; MemDevice_new 64 4] = (devs', Ok tt) ∧
    open (H := dev_profile) devs' Options_new = Ok s ∧
    build_index (H := dev_profile) s = (s', Ok tt) ∧
    exec_all (H := dev_profile) [CPut [x6b] [x76] 0; CGet [x6b]; CDelete [x6b]; CGet [x6b]] s'
      = (s'', rs) ∧
    kv_steps 64 ∅ [CPut [x6b] [x76] 0; CGet [x6b]; CDelete [x6b]; CGet [x6b]] rs m.
Proof.
  pose proof (MemDevice_new_at 64 4 ltac:(lia) ltac:(lia)) as Hd.
  destruct (store_refines_map (H := dev_profile) Options_new 64 4
    [MemDevice_new 64 4; MemDevice_new 64 4]
    [replicate 4 (replicate 64 x00); replicate 4 (replicate 64 x00)])
    as (devs' & s & s' & Hf & Ho & Hb & Hrun);
    [by repeat constructor|done|lia|lia| |simpl; lia|simpl; lia|unfold u32; simpl; lia|by left|].
  - assert (blank (replicate 4 (replicate 64 x00))) as Hbl.
    { intros x Hx. assert (x = 1 ∨ x = 2 ∨ x = 3) as [->|[->| ->]] by (simpl in Hx; lia); done. }
    by repeat constructor.
  - destruct (Hrun [CPut [x6b] [x76] 0; CGet [x6b]; CDelete [x6b]; CGet [x6b]])
      as (s'' & rs & m & Hx & Hk & _); [|simpl; lia|].
    + repeat constructor; simpl; lia.
    + exists devs', s, s', s'', rs, m. by split_and!.
Defined.

(** Closing and reopening loses nothing: the devices taken out of a store
    open again, with every replica, and after indexing represent the same map. *)
Theorem reopen_preserves `{Profile} `{ReliableDevice D} (s : Store D) bs n G m :
  represents bs n G s m → 36 ≤ bs →
  ∃ s1 s2, open (into_devices s) (opts s) = Ok s1 ∧ replica_count s1 = replica_count s ∧
    build_index s1 = (s2, Ok tt) ∧ represents bs n G s2 m.
Proof.
  intros (ps & Hs & <-) Hbs.
  destruct (stored_open bs n G ps s Hs Hbs) as (s1 & s2 & Hop & Hc & Hrun & Hs2).
  exists s1, s2. split_and!; [done|done|done|]. by exists ps.
Qed.
