(* ===== verification/Journal.v ===== *)
(** * A device that remembers what it was asked to do

    [Logged D] is the device [D] with the journal of the writes and flushes
    that succeeded on it.  The operations of the store run on it unchanged,
    since they are generic in the device; this file shows which writes and
    flushes [write_record], [free_record], [recover] and [format]
    (rust/src/store.rs) issue, in which order. *)

From S2P Require Import Prelude Errors Rust Format Crc Block Device Record Utf8 Index Replica.
From S2P Require Import Store RecordWrite Allocation.

Inductive event :=
| EWrite (i : Z) (b : list byte)
| EFlush.

(** Carrying out writes in order. *)
Definition replay (img : image) (ws : list (Z * list byte)) : image :=
  foldl (λ img w, <[Z.to_nat w.1 := w.2]> img) img ws.

(** The writes of a journal. *)
Definition writes (es : list event) : list (Z * list byte) :=
  omap (λ e, match e with EWrite i b => Some (i, b) | EFlush => None end) es.

Lemma replay_app img ws1 ws2 : replay img (ws1 ++ ws2) = replay (replay img ws1) ws2.
Proof. apply foldl_app. Qed.

Lemma replay_cons img i b ws : replay img ((i, b) :: ws) = replay (<[Z.to_nat i := b]> img) ws.
Proof. done. Qed.

Lemma length_replay img ws : length (replay img ws) = length img.
Proof.
  revert img. induction ws as [|w ws IH]; intros img; [done|]. cbn.
  etransitivity; [apply IH|]. by rewrite length_insert.
Qed.

(** A block that is written at most once holds what was written. *)
Lemma replay_notin img ws x : x ∉ ws.*1 → Forall (λ w, 0 ≤ w.1 < zlen img) ws →
  block_at (replay img ws) x = block_at img x.
Proof.
  revert img. induction ws as [|[i b] ws IH]; intros img Hx Hin; [done|].
  rewrite fmap_cons, not_elem_of_cons in Hx. destruct Hx as [Hne Hx].
  apply Forall_cons in Hin as [Hi Hin]. simpl in *.
  etransitivity; [apply IH; [done|]|].
  { eapply Forall_impl; [exact Hin|]; intros w; by rewrite length_insert. }
  rewrite block_at_insert by done. by case_decide.
Qed.

Lemma replay_once img ws x b :
  NoDup ws.*1 → Forall (λ w, 0 ≤ w.1 < zlen img) ws → (x, b) ∈ ws →
  block_at (replay img ws) x = Some b.
Proof.
  revert img. induction ws as [|[i c] ws IH]; intros img Hnd Hin Hx; [by apply not_elem_of_nil in Hx|].
  rewrite fmap_cons in Hnd. apply NoDup_cons in Hnd as [Hni Hnd]. simpl in Hni.
  apply Forall_cons in Hin as [Hi Hin]. simpl in Hi.
  assert (Forall (λ w, 0 ≤ w.1 < zlen (<[Z.to_nat i := c]> img)) ws) as Hin'
    by (eapply Forall_impl; [exact Hin|]; intros w; by rewrite length_insert).
  apply elem_of_cons in Hx as [[= -> ->]|Hx]; [|by apply IH].
  rewrite replay_cons, replay_notin by done. rewrite block_at_insert by done. by case_decide.
Qed.

(** Blocks that are only ever overwritten with [c] hold [c]. *)
Lemma replay_const img ws x c :
  Forall (λ w, w.2 = c ∧ 0 ≤ w.1 < zlen img) ws → x ∈ ws.*1 →
  block_at (replay img ws) x = Some c.
Proof.
  revert img. induction ws as [|[i b] ws IH] using rev_ind; intros img Hf Hx;
    [by apply not_elem_of_nil in Hx|].
  rewrite replay_app. cbn. apply Forall_app in Hf as [Hf Hb].
  apply Forall_cons in Hb as [[Hb Hi] _]. simpl in Hb, Hi. subst b.
  rewrite block_at_insert by (by rewrite length_replay). case_decide as Heq; [done|].
  rewrite fmap_app, elem_of_app in Hx. destruct Hx as [Hx|Hx]; [by apply IH|].
  by apply list_elem_of_singleton in Hx.
Qed.

(** ** The device *)

Record Logged (D : Type) := {
  l_dev : D;
  l_base : image;
  l_log : list event;
}.
Arguments l_dev {D} _.
Arguments l_base {D} _.
Arguments l_log {D} _.

Section Device.
Context `{BlockDevice D}.

Definition l_next (d : D) (es : list event) (l : Logged D) : Logged D :=
  {| l_dev := d; l_base := l_base l; l_log := l_log l ++ es |}.

Definition Logged_write (i : Z) (b : list byte) : M (Logged D) unit := λ l,
  match write_block i b (l_dev l) with
  | (d, Ok a) => (l_next d [EWrite i b] l, Ok a)
  | (d, r) => (l_next d [] l, r)
  end.

Definition Logged_flush : M (Logged D) unit := λ l,
  match flush (l_dev l) with
  | (d, Ok a) => (l_next d [EFlush] l, Ok a)
  | (d, r) => (l_next d [] l, r)
  end.

#[export] Instance Logged_BlockDevice : BlockDevice (Logged D) := {|
  block_size l := block_size (l_dev l);
  block_count l := block_count (l_dev l);
  read_block i buf := zoom l_dev (λ d l, l_next d [] l) (read_block i buf);
  write_block := Logged_write;
  flush := Logged_flush;
  close l := close (l_dev l) |}.

(** The blocks are those the journal leaves of the initial ones. *)
#[export] Program Instance Logged_reliable `{!ReliableDevice D} : ReliableDevice (Logged D) := {|
  dev_at l bs img := dev_at (l_dev l) bs img ∧ img = replay (l_base l) (writes (l_log l)) |}.
Next Obligation. intros ? l bs img [Hd _]. exact (dev_at_geometry _ _ _ Hd). Qed.
Next Obligation.
  intros ? l bs img i b buf [Hd ->] Hi Hb Hl.
  destruct (read_ok _ _ _ i b buf Hd Hi Hb Hl) as (d' & Hr & Hd').
  exists (l_next d' [] l). simpl. unfold zoom. rewrite Hr. by rewrite app_nil_r.
Qed.
Next Obligation.
  intros ? l bs img i b [Hd ->] Hi Hl. destruct (write_ok _ _ _ i b Hd Hi Hl) as (d' & Hw & Hd').
  exists (l_next d' [EWrite i b] l). simpl. unfold Logged_write. rewrite Hw. split_and!; [done|done|].
  unfold writes. rewrite omap_app, replay_app. done.
Qed.
Next Obligation.
  intros ? l bs img [Hd ->]. destruct (flush_ok _ _ _ Hd) as (d' & Hf & Hd').
  exists (l_next d' [EFlush] l). simpl. unfold Logged_flush. rewrite Hf. split_and!; [done|done|].
  unfold writes. by rewrite omap_app, app_nil_r.
Qed.

(** ** What a computation issues *)

(** The journal of [l'] is that of [l] followed by [es]. *)
Definition extends (l l' : Logged D) (es : list event) : Prop :=
  l_base l' = l_base l ∧ l_log l' = l_log l ++ es.

Lemma extends_nil l : extends l l [].
Proof. split; [done|]. by rewrite app_nil_r. Qed.

Lemma extends_trans l l1 l2 es1 es2 :
  extends l l1 es1 → extends l1 l2 es2 → extends l l2 (es1 ++ es2).
Proof. intros [Hb1 Hl1] [Hb2 Hl2]. split; [congruence|]. by rewrite Hl2, Hl1, app_assoc. Qed.

(** When [m] succeeds, what it adds to the journal satisfies [P]. *)
Definition issues {A} (m : M (Logged D) A) (P : list event → Prop) : Prop :=
  ∀ l l' a, m l = (l', Ok a) → ∃ es, extends l l' es ∧ P es.

(** [m] adds nothing to the journal, whatever its outcome. *)
Definition quiet {A} (m : M (Logged D) A) : Prop := ∀ l, extends l (m l).1 [].

Lemma issues_mono {A} (m : M (Logged D) A) (P Q : list event → Prop) :
  issues m P → (∀ es, P es → Q es) → issues m Q.
Proof. intros Hm HPQ l l' a Hr. destruct (Hm l l' a Hr) as (es & ? & ?). eauto. Qed.

Lemma issues_bind {A B} (m : M (Logged D) A) (k : A → M (Logged D) B) P Q :
  issues m P → (∀ a, issues (k a) Q) →
  issues (m ≫= k) (λ es, ∃ es1 es2, es = es1 ++ es2 ∧ P es1 ∧ Q es2).
Proof.
  intros Hm Hk l l' b. unfold mbind, M_bind.
  destruct (m l) as [l1 [a|e| |]] eqn:E; try done. intros Hr.
  destruct (Hm _ _ _ E) as (es1 & Hl1 & HP). destruct (Hk a _ _ _ Hr) as (es2 & Hl2 & HQ).
  exists (es1 ++ es2). split; [by eapply extends_trans|]. by exists es1, es2.
Qed.

Lemma quiet_run {A} (m : M (Logged D) A) l l' o : quiet m → m l = (l', o) → extends l l' [].
Proof. intros Hm Hr. specialize (Hm l). by rewrite Hr in Hm. Qed.

Lemma issues_nil {A} (m : M (Logged D) A) (P : list event → Prop) : quiet m → P [] → issues m P.
Proof. intros Hm HP l l' a Hr. exists []. split; [by eapply quiet_run|done]. Qed.

Lemma issues_quiet {A B} (m : M (Logged D) A) (k : A → M (Logged D) B) P :
  quiet m → (∀ a, issues (k a) P) → issues (m ≫= k) P.
Proof.
  intros Hm Hk. eapply issues_mono; [apply (issues_bind m k (λ es, es = [])); [|done]|].
  - by apply issues_nil.
  - by intros es (? & ? & -> & -> & ?).
Qed.

Lemma quiet_bind {A B} (m : M (Logged D) A) (k : A → M (Logged D) B) :
  quiet m → (∀ a, quiet (k a)) → quiet (m ≫= k).
Proof.
  intros Hm Hk l. specialize (Hm l). unfold mbind, M_bind.
  destruct (m l) as [l1 [a|e| |]]; simpl in *; try done.
  exact (extends_trans _ _ _ _ _ Hm (Hk a l1)).
Qed.

Lemma quiet_ret {A} (a : A) : quiet (mret a).
Proof. intros l. apply extends_nil. Qed.

Lemma quiet_lift {A} (o : outcome A) : quiet (lift o).
Proof. intros l. apply extends_nil. Qed.

Lemma quiet_gets {A} (f : Logged D → A) : quiet (gets f).
Proof. intros l. apply extends_nil. Qed.

Lemma quiet_throw {A} e : quiet (throw (A := A) e).
Proof. intros l. apply extends_nil. Qed.

Lemma quiet_read i buf : quiet (read_block i buf).
Proof. intros l. simpl. unfold zoom. by destruct (read_block i buf (l_dev l)) as [d r]. Qed.

Lemma issues_write i b : issues (write_block i b) (λ es, es = [EWrite i b]).
Proof.
  intros l l' a. simpl. unfold Logged_write.
  destruct (write_block i b (l_dev l)) as [d [?|?| |]]; try done. intros [= <- _]. by eexists.
Qed.

Lemma issues_flush : issues flush (λ es, es = [EFlush]).
Proof.
  intros l l' a. simpl. unfold Logged_flush.
  destruct (flush (l_dev l)) as [d [?|?| |]]; try done. intros [= <- _]. by eexists.
Qed.

End Device.

Lemma issues_lift {D A B} `{BlockDevice D} (o : outcome A) (k : A → M (Logged D) B) P :
  (∀ a, o = Ok a → issues (k a) P) → issues (lift o ≫= k) P.
Proof.
  intros Hk l l' b. unfold mbind, M_bind, lift. destruct o as [a|e| |]; try done. by apply Hk.
Qed.

(** The links of a header are unsigned, whatever the buffer. *)
Lemma get_u32_nonneg buf i z : get_u32 buf i = Ok z → 0 ≤ z.
Proof.
  unfold get_u32. intros (b0 & _ & (b1 & _ & (b2 & _ & (b3 & _ & [= <-])%outcome_bind_inv)
    %outcome_bind_inv)%outcome_bind_inv)%outcome_bind_inv.
  exact (proj1 (from_le_bytes_range [b0; b1; b2; b3])).
Qed.

Lemma chunk_next_nonneg `{Profile} buf ch ok :
  unmarshal_chunk_header buf = Ok (ch, ok) → 0 ≤ ch_next_chunk ch.
Proof.
  unfold unmarshal_chunk_header. intros Hu.
  repeat (apply outcome_bind_inv in Hu as (? & ? & Hu)). injection Hu as <- _.
  by eapply get_u32_nonneg.
Qed.

Lemma descriptor_next_nonneg `{Profile} buf hdr ok :
  unmarshal_descriptor_header buf = Ok (hdr, ok) → 0 ≤ dh_next_chunk hdr.
Proof.
  unfold unmarshal_descriptor_header. intros Hu.
  repeat (apply outcome_bind_inv in Hu as (? & ? & Hu)). injection Hu as <- _.
  by eapply get_u32_nonneg.
Qed.

(** Discharge a computation that only reads. *)
Create HintDb quiet discriminated.
#[export] Hint Resolve quiet_ret quiet_lift quiet_gets quiet_throw quiet_read : quiet.
Ltac quietly :=
  repeat first
    [ solve [eauto with quiet]
    | match goal with
      | |- quiet (_ ≫= _) => apply quiet_bind; [solve [eauto with quiet]|intros ?]
      | |- quiet (if ?c then _ else _) => destruct c
      | |- quiet (match ?x with _ => _ end) => destruct x
      end ].

Section Code.
Context `{Profile} `{BlockDevice D}.

(** The journal of writing [bl] in order. *)
Definition writes_in_order (bl : list Z) (es : list event) : Prop :=
  ∃ bufs, length bufs = length bl ∧ es = zip_with EWrite bl bufs.

(** A journal of erasures only, within a device of [bc] blocks. *)
Definition erasures (free : list byte) (bc : Z) (es : list event) : Prop :=
  Forall (λ e, ∃ i, e = EWrite i free ∧ 0 ≤ i < bc) es.

Lemma free_scan_quiet n indices buf result :
  quiet (free_scan (D := Logged D) n indices buf result).
Proof.
  revert buf result. induction indices as [|i indices IH]; intros buf result; cbn [free_scan];
    quietly; apply IH.
Qed.

Lemma find_free_blocks_quiet n : quiet (find_free_blocks (D := Logged D) n).
Proof.
  unfold find_free_blocks. quietly. apply quiet_bind; [apply free_scan_quiet|intros ?]. quietly.
Qed.

Lemma write_chunks_issues bs cap db chunks ci rest remaining :
  issues (write_chunks (D := Logged D) bs cap db chunks ci rest remaining) (writes_in_order rest).
Proof.
  revert ci remaining. induction rest as [|i rest IH]; intros ci remaining; cbn [write_chunks].
  { apply issues_nil; [apply quiet_ret|]. by exists []. }
  apply issues_quiet; [apply quiet_lift|intros nx]. apply issues_quiet; [apply quiet_lift|intros cb].
  eapply issues_mono; [apply issues_bind; [apply issues_write|intros _]|].
  { apply issues_quiet; [apply quiet_lift|intros rem]. apply IH. }
  intros es (es1 & es2 & -> & -> & bufs & Hl & ->). exists (cb :: bufs). simpl. by rewrite Hl.
Qed.

Lemma write_record_issues db chunks key generation value flags :
  issues (write_record (D := Logged D) db chunks key generation value flags)
    (writes_in_order (db :: chunks)).
Proof.
  unfold write_record. do 5 (apply issues_quiet; [solve [eauto with quiet]|intros ?]).
  apply issues_quiet; [apply quiet_lift|intros b].
  eapply issues_mono; [apply issues_bind; [apply issues_write|intros _]|].
  { apply issues_quiet; [apply quiet_lift|intros rem]. apply write_chunks_issues. }
  intros es (es1 & es2 & -> & -> & bufs & Hl & ->). exists (b :: bufs). simpl. by rewrite Hl.
Qed.

Lemma erasures_nil free bc {A} (m : M (Logged D) A) : quiet m → issues m (erasures free bc).
Proof. intros Hq. apply issues_nil; [done|constructor]. Qed.

Lemma free_chunks_issues fuel bc free next visited cbuf :
  0 ≤ next →
  issues (free_chunks (D := Logged D) fuel bc free next visited cbuf) (erasures free bc).
Proof.
  revert next visited cbuf. induction fuel as [|fuel IH]; intros next visited cbuf Hn;
    cbn [free_chunks]; [intros l l' a; discriminate|].
  destruct (next =? NULL_BLOCK_INDEX); cbn [orb]; [apply erasures_nil, quiet_ret|].
  destruct (bc <=? next) eqn:E; zbool; [apply erasures_nil, quiet_ret|].
  case_bool_decide; [apply erasures_nil, quiet_ret|].
  apply issues_quiet; [apply quiet_read|intros b]. apply issues_lift. intros [ch ok] Hu.
  destruct ok; cbn [negb]; [|apply erasures_nil, quiet_ret].
  eapply issues_mono; [apply issues_bind; [apply issues_write|intros _; apply IH]|].
  { by eapply chunk_next_nonneg. }
  intros es (es1 & es2 & -> & -> & He). constructor; [|done]. by exists next.
Qed.

Lemma free_record_issues i pattern bs bc l l' a :
  block_size l = bs → block_count l = bc → 0 ≤ i < bc →
  free_record (D := Logged D) i pattern l = (l', Ok a) →
  ∃ es, extends l l' es ∧ erasures (make_free_buf bs pattern) bc es.
Proof.
  intros Hbs Hbc Hi. unfold free_record. rewrite !bind_gets, Hbs, Hbc. revert l l' a Hbs Hbc.
  enough (issues (buf ← read_block i (replicate (Z.to_nat bs) x00);
    '(hdr, ok) ← lift (unmarshal_descriptor_header buf);
    if negb ok then throw CrcMismatch else
    write_block i (make_free_buf bs pattern);;
    free_chunks (D := Logged D) (chunk_fuel bc) bc (make_free_buf bs pattern) (dh_next_chunk hdr) ∅
      (replicate (Z.to_nat bs) x00)) (erasures (make_free_buf bs pattern) bc)) as Hiss
    by (intros l l' a _ _; apply Hiss).
  apply issues_quiet; [apply quiet_read|intros b]. apply issues_lift. intros [hdr ok] Hu.
  destruct ok; cbn [negb]; [|apply erasures_nil, quiet_throw].
  eapply issues_mono; [apply issues_bind; [apply issues_write|intros _; apply free_chunks_issues]|].
  { by eapply descriptor_next_nonneg. }
  intros es (es1 & es2 & -> & -> & He). constructor; [|done]. by exists i.
Qed.

(** *** The scans of recovery *)

Lemma read_chunks_quiet fuel bs owner next idx visited cbuf value chunks :
  quiet (read_chunks (D := Logged D) fuel bs owner next idx visited cbuf value chunks).
Proof.
  revert next idx visited cbuf value chunks.
  induction fuel as [|fuel IH]; intros next idx visited cbuf value chunks; cbn [read_chunks];
    quietly; apply IH.
Qed.

Lemma verify_quiet i : quiet (verify_and_read_record (D := Logged D) i).
Proof.
  unfold verify_and_read_record, finish_record. quietly.
  apply quiet_bind; [apply read_chunks_quiet|intros ?]. quietly.
Qed.

Lemma recover_scan_quiet indices acc :
  quiet (for_fold (recover_scan (D := Logged D)) indices acc).
Proof.
  revert acc. induction indices as [|i indices IH]; intros acc; cbn [for_fold]; [apply quiet_ret|].
  apply quiet_bind; [|intros ?; apply IH]. unfold recover_scan. destruct acc as [buf best].
  quietly. apply quiet_bind; [apply verify_quiet|intros ?]. quietly.
Qed.

Lemma recover_erase_issues valid free indices acc :
  issues (for_fold (recover_erase (D := Logged D) valid free) indices acc)
    (Forall (λ e, ∃ i, e = EWrite i free ∧ i ∈ indices ∧ i ∉ valid)).
Proof.
  revert acc. induction indices as [|i indices IH]; intros acc; cbn [for_fold].
  { apply issues_nil; [apply quiet_ret|done]. }
  eapply issues_mono; [eapply (issues_bind _ _ (Forall (λ e, e = EWrite i free ∧ i ∉ valid)));
    [|intros ?; apply IH]|].
  - unfold recover_erase. destruct acc as [buf g]. case_bool_decide as Hv.
    { apply issues_nil; [apply quiet_ret|done]. }
    apply issues_quiet; [apply quiet_read|intros b]. apply issues_quiet; [apply quiet_lift|intros t].
    destruct (_ || _). { apply issues_nil; [apply quiet_ret|done]. }
    eapply issues_mono; [apply issues_bind; [apply issues_write|intros _]|].
    { apply (issues_nil _ (λ es, es = [])); [apply quiet_ret|done]. }
    intros es (es1 & es2 & -> & -> & ->). by repeat constructor.
  - intros es (es1 & es2 & -> & H1 & H2). apply Forall_app. split.
    + eapply Forall_impl; [exact H1|]. intros e [-> Hv]. exists i. split_and!; [done|left|done].
    + eapply Forall_impl; [exact H2|]. intros e (j & -> & Hj & Hv). exists j.
      split_and!; [done|by right|done].
Qed.

(** The sweep reports no garbage only when it wrote nothing. *)
Lemma recover_erase_step valid free i buf g (l l' : Logged D) buf' g' :
  recover_erase valid free i (buf, g) l = (l', Ok (buf', g')) →
  g' = true ∨ g' = g ∧ extends l l' [].
Proof.
  unfold recover_erase. case_bool_decide.
  { intros [= <- _ <-]. right. split; [done|apply extends_nil]. }
  unfold mbind, M_bind. pose proof (quiet_read i buf l) as Hq.
  destruct (read_block i buf l) as [l1 [b|e| |]]; try done.
  unfold lift at 1. destruct (get_u8 b 0) as [t|e| |]; try done.
  destruct (_ || _); [intros [= <- _ <-]; by right|].
  destruct (write_block i free l1) as [l2 [u|e| |]]; try done. intros [= <- _ <-]. by left.
Qed.

Lemma recover_erase_clean valid free indices buf g (l l' : Logged D) buf' :
  for_fold (recover_erase valid free) indices (buf, g) l = (l', Ok (buf', false)) →
  g = false ∧ extends l l' [].
Proof.
  revert buf g l. induction indices as [|i indices IH]; intros buf g l; cbn [for_fold].
  { intros [= <- _ ->]. split; [done|apply extends_nil]. }
  unfold mbind at 1, M_bind at 1.
  destruct (recover_erase valid free i (buf, g) l) as [l1 [[buf1 g1]|e| |]] eqn:E; try done.
  intros Hrun. apply IH in Hrun as [-> Hx].
  apply recover_erase_step in E as [?|[<- Hx1]]; [done|].
  split; [done|exact (extends_trans _ _ _ _ _ Hx1 Hx)].
Qed.

(** [format] ends with a flush. *)
Lemma format_device_issues o i :
  issues (format_device (D := Logged D) o i) (λ es, ∃ es', es = es' ++ [EFlush]).
Proof.
  unfold format_device. apply issues_quiet; [apply quiet_gets|intros bs].
  destruct (bs <? _); [by intros l l' a|]. do 4 (apply issues_quiet; [solve [eauto with quiet]|intros ?]).
  eapply issues_mono; [apply issues_bind; [apply issues_write|intros _; apply issues_flush]|].
  intros es (es1 & es2 & -> & _ & ->). by exists es1.
Qed.

End Code.
