(* ===== verification/Crash.v ===== *)
(** * Power loss

    The store never updates a record in place: [put] writes the new record to
    free blocks, flushes, and only then erases the old one.  This file models
    a power loss at any point of the sequence of writes and flushes an
    operation issues, with any of the writes since the last flush lost or
    torn, and shows that each key is left with its old or its new record, and
    that every operation ends with nothing in flight. *)

From S2P Require Import Prelude Errors Rust Format Crc Block Device Record Utf8 Index Replica.
From S2P Require Import Store RecordWrite Allocation Catalog Recovery ReplicaSpec StoreSpec.
From S2P Require Import Lifecycle Journal.

(** ** Writes in flight *)

(** The durable blocks and the writes since the last flush. *)
Fixpoint settle (img : image) (pending : list (Z * list byte)) (es : list event) :
    image * list (Z * list byte) :=
  match es with
  | [] => (img, pending)
  | EWrite i b :: es => settle img (pending ++ [(i, b)]) es
  | EFlush :: es => settle (replay img pending) [] es
  end.

(** What a block may hold after a power loss: its durable contents, a pending
    write, or a torn pending write, which the CRC exposes. *)
Definition survives (bs : Z) (img : image) (pending : list (Z * list byte)) (img' : image) : Prop :=
  length img' = length img ∧
  ∀ x, block_at img' x = block_at img x ∨
    ∃ b, (x, b) ∈ pending ∧
      (block_at img' x = Some b ∨
       ∃ torn, block_at img' x = Some torn ∧ zlen torn = bs ∧ crc_valid torn = false).

(** The images a power loss during the events [es] may leave. *)
Definition crash_image (bs : Z) (img : image) (es : list event) (img' : image) : Prop :=
  ∃ before, before `prefix_of` es ∧
    let '(durable, pending) := settle img [] before in survives bs durable pending img'.

(** A journal that leaves nothing in flight, if nothing was before. *)
Definition flushed (es : list event) : Prop := es = [] ∨ ∃ es', es = es' ++ [EFlush].

(** ** Dead blocks *)

(** A dead block belongs to no complete record. *)
Definition dead (b : list byte) : Prop := free_marked b = true ∨ crc_valid b = false.

Lemma complete_not_dead bs img d rec x b :
  complete bs img d rec → x ∈ record_blocks rec → block_at img x = Some b → ¬ dead b.
Proof.
  intros Hc Hx Hb [Hf|Hcrc].
  { pose proof (complete_not_free _ _ _ _ _ _ Hc Hx Hb). congruence. }
  destruct Hc as (b0 & bl & pl & Hb0 & Hd & Hch & _ & _ & ->).
  unfold record_blocks in Hx. simpl in Hx. apply elem_of_cons in Hx as [->|Hx].
  - rewrite Hb in Hb0. injection Hb0 as <-. destruct Hd as (_ & ? & _). congruence.
  - destruct (chain_elem _ _ _ _ _ _ _ _ Hch Hx) as (b' & idx & Hb' & _ & _ & ? & _). congruence.
Qed.

(** [img'] is [img] with some blocks, all in [W], replaced by dead ones. *)
Definition decays (W : Z → Prop) (img img' : image) : Prop :=
  length img' = length img ∧
  ∀ x, block_at img' x = block_at img x ∨
    W x ∧ ∃ b, block_at img' x = Some b ∧ dead b.

(** Decay creates no record and keeps the records it does not touch. *)
Lemma decays_complete bs W img img' d r :
  decays W img img' → complete bs img' d r → complete bs img d r.
Proof.
  intros [Hl Hat] Hc. eapply complete_frame; [exact Hc|]. intros x Hx.
  destruct (Hat x) as [->|(_ & b & Hb & Hdead)]; [done|].
  by destruct (complete_not_dead _ _ _ _ _ _ Hc Hx Hb).
Qed.

Lemma decays_keep bs W img img' d r :
  decays W img img' → (∀ x, x ∈ record_blocks r → ¬ W x) → complete bs img d r →
  complete bs img' d r.
Proof.
  intros [Hl Hat] Hout Hc. eapply complete_frame; [exact Hc|]. intros x Hx.
  destruct (Hat x) as [->|(HW & _)]; [done|]. by destruct (Hout x).
Qed.

(** When only one record is touched, the others all remain. *)
Lemma decays_candidate bs W img img' rec k r :
  decays W img img' → complete bs img (cr_descriptor_block rec) rec →
  (∀ x, W x → x ∈ record_blocks rec ∨ is_free img x = true) →
  (candidate bs img' (zlen img') k r → candidate bs img (zlen img) k r) ∧
  (r ≠ rec → candidate bs img (zlen img) k r → candidate bs img' (zlen img') k r).
Proof.
  intros Hdec Hrec HW. pose proof Hdec as [Hl _]. unfold candidate. rewrite Hl. split.
  - intros (Hc & Hr & Hk). split_and!; [by eapply decays_complete|lia|lia|done].
  - intros Hne (Hc & Hr & Hk). split_and!; [|lia|lia|done].
    eapply decays_keep; [exact Hdec| |exact Hc]. intros x Hx Hwx.
    destruct (HW x Hwx) as [Hin|Hfree].
    + apply Hne. assert (cr_descriptor_block r = cr_descriptor_block rec) as Heq
        by (by eapply complete_disjoint).
      rewrite Heq in Hc. by eapply complete_functional.
    + by apply (free_not_record _ _ _ _ _ Hc Hfree).
Qed.

(** ** The catalog after decay *)

Section Decay.
Context (bs : Z).
Implicit Types (img : image) (rec : CompleteRecord) (best : records).

(** Fewer records, but all the newest ones: the same catalog. *)
Lemma catalog_sub img img' best :
  catalog bs img best →
  (∀ k r, candidate bs img' (zlen img') k r → candidate bs img (zlen img) k r) →
  (∀ k r, best !! k = Some r → candidate bs img' (zlen img') k r) →
  catalog bs img' best.
Proof.
  intros Hc Hsub Hkeep k. specialize (Hc k). destruct (best !! k) as [r|] eqn:Hk.
  - destruct Hc as [_ Hmax]. split; [by apply Hkeep|]. intros r' Hr'. by apply Hmax, Hsub.
  - intros r Hr. by destruct (Hc r), (Hsub k r Hr).
Qed.

(** A decayed record is still there or it is not. *)
Lemma decays_decide W img img' d rec :
  decays W img img' → complete bs img d rec → complete bs img' d rec ∨ ¬ complete bs img' d rec.
Proof.
  intros [_ Hat] Hc.
  destruct (decide (Forall (λ x, block_at img' x = block_at img x) (record_blocks rec))) as [Hf|Hf].
  - left. eapply complete_frame; [exact Hc|]. by apply Forall_forall.
  - right. intros Hc'. apply Hf, Forall_forall. intros x Hx.
    destruct (Hat x) as [?|(_ & b & Hb & Hdead)]; [done|].
    by destruct (complete_not_dead _ _ _ _ _ _ Hc' Hx Hb).
Qed.

Lemma candidate_own img rec k :
  candidate bs img (zlen img) k rec → complete bs img (cr_descriptor_block rec) rec.
Proof. by intros []. Qed.

(** While the new record is being written: all or nothing. *)
Lemma decay_new rec img img1 img' best :
  catalog bs img best → adds bs rec img img1 →
  (∀ old, best !! key_str (cr_key rec) = Some old → cr_generation old < cr_generation rec) →
  decays (.∈ record_blocks rec) img1 img' →
  catalog bs img' best ∨ catalog bs img' (<[key_str (cr_key rec) := rec]> best).
Proof.
  intros Hcat Ha Hgen Hdec. pose proof Ha as (_ & Hnew & _).
  pose proof (catalog_adds _ _ _ _ _ Hcat Ha Hgen) as Hcat1.
  pose proof (λ k r, decays_candidate bs _ img1 img' rec k r Hdec Hnew (λ x Hx, or_introl Hx))
    as Hcand.
  destruct (decays_decide _ _ _ _ _ Hdec Hnew) as [Hin|Hout].
  - right. eapply catalog_sub; [exact Hcat1|intros k r; apply Hcand|].
    intros k r Hk. apply (catalog_candidate _ _ _ _ _ Hcat1) in Hk as Hc.
    destruct Hc as (Hc & Hr & Hkey). split_and!; [|lia|rewrite (proj1 Hdec); lia|done].
    destruct (decide (r = rec)) as [->|Hne]; [done|]. by apply (Hcand k r).
  - left. assert (∀ k r, candidate bs img' (zlen img') k r → r ≠ rec) as Hne.
    { intros k r Hr ->. by apply Hout, (candidate_own _ _ k). }
    eapply catalog_sub; [exact Hcat| |].
    + intros k r Hr. pose proof (Hne _ _ Hr). apply Hcand in Hr.
      apply (adds_candidate _ _ _ _ _ _ Ha) in Hr as [[? _]|?]; done.
    + intros k r Hk. apply Hcand.
      * intros ->. destruct (catalog_complete _ _ _ _ _ Hcat Hk) as (_ & _ & <-).
        specialize (Hgen _ Hk). lia.
      * apply (adds_candidate _ _ _ _ _ _ Ha). right. by eapply catalog_candidate.
Qed.

(** While a replaced record is being erased: no effect on the catalog. *)
Lemma decay_old W old img img' best :
  catalog bs img best → complete bs img (cr_descriptor_block old) old →
  best !! key_str (cr_key old) ≠ Some old →
  (∀ x, W x → x ∈ record_blocks old ∨ is_free img x = true) → decays W img img' →
  catalog bs img' best.
Proof.
  intros Hcat Hold Hne HW Hdec.
  pose proof (λ k r, decays_candidate bs W img img' old k r Hdec Hold HW) as Hcand.
  eapply catalog_sub; [exact Hcat|intros k r; apply Hcand|].
  intros k r Hk. apply Hcand; [|by eapply catalog_candidate].
  intros ->. destruct (catalog_complete _ _ _ _ _ Hcat Hk) as (_ & _ & <-). done.
Qed.

(** While the only record of a key is being erased: all or nothing. *)
Lemma decay_only W k rec img img' best :
  catalog bs img best → best !! k = Some rec →
  (∀ r, candidate bs img (zlen img) k r → r = rec) →
  (∀ x, W x → x ∈ record_blocks rec ∨ is_free img x = true) → decays W img img' →
  catalog bs img' best ∨ catalog bs img' (base.delete k best).
Proof.
  intros Hcat Hk Honly HW Hdec. destruct (catalog_complete _ _ _ _ _ Hcat Hk) as (Hrec & Hr & Hkey).
  pose proof (λ k r, decays_candidate bs W img img' rec k r Hdec Hrec HW) as Hcand.
  destruct (decays_decide _ _ _ _ _ Hdec Hrec) as [Hin|Hout].
  - left. eapply catalog_sub; [exact Hcat|intros k' r; apply Hcand|].
    intros k' r Hk'. destruct (decide (r = rec)) as [->|Hne].
    + destruct (catalog_complete _ _ _ _ _ Hcat Hk') as (_ & _ & Hkey').
      split_and!; [done|lia|rewrite (proj1 Hdec); lia|done].
    + apply Hcand; [done|]. by eapply catalog_candidate.
  - right. intros k'. destruct (decide (k = k')) as [<-|Hne].
    + rewrite lookup_delete_eq. intros r Hr'. apply Hout.
      assert (r = rec) as -> by (by apply Honly, Hcand). by apply (candidate_own _ _ k).
    + rewrite lookup_delete_ne by done. specialize (Hcat k').
      destruct (best !! k') as [r|] eqn:Hk'.
      * destruct Hcat as [Hc Hmax]. split.
        { apply Hcand; [|done]. intros ->. destruct Hc as (_ & _ & ?). congruence. }
        intros r' Hr'. by apply Hmax, Hcand.
      * intros r Hr'. apply (Hcat r). by apply Hcand.
Qed.

End Decay.

(** ** Where a power loss may fall *)

Section Points.
Context (bs : Z).
Implicit Types (img : image) (es ws : list event).

Definition is_write (e : event) : Prop := match e with EWrite _ _ => True | EFlush => False end.

Lemma settle_writes img pending ws :
  Forall is_write ws → settle img pending ws = (img, pending ++ writes ws).
Proof.
  intros Hw. revert pending. induction Hw as [|e ws He _ IH]; intros pending; cbn [settle].
  { by rewrite app_nil_r. }
  destruct e as [i b|]; [|done]. rewrite IH, <- app_assoc. done.
Qed.

Lemma settle_app img pending es1 es2 :
  settle img pending (es1 ++ es2) =
  settle (settle img pending es1).1 (settle img pending es1).2 es2.
Proof.
  revert img pending. induction es1 as [|[i b|] es1 IH]; intros img pending; [done|..];
    cbn [settle app]; apply IH.
Qed.

Lemma prefix_app_inv (before es1 es2 : list event) :
  before `prefix_of` es1 ++ es2 →
  before `prefix_of` es1 ∨ ∃ rest, before = es1 ++ rest ∧ rest `prefix_of` es2.
Proof.
  revert before. induction es1 as [|e es1 IH]; intros before Hp; [right; by exists before|].
  destruct before as [|e' before]; [left; apply prefix_nil|].
  apply prefix_cons_inv_1 in Hp as Heq. apply prefix_cons_inv_2 in Hp. subst.
  destruct (IH _ Hp) as [?|(rest & -> & ?)]; [left; by apply prefix_cons|right; by exists rest].
Qed.

Lemma survives_prefix img before ws img' :
  before `prefix_of` ws → Forall is_write ws →
  (let '(durable, pending) := settle img [] before in survives bs durable pending img') →
  survives bs img (writes ws) img'.
Proof.
  intros [more ->] Hw Hs. apply Forall_app in Hw as [Hw _].
  rewrite settle_writes in Hs by done. destruct Hs as [Hl Hat]. split; [done|].
  intros x. destruct (Hat x) as [?|(b & Hb & Hx)]; [by left|]. right. exists b. split; [|done].
  unfold writes. rewrite omap_app, elem_of_app. by left.
Qed.

(** Either the flush that follows the writes [ws] was not reached, and some of
    them are lost or torn, or it was, and they are durable. *)
Lemma crash_at_flush img ws tail img' :
  Forall is_write ws → crash_image bs img (ws ++ EFlush :: tail) img' →
  survives bs img (writes ws) img' ∨ crash_image bs (replay img (writes ws)) tail img'.
Proof.
  intros Hw (before & Hp & Hs). apply prefix_app_inv in Hp as [Hp|(rest & -> & Hp)].
  - left. by eapply survives_prefix.
  - rewrite settle_app, (settle_writes img [] ws Hw) in Hs. simpl in Hs.
    destruct rest as [|e rest].
    { left. exact Hs. }
    apply prefix_cons_inv_1 in Hp as Heq. apply prefix_cons_inv_2 in Hp. subst. right.
    by exists rest.
Qed.

(** Without a further event nothing more can be lost. *)
Lemma crash_idle img img' : crash_image bs img [] img' → img' = img.
Proof.
  intros (before & ->%prefix_nil_inv & [Hl Hat]). apply list_eq. intros i.
  destruct (Hat (Z.of_nat i)) as [Hx|(b & Hb & _)]; [|by apply not_elem_of_nil in Hb].
  unfold block_at in Hx. by rewrite (proj2 (Z.ltb_ge _ _)), Nat2Z.id in Hx by lia.
Qed.

(** *** Writing a new record *)

Lemma writes_zip bl bufs :
  length bufs = length bl → writes (zip_with EWrite bl bufs) = zip bl bufs.
Proof.
  revert bufs. induction bl as [|i bl IH]; intros [|b bufs] Hl; try done. cbn.
  f_equal. apply IH. simpl in Hl. lia.
Qed.

Lemma is_write_zip bl bufs : Forall is_write (zip_with EWrite bl bufs).
Proof. revert bufs. induction bl as [|i bl IH]; intros [|b bufs]; constructor; done || apply IH. Qed.

(** Losing or tearing writes to free blocks is decay of the finished image. *)
Lemma survives_new bl img ws img' :
  NoDup bl → (∀ x, x ∈ bl → 1 ≤ x < zlen img ∧ is_free img x = true) →
  writes_in_order bl ws → survives bs img (writes ws) img' →
  decays (.∈ bl) (replay img (writes ws)) img'.
Proof.
  intros Hnd Hfree (bufs & Hlen & ->). rewrite writes_zip by done.
  assert ((zip bl bufs).*1 = bl) as Hfst by (apply fst_zip; lia).
  assert (Forall (λ w : Z * list byte, 0 ≤ w.1 < zlen img) (zip bl bufs)) as Hin.
  { apply Forall_forall. intros [x b] Hx. apply (list_elem_of_fmap_2 fst) in Hx.
    rewrite Hfst in Hx. simpl in *. specialize (Hfree x Hx). lia. }
  intros [Hl Hat]. split; [by rewrite length_replay|]. intros x.
  destruct (Hat x) as [Hold|(b & Hb & [Hnew|(torn & Ht & _ & Hcrc)])].
  - rewrite Hold. destruct (decide (x ∈ bl)) as [Hx|Hx].
    + right. split; [done|]. destruct (Hfree x Hx) as [_ Hf]. unfold is_free in Hf.
      destruct (block_at img x) as [c|]; [|done]. exists c. split; [done|by left].
    + left. rewrite replay_notin; [done|by rewrite Hfst|done].
  - left. rewrite Hnew. symmetry. apply replay_once; [by rewrite Hfst|done|done].
  - right. split; [|exists torn; split; [done|by right]].
    apply (list_elem_of_fmap_2 fst) in Hb. by rewrite Hfst in Hb.
Qed.

(** *** Erasing a record *)

Lemma writes_erasures free bc es x b :
  erasures free bc es → (x, b) ∈ writes es → b = free ∧ 0 ≤ x < bc.
Proof.
  intros He Hx. unfold writes in Hx. apply list_elem_of_omap in Hx as (e & Hin & Hsome).
  unfold erasures in He. rewrite Forall_forall in He. destruct (He _ Hin) as (i & -> & Hi).
  by injection Hsome as -> ->.
Qed.

Lemma is_write_erasures free bc es : erasures free bc es → Forall is_write es.
Proof. intros He. eapply Forall_impl; [exact He|]. by intros e (i & -> & _). Qed.

(** The block written by an erasure was in use by the record or free. *)
Lemma erasures_range img img2 pattern bl es x b :
  good_pattern pattern → 0 < bs → img2 = replay img (writes es) →
  erased bs pattern bl img img2 → erasures (make_free_buf bs pattern) (zlen img) es →
  (x, b) ∈ writes es → x ∈ bl ∨ is_free img x = true.
Proof.
  intros Hp Hbs -> [[_ Hun] _] He Hx. destruct (decide (x ∈ bl)) as [?|Hno]; [by left|]. right.
  unfold is_free. rewrite <- (Hun x Hno), (replay_const _ _ _ (make_free_buf bs pattern)).
  - by apply free_buf_marked.
  - apply Forall_forall. intros [y c] Hy. by eapply writes_erasures in Hy.
  - by apply (list_elem_of_fmap_2 fst) in Hx.
Qed.

Lemma survives_erase img pattern es img' :
  good_pattern pattern → 0 < bs → erasures (make_free_buf bs pattern) (zlen img) es →
  survives bs img (writes es) img' → decays (λ x, ∃ b, (x, b) ∈ writes es) img img'.
Proof.
  intros Hp Hbs He [Hl Hat]. split; [done|]. intros x.
  destruct (Hat x) as [?|(b & Hb & Hx)]; [by left|]. right. split; [by exists b|].
  destruct Hx as [Hx|(torn & Hx & _ & Hcrc)]; [|exists torn; split; [done|by right]].
  exists b. split; [done|]. left. eapply writes_erasures in Hb as [-> _]; [|exact He].
  by apply free_buf_marked.
Qed.

End Points.

(** ** Power loss during the operations of a replica *)

Section Operations.
Context `{Profile} `{ReliableDevice D}.
Implicit Types (r : Replica (Logged D)) (l : Logged D) (img : image) (best : records).

(** The blocks of a journaled device, from its journal. *)
Lemma logged_image l l' bs img img' es :
  dev_at l bs img → dev_at l' bs img' → extends l l' es → img' = replay img (writes es).
Proof.
  intros [_ Hi] [_ Hi'] [Hb Hlog]. unfold writes in *.
  by rewrite Hi', Hb, Hlog, omap_app, replay_app, <- Hi.
Qed.

Lemma writes_flush es : writes (es ++ [EFlush]) = writes es.
Proof. unfold writes. by rewrite omap_app, app_nil_r. Qed.

(** The header outlives decay. *)
Lemma decays_header bs W img img' :
  has_header bs img → decays W img img' → ¬ W 0 → has_header bs img'.
Proof.
  intros Hh [Hl Hat] H0'. eapply has_header_eq; [|done|done].
  destruct (Hat 0) as [?|[? _]]; done.
Qed.

Lemma header_not_free bs img : has_header bs img → is_free img 0 = false.
Proof.
  intros (b & Hb & Ht & _). unfold is_free, free_marked. by rewrite Hb, Ht.
Qed.

Lemma flushed_app es1 es2 : flushed es1 → flushed es2 → flushed (es1 ++ es2).
Proof.
  intros H1' [->|(es & ->)]; [by rewrite app_nil_r|]. right. exists (es1 ++ es). by rewrite app_assoc.
Qed.

(** Erasing a record and flushing. *)
Lemma free_crash bs img pattern d d1 d' rec img2 :
  dev_at d bs img → good_pattern pattern → complete bs img (cr_descriptor_block rec) rec →
  free_record (cr_descriptor_block rec) pattern d = (d1, Ok tt) → flush d1 = (d', Ok tt) →
  dev_at d' bs img2 → erased bs pattern (record_blocks rec) img img2 →
  ∃ es W, extends d d' es ∧ (∀ x, W x → x ∈ record_blocks rec ∨ is_free img x = true) ∧
    flushed es ∧ ∀ img', crash_image bs img es img' → decays W img img' ∨ img' = img2.
Proof.
  intros Hd Hp Hrec Hfr Hfl Hd' He.
  pose proof (dev_at_geometry _ _ _ Hd) as (Hbs & Hbc & Hbs32 & _).
  assert (0 ≤ cr_descriptor_block rec < zlen img) as Hr.
  { destruct Hrec as (b & _ & _ & Hb & _). by apply block_at_range in Hb. }
  destruct (free_record_issues _ _ _ _ _ _ _ Hbs Hbc Hr Hfr) as (es & Hext & Hes).
  destruct (issues_flush _ _ _ Hfl) as (es2 & Hext2 & ->).
  pose proof (extends_trans _ _ _ _ _ Hext Hext2) as Hall.
  pose proof (logged_image _ _ _ _ _ _ Hd Hd' Hall) as Himg. rewrite writes_flush in Himg.
  exists (es ++ [EFlush]), (λ x, ∃ b, (x, b) ∈ writes es). split_and!; [done|..].
  - intros x [b Hx]. eapply erasures_range; [exact Hp| |exact Himg|exact He|exact Hes|exact Hx]. lia.
  - right. by exists es.
  - intros img' Hc. apply crash_at_flush in Hc as [Hs|Hc]; [| |by eapply is_write_erasures].
    + left. eapply survives_erase; [exact Hp| |exact Hes|exact Hs]. lia.
    + right. rewrite Himg. by eapply crash_idle.
Qed.

(** The header while a new record is being added, and once it is. *)
Lemma adds_header bs rec img img1 : adds bs rec img img1 → has_header bs img → has_header bs img1.
Proof.
  intros ([Hl Hun] & _ & Hfree) Hh. eapply has_header_eq; [|exact Hl|exact Hh].
  apply Hun. intros Hx. apply Hfree in Hx. lia.
Qed.

Lemma not_touched0 bs rec img (W : Z → Prop) :
  has_header bs img → complete bs img (cr_descriptor_block rec) rec →
  (∀ x, W x → x ∈ record_blocks rec ∨ is_free img x = true) → ¬ W 0.
Proof.
  intros Hh Hc HW [Hx|Hf]%HW; [by eapply header_not_record|].
  rewrite (header_not_free _ _ Hh) in Hf. done.
Qed.

(** Power loss before the flush of [put]. *)
Lemma crash_before bs img img1 img' best rec ws :
  has_header bs img → catalog bs img best → adds bs rec img img1 →
  (∀ old, best !! key_str (cr_key rec) = Some old → cr_generation old < cr_generation rec) →
  writes_in_order (record_blocks rec) ws → img1 = replay img (writes ws) →
  survives bs img (writes ws) img' →
  has_header bs img' ∧
  (catalog bs img' best ∨ catalog bs img' (<[key_str (cr_key rec) := rec]> best)).
Proof.
  intros Hh Hcat Ha Hgen Hws Himg Hs. pose proof Ha as (_ & Hc & Hfree).
  assert (decays (.∈ record_blocks rec) img1 img') as Hdec.
  { rewrite Himg. by eapply survives_new; [eapply complete_NoDup|..]. }
  split; [|by eapply decay_new].
  eapply decays_header; [by eapply adds_header|exact Hdec|]. intros Hx. apply Hfree in Hx. lia.
Qed.

(** Power loss while [put] erases the record it replaced. *)
Lemma crash_after bs img1 img2 img' best W pattern rec old :
  has_header bs img1 → catalog bs img1 (<[key_str (cr_key rec) := rec]> best) →
  complete bs img1 (cr_descriptor_block old) old → key_str (cr_key old) = key_str (cr_key rec) →
  rec ≠ old → 0 < bs → good_pattern pattern →
  erased bs pattern (record_blocks old) img1 img2 →
  (∀ x, W x → x ∈ record_blocks old ∨ is_free img1 x = true) →
  decays W img1 img' ∨ img' = img2 →
  has_header bs img' ∧ catalog bs img' (<[key_str (cr_key rec) := rec]> best).
Proof.
  intros Hh Hcat Hold Hkey Hne Hbs Hp He HW Hc.
  assert (<[key_str (cr_key rec) := rec]> best !! key_str (cr_key old) ≠ Some old) as Hno.
  { rewrite Hkey, lookup_insert_eq. congruence. }
  destruct Hc as [Hdec| ->]; split.
  - eapply decays_header; [exact Hh|exact Hdec|by eapply not_touched0].
  - by eapply decay_old.
  - pose proof He as [[Hl Hun] _]. eapply has_header_eq; [|exact Hl|exact Hh].
    apply Hun. by eapply header_not_record.
  - by eapply catalog_erase_old.
Qed.

(** Power loss during [put]: the key has its old record or its new one, every
    other key is untouched. *)
Lemma put_crash bs img best r key value generation user_flags pattern :
  replica_at bs img best r → fits bs key generation user_flags → good_pattern pattern →
  (∀ old, best !! key_str key = Some old → cr_generation old < generation) →
  blocks_for bs key value ≤ zlen (free_list img) →
  let rec := put_record bs img key value generation user_flags in
  ∃ r' es, Replica_put key value generation user_flags pattern r = (r', Ok tt) ∧
    extends (r_dev r) (r_dev r') es ∧ flushed es ∧
    ∀ img', crash_image bs img es img' → has_header bs img' ∧
      (catalog bs img' best ∨ catalog bs img' (<[key_str key := rec]> best)).
Proof.
  intros Hr Hfit Hp Hgen Hroom rec. pose proof Hr as [Hd Hbs Hh Hix Hcat].
  destruct (put_script bs img best r key value generation user_flags pattern Hr Hfit Hgen Hroom)
    as (d1 & d2 & d3 & img1 & d' & img2 & Hrun & Hff & Hw & Hfl & Hd3 & Ha & Hfr & Hd').
  fold rec in Hrun, Hff, Hw, Ha.
  pose proof (quiet_run _ _ _ _ (find_free_blocks_quiet _) Hff) as Hx0.
  destruct (write_record_issues _ _ _ _ _ _ _ _ _ Hw) as (ws & Hx1 & Hws).
  destruct (issues_flush _ _ _ Hfl) as (es2 & Hx2 & ->).
  pose proof (extends_trans _ _ _ _ _ (extends_trans _ _ _ _ _ Hx0 Hx1) Hx2) as Hx3. simpl in Hx3.
  pose proof (logged_image _ _ _ _ _ _ Hd Hd3 Hx3) as Himg1. rewrite writes_flush in Himg1.
  pose proof (λ img', crash_before bs img img1 img' best rec ws Hh Hcat Ha Hgen Hws Himg1) as Hearly.
  pose proof (catalog_adds bs rec img img1 best Hcat Ha Hgen) as Hcat1.
  pose proof (adds_header _ _ _ _ Ha Hh) as Hh1.
  assert (Forall is_write ws) as Hwr by (destruct Hws as (bufs & _ & ->); apply is_write_zip).
  pose proof (replaces_old bs rec best img Hcat Hgen img1) as Hro.
  unfold frees in Hfr. destruct (best !! key_str key) as [old|] eqn:Hold.
  - destruct (Hro old Ha Hold) as [Hc Hne].
    destruct Hfr as (d4 & Hfr & Hfl2 & He).
    destruct (free_crash bs img1 pattern d3 d4 d' old img2 Hd3 Hp Hc Hfr Hfl2 Hd' He)
      as (es & W & Hx4 & HW & Hfd & Hcr).
    eexists _, _. split_and!; [exact Hrun|exact (extends_trans _ _ _ _ _ Hx3 Hx4)| |].
    { apply flushed_app; [right; by exists ws|done]. }
    intros img' Himg'. rewrite <- app_assoc in Himg'. simpl in Himg'.
    apply crash_at_flush in Himg' as [Hs|Hc']; [by apply Hearly| |done].
    rewrite <- Himg1 in Hc'. destruct (catalog_complete _ _ _ _ _ Hcat Hold) as (_ & _ & Hkey).
    destruct (crash_after bs img1 img2 img' best W pattern rec old) as [Hh' Hcat'];
      [done|done|done|done|done|lia|done|done|done|by apply Hcr|]. split; [done|by right].
  - destruct Hfr as [-> ->]. eexists _, _. split_and!; [exact Hrun|exact Hx3|right; by exists ws|].
    intros img' Himg'. apply crash_at_flush in Himg' as [Hs|Hc]; [by apply Hearly| |done].
    rewrite <- Himg1 in Hc. apply crash_idle in Hc as ->. split; [done|by right].
Qed.

(** Power loss before the flush of [recover]. *)
Lemma recover_survives bs pattern img img' best ws (indices : list Z) :
  0 < bs → good_pattern pattern → has_header bs img → catalog bs img best →
  Forall (λ e, ∃ i, e = EWrite i (make_free_buf bs pattern) ∧ i ∈ indices ∧
                    i ∉ valid_blocks best) ws →
  survives bs img (writes ws) img' → has_header bs img' ∧ catalog bs img' best.
Proof.
  intros Hbs Hp Hh Hcat Hws [Hl Hat].
  assert (∀ x b, (x, b) ∈ writes ws → b = make_free_buf bs pattern ∧ x ∉ valid_blocks best) as Hout.
  { intros x b Hx. unfold writes in Hx. apply list_elem_of_omap in Hx as (e & Hin & Hsome).
    rewrite Forall_forall in Hws. destruct (Hws _ Hin) as (i & -> & _ & Hi).
    by injection Hsome as -> ->. }
  assert (decays (.∉ valid_blocks best) img img') as Hdec.
  { split; [done|]. intros x. destruct (Hat x) as [?|(b & Hb & Hx)]; [by left|]. right.
    apply Hout in Hb as [-> Hv]. split; [done|].
    destruct Hx as [Hx|(torn & Hx & _ & Hcrc)]; [|exists torn; split; [done|by right]].
    eexists. split; [exact Hx|]. left. by apply free_buf_marked. }
  split.
  - eapply decays_header; [done|exact Hdec|]. intros Hx. apply Hx, valid_blocks_elem. by left.
  - eapply catalog_sub; [exact Hcat| |].
    + intros k r (Hc & Hr & Hk). rewrite Hl in Hr. by split_and!; [eapply decays_complete|lia..|].
    + intros k r Hk. destruct (catalog_complete _ _ _ _ _ Hcat Hk) as (Hc & Hr & Hkey).
      split_and!; [|lia|lia|done]. eapply decays_keep; [exact Hdec| |exact Hc].
      intros x Hx Hno. apply Hno, valid_blocks_elem. right. by exists k, r.
Qed.

(** Power loss during [delete]: the key is still there or it is gone. *)
Lemma delete_crash bs img best r k rec pattern found :
  replica_at bs img best r → good_pattern pattern → single bs img → best !! k = Some rec →
  ∃ r' es, delete_one k pattern found r = (r', Ok true) ∧ extends (r_dev r) (r_dev r') es ∧
    flushed es ∧ ∀ img', crash_image bs img es img' → has_header bs img' ∧
      (catalog bs img' best ∨ catalog bs img' (base.delete k best)).
Proof.
  intros Hr Hp Hs Hk. pose proof Hr as [Hd Hbs Hh Hix Hcat].
  destruct (catalog_complete _ _ _ _ _ Hcat Hk) as (Hc & _ & _).
  destruct (free_record_spec (r_dev r) bs img _ rec pattern Hd Hbs Hc) as (d1 & img2 & Hfr & Hd1 & He).
  destruct (flush_ok d1 bs img2 Hd1) as (d2 & Hfl & Hd2).
  destruct (free_crash bs img pattern (r_dev r) d1 d2 rec img2 Hd Hp Hc Hfr Hfl Hd2 He)
    as (es & W & Hx & HW & Hfd & Hcr).
  assert (∀ c, candidate bs img (zlen img) k c → c = rec) as Honly
    by (intros c Hc'; eapply Hs; [done|by eapply catalog_candidate]).
  eexists _, es. split_and!.
  - unfold delete_one. mgets. rewrite Hix, get_index_of, Hk. cbn [fmap option_fmap option_map].
    simpl ie_descriptor_block. mcall (on_dev_Ok _ r _ _ Hfr).
    mcall (on_dev_Ok _ (set_dev d1 r) _ _ Hfl). reflexivity.
  - exact Hx.
  - exact Hfd.
  - intros img' [Hdec| ->]%Hcr; split.
    + eapply decays_header; [exact Hh|exact Hdec|by eapply not_touched0].
    + by eapply decay_only.
    + eapply has_header_eq; [by eapply erases_block0|apply He|done].
    + right. eapply catalog_erase; [|done|done|done|done|done]. lia.
Qed.

(** Power loss during [recover]: every key keeps its newest record. *)
Lemma recover_crash bs img r pattern :
  mounted bs img r → good_pattern pattern →
  ∃ r' es best, Replica_recover pattern r = (r', Ok tt) ∧ extends (r_dev r) (r_dev r') es ∧
    flushed es ∧ catalog bs img best ∧
    ∀ img', crash_image bs img es img' → has_header bs img' ∧ catalog bs img' best.
Proof.
  intros [Hd Hbs Hh] Hp.
  destruct (recover_script (r_dev r) bs img pattern Hd Hbs (has_header_length _ _ Hh))
    as (d1 & buf & d2 & buf2 & g & d' & img2 & best & Hrun & Hscan & Herase & Hfl & Hd' & Hcat & Hsw).
  pose proof (quiet_run _ _ _ _ (recover_scan_quiet _ _) Hscan) as Hx0.
  destruct (recover_erase_issues _ _ _ _ _ _ _ Herase) as (ws & Hx1 & Hws).
  pose proof (extends_trans _ _ _ _ _ Hx0 Hx1) as Hx. simpl in Hx.
  assert (Forall is_write ws) as Hwr.
  { eapply Forall_impl; [exact Hws|]. by intros e (i & -> & _). }
  assert (∀ img', survives bs img (writes ws) img' → has_header bs img' ∧ catalog bs img' best)
    as Hearly.
  { intros img' Hs. eapply (recover_survives bs pattern img img' best ws); done || lia. }
  destruct (swept_clean bs pattern img img2 best ltac:(lia) Hp Hcat Hsw) as (Hcat2 & _ & _ & Hb0).
  assert (has_header bs img2) as Hh2 by (by eapply has_header_eq; [|apply Hsw|]).
  destruct g.
  - destruct (issues_flush _ _ _ Hfl) as (es2 & Hx2 & ->).
    eexists _, _, best.
    split_and!; [by apply on_dev_Ok|exact (extends_trans _ _ _ _ _ Hx Hx2)|right; by exists ws|done|].
    intros img' [Hs|Hc]%crash_at_flush; [by apply Hearly| |done].
    rewrite <- writes_flush in Hc.
    rewrite <- (logged_image _ _ _ _ _ _ Hd Hd' (extends_trans _ _ _ _ _ Hx Hx2)) in Hc.
    by apply crash_idle in Hc as ->.
  - injection Hfl as <-. destruct (recover_erase_clean _ _ _ _ _ _ _ _ Herase) as [_ Hx2].
    eexists _, [], best. split_and!;
      [by apply on_dev_Ok|exact (extends_trans _ _ _ _ _ Hx0 Hx2)|by left|done|].
    by intros img' ->%crash_idle.
Qed.

(** *** Across calls *)

(** Nothing is in flight on the device: its last write has been flushed. *)
Definition synced (l : Logged D) : Prop := (settle (l_base l) [] (l_log l)).2 = [].

(** The blocks that may be left of a device that loses power somewhere between its
    states [l] and [l'].  Its whole journal counts, from the first write: what
    earlier calls left in flight may be lost as well. *)
Definition power_cut (bs : Z) (l l' : Logged D) (img' : image) : Prop :=
  ∃ before, l_log l `prefix_of` before ∧ before `prefix_of` l_log l' ∧
    let '(durable, pending) := settle (l_base l) [] before in survives bs durable pending img'.

(** Settling loses nothing. *)
Lemma settle_replay img pending es :
  replay (settle img pending es).1 (settle img pending es).2 = replay (replay img pending) (writes es).
Proof.
  revert img pending. induction es as [|[i b|] es IH]; intros img pending; cbn [settle]; [done|..];
    rewrite IH; [by rewrite replay_app|done].
Qed.

Lemma synced_settle l bs img : dev_at l bs img → synced l → settle (l_base l) [] (l_log l) = (img, []).
Proof.
  intros [_ ->] Hs. pose proof (settle_replay (l_base l) [] (l_log l)) as Hr.
  unfold synced in Hs. destruct (settle _ _ _) as [d p]. simpl in *. by subst p; rewrite <- Hr.
Qed.

Lemma synced_extends l l' es : synced l → extends l l' es → flushed es → synced l'.
Proof.
  intros Hs [Hb Hl] [->|(es' & ->)]; unfold synced; rewrite Hb, Hl; [by rewrite app_nil_r|].
  by rewrite app_assoc, settle_app.
Qed.

(** On a device with nothing in flight only the call that was interrupted counts. *)
Lemma power_cut_image l l' bs img es img' :
  dev_at l bs img → synced l → extends l l' es → power_cut bs l l' img' → crash_image bs img es img'.
Proof.
  intros Hd Hs [Hb Hl] (before & [rest ->] & Hp & Hsv). exists rest. split.
  - rewrite Hl in Hp. destruct Hp as [more Hp]. exists more.
    rewrite <- app_assoc in Hp. by apply app_inv_head in Hp.
  - by rewrite settle_app, (synced_settle l bs img Hd Hs) in Hsv.
Qed.

(** The call may have completed, or not have begun. *)
Lemma power_cut_done l l' bs img' es :
  dev_at l' bs img' → synced l' → extends l l' es → power_cut bs l l' img'.
Proof.
  intros Hd Hs [Hb Hl]. exists (l_log l'). split_and!; [rewrite Hl; by eexists|done|].
  rewrite <- Hb, (synced_settle l' bs img' Hd Hs). split; [done|by left].
Qed.

Lemma power_cut_none l l' bs img es :
  dev_at l bs img → synced l → extends l l' es → power_cut bs l l' img.
Proof.
  intros Hd Hs [Hb Hl]. exists (l_log l). split_and!; [done|rewrite Hl; by eexists|].
  rewrite (synced_settle l bs img Hd Hs). split; [done|by left].
Qed.

End Operations.
