(* ===== verification/Durability.v ===== *)
(** * Power loss and reboot of the store

    The replicas of a store lose power during an operation, at any point of
    it; the surviving blocks are opened again on working devices, recovered
    and indexed.  The result represents the state before the operation or the
    state after it. *)

From S2P Require Import Prelude Errors Rust Format Crc Block Device Record Utf8 Index Replica.
From S2P Require Import Store RecordWrite Allocation Catalog Recovery ReplicaSpec StoreSpec.
From S2P Require Import Lifecycle Shards Refinement Journal Crash.

(** What the reboot of an application does. *)
Definition reboot `{Profile} `{BlockDevice D} : M (Store D) unit := recover;; build_index.

(** ** What survives *)

Lemma settle_length img pending es :
  length (settle img pending es).1 = length img.
Proof.
  revert img pending. induction es as [|[i b|] es IH]; intros img pending; cbn [settle]; [done|..];
    rewrite IH; [done|apply length_replay].
Qed.

Lemma crash_length bs img es img' : crash_image bs img es img' → length img' = length img.
Proof.
  intros (before & _ & Hs). pose proof (settle_length img [] before) as Hl.
  destruct (settle img [] before) as [d p]. destruct Hs as [Hl' _]. simpl in Hl. congruence.
Qed.

Section Crashes.
Context `{Profile} `{ReliableDevice D}.
Implicit Types (rs : list (Replica (Logged D))) (ps : list shard) (imgs : list image).

(** The blocks [img'] may be left of a replica that loses power somewhere
    between its states [r] and [r'], when what its device held at [r] is durable. *)
Definition replica_crash (bs : Z) (r r' : Replica (Logged D)) (img' : image) : Prop :=
  ∃ img es, dev_at (r_dev r) bs img ∧ extends (r_dev r) (r_dev r') es ∧
    crash_image bs img es img'.

Lemma extends_fun (l l' : Logged D) es es' : extends l l' es → extends l l' es' → es = es'.
Proof. intros [_ H1'] [_ H2']. rewrite H1' in H2'. by apply app_inv_head in H2'. Qed.

Lemma logged_at_fun (l : Logged D) bs img img' : dev_at l bs img → dev_at l bs img' → img = img'.
Proof. intros [_ ->] [_ ->]. done. Qed.

(** What is known of the shard [p] after a loss of power: its catalog is the old
    one or one allowed by [R]. *)
Definition survivor (bs : Z) (R : shard → records → Prop) (p p' : shard) : Prop :=
  has_header bs p'.1 ∧ length p'.1 = length p.1 ∧ catalog bs p'.1 p'.2 ∧
  (p'.2 = p.2 ∨ R p p'.2).

(** What was issued between two states, which is nothing or ends with a flush. *)
Definition written (r r' : Replica (Logged D)) : Prop :=
  ∃ es, extends (r_dev r) (r_dev r') es ∧ flushed es.

(** The power may fail anywhere between the states [r] and [r'] of a replica, and
    nothing is in flight at [r'] that was not at [r]. *)
Definition crash_safe (bs : Z) (R : shard → records → Prop) (p : shard)
    (r r' : Replica (Logged D)) : Prop :=
  written r r' ∧
  ∀ img', replica_crash bs r r' img' → ∃ p', p'.1 = img' ∧ survivor bs R p p'.

(** The blocks of a replica, indexed or not, and their catalog. *)
Definition holds (bs : Z) (p : shard) (r : Replica (Logged D)) : Prop :=
  dev_at (r_dev r) bs p.1 ∧ has_header bs p.1 ∧ catalog bs p.1 p.2.

Lemma replica_at_holds bs p r : replica_at bs p.1 p.2 r → holds bs p r.
Proof. intros []. by split_and!. Qed.

Lemma crash_safe_run bs R p r r' es :
  dev_at (r_dev r) bs p.1 → extends (r_dev r) (r_dev r') es → flushed es →
  (∀ img', crash_image bs p.1 es img' →
    has_header bs img' ∧ ∃ best, catalog bs img' best ∧ (best = p.2 ∨ R p best)) →
  crash_safe bs R p r r'.
Proof.
  intros Hd Hx Hfd Hcr. split; [by exists es|]. intros img' (img & es' & Hd' & Hx' & Hc).
  rewrite (logged_at_fun _ _ _ _ Hd' Hd), (extends_fun _ _ _ _ Hx' Hx) in Hc.
  destruct (Hcr _ Hc) as (Hh & best & Hcat & Hb).
  exists (img', best). split; [done|]. split_and!; [done|by eapply crash_length|done|done].
Qed.

Lemma crash_safe_idle bs R p r r' :
  holds bs p r → extends (r_dev r) (r_dev r') [] → crash_safe bs R p r r'.
Proof.
  intros (Hd & Hh & Hcat) Hx. eapply crash_safe_run; [done|exact Hx|by left|].
  intros img' ->%crash_idle. split; [done|]. exists p.2. by split; [|left].
Qed.

(** Loops over the replicas: each one is left as it is or as the body leaves it. *)
Definition all_crash_safe (bs : Z) (R : shard → records → Prop) :
    list (Replica (Logged D)) → list shard → list (Replica (Logged D)) → Prop :=
  Forall3 (λ r p r', crash_safe bs R p r r').

Lemma all_crash_safe_fold {B} (f : B → M (Replica (Logged D)) B) bs R rs ps b :
  Forall2 (λ r p, holds bs p r ∧ ∀ b, crash_safe bs R p r (f b r).1) rs ps →
  all_crash_safe bs R rs ps (for_each_fold f rs b).1.
Proof.
  intros Hf. revert b. induction Hf as [|r p rs ps [Hh Hs] Hrs IH]; intros b; [constructor|].
  cbn [for_each_fold]. specialize (Hs b).
  assert (all_crash_safe bs R rs ps rs) as Hidle.
  { clear -Hrs. induction Hrs as [|r p rs ps [Hh _] _ IH]; constructor; [|done].
    apply crash_safe_idle; [done|apply extends_nil]. }
  destruct (f b r) as [r' [b'|e| |]]; [|by constructor..].
  specialize (IH b'). destruct (for_each_fold f rs b'). by constructor.
Qed.

Lemma all_crash_safe_mut (f : M (Replica (Logged D)) unit) bs R rs ps :
  Forall2 (λ r p, holds bs p r ∧ crash_safe bs R p r (f r).1) rs ps →
  all_crash_safe bs R rs ps (for_each_mut f rs).1.
Proof.
  intros Hf. rewrite for_each_mut_fold. apply all_crash_safe_fold.
  eapply Forall2_impl; [exact Hf|]. by intros r p [].
Qed.

Lemma all_crash_safe_survivors bs R rs ps rs' imgs :
  all_crash_safe bs R rs ps rs' → Forall3 (replica_crash bs) rs rs' imgs →
  ∃ ps', ps'.*1 = imgs ∧ Forall2 (survivor bs R) ps ps'.
Proof.
  intros Hs. revert imgs. induction Hs as [|r p r' rs ps rs' Hs _ IH]; intros imgs Hc;
    inversion Hc as [|? ? img' ? ? imgs' Hc1 Hcs]; subst; [by exists []|].
  destruct (IH _ Hcs) as (ps' & <- & Hps). destruct (proj2 Hs _ Hc1) as (p' & <- & Hp').
  exists (p' :: ps'). split; [done|by constructor].
Qed.

Lemma all_crash_safe_written bs R rs ps rs' :
  all_crash_safe bs R rs ps rs' → Forall2 written rs rs'.
Proof. induction 1 as [|r p r' rs ps rs' [Hw _] _ IH]; by constructor. Qed.

(** *** The operations *)

Definition put_leaves (bs : Z) (key value : list byte) (g flags : Z) (p : shard) (best : records) :
    Prop :=
  room bs key value p ∧ best = <[key_str key := put_record bs p.1 key value g flags]> p.2.
Definition delete_leaves (k : list byte) (p : shard) (best : records) : Prop :=
  best = base.delete k p.2.
Definition nothing_else (p : shard) (best : records) : Prop := False.

Lemma put_crash_safe bs key value g flags pattern p r :
  replica_at bs p.1 p.2 r → fits bs key g flags → good_pattern pattern →
  (∀ old, p.2 !! key_str key = Some old → cr_generation old < g) →
  crash_safe bs (put_leaves bs key value g flags) p r (Replica_put key value g flags pattern r).1.
Proof.
  intros Hr Hfit Hp Hgen. destruct (decide (room bs key value p)) as [Hroom|Hroom].
  - destruct (put_crash bs p.1 p.2 r key value g flags pattern Hr Hfit Hp Hgen Hroom)
      as (r' & es & -> & Hx & Hfd & Hcr). eapply crash_safe_run; [apply Hr|exact Hx|exact Hfd|].
    intros img' Hc. destruct (Hcr _ Hc) as [Hh [Hcat|Hcat]]; split; eauto. eexists. split; [done|by right].
  - destruct (put_full bs p.1 p.2 r key value g flags pattern Hr Hfit)
      as (d' & -> & _ & Hff); [unfold room in Hroom; lia|].
    apply crash_safe_idle; [by apply replica_at_holds|].
    exact (quiet_run _ _ _ _ (find_free_blocks_quiet _) Hff).
Qed.

Lemma delete_crash_safe bs k pattern found p r :
  replica_at bs p.1 p.2 r → good_pattern pattern → single bs p.1 →
  crash_safe bs (delete_leaves k) p r (delete_one k pattern found r).1.
Proof.
  intros Hr Hp Hs. destruct (p.2 !! k) as [rec|] eqn:Hk.
  - destruct (delete_crash bs p.1 p.2 r k rec pattern found Hr Hp Hs Hk) as (r' & es & -> & Hx & Hfd & Hcr).
    eapply crash_safe_run; [apply Hr|exact Hx|exact Hfd|].
    intros img' Hc. destruct (Hcr _ Hc) as [Hh [Hcat|Hcat]]; split; eauto. eexists. split; [done|by right].
  - unfold delete_one. mgets. destruct Hr as [Hd Hbs Hh Hix Hcat].
    rewrite Hix, get_index_of, Hk. apply crash_safe_idle; [by split_and!|apply extends_nil].
Qed.

Lemma recover_crash_safe bs pattern p r :
  holds bs p r → 36 ≤ bs → good_pattern pattern →
  crash_safe bs nothing_else p r (Replica_recover pattern r).1.
Proof.
  intros (Hd & Hh & Hcat) Hbs Hp.
  destruct (recover_crash bs p.1 r pattern) as (r' & es & best & -> & Hx & Hfd & Hcat' & Hcr);
    [by constructor|done|].
  eapply crash_safe_run; [done|exact Hx|exact Hfd|]. intros img' Hc. destruct (Hcr _ Hc) as [Hh' Hc'].
  split; [done|]. exists best. split; [done|]. left. exact (tracks_unique _ _ _ _ _ Hcat' Hcat).
Qed.

End Crashes.

(** ** Reboot *)

Section Reboot.
Context `{Profile} `{ReliableDevice D}.
Implicit Types (s : Store D) (ps : list shard).

(** A shard whose index is not known yet. *)
Definition bootable (bs n G : Z) (p : shard) : Prop :=
  has_header bs p.1 ∧ zlen p.1 = n ∧ catalog bs p.1 p.2 ∧
  ∀ k rec, p.2 !! k = Some rec → cr_generation rec ≤ G.

Lemma boot_shard bs n G p q :
  bootable bs n G p → recovered bs p.1 q → q.2 = p.2 ∧ shard_ok bs n G q.
Proof.
  intros (Hh & Hn & Hcat & Hg) (Hc & Hc' & Hcl & Hl).
  pose proof (tracks_unique _ _ _ _ _ Hc Hcat) as Heq.
  split; [done|]. split_and!; [by rewrite Hl|done|by rewrite Heq].
Qed.

Lemma reboot_spec bs n G ps s :
  Forall2 (λ r p, dev_at (r_dev r) bs p.1) (replicas s) ps → ps ≠ [] → 36 ≤ bs →
  good_pattern (free_pattern (opts s)) → Forall (bootable bs n G) ps →
  ∃ s' qs, reboot s = (s', Ok tt) ∧ stored bs n G qs s' ∧ qs.*2 = ps.*2.
Proof.
  intros Hd Hne Hbs Hp Hb.
  assert (Forall2 (λ r img, mounted bs img r) (replicas s) ps.*1) as Hm.
  { apply Forall2_fmap_r. apply Forall2_same_length_lookup_2; [by eapply Forall2_length|].
    intros i r p Hi Hj. constructor; [exact (Forall2_lookup_lr _ _ _ _ _ _ Hd Hi Hj)|done|].
    eapply Forall_lookup_1 in Hb as [Hh _]; [exact Hh|exact Hj]. }
  destruct (recover_mounted bs ps.*1 s Hm Hp) as (rs1 & qs & Hrun1 & Hm1 & Hrec).
  rewrite Forall2_fmap_l in Hrec.
  assert (Forall2 (λ p q, q.2 = p.2 ∧ shard_ok bs n G q) ps qs) as Hqs.
  { apply Forall2_same_length_lookup_2; [exact (Forall2_length _ _ _ Hrec)|]. intros i p q Hi Hj.
    eapply boot_shard; [by eapply Forall_lookup_1|
      exact (Forall2_lookup_lr _ _ _ _ _ _ Hrec Hi Hj)]. }
  assert (Forall2 (λ r img, mounted bs img r) rs1 qs.*1) as Hm2 by (by apply Forall2_fmap_r).
  destruct (build_index_mounted bs qs.*1 {| replicas := rs1; opts := opts s |} Hm2)
    as (rs2 & qs2 & Hrun2 & Hrs2 & Hq2).
  assert (qs2 = qs) as ->.
  { rewrite Forall2_fmap_l in Hq2. apply list_eq_Forall2, Forall2_flip.
    apply Forall2_same_length_lookup_2; [exact (Forall2_length _ _ _ Hq2)|]. intros i q q2 Hi Hj.
    pose proof (Forall2_lookup_lr _ _ _ _ _ _ Hq2 Hi Hj) as Heq. simpl in Heq.
    destruct (Forall2_lookup_r _ _ _ _ _ Hrs2 Hj) as (r & _ & [_ _ _ _ Hc]).
    destruct (Forall2_lookup_r _ _ _ _ _ Hrec Hi) as (p & _ & (_ & Hc' & _)).
    destruct q, q2; simpl in *; subst. f_equal. exact (tracks_unique _ _ _ _ _ Hc Hc'). }
  exists {| replicas := rs2; opts := opts s |}, qs. split_and!.
  - unfold reboot. by rewrite (bind_Ok _ _ _ _ _ Hrun1).
  - split_and!; [by split|intros ->; by inversion Hqs; subst|].
    eapply Forall2_Forall_r; [exact Hqs|]. apply Forall_true. by intros p q [_ ?].
  - clear -Hqs. induction Hqs as [|p q ps qs [Hq _] _ IH]; [done|].
    by rewrite !fmap_cons, Hq, IH.
Qed.

Lemma survivors_bootable bs n G G' R ps ps' :
  Forall2 (survivor bs R) ps ps' → Forall (shard_ok bs n G) ps → G ≤ G' →
  (∀ p best k rec, R p best → best !! k = Some rec →
    p.2 !! k = Some rec ∨ cr_generation rec ≤ G') →
  Forall (bootable bs n G') ps'.
Proof.
  intros Hsv Hok HG HR. apply Forall_lookup_2. intros i p' Hi.
  destruct (Forall2_lookup_r _ _ _ _ _ Hsv Hi) as (p & Hj & Hh & Hlen & Hcat & Hp').
  eapply Forall_lookup_1 in Hok as (Hn & _ & Hgs); [|exact Hj].
  split_and!; [done|by rewrite Hlen|done|]. intros k rec Hk.
  destruct Hp' as [Heq|HRp]; [|destruct (HR _ _ _ _ HRp Hk) as [Hk'|?]; [|done]].
  - rewrite Heq in Hk. specialize (Hgs _ _ Hk). lia.
  - specialize (Hgs _ _ Hk'). lia.
Qed.

End Reboot.

(** ** The operations of the store *)

Section Store.
Context `{Profile} `{ReliableDevice D}.
Implicit Types (s : Store (Logged D)) (ps : list shard).

(** A [put] that may be interrupted on some or all of the replicas. *)
Lemma put_survivable bs n G ps s key value flags :
  stored bs n G ps s → 0 ≤ G → G + 1 < U32 → zlen key ≤ bs - 36 → zlen key < U16 → u32 flags →
  let g := top_generation (key_str key) ps + 1 in
  above (key_str key) g ps ∧ fits bs key g flags ∧ 1 ≤ g ≤ G + 1 ∧
  all_crash_safe bs (put_leaves bs key value g flags) (replicas s) ps
    (replicas (put_flagged key value flags s).1).
Proof.
  intros (Hs & Hne & Hok) HG HG1 Hk Hk16 Hfl g.
  pose proof (shards_top bs n G ps (key_str key) HG Hok) as Htop.
  destruct (top_generation_max ps (key_str key)) as (Hge & Hmax & _).
  destruct (put_flagged_start bs ps s key value flags Hs Hne ltac:(lia) ltac:(lia)) as [_ Hrun].
  fold g in Hrun. rewrite (proj2 (Z.ltb_ge _ _) Hk) in Hrun. rewrite Hrun.
  assert (above (key_str key) g ps) as Hold.
  { intros p old Hp Hpk. specialize (Hmax _ _ Hp Hpk). lia. }
  assert (fits bs key g flags) as Hfit by (unfold fits, u32 in *; split_and!; lia).
  split_and!; [done|apply Hfit..|lia|lia|].
  assert (all_crash_safe bs (put_leaves bs key value g flags) (replicas s) ps
    (for_each_mut (Replica_put key value g flags (free_pattern (opts s))) (replicas s)).1) as Hsafe;
    [|by destruct (for_each_mut _ _)].
  destruct Hs as [Hrs Hp]. apply all_crash_safe_mut.
  apply Forall2_same_length_lookup_2; [by eapply Forall2_length|]. intros i r p Hi Hj.
  pose proof (Forall2_lookup_lr _ _ _ _ _ _ Hrs Hi Hj) as Hr.
  split; [by apply replica_at_holds|]. apply put_crash_safe; [done|done|done|].
  intros old. apply Hold. by eapply list_elem_of_lookup_2.
Qed.

Lemma put_outage bs n G ps s key value flags imgs :
  stored bs n G ps s → 0 ≤ G → G + 1 < U32 → zlen key ≤ bs - 36 → zlen key < U16 →
  zlen value < U32 → u32 flags →
  Forall3 (replica_crash bs) (replicas s) (replicas (put_flagged key value flags s).1) imgs →
  ∃ g ps', ps'.*1 = imgs ∧ Forall (bootable bs n (G + 1)) ps' ∧ above (key_str key) g ps ∧
    Forall2 (λ p p', p'.2 = p.2 ∨ put_on bs key value g p p') ps ps'.
Proof.
  intros Hst HG HG1 Hk Hk16 Hv Hfl Hcrash. pose proof Hst as (Hs & Hne & Hok).
  destruct (put_survivable bs n G ps s key value flags Hst HG HG1 Hk Hk16 Hfl)
    as (Hold & Hfit & Hg & Hsafe). set (g := top_generation (key_str key) ps + 1) in *.
  destruct (all_crash_safe_survivors _ _ _ _ _ _ Hsafe Hcrash) as (ps' & <- & Hsv).
  exists g, ps'. split_and!; [done| |done|].
  - eapply survivors_bootable; [exact Hsv|exact Hok|lia|]. intros p best k rec [_ ->].
    rewrite lookup_insert. case_decide; [intros [= <-]; right; simpl; lia|by left].
  - apply Forall2_same_length_lookup_2; [by eapply Forall2_length|]. intros i p p' Hi Hj.
    destruct (Forall2_lookup_lr _ _ _ _ _ _ Hsv Hi Hj) as (_ & _ & _ & [?|[Hroom Hp']]); [by left|].
    right. destruct (Forall2_lookup_r _ _ _ _ _ (proj1 Hs) Hi) as (r & _ & Hr).
    by eapply (put_inserted_on (D := Logged D)); [exact Hr|exact Hfit|..|exact Hp'].
Qed.

End Store.

(** The same for one replica. *)
Definition replica_reboot `{Profile} `{BlockDevice D} (pattern : byte) : M (Replica D) unit :=
  Replica_recover pattern;; Replica_build_index.

Lemma replica_reboot_spec `{Profile} `{ReliableDevice D} bs img best (r : Replica D) pattern :
  dev_at (r_dev r) bs img → 36 ≤ bs → has_header bs img → catalog bs img best →
  good_pattern pattern →
  ∃ r' img', replica_reboot pattern r = (r', Ok tt) ∧ replica_at bs img' best r'.
Proof.
  intros Hd Hbs Hh Hcat Hp. destruct (recover_at bs img r pattern) as
    (d1 & img1 & best1 & Hrun1 & Hm1 & _ & Hc & Hc1 & _); [by constructor|done|].
  assert (best1 = best) as -> by exact (tracks_unique _ _ _ _ _ Hc Hcat).
  destruct (build_index_at bs img1 _ Hm1) as (r2 & best2 & Hrun2 & _ & Hr2).
  assert (best2 = best) as ->.
  { destruct Hr2 as [_ _ _ _ Hc2]. exact (tracks_unique _ _ _ _ _ Hc2 Hc1). }
  exists r2, img1. split; [|done]. unfold replica_reboot. by rewrite (bind_Ok _ _ _ _ _ Hrun1).
Qed.

(** Rebooting from the blocks [img], on whatever working device, finds the
    records [best]. *)
Definition reboots_to `{Profile} (bs : Z) (pattern : byte) (img : image) (best : records) : Prop :=
  ∀ (D : Type) (B : BlockDevice D) (R : ReliableDevice D) (r : Replica D),
    dev_at (r_dev r) bs img →
    ∃ r' img', replica_reboot pattern r = (r', Ok tt) ∧ replica_at bs img' best r'.

(** ** Properties *)

(** C4: [put] is atomic under power loss.  A store representing a map loses power
    at any point of a [put], whatever the call would have returned: on every
    replica only a prefix of its writes and flushes happened, and of the writes
    after the last flush any may be missing or torn (a torn block fails its
    CRC).  Opened on working devices, recovered and indexed, what is left
    represents the old map or the old map with the new value under the key:
    never a mixture, never a loss of another key. *)
Theorem put_survives_power_loss `{Profile} `{ReliableDevice D} `{ReliableDevice D2} bs n G
    (s s' : Store (Logged D)) m key value flags out imgs (s2 : Store D2) :
  represents bs n G s m → 36 ≤ bs → 0 ≤ G → G + 1 < U32 → zlen key ≤ bs - 36 → zlen key < U16 →
  zlen value < U32 → u32 flags →
  put_flagged key value flags s = (s', out) →
  Forall3 (replica_crash bs) (replicas s) (replicas s') imgs →
  Forall2 (λ r img, dev_at (r_dev r) bs img) (replicas s2) imgs →
  good_pattern (free_pattern (opts s2)) →
  ∃ s3 m', reboot s2 = (s3, Ok tt) ∧ represents bs n (G + 1) s3 m' ∧
    (m' = m ∨ m' = <[key_str key := value]> m).
Proof.
  intros (ps & Hst & <-) Hbs HG HG1 Hk Hk16 Hv Hfl Hput Hcrash Hd Hp2.
  destruct (put_outage bs n G ps s key value flags imgs)
    as (g & ps' & <- & Hboot & Hab & Hupd); [try done..|by rewrite Hput|].
  destruct (reboot_spec bs n (G + 1) ps' s2) as (s3 & qs & Hre & Hs3 & Hqs); [..|done|done|].
  - by rewrite Forall2_fmap_r in Hd.
  - intros ->. destruct Hst as (_ & Hne & _). by inversion Hupd; subst.
  - done.
  - exists s3, (contents ps'). split_and!; [done| |].
    2: { eapply update_contents; [|exact Hab]. eapply Forall2_impl; [exact Hupd|].
         intros p p' [?|?%put_on_updated]; auto. }
    exists qs. split; [done|by apply contents_catalogs].
Qed.

(** The small store on journaled devices. *)
Definition sample_logged : Replica (Logged MemDevice) := {|
  r_dev := {| l_dev := sample_device; l_base := sample_image; l_log := [] |};
  r_header := sample_header; r_index := MemIndex_new |}.
Definition sample_logged_store : Store (Logged MemDevice) :=
  {| replicas := [sample_logged]; opts := Options_new |}.

Lemma sample_logged_at : replica_at 64 sample_image ∅ sample_logged.
Proof. destruct sample_replica_at as [Hd Hbs Hh Hix Hc]. by constructor. Qed.

Lemma sample_logged_represents : represents 64 4 0 sample_logged_store ∅.
Proof.
  exists [(sample_image, ∅)]. split; [|done]. split_and!; [|done|].
  - split; [|by left]. constructor; [apply sample_logged_at|constructor].
  - constructor; [|constructor]. split_and!; [done|apply sample_clean|].
    intros k rec Hk. cbn [snd] in Hk. by rewrite lookup_empty in Hk.
Qed.

(** The power fails before the first write reaches the device. *)
Lemma sample_crash bs l l' r r' es :
  r_dev r = l → r_dev r' = l' → dev_at (D := Logged MemDevice) l bs sample_image →
  extends l l' es → replica_crash bs r r' sample_image.
Proof.
  intros <- <- Hd Hx. exists sample_image, es. split_and!; [done|done|].
  exists []. split; [apply prefix_nil|]. split; [done|]. by left.
Qed.

Lemma put_survives_power_loss_witness :
  ∃ s3 m', reboot (H := dev_profile) {| replicas := [sample_replica]; opts := Options_new |}
      = (s3, Ok tt) ∧ represents 64 4 1 s3 m'.
Proof.
  destruct (put_flagged (H := dev_profile) [x6b] [x76] 0 sample_logged_store) as [s' out] eqn:Hput.
  destruct (put_survives_power_loss (H := dev_profile) 64 4 0 sample_logged_store s' ∅ [x6b] [x76] 0 out
    [sample_image] {| replicas := [sample_replica]; opts := Options_new |})
    as (s3 & m' & Hre & Hrep & _);
    [exact sample_logged_represents|lia|lia|lia|simpl; lia|simpl; lia|simpl; lia|unfold u32; lia
    |exact Hput| | |by left|].
  - vm_compute in Hput. injection Hput as <- _. constructor; [|constructor].
    eapply sample_crash; [done|done|apply sample_logged_at|]. split; [done|]. simpl. reflexivity.
  - constructor; [apply sample_mounted|constructor].
  - exists s3, m'. split; [exact Hre|exact Hrep].
Defined.

(** [delete] is atomic under power loss on a replica with one record per key:
    whatever prefix of its erasures happened, with any of them missing or torn,
    recovery and indexing find the key with its record untouched or no key at
    all, and every other key as it was. *)
Theorem delete_survives_power_loss `{Profile} `{ReliableDevice D} bs img best
    (r : Replica (Logged D)) k rec pattern found :
  replica_at bs img best r → good_pattern pattern → single bs img → best !! k = Some rec →
  ∃ r', delete_one k pattern found r = (r', Ok true) ∧
    ∀ img', replica_crash bs r r' img' →
      reboots_to bs pattern img' best ∨ reboots_to bs pattern img' (base.delete k best).
Proof.
  intros Hr Hp Hs Hk. pose proof Hr as [Hd Hbs _ _ _].
  destruct (delete_crash bs img best r k rec pattern found Hr Hp Hs Hk)
    as (r' & es & Hrun & Hx & _ & Hcr). exists r'. split; [done|].
  intros img' (img0 & es0 & Hd0 & Hx0 & Hc).
  rewrite (logged_at_fun _ _ _ _ Hd0 Hd), (extends_fun _ _ _ _ Hx0 Hx) in Hc.
  destruct (Hcr _ Hc) as [Hh Hcat].
  destruct Hcat as [Hcat|Hcat]; [left|right]; intros D2 ? ? r2 Hd2; by eapply replica_reboot_spec.
Qed.

(** [recover] is safe under power loss: interrupted anywhere, with any of its
    erasures missing or torn, it leaves every key its newest record, and running
    it again completes it. *)
Theorem recover_survives_power_loss `{Profile} `{ReliableDevice D} bs img
    (r : Replica (Logged D)) pattern :
  mounted bs img r → good_pattern pattern →
  ∃ r' best, Replica_recover pattern r = (r', Ok tt) ∧ catalog bs img best ∧
    ∀ img', replica_crash bs r r' img' → reboots_to bs pattern img' best.
Proof.
  intros Hm Hp. pose proof Hm as [Hd Hbs _].
  destruct (recover_crash bs img r pattern Hm Hp) as (r' & es & best & Hrun & Hx & _ & Hcat & Hcr).
  exists r', best. split_and!; [done|done|]. intros img' (img0 & es0 & Hd0 & Hx0 & Hc).
  rewrite (logged_at_fun _ _ _ _ Hd0 Hd), (extends_fun _ _ _ _ Hx0 Hx) in Hc.
  destruct (Hcr _ Hc) as [Hh Hcat']. intros D2 ? ? r2 Hd2. by eapply replica_reboot_spec.
Qed.

(** Another complete record of the key, besides [rec]. *)
Definition leftover (bs : Z) (img : image) (k : list byte) (rec old : CompleteRecord) : Prop :=
  candidate bs img (zlen img) k old ∧ old ≠ rec.

(** C17: [delete] counts on a preceding [recover].  On a replica where a key has an
    older record beside its newest one, as a power loss between the two flushes
    of a [put] leaves it, [delete] erases the newest only: the key is gone from
    the index, but the next [build_index] finds it again, with an older
    generation. *)
Theorem delete_reveals_older `{Profile} `{ReliableDevice D} bs img best (r : Replica D) k rec old
    pattern found :
  replica_at bs img best r → good_pattern pattern → best !! k = Some rec →
  leftover bs img k rec old →
  ∃ r1 r2 img' best' rec', delete_one k pattern found r = (r1, Ok true) ∧
    MemIndex_get k (r_index r1) = None ∧
    Replica_build_index r1 = (r2, Ok tt) ∧ replica_at bs img' best' r2 ∧
    best' !! k = Some rec' ∧ leftover bs img k rec rec' ∧
    cr_generation old ≤ cr_generation rec' ≤ cr_generation rec.
Proof.
  intros [Hd Hbs Hh Hix Hcat] Hp Hk [Hold Hne].
  destruct (catalog_complete _ _ _ _ _ Hcat Hk) as (Hc & _ & _).
  destruct (free_record_spec (r_dev r) bs img _ rec pattern Hd Hbs Hc) as (d1 & img' & Hfr & Hd1 & He).
  destruct (flush_ok d1 bs img' Hd1) as (d2 & Hfl & Hd2).
  set (r1 := set_index_of (MemIndex_delete k (r_index r)) (set_dev d2 r)).
  assert (mounted bs img' r1) as Hm.
  { constructor; [done|done|]. eapply has_header_eq; [by eapply erases_block0|apply He|done]. }
  destruct (build_index_at bs img' r1 Hm) as (r2 & best' & Hrun & _ & Hr2).
  pose proof (erased_candidate bs rec img img' pattern k) as Hcand.
  pose proof Hr2 as [_ _ _ _ Hcat'].
  destruct (best' !! k) as [rec'|] eqn:Hk'.
  2: { exfalso. apply (tracks_None _ _ _ _ _ old Hcat' Hk'). apply Hcand; [lia|done..]. }
  destruct (tracks_Some _ _ _ _ _ _ Hcat' Hk') as [Hc' Hmax].
  apply Hcand in Hc' as [Hne' Hc']; [|lia|done..].
  assert (candidate bs img' (zlen img') k old) as Hold' by (apply Hcand; [lia|done..]).
  specialize (Hmax old Hold').
  destruct (tracks_Some _ _ _ _ _ _ Hcat Hk) as [_ Hmax0]. specialize (Hmax0 rec' Hc').
  exists r1, r2, img', best', rec'. split_and!; [| |done|done|done|done|lia|lia].
  - unfold delete_one. mgets. rewrite Hix, get_index_of, Hk. cbn [fmap option_fmap option_map].
    mcall (on_dev_Ok _ r _ _ Hfr). mcall (on_dev_Ok _ (set_dev d1 r) _ _ Hfl).
    reflexivity.
  - unfold r1. simpl. by rewrite Hix, index_of_delete, get_index_of, lookup_delete_eq.
Qed.

(** The small device with generations 7 and 8 of one key. *)
Definition twin_block : list byte :=
  seal (encode_descriptor {|
    dh_block_type := BLOCK_TYPE_RECORD_DESCRIPTOR; dh_header_size := 32; dh_key_size := 1;
    dh_generation := 8; dh_total_size := 2; dh_first_payload_size := 2; dh_chunk_count := 1;
    dh_next_chunk := NULL_BLOCK_INDEX; dh_flags := 0; dh_user_flags := 0 |}
    ++ [x6b] ++ [x76; x32] ++ replicate 25 x00).
Definition twin_image : image :=
  seal (encode_storage sample_header ++ replicate 32 x00) :: sample_block :: twin_block ::
  [replicate 64 x00].
Definition twin_replica : Replica MemDevice := {|
  r_dev := {| md_block_size := 64; md_block_count := 4; md_data := mjoin twin_image |};
  r_header := sample_header; r_index := MemIndex_new |}.

Lemma twin_mounted : mounted 64 twin_image twin_replica.
Proof.
  constructor; [|lia|].
  - split_and!; [by vm_compute|done|by vm_compute].
  - eexists. split; [done|]. by vm_compute.
Qed.

(** The record of a descriptor without chunks. *)
Definition lone_record (i : Z) (b : list byte) : CompleteRecord := {|
  cr_key := descriptor_key b; cr_generation := dh_generation (decode_descriptor b);
  cr_descriptor_block := i; cr_header := decode_descriptor b; cr_chunk_blocks := [];
  cr_value := descriptor_payload b ++ [] |}.

Lemma twin_old : candidate 64 twin_image (zlen twin_image) [x6b] (lone_record 1 sample_block).
Proof.
  split_and!; [|done|done|by vm_compute]. exists sample_block, [], [].
  split_and!; [done|by vm_compute|apply chain_end|done|done|done].
Qed.

Lemma twin_new : candidate 64 twin_image (zlen twin_image) [x6b] (lone_record 2 twin_block).
Proof.
  split_and!; [|done|done|by vm_compute]. exists twin_block, [], [].
  split_and!; [done|by vm_compute|apply chain_end|done|done|done].
Qed.

Lemma delete_reveals_older_witness :
  ∃ (r0 r1 r2 : Replica MemDevice) best rec',
    delete_one (H := dev_profile) [x6b] x00 false r0 = (r1, Ok true) ∧
    MemIndex_get [x6b] (r_index r1) = None ∧
    Replica_build_index (H := dev_profile) r1 = (r2, Ok tt) ∧
    r_index r2 = index_of best ∧ best !! [x6b] = Some rec' ∧ 7 ≤ cr_generation rec'.
Proof.
  destruct (build_index_at (H := dev_profile) 64 twin_image twin_replica twin_mounted)
    as (r0 & best & _ & _ & Hr0). pose proof Hr0 as [_ _ _ _ Hcat].
  assert (∃ rec, best !! [x6b] = Some rec ∧ lone_record 1 sample_block ≠ rec) as (rec & Hk & Hne).
  { destruct (best !! [x6b]) as [rec|] eqn:E;
      [|by destruct (tracks_None _ _ _ _ _ _ Hcat E twin_old)].
    exists rec. split; [done|]. intros <-.
    destruct (tracks_Some _ _ _ _ _ _ Hcat E) as [_ Hmax]. specialize (Hmax _ twin_new).
    vm_compute in Hmax. destruct Hmax as [Hlt|[Heq _]]; discriminate. }
  destruct (delete_reveals_older (H := dev_profile) 64 twin_image best r0 [x6b] rec
    (lone_record 1 sample_block) x00 false Hr0 ltac:(by left) Hk (conj twin_old Hne))
    as (r1 & r2 & img' & best' & rec' & Hdel & Hgone & Hrun & Hr2 & Hk' & _ & Hg & _).
  exists r0, r1, r2, best', rec'. split_and!; [exact Hdel|exact Hgone|exact Hrun|apply Hr2|exact Hk'|exact Hg].
Defined.
