(* ===== verification/Outages.v ===== *)
(** * A store that lives through power losses

    The life of a store is a sequence of calls, each of which returns or is
    interrupted by a loss of power.  After a loss the blocks that are left are
    opened, recovered and indexed, and the recovery may itself be interrupted,
    any number of times.  The store then still behaves as a finite map, where an
    interrupted call has happened or has not; but an interrupted [delete] may also
    bring back an older value, which a replica that missed a [put] still held. *)

From S2P Require Import Prelude Errors Rust Format Crc Block Device Record Utf8 Index Replica.
From S2P Require Import Store RecordWrite Allocation Catalog Recovery ReplicaSpec StoreSpec.
From S2P Require Import Lifecycle Shards Refinement Journal Crash Durability.

(** ** Calls that only read *)

Section Still.
Context `{Profile} `{BlockDevice D}.

(** The computation leaves the journal of the replica's device as it is. *)
Definition still {A} (m : M (Replica (Logged D)) A) : Prop :=
  ∀ r, extends (r_dev r) (r_dev (m r).1) [].

Lemma still_bind {A B} (m : M (Replica (Logged D)) A) (k : A → M (Replica (Logged D)) B) :
  still m → (∀ a, still (k a)) → still (m ≫= k).
Proof.
  intros Hm Hk r. specialize (Hm r). unfold mbind, M_bind.
  destruct (m r) as [r1 [a|e| |]]; simpl in *; try done.
  exact (extends_trans _ _ _ _ _ Hm (Hk a r1)).
Qed.

(** A computation that does not touch the device at all. *)
Lemma still_same {A} (m : M (Replica (Logged D)) A) : (∀ r, r_dev (m r).1 = r_dev r) → still m.
Proof. intros Hm r. rewrite Hm. apply extends_nil. Qed.

Lemma still_on_dev {A} (m : M (Logged D) A) : quiet m → still (on_dev m).
Proof. intros Hm r. specialize (Hm (r_dev r)). unfold on_dev, zoom. by destruct (m (r_dev r)). Qed.

Lemma still_attempt {A} (m : M (Replica (Logged D)) A) : still m → still (attempt m).
Proof. intros Hm r. specialize (Hm r). unfold attempt. by destruct (m r) as [r' []]. Qed.

Lemma still_for_fold {A B} (f : A → B → M (Replica (Logged D)) B) l b :
  (∀ a b, still (f a b)) → still (for_fold f l b).
Proof.
  intros Hf. revert b. induction l as [|a l IH]; intros b; [by apply still_same|].
  apply still_bind; [apply Hf|intros b'; apply IH].
Qed.

Lemma get_best_still key acc : still (get_best key acc).
Proof.
  unfold get_best, get_with_generation. destruct acc as [best g].
  apply still_bind; [|by intros [[[]|]|]; repeat case_match; apply still_same].
  apply still_bind; [by apply still_same|intros ix].
  destruct (MemIndex_get _ ix) as [e|]; [|by apply still_same].
  apply still_bind; [apply still_attempt, still_on_dev, verify_quiet|by intros; apply still_same].
Qed.

Lemma build_index_still : still Replica_build_index.
Proof.
  unfold Replica_build_index. do 3 (apply still_bind; [by apply still_same|intros ?]).
  apply still_bind; [|by intros; apply still_same]. apply still_for_fold. intros i buf.
  unfold index_scan. apply still_bind; [apply still_on_dev, quiet_read|intros b].
  apply still_bind; [by apply still_same|intros t]. destruct (negb _); [by apply still_same|].
  apply still_bind; [apply still_on_dev, verify_quiet|intros [rec|]]; [|by apply still_same].
  apply still_bind; [by apply still_same|intros ix].
  apply still_bind; [|by intros; apply still_same].
  destruct (MemIndex_get _ ix) as [ex|]; [destruct (_ <? _)|]; by apply still_same.
Qed.

Lemma open_quiet : quiet (open_replica_header (D := Logged D)).
Proof. unfold open_replica_header. quietly. Qed.

Lemma open_devices_quiet devs g rs :
  open_devices (D := Logged D) devs g = Ok rs → Forall2 (λ d r, extends d (r_dev r) []) devs rs.
Proof.
  revert g rs. induction devs as [|d devs IH]; intros g rs; cbn [open_devices];
    [intros [= <-]; constructor|].
  destruct (open_replica_header d) as [d' [h|e| |]] eqn:Ho; try done.
  destruct (match g with None => _ | Some _ => _ end); [done|].
  intros (rs' & Hrs & [= <-])%outcome_bind_inv. constructor; [|by eapply IH].
  exact (quiet_run _ _ _ _ open_quiet Ho).
Qed.

(** The journals of a list of replicas are untouched. *)
Definition undisturbed : list (Replica (Logged D)) → list (Replica (Logged D)) → Prop :=
  Forall2 (λ r r', extends (r_dev r) (r_dev r') []).

Lemma undisturbed_refl rs : undisturbed rs rs.
Proof. apply Forall_Forall2_diag, Forall_true. intros r. apply extends_nil. Qed.

Lemma undisturbed_fold {B} (f : B → M (Replica (Logged D)) B) rs b :
  (∀ b, still (f b)) → undisturbed rs (for_each_fold f rs b).1.
Proof.
  intros Hf. revert b. induction rs as [|r rs IH]; intros b; cbn [for_each_fold]; [constructor|].
  pose proof (Hf b r) as Hr. pose proof (undisturbed_refl rs) as Hrs.
  destruct (f b r) as [r' [b'|e| |]]; [|by constructor..].
  specialize (IH b'). destruct (for_each_fold f rs b'). by constructor.
Qed.

Lemma build_index_undisturbed (s : Store (Logged D)) :
  undisturbed (replicas s) (replicas (build_index s).1).
Proof.
  unfold build_index, on_replicas. rewrite for_each_mut_fold.
  pose proof (undisturbed_fold (λ _, Replica_build_index) (replicas s) tt
    (λ _, build_index_still)) as Hu. by destruct (for_each_fold _ _ _).
Qed.

Lemma reopen_undisturbed (s : Store (Logged D)) :
  undisturbed (replicas s) (replicas (reopen s).1).
Proof.
  unfold reopen, open. destruct (into_devices s) as [|d devs] eqn:Hdevs; [apply undisturbed_refl|].
  rewrite <- Hdevs. destruct (open_devices (into_devices s) None) as [rs|e| |] eqn:Ho;
    [|apply undisturbed_refl..].
  apply open_devices_quiet in Ho. unfold into_devices in Ho. rewrite Forall2_fmap_l in Ho.
  cbn [mbind outcome_bind]. pose proof (build_index_undisturbed {| replicas := rs; opts := opts s |}) as Hb.
  eapply Forall2_trans; [|exact Ho|exact Hb].
  intros r r1 r2 Hx1 Hx2. exact (extends_trans _ _ _ _ _ Hx1 Hx2).
Qed.

Lemma get_undisturbed key (s : Store (Logged D)) :
  undisturbed (replicas s) (replicas (get key s).1).
Proof.
  unfold get, on_replicas, mbind, M_bind.
  pose proof (undisturbed_fold (get_best key) (replicas s) (None, 0) (get_best_still key)) as Hu.
  by destruct (for_each_fold _ _ _) as [rs [[[v|] g]|e| |]].
Qed.

End Still.

(** ** An interrupted call *)

(** What may be left of the catalogs. *)
Definition shards_outage `{Profile} (bs : Z) (c : command) (ps ps' : list shard) : Prop :=
  match c with
  | CPut key value _ =>
      ps'.*2 = ps.*2 ∨
      zlen key ≤ bs - 36 ∧ ∃ g, above (key_str key) g ps ∧
        Forall2 (λ p p', p'.2 = p.2 ∨ put_on bs key value g p p') ps ps'
  | CDelete key => Forall2 (λ p p', p'.2 = p.2 ∨ p'.2 = base.delete (key_str key) p.2) ps ps'
  | CGet _ | CBuildIndex | CRecover | CReopen => ps'.*2 = ps.*2
  end.

Section Interrupted.
Context `{Profile} `{ReliableDevice D}.
Implicit Types (s : Store (Logged D)) (ps : list shard).

Lemma survivors_nothing bs ps ps' :
  Forall2 (survivor bs nothing_else) ps ps' → ps'.*2 = ps.*2.
Proof.
  induction 1 as [|p p' ps ps' (_ & _ & _ & [Hp|[]]) _ IH]; [done|]. by rewrite !fmap_cons, Hp, IH.
Qed.

(** From what is known of each replica to the shards that are left. *)
Lemma safe_outage bs n G R ps s rs' imgs :
  stored bs n G ps s → all_crash_safe bs R (replicas s) ps rs' →
  Forall3 (replica_crash bs) (replicas s) rs' imgs →
  (∀ p best k rec, R p best → best !! k = Some rec → p.2 !! k = Some rec) →
  ∃ ps', ps'.*1 = imgs ∧ Forall (bootable bs n (G + 1)) ps' ∧ Forall2 (survivor bs R) ps ps'.
Proof.
  intros (_ & _ & Hok) Hsafe Hcrash HR.
  destruct (all_crash_safe_survivors _ _ _ _ _ _ Hsafe Hcrash) as (ps' & <- & Hsv).
  exists ps'. split_and!; [done| |done].
  eapply survivors_bootable; [exact Hsv|exact Hok|lia|]. intros p best k rec HRp Hk.
  left. by eapply HR.
Qed.

Lemma undisturbed_survivable bs rs ps rs' :
  replicas_at bs rs ps → undisturbed rs rs' → all_crash_safe bs nothing_else rs ps rs'.
Proof.
  intros Hrs Hu. revert ps Hrs.
  induction Hu as [|r r' rs rs' Hr _ IH]; intros ps Hrs; inversion Hrs; subst; constructor; [|by apply IH].
  apply crash_safe_idle; [by apply replica_at_holds|done].
Qed.

Lemma undisturbed_outage bs n G ps s rs' imgs :
  stored bs n G ps s → undisturbed (replicas s) rs' →
  Forall3 (replica_crash bs) (replicas s) rs' imgs →
  ∃ ps', ps'.*1 = imgs ∧ Forall (bootable bs n (G + 1)) ps' ∧ ps'.*2 = ps.*2.
Proof.
  intros Hst Hu Hcrash. pose proof Hst as ([Hrs _] & _).
  destruct (safe_outage bs n G nothing_else ps s rs' imgs) as (ps' & Himgs & Hb & Hsv);
    [done|by apply undisturbed_survivable|done|done|].
  exists ps'. split_and!; [done|done|by eapply survivors_nothing].
Qed.

Lemma delete_survivable bs n G ps s key :
  stored bs n G ps s →
  all_crash_safe bs (delete_leaves (key_str key)) (replicas s) ps (replicas (delete key s).1).
Proof.
  intros ([Hrs Hp] & _ & Hok). unfold delete. mgets. unfold on_replicas, mbind, M_bind.
  pose proof (all_crash_safe_fold (delete_one (key_str key) (free_pattern (opts s))) bs
    (delete_leaves (key_str key)) (replicas s) ps false) as Hsafe.
  destruct (for_each_fold _ _ _) as [rs' out].
  assert (all_crash_safe bs (delete_leaves (key_str key)) (replicas s) ps rs') as Hall;
    [|by destruct out as [[]|e| |]].
  apply Hsafe. apply Forall2_same_length_lookup_2; [by eapply Forall2_length|]. intros i r p Hi Hj.
  pose proof (Forall2_lookup_lr _ _ _ _ _ _ Hrs Hi Hj) as Hr.
  split; [by apply replica_at_holds|]. intros found.
  eapply Forall_lookup_1 in Hok as (_ & [Hs _] & _); [|exact Hj]. by apply delete_crash_safe.
Qed.

Lemma delete_outage bs n G ps s key imgs :
  stored bs n G ps s →
  Forall3 (replica_crash bs) (replicas s) (replicas (delete key s).1) imgs →
  ∃ ps', ps'.*1 = imgs ∧ Forall (bootable bs n (G + 1)) ps' ∧
    Forall2 (λ p p', p'.2 = p.2 ∨ p'.2 = base.delete (key_str key) p.2) ps ps'.
Proof.
  intros Hst Hcrash.
  destruct (safe_outage bs n G (delete_leaves (key_str key)) ps s (replicas (delete key s).1) imgs)
    as (ps' & Himgs & Hb & Hsv); [done|by eapply delete_survivable|done| |].
  - intros p best k rec -> Hk. by apply lookup_delete_Some in Hk as [_ Hk].
  - exists ps'. split_and!; [done|done|]. eapply Forall2_impl; [exact Hsv|].
    by intros p p' (_ & _ & _ & ?).
Qed.

Lemma recover_survivable bs ps s :
  Forall2 (λ r p, holds bs p r) (replicas s) ps → 36 ≤ bs → good_pattern (free_pattern (opts s)) →
  all_crash_safe bs nothing_else (replicas s) ps (replicas (recover s).1).
Proof.
  intros Hrs Hbs Hp. unfold recover. mgets. unfold on_replicas.
  pose proof (all_crash_safe_mut (Replica_recover (free_pattern (opts s))) bs nothing_else
    (replicas s) ps) as Hsafe.
  destruct (for_each_mut _ _) as [rs' out]. apply Hsafe.
  eapply Forall2_impl; [exact Hrs|]. intros r p Hr. split; [done|by apply recover_crash_safe].
Qed.

(** Running a command and wrapping its result. *)
Lemma exec_state {A} (m : M (Store (Logged D)) A) (f : A → reply) s :
  ((a ← m; mret (f a)) s).1 = (m s).1.
Proof. unfold mbind, M_bind. by destruct (m s) as [s' []]. Qed.

(** Every command may be interrupted anywhere, and leaves nothing in flight. *)
Lemma exec_survivable bs n G ps s c :
  stored bs n G ps s → 36 ≤ bs → 0 ≤ G → G + 1 < U32 → command_ok bs c →
  ∃ R, all_crash_safe bs R (replicas s) ps (replicas (exec c s).1).
Proof.
  intros Hst Hbs HG HG1 Hc. pose proof Hst as ([Hrs Hp] & _).
  destruct c as [key|key value flags|key| | |]; unfold exec; rewrite exec_state.
  - exists nothing_else. apply undisturbed_survivable; [done|apply get_undisturbed].
  - destruct Hc as (Hk32 & Hk16 & Hv & Hfl). destruct (decide (zlen key ≤ bs - 36)) as [Hk|Hk].
    + destruct (put_survivable bs n G ps s key value flags Hst HG HG1 Hk (Hk16 Hk) Hfl)
        as (_ & _ & _ & Hsafe). by eexists.
    + exists nothing_else.
      rewrite (stored_put_too_long bs n G ps s key value flags Hst HG HG1 Hk32) by lia.
      apply undisturbed_survivable; [done|apply undisturbed_refl].
  - eexists. by eapply delete_survivable.
  - exists nothing_else. apply undisturbed_survivable; [done|apply build_index_undisturbed].
  - exists nothing_else. apply recover_survivable; [|done|done].
    eapply Forall2_impl; [exact Hrs|]. intros. by apply replica_at_holds.
  - exists nothing_else. apply undisturbed_survivable; [done|apply reopen_undisturbed].
Qed.

Lemma exec_outage bs n G ps s c imgs :
  stored bs n G ps s → 36 ≤ bs → 0 ≤ G → G + 1 < U32 → command_ok bs c →
  Forall3 (replica_crash bs) (replicas s) (replicas (exec c s).1) imgs →
  ∃ ps', ps'.*1 = imgs ∧ Forall (bootable bs n (G + 1)) ps' ∧ shards_outage bs c ps ps'.
Proof.
  intros Hst Hbs HG HG1 Hc Hcrash.
  destruct c as [key|key value flags|key| | |]; unfold exec in Hcrash; rewrite exec_state in Hcrash.
  - eapply undisturbed_outage; [done|apply get_undisturbed|done].
  - destruct Hc as (Hk32 & Hk16 & Hv & Hfl). destruct (decide (zlen key ≤ bs - 36)) as [Hk|Hk].
    + destruct (put_outage bs n G ps s key value flags imgs) as (g & ps' & ? & ? & ? & ?);
        [done|done|done|done|by apply Hk16|done|done|done|].
      exists ps'. split_and!; [done|done|]. right. split; [done|]. by exists g.
    + rewrite (stored_put_too_long bs n G ps s key value flags Hst HG HG1 Hk32) in Hcrash by lia.
      destruct (undisturbed_outage bs n G ps s _ imgs Hst (undisturbed_refl _) Hcrash)
        as (ps' & ? & ? & ?). exists ps'. split_and!; [done|done|by left].
  - by eapply delete_outage.
  - eapply undisturbed_outage; [done|apply build_index_undisturbed|done].
  - pose proof Hst as ([Hrs Hp] & _).
    destruct (safe_outage bs n G nothing_else ps s (replicas (recover s).1) imgs Hst)
      as (ps' & ? & ? & ?); [|done|done|].
    + apply recover_survivable; [|done|done]. eapply Forall2_impl; [exact Hrs|]. intros. by apply replica_at_holds.
    + exists ps'. split_and!; [done|done|by eapply survivors_nothing].
  - eapply undisturbed_outage; [done|apply reopen_undisturbed|done].
Qed.

(** *** What earlier calls left in flight *)

(** Nothing is in flight on any replica. *)
Definition durable s : Prop := Forall (λ r, synced (r_dev r)) (replicas s).

(** The blocks that may be left of the replicas, the whole journals considered. *)
Definition power_cuts (bs : Z) (rs rs' : list (Replica (Logged D))) (imgs : list image) : Prop :=
  Forall3 (λ r r' img, power_cut bs (r_dev r) (r_dev r') img) rs rs' imgs.

Lemma written_durable s s' : durable s → Forall2 written (replicas s) (replicas s') → durable s'.
Proof.
  intros Hd Hw. apply Forall_lookup_2. intros i r' Hi.
  destruct (Forall2_lookup_r _ _ _ _ _ Hw Hi) as (r & Hj & es & Hx & Hfd).
  eapply synced_extends; [exact (Forall_lookup_1 _ _ _ _ Hd Hj)|exact Hx|exact Hfd].
Qed.

Lemma undisturbed_written (rs rs' : list (Replica (Logged D))) :
  undisturbed rs rs' → Forall2 written rs rs'.
Proof. intros Hu. eapply Forall2_impl; [exact Hu|]. intros r r' Hx. exists []. split; [done|by left]. Qed.

Lemma exec_durable bs n G ps s c :
  stored bs n G ps s → 36 ≤ bs → 0 ≤ G → G + 1 < U32 → command_ok bs c → durable s →
  durable (exec c s).1.
Proof.
  intros Hst Hbs HG HG1 Hc Hd. destruct (exec_survivable bs n G ps s c Hst Hbs HG HG1 Hc) as [R Hsafe].
  eapply written_durable; [exact Hd|by eapply all_crash_safe_written].
Qed.

(** When nothing is in flight, only the interrupted call can lose writes. *)
Lemma power_cuts_crash bs rs rs' imgs ps :
  power_cuts bs rs rs' imgs → Forall2 (λ r p, dev_at (r_dev r) bs p.1) rs ps →
  Forall (λ r, synced (r_dev r)) rs → Forall2 written rs rs' →
  Forall3 (replica_crash bs) rs rs' imgs.
Proof.
  intros Hcut. revert ps. induction Hcut as [|r r' img rs rs' imgs Hcut _ IH];
    intros ps Hd Hs Hw; [constructor|].
  inversion Hd as [|? p ? ps' Hdr Hds]; subst. apply Forall_cons in Hs as [Hsr Hs].
  inversion Hw as [|? ? ? ? (es & Hx & _) Hws]; subst.
  constructor; [|by eapply IH]. exists p.1, es. split_and!; [done|done|by eapply power_cut_image].
Qed.

End Interrupted.

(** ** The life of a store *)

Inductive happening :=
| Call (c : command) (r : outcome reply)
| Outage (c : command).

Section Life.
Context `{Profile} `{BlockDevice D} `{!ReliableDevice D}.
Implicit Types (s : Store (Logged D)) (devs : list (Logged D)) (imgs : list image).

(** What an application does when it is started. *)
Definition power_up (o : Options) devs : outcome (Store (Logged D)) :=
  s ← open devs o;
  match reboot s with
  | (s', Ok _) => Ok s'
  | (_, Err e) => Err e
  | (_, Panic) => Panic
  | (_, Diverge) => Diverge
  end.

(** Working devices with the given blocks and nothing in flight, as after a power
    cycle, and options with a free pattern the allocator recognises. *)
Definition on_blocks (bs : Z) imgs (o : Options) devs : Prop :=
  Forall2 (λ d img, dev_at d bs img) devs imgs ∧ Forall synced devs ∧
  good_pattern (free_pattern o).

(** Starting from the blocks [imgs], after any number of attempts that lost power
    during the recovery. *)
Inductive boots (bs : Z) : list image → outcome (Store (Logged D)) → Prop :=
| boots_now imgs o devs : on_blocks bs imgs o devs → boots bs imgs (power_up o devs)
| boots_again imgs o devs s imgs' res :
    on_blocks bs imgs o devs → open devs o = Ok s →
    power_cuts bs (replicas s) (replicas (recover s).1) imgs' →
    boots bs imgs' res → boots bs imgs res.

(** The blocks [imgs] may be left when the power fails during the call. *)
Definition interrupted (bs : Z) (c : command) s imgs : Prop :=
  power_cuts bs (replicas s) (replicas (exec c s).1) imgs.

Inductive life (bs : Z) : Store (Logged D) → list happening → Store (Logged D) → Prop :=
| life_nil s : life bs s [] s
| life_call s c s1 r hs s' :
    command_ok bs c → exec c s = (s1, r) → life bs s1 hs s' → life bs s (Call c r :: hs) s'
| life_outage s c imgs s1 hs s' :
    command_ok bs c → interrupted bs c s imgs → boots bs imgs (Ok s1) → life bs s1 hs s' →
    life bs s (Outage c :: hs) s'.

Lemma open_durable devs o s : Forall synced devs → open devs o = Ok s → durable s.
Proof.
  intros Hs Hop. unfold durable.
  assert (Forall2 (λ d r, extends d (r_dev r) []) devs (replicas s)) as Hx.
  { unfold open in Hop. destruct devs as [|d devs]; [done|].
    apply outcome_bind_inv in Hop as (rs & Hrs & [= <-]). by eapply open_devices_quiet. }
  apply Forall_lookup_2. intros i r Hi. destruct (Forall2_lookup_r _ _ _ _ _ Hx Hi) as (d & Hj & Hxr).
  eapply synced_extends; [exact (Forall_lookup_1 _ _ _ _ Hs Hj)|exact Hxr|by left].
Qed.

Lemma open_bootable bs n G ps o devs :
  on_blocks bs ps.*1 o devs → Forall (bootable bs n G) ps → ps ≠ [] → 36 ≤ bs →
  ∃ s, open devs o = Ok s ∧ good_pattern (free_pattern (opts s)) ∧ durable s ∧
    Forall2 (λ r p, dev_at (r_dev r) bs p.1) (replicas s) ps.
Proof.
  intros (Hd & Hsync & Hp) Hboot Hne Hbs.
  destruct (open_spec bs n devs ps.*1 o Hd) as (s & Hop & Ho & Hm); [|done| |].
  - intros ?%fmap_nil_inv. done.
  - apply Forall_fmap. eapply Forall_impl; [exact Hboot|]. by intros p (? & ? & _).
  - exists s. split_and!; [done|by rewrite Ho|by eapply open_durable|]. rewrite Forall2_fmap_r in Hm.
    eapply Forall2_impl; [exact Hm|]. intros r p Hr. apply Hr.
Qed.

(** An interrupted recovery leaves shards that can be started again. *)
Lemma bootable_holds bs n G ps s :
  Forall2 (λ r p, dev_at (r_dev r) bs p.1) (replicas s) ps → Forall (bootable bs n G) ps →
  Forall2 (λ r p, holds bs p r) (replicas s) ps.
Proof.
  intros Hd Hboot. apply Forall2_same_length_lookup_2; [by eapply Forall2_length|]. intros i r p Hi Hj.
  pose proof (Forall2_lookup_lr _ _ _ _ _ _ Hd Hi Hj) as Hr.
  eapply Forall_lookup_1 in Hboot as (? & _ & ? & _); [|exact Hj]. by split_and!.
Qed.

Lemma recover_outage bs n G ps s imgs :
  Forall2 (λ r p, dev_at (r_dev r) bs p.1) (replicas s) ps → Forall (bootable bs n G) ps →
  durable s → 36 ≤ bs → good_pattern (free_pattern (opts s)) →
  power_cuts bs (replicas s) (replicas (recover s).1) imgs →
  ∃ ps', ps'.*1 = imgs ∧ Forall (bootable bs n G) ps' ∧ ps'.*2 = ps.*2.
Proof.
  intros Hd Hboot Hsync Hbs Hp Hcut. pose proof (bootable_holds bs n G ps s Hd Hboot) as Hh.
  pose proof (recover_survivable bs ps s Hh Hbs Hp) as Hsafe.
  pose proof (power_cuts_crash _ _ _ _ _ Hcut Hd Hsync (all_crash_safe_written _ _ _ _ _ Hsafe)) as Hcrash.
  destruct (all_crash_safe_survivors _ _ _ _ _ _ Hsafe Hcrash) as (ps' & <- & Hsv).
  exists ps'. split_and!; [done| |by eapply survivors_nothing].
  apply Forall_lookup_2. intros i p' Hi.
  destruct (Forall2_lookup_r _ _ _ _ _ Hsv Hi) as (p & Hj & Hh' & Hlen & Hcat & [Hp'|[]]).
  eapply Forall_lookup_1 in Hboot as (_ & Hn & _ & Hg); [|exact Hj].
  split_and!; [done|by rewrite Hlen|done|by rewrite Hp'].
Qed.

(** Recovery and indexing leave nothing in flight. *)
Lemma reboot_durable bs n G ps s s' :
  Forall2 (λ r p, dev_at (r_dev r) bs p.1) (replicas s) ps → Forall (bootable bs n G) ps →
  durable s → 36 ≤ bs → good_pattern (free_pattern (opts s)) → reboot s = (s', Ok tt) → durable s'.
Proof.
  intros Hd Hboot Hsync Hbs Hp Hre. pose proof (bootable_holds bs n G ps s Hd Hboot) as Hh.
  pose proof (all_crash_safe_written _ _ _ _ _ (recover_survivable bs ps s Hh Hbs Hp)) as Hw.
  unfold reboot, mbind, M_bind in Hre. destruct (recover s) as [s1 [[]|e| |]]; try done.
  pose proof (build_index_undisturbed s1) as Hu. rewrite Hre in Hu.
  eapply written_durable; [by eapply written_durable|by apply undisturbed_written].
Qed.

Lemma boots_spec bs n G ps res :
  boots bs ps.*1 res → Forall (bootable bs n G) ps → ps ≠ [] → 36 ≤ bs →
  ∃ s' qs, res = Ok s' ∧ stored bs n G qs s' ∧ durable s' ∧ qs.*2 = ps.*2.
Proof.
  intros Hb. remember ps.*1 as imgs eqn:Himgs. revert ps Himgs.
  induction Hb as [imgs o devs Hon|imgs o devs s imgs' res Hon Hop Hcrash _ IH];
    intros ps -> Hboot Hne Hbs;
    destruct (open_bootable bs n G ps o devs Hon Hboot Hne Hbs) as (s0 & Hop0 & Hp & Hs0 & Hd).
  - destruct (reboot_spec bs n G ps s0) as (s' & qs & Hre & Hst & Hqs); [done..|].
    exists s', qs. unfold power_up. rewrite Hop0. cbn [mbind outcome_bind]. rewrite Hre.
    split_and!; [done|apply Hst..|by eapply reboot_durable|done].
  - rewrite Hop in Hop0. injection Hop0 as <-.
    destruct (recover_outage bs n G ps s imgs' Hd Hboot Hs0 Hbs Hp Hcrash) as (ps' & <- & Hb' & Hcat).
    rewrite <- Hcat. apply IH; [done|done| |done].
    intros ->. apply Hne. by apply fmap_nil_inv with (f := snd), (eq_sym Hcat).
Qed.

End Life.

(** ** The abstract life *)

(** The values that a replica which missed a [put] may still hold. *)
Abbreviation stale := (gset (list byte * list byte)).

Definition drop_key (k : list byte) (h : stale) : stale := filter (λ e, e.1 ≠ k) h.

(** What may be left behind when some of [N] replicas, at least one, give the
    key a new value. *)
Definition retire (N : Z) (k : list byte) (m : kv) (h : stale) : stale :=
  if N =? 1 then drop_key k h
  else match m !! k with Some v => {[(k, v)]} ∪ h | None => h end.

Definition stale_call (N : Z) (c : command) (r : outcome reply) (m : kv) (h : stale) : stale :=
  match c, r with
  | CPut key _ _, Ok _ => drop_key (key_str key) h
  | CPut key _ _, Err StorageFull => retire N (key_str key) m h
  | CDelete key, _ => drop_key (key_str key) h
  | _, _ => h
  end.

(** An interrupted call: it happened or it did not.  An interrupted [delete] may
    also bring back a value that only a lagging replica held. *)
Inductive kv_outage (bs N : Z) (m : kv) (h : stale) : command → kv → stale → Prop :=
| outage_undone c : kv_outage bs N m h c m h
| outage_put key value flags :
    zlen key ≤ bs - 36 →
    kv_outage bs N m h (CPut key value flags) (<[key_str key := value]> m) (retire N (key_str key) m h)
| outage_delete key :
    kv_outage bs N m h (CDelete key) (base.delete (key_str key) m) (drop_key (key_str key) h)
| outage_revive key v :
    (key_str key, v) ∈ h →
    kv_outage bs N m h (CDelete key) (<[key_str key := v]> m) (retire N (key_str key) m h).

Inductive kv_life (bs N : Z) : kv → stale → list happening → kv → stale → Prop :=
| kv_life_nil m h : kv_life bs N m h [] m h
| kv_life_call m h c r m1 hs m' h' :
    kv_step bs m c r m1 → kv_life bs N m1 (stale_call N c r m h) hs m' h' →
    kv_life bs N m h (Call c r :: hs) m' h'
| kv_life_outage m h c m1 h1 hs m' h' :
    kv_outage bs N m h c m1 h1 → kv_life bs N m1 h1 hs m' h' →
    kv_life bs N m h (Outage c :: hs) m' h'.

(** With one replica nothing is ever stale. *)
Lemma kv_life_single bs m h hs m' h' : kv_life bs 1 m h hs m' h' → h = ∅ → h' = ∅.
Proof.
  assert (∀ k m0, drop_key k ∅ = ∅ ∧ retire 1 k m0 ∅ = ∅) as He.
  { intros k m0. unfold retire, drop_key. simpl. split; set_solver. }
  induction 1 as [m h|m h c r m1 hs m' h' _ _ IH|m h c m1 h1 hs m' h' Ho _ IH]; intros ->; [done| |];
    apply IH.
  - unfold stale_call. repeat case_match; try done; (apply He || eapply (proj1 (He _ ∅))).
  - inversion Ho as [| | |key v Hin]; subst; [done|apply He|eapply (proj1 (He _ ∅))|].
    by apply not_elem_of_empty in Hin.
Qed.

(** ** The shards follow the abstract life *)

(** Every record of a replica is the current one or a known stale one. *)
Definition tracked (N : Z) (ps : list shard) (m : kv) (h : stale) : Prop :=
  zlen ps = N ∧ contents ps = m ∧
  ∀ best k rec, best ∈ ps.*2 → best !! k = Some rec →
    m !! k = Some (cr_value rec) ∨ (k, cr_value rec) ∈ h.

Section Tracked.
Implicit Types (N : Z) (ps : list shard) (m : kv) (h : stale).

Lemma elem_of_drop k k' (v : list byte) h : (k', v) ∈ drop_key k h ↔ k' ≠ k ∧ (k', v) ∈ h.
Proof. unfold drop_key. rewrite elem_of_filter. done. Qed.

Lemma tracked_catalogs N ps ps' m h : ps'.*2 = ps.*2 → tracked N ps m h → tracked N ps' m h.
Proof.
  intros Heq (HN & Hc & Hr). split_and!.
  - rewrite <- HN, <- (length_fmap snd ps'), Heq, length_fmap. done.
  - by rewrite <- Hc; apply contents_catalogs.
  - by rewrite Heq.
Qed.

(** How the records of the new shards are those of the old ones. *)
Lemma tracked_step N ps ps' m h m' h' (R : shard → shard → Prop) :
  tracked N ps m h → Forall2 R ps ps' → contents ps' = m' →
  (∀ p p' k rec, p ∈ ps → p' ∈ ps' → R p p' → p'.2 !! k = Some rec →
    (p.2 !! k = Some rec → m !! k = Some (cr_value rec) ∨ (k, cr_value rec) ∈ h) →
    m' !! k = Some (cr_value rec) ∨ (k, cr_value rec) ∈ h') →
  tracked N ps' m' h'.
Proof.
  intros (HN & Hc & Hr) Hf Hc' Hstep. split_and!; [|done|].
  - by rewrite <- (Forall2_length _ _ _ Hf).
  - intros best k rec (p' & -> & Hp')%list_elem_of_fmap Hk.
    apply list_elem_of_lookup in Hp' as [i Hi].
    destruct (Forall2_lookup_r _ _ _ _ _ Hf Hi) as (p & Hj & HR).
    apply list_elem_of_lookup_2 in Hi, Hj.
    eapply Hstep; [exact Hj|exact Hi|exact HR|exact Hk|].
    apply Hr. by apply list_elem_of_fmap_2.
Qed.

Lemma retire_ne N k k' (v : list byte) m h : k' ≠ k → (k', v) ∈ h → (k', v) ∈ retire N k m h.
Proof.
  intros Hne Hin. unfold retire. destruct (N =? 1); [by apply elem_of_drop|].
  destruct (m !! k); set_solver.
Qed.

Lemma retire_old N k (v : list byte) m h :
  N ≠ 1 → m !! k = Some v ∨ (k, v) ∈ h → (k, v) ∈ retire N k m h.
Proof.
  intros HN Hv. unfold retire. destruct (N =? 1) eqn:E; zbool; [done|].
  destruct Hv as [->|?]; [set_solver|]. destruct (m !! k); set_solver.
Qed.

Lemma tracked_updated N k g v ps ps' m h :
  tracked N ps m h → above k g ps →
  Forall2 (λ p p', p'.2 = p.2 ∨ updated k g v p p') ps ps' →
  Exists (λ p', cr_generation <$> p'.2 !! k = Some g) ps' →
  tracked N ps' (<[k := v]> m) (retire N k m h).
Proof.
  intros Ht Hab Hf Hex. pose proof Ht as (HN & Hc & _).
  eapply tracked_step; [exact Ht|exact Hf|rewrite <- Hc; by eapply update_contents_some|].
  intros p p' k' rec Hp Hp' HR Hk Hold. destruct (decide (k' = k)) as [->|Hne].
  - rewrite lookup_insert_eq. destruct HR as [Heq|(new & Heq & _ & Hv)]; rewrite Heq in Hk.
    2: { rewrite lookup_insert_eq in Hk. injection Hk as ->. left. by rewrite Hv. }
    right. apply retire_old; [|by apply Hold]. intros ->.
    destruct ps' as [|q [|? ?]]; rewrite (Forall2_length _ _ _ Hf) in HN; simpl in HN; try lia.
    apply list_elem_of_singleton in Hp' as ->. apply Exists_cons in Hex as [Hg|Hg%Exists_nil]; [|done].
    rewrite Heq, Hk in Hg. injection Hg as Hg. specialize (Hab _ _ Hp Hk). lia.
  - rewrite lookup_insert_ne by done.
    assert (p.2 !! k' = Some rec) as Hk'.
    { destruct HR as [Heq|(new & Heq & _)]; rewrite Heq in Hk; [done|]. by rewrite lookup_insert_ne in Hk. }
    destruct (Hold Hk') as [|]; [by left|right; by apply retire_ne].
Qed.

(** When every replica has the new value nothing stale is left of the key. *)
Lemma tracked_put_all N k g v ps ps' m h :
  tracked N ps m h → ps ≠ [] → above k g ps → Forall2 (updated k g v) ps ps' →
  tracked N ps' (<[k := v]> m) (drop_key k h).
Proof.
  intros Ht Hne Hab Hf. pose proof Ht as (_ & Hc & _).
  eapply tracked_step; [exact Ht|exact Hf| |].
  - rewrite <- Hc. apply (update_contents_some k g); [|done|].
    + eapply Forall2_impl; [exact Hf|]. by right.
    + destruct Hf as [|p p' ps ps' (rec & Hp & Hg & _) _]; [done|]. left.
      by rewrite Hp, lookup_insert_eq, <- Hg.
  - intros p p' k' rec _ _ (new & Heq & _ & Hv) Hk Hold. rewrite Heq in Hk.
    destruct (decide (k' = k)) as [->|Hne'].
    + rewrite lookup_insert_eq in Hk. injection Hk as ->. left. by rewrite lookup_insert_eq, Hv.
    + rewrite lookup_insert_ne in Hk by done. rewrite lookup_insert_ne by done. destruct (Hold Hk); [by left|right; by apply elem_of_drop].
Qed.

Lemma tracked_retire N k ps m h : tracked N ps m h → tracked N ps m (retire N k m h).
Proof.
  intros (HN & Hc & Hr). split_and!; [done|done|]. intros best k' rec Hb Hk.
  specialize (Hr best k' rec Hb Hk). destruct (decide (k' = k)) as [->|Hne];
    [|destruct Hr; [by left|right; by apply retire_ne]].
  destruct (decide (N = 1)) as [->|HN1]; [|right; by apply retire_old].
  left. destruct ps as [|p [|? ?]]; simpl in HN; try lia.
  apply list_elem_of_singleton in Hb as ->. rewrite <- Hc, contents_lookup. simpl. unfold pick.
  by rewrite Hk.
Qed.

Lemma tracked_delete N k ps ps' m h :
  tracked N ps m h → Forall2 (λ p p', p'.2 = base.delete k p.2) ps ps' →
  tracked N ps' (base.delete k m) (drop_key k h).
Proof.
  intros Ht Hf. pose proof Ht as (_ & Hc & _).
  eapply tracked_step; [exact Ht|exact Hf|rewrite <- Hc; by apply delete_contents|].
  intros p p' k' rec _ _ Heq Hk Hold. rewrite Heq, lookup_delete_Some in Hk. destruct Hk as [Hne Hk].
  rewrite lookup_delete_ne by done. destruct (Hold Hk); [by left|right; by apply elem_of_drop].
Qed.

(** A call that returns. *)
Lemma tracked_call `{Profile} bs N c r ps ps' m h :
  tracked N ps m h → ps ≠ [] → shards_step bs c r ps ps' →
  tracked N ps' (contents ps') (stale_call N c r m h).
Proof.
  intros Ht Hne Hst. pose proof Ht as (_ & Hc & _).
  assert (ps'.*2 = ps.*2 → tracked N ps' (contents ps') h) as Hsame.
  { intros Heq. rewrite (contents_catalogs _ _ Heq), Hc. by eapply tracked_catalogs. }
  destruct c as [key|key value flags|key| | |]; cbn [shards_step stale_call] in *.
  1, 4-6: destruct Hst as [_ Heq]; repeat case_match; by apply Hsame.
  - case_decide as Hk; [|destruct Hst as [-> ->]; by apply Hsame].
    destruct Hst as (g & pre & pre' & rest & -> & -> & Hab & Hpre & Hr).
    assert (Forall2 (updated (key_str key) g value) pre pre') as Hupd
      by (eapply Forall2_impl; [exact Hpre|]; intros; by eapply put_on_updated).
    pose proof (put_contents key value pre pre' rest g Hab Hupd) as Hcont. rewrite Hcont, Hc.
    destruct rest as [|p rest]; [subst r|destruct Hr as [-> _]]; case_decide as Hnil.
    + by subst.
    + rewrite !app_nil_r in *. by eapply tracked_put_all.
    + subst pre. inversion Hpre; subst. by apply tracked_retire.
    + eapply tracked_updated; [exact Ht|exact Hab| |].
      * apply Forall2_app; [eapply Forall2_impl; [exact Hupd|by right]|].
        apply Forall_Forall2_diag, Forall_true. by left.
      * destruct Hupd as [|q q' pre pre' (rec & Hq & Hg & _) _]; [done|]. left.
        by rewrite Hq, lookup_insert_eq, <- Hg.
  - destruct Hst as [-> Hdel]. rewrite (delete_contents _ _ _ Hdel), Hc.
    by eapply tracked_delete.
Qed.

(** A call that is interrupted. *)
Lemma kept_lookup (k k' : list byte) (p p' : shard) (rec : CompleteRecord) :
  p'.2 = p.2 ∨ p'.2 = base.delete k p.2 → p'.2 !! k' = Some rec → p.2 !! k' = Some rec.
Proof. intros [->| ->]; [done|]. by intros [_ ?]%lookup_delete_Some. Qed.

(** A value that was not the current one comes from a lagging replica. *)
Lemma tracked_revived N k v ps ps' m h :
  tracked N ps m h → Forall2 (λ p p', p'.2 = p.2 ∨ p'.2 = base.delete k p.2) ps ps' →
  contents ps' !! k = Some v → m !! k ≠ Some v → (k, v) ∈ h ∧ N ≠ 1.
Proof.
  intros (HN & Hc & Hr) Hf Hk Hm.
  rewrite contents_winner in Hk. apply fmap_Some in Hk as (rec & Hw & ->).
  pose proof (winners_max ps' k) as Hmax. rewrite Hw in Hmax. destruct Hmax as [(p' & Hp' & Hpk) _].
  apply list_elem_of_lookup in Hp' as [i Hi].
  destruct (Forall2_lookup_r _ _ _ _ _ Hf Hi) as (p & Hj & HR).
  pose proof (kept_lookup _ _ _ _ _ HR Hpk) as Hk. apply list_elem_of_lookup_2 in Hj as Hp. split.
  - by destruct (Hr p.2 k rec) as [|]; [apply list_elem_of_fmap_2| | |].
  - intros ->. destruct ps as [|q [|? ?]]; simpl in HN; try lia.
    apply list_elem_of_singleton in Hp as ->. apply Hm. rewrite <- Hc, contents_lookup. simpl.
    unfold pick. by rewrite Hk.
Qed.

Lemma tracked_outage_delete bs N key ps ps' m h :
  tracked N ps m h →
  Forall2 (λ p p', p'.2 = p.2 ∨ p'.2 = base.delete (key_str key) p.2) ps ps' →
  ∃ m' h', kv_outage bs N m h (CDelete key) m' h' ∧ tracked N ps' m' h'.
Proof.
  intros Ht Hf. pose proof Ht as (_ & Hc & _). set (k := key_str key) in *.
  assert (∀ k', k' ≠ k → contents ps' !! k' = m !! k') as Hother.
  { intros k' Hne. rewrite <- Hc, !contents_lookup. f_equal. apply pick_ext.
    eapply Forall2_impl; [exact Hf|]. intros p p' [->| ->]; [done|]. by rewrite lookup_delete_ne. }
  destruct (contents ps' !! k) as [v|] eqn:Hk; [destruct (decide (m !! k = Some v)) as [Hm|Hm]|].
  - exists m, h. split; [constructor|]. eapply tracked_step; [exact Ht|exact Hf| |].
    + apply map_eq. intros k'. destruct (decide (k' = k)) as [->|]; [congruence|by apply Hother].
    + intros p p' k' rec _ _ HR Hk' Hold. exact (Hold (kept_lookup _ _ _ _ _ HR Hk')).
  - destruct (tracked_revived N k v ps ps' m h Ht Hf Hk Hm) as [Hin HN1].
    exists (<[k := v]> m), (retire N k m h). split; [by constructor|].
    eapply tracked_step; [exact Ht|exact Hf| |].
    + apply map_eq. intros k'. destruct (decide (k' = k)) as [->|]; [by rewrite lookup_insert_eq|].
      rewrite lookup_insert_ne by done. by apply Hother.
    + intros p p' k' rec _ _ HR Hk' Hold. specialize (Hold (kept_lookup _ _ _ _ _ HR Hk')).
      destruct (decide (k' = k)) as [->|Hne]; [right; by apply retire_old|].
      rewrite lookup_insert_ne by done. destruct Hold; [by left|right; by apply retire_ne].
  - exists (base.delete k m), (drop_key k h). split; [by constructor|].
    eapply tracked_step; [exact Ht|exact Hf| |].
    + apply map_eq. intros k'. destruct (decide (k' = k)) as [->|]; [by rewrite lookup_delete_eq|].
      rewrite lookup_delete_ne by done. by apply Hother.
    + intros p p' k' rec _ Hp' HR Hk' Hold. specialize (Hold (kept_lookup _ _ _ _ _ HR Hk')).
      assert (k' ≠ k) as Hne.
      { intros ->. apply eq_None_not_Some in Hk. apply Hk, winners_dom, Exists_exists. by exists p'. }
      rewrite lookup_delete_ne by done. destruct Hold; [by left|right; by apply elem_of_drop].
Qed.

Lemma tracked_outage `{Profile} bs N c ps ps' m h :
  tracked N ps m h → shards_outage bs c ps ps' →
  ∃ m' h', kv_outage bs N m h c m' h' ∧ tracked N ps' m' h'.
Proof.
  intros Ht Hst.
  assert (ps'.*2 = ps.*2 → ∃ m' h', kv_outage bs N m h c m' h' ∧ tracked N ps' m' h') as Hsame.
  { intros Heq. exists m, h. split; [constructor|by eapply tracked_catalogs]. }
  destruct c as [key|key value flags|key| | |]; cbn [shards_outage] in Hst; [by apply Hsame| |
    by apply (tracked_outage_delete bs N key ps)|by apply Hsame..].
  destruct Hst as [Heq|(Hk & g & Hab & Hon)]; [by apply Hsame|].
  assert (Forall2 (λ p p', p'.2 = p.2 ∨ updated (key_str key) g value p p') ps ps') as Hf.
  { eapply Forall2_impl; [exact Hon|]. intros p p' [?|?%put_on_updated]; auto. }
  destruct (decide (Exists (λ p', cr_generation <$> p'.2 !! key_str key = Some g) ps')) as [Hx|Hx].
  - eexists _, _. split; [by constructor|by eapply tracked_updated].
  - by eapply Hsame, update_none.
Qed.

End Tracked.

(** ** Properties *)

(** The life of the shards.  The blocks change when the store is started, the
    catalogs do not. *)
Definition sound (bs n : Z) (ps : list shard) : Prop :=
  ps ≠ [] ∧ Forall (λ p, zlen p.1 = n ∧ has_header bs p.1 ∧ catalog bs p.1 p.2 ∧ clean bs p) ps.

Inductive shards_life `{Profile} (bs n : Z) : list shard → list happening → list shard → Prop :=
| shards_nil ps : shards_life bs n ps [] ps
| shards_call ps c r ps1 hs ps' :
    sound bs n ps → shards_step bs c r ps ps1 → shards_life bs n ps1 hs ps' →
    shards_life bs n ps (Call c r :: hs) ps'
| shards_lost ps c ps1 ps2 hs ps' :
    sound bs n ps → shards_outage bs c ps ps1 → ps2.*2 = ps1.*2 → shards_life bs n ps2 hs ps' →
    shards_life bs n ps (Outage c :: hs) ps'.

(** The life of the map follows that of the shards. *)
Lemma shards_life_kv `{Profile} bs n N ps hs ps' m h :
  shards_life bs n ps hs ps' → tracked N ps m h →
  ∃ m' h', kv_life bs N m h hs m' h' ∧ tracked N ps' m' h'.
Proof.
  intros Hl. revert m h.
  induction Hl as [ps|ps c r ps1 hs ps' [Hne _] Hstep _ IH|ps c ps1 ps2 hs ps' [Hne _] Hout Hcat _ IH];
    intros m h Ht.
  { exists m, h. by split; [constructor|]. }
  - destruct (IH _ _ (tracked_call bs N c r ps ps1 m h Ht Hne Hstep)) as (m' & h' & Hkv & Ht').
    exists m', h'. split; [|done]. econstructor; [|exact Hkv].
    destruct Ht as (_ & <- & _). by apply shards_step_kv.
  - destruct (tracked_outage bs N c ps ps1 m h Ht Hout) as (m1 & h1 & Hkv1 & Ht1).
    destruct (IH _ _ (tracked_catalogs _ _ _ _ _ Hcat Ht1)) as (m' & h' & Hkv & Ht').
    exists m', h'. split; [|done]. by econstructor.
Qed.

Section Refines.
Context `{Profile} `{ReliableDevice D}.
Implicit Types (s : Store (Logged D)) (ps : list shard) (m : kv).

Lemma stored_sound bs n G ps s : stored bs n G ps s → sound bs n ps.
Proof.
  intros ([Hrs _] & Hne & Hok). split; [done|]. apply Forall_lookup_2. intros i p Hi.
  destruct (Forall2_lookup_r _ _ _ _ _ Hrs Hi) as (r & _ & Hr).
  eapply Forall_lookup_1 in Hok as (? & ? & _); [|exact Hi]. destruct Hr. by split_and!.
Qed.

(** A power loss during a call: the restarted store. *)
Lemma outage_step bs n G ps s c imgs res :
  stored bs n G ps s → durable s → 36 ≤ bs → 0 ≤ G → G + 1 < U32 → command_ok bs c →
  interrupted bs c s imgs → boots bs imgs res →
  ∃ s' ps1 ps', res = Ok s' ∧ shards_outage bs c ps ps1 ∧ ps'.*2 = ps1.*2 ∧
    stored bs n (G + 1) ps' s' ∧ durable s'.
Proof.
  intros Hst Hsync Hbs HG HG1 Hc Hint Hb. pose proof Hst as ([Hrs _] & Hne & _).
  destruct (exec_survivable bs n G ps s c Hst Hbs HG HG1 Hc) as [R Hsafe].
  assert (Forall3 (replica_crash bs) (replicas s) (replicas (exec c s).1) imgs) as Hcrash.
  { eapply power_cuts_crash; [exact Hint| |exact Hsync|by eapply all_crash_safe_written].
    eapply Forall2_impl; [exact Hrs|]. intros r p Hr. apply Hr. }
  destruct (exec_outage bs n G ps s c imgs Hst Hbs HG HG1 Hc Hcrash) as (ps1 & <- & Hboot & Hout).
  destruct (boots_spec bs n (G + 1) ps1 res Hb Hboot) as (s' & qs & -> & Hs' & Hd' & Hqs); [|done|].
  - intros ->. apply Hne, nil_length_inv. rewrite <- (Forall2_length _ _ _ Hrs). by inversion Hcrash.
  - by exists s', ps1, qs.
Qed.

Lemma life_shards bs n G ps s hs s' :
  life bs s hs s' → stored bs n G ps s → durable s → 36 ≤ bs → 0 ≤ G → G + zlen hs < U32 →
  ∃ ps', shards_life bs n ps hs ps' ∧ stored bs n (G + zlen hs) ps' s' ∧ durable s'.
Proof.
  intros Hl. revert G ps.
  induction Hl as [s|s c s1 r hs s' Hc Hrun _ IH|s c imgs s1 hs s' Hc Hint Hb _ IH];
    intros G ps Hst Hsync Hbs HG HG1; cbn [length] in *.
  { exists ps. rewrite Z.add_0_r. split; [constructor|done]. }
  all: pose proof (stored_sound _ _ _ _ _ Hst) as Hsound.
  all: replace (G + Z.of_nat (S (length hs))) with (G + 1 + zlen hs) in * by lia.
  - destruct (exec_shards bs n G ps s c Hst Hbs HG ltac:(lia) Hc) as (s1' & r' & ps1 & Hrun' & Hstep & Hst1).
    pose proof (exec_durable bs n G ps s c Hst Hbs HG ltac:(lia) Hc Hsync) as Hs1.
    rewrite Hrun in Hrun', Hs1. injection Hrun' as <- <-.
    destruct (IH (G + 1) ps1 Hst1 Hs1 Hbs ltac:(lia) ltac:(lia)) as (ps' & ? & ?).
    exists ps'. split; [by econstructor|done].
  - destruct (outage_step bs n G ps s c imgs _ Hst Hsync Hbs HG ltac:(lia) Hc Hint Hb)
      as (s2 & ps1 & ps2 & [= <-] & Hout & Hcat & Hst1 & Hs1).
    destruct (IH (G + 1) ps2 Hst1 Hs1 Hbs ltac:(lia) ltac:(lia)) as (ps' & ? & ?).
    exists ps'. split; [by econstructor|done].
Qed.





(** A store that was just formatted, opened and indexed has nothing in flight,
    whatever its devices had. *)
Lemma format_durable o i (devs devs' : list (Logged D)) :
  format_devices o i devs = (devs', Ok tt) → Forall synced devs'.
Proof.
  revert i devs'. induction devs as [|d devs IH]; intros i devs'; cbn [format_devices].
  { intros [= <-]. constructor. }
  destruct (format_device o i d) as [d' [[]|e| |]] eqn:Hd; try done.
  destruct (format_devices o (i + 1) devs) as [ds r] eqn:Hds. intros [= <- ->].
  constructor; [|by eapply IH]. destruct (format_device_issues _ _ _ _ _ Hd) as (es & [Hb Hl] & es' & ->).
  unfold synced. by rewrite Hl, app_assoc, settle_app.
Qed.

Lemma started_durable o (devs devs' : list (Logged D)) s s0 :
  format o devs = (devs', Ok tt) → open devs' o = Ok s → build_index s = (s0, Ok tt) → durable s0.
Proof.
  intros Hf Hop Hb. assert (Forall synced devs') as Hs.
  { unfold format in Hf. destruct devs as [|d devs]; [done|]. by eapply format_durable. }
  pose proof (build_index_undisturbed s) as Hu. rewrite Hb in Hu.
  eapply written_durable; [by eapply open_durable|by apply undisturbed_written].
Qed.

End Refines.

(** C2: the store survives any number of power losses.  Format blank devices,
    open and index them, then let any sequence of calls happen, each of which
    returns or loses power at any point, with any of the writes since the last
    flush missing or torn, whichever call issued them; after a loss what is left
    is opened, recovered and indexed, and the recovery may lose power as often as
    it likes.  Starting again always succeeds, and the store always answers as a
    finite map: a call that returned has happened for good, an interrupted call
    has happened or has not.  The one exception is a [delete] interrupted when
    some replica had missed an earlier [put]: it may also bring back the older
    value this replica still held (the rule [outage_revive], from the set of
    stale values that the map carries along).  With a single replica this set
    stays empty, and an interrupted call has always happened or not. *)
Theorem outages_refine_map `{Profile} `{ReliableDevice D} o bs n (devs : list (Logged D)) imgs :
  Forall2 (λ d img, dev_at d bs img) devs imgs → imgs ≠ [] → 36 ≤ bs → 1 ≤ n →
  Forall (λ img, zlen img = n ∧ blank img) imgs → 0 ≤ replica_id o →
  replica_id o + zlen devs < U32 → u32 (format_seq o) → good_pattern (free_pattern o) →
  ∃ devs' s s0, format o devs = (devs', Ok tt) ∧ open devs' o = Ok s ∧
    build_index s = (s0, Ok tt) ∧
    ∀ hs s', life bs s0 hs s' → zlen hs + 1 < U32 →
      (∃ m h, kv_life bs (zlen devs) ∅ ∅ hs m h ∧ represents bs n (zlen hs) s' m ∧
        (zlen devs = 1 → h = ∅)) ∧
      ∀ c left res, command_ok bs c → interrupted bs c s' left → boots bs left res →
        ∃ s2, res = Ok s2.
Proof.
  intros Hd Hne Hbs Hn Himgs Hid Hlt Hseq Hp.
  destruct (stored_fresh o bs n devs imgs Hd Hne Hbs Hn Himgs Hid Hlt Hseq Hp)
    as (devs' & s & s0 & ps & Hf & Hop & Hb & Hst & Hempty & Hlen).
  exists devs', s, s0. split_and!; [done|done|done|]. intros hs s' Hl Hhs.
  assert (tracked (zlen devs) ps ∅ ∅) as Ht.
  { split_and!; [by rewrite Hlen|by apply contents_empty|].
    intros best k rec (p & -> & Hin)%list_elem_of_fmap Hk.
    eapply Forall_forall in Hempty; [|exact Hin]. by rewrite Hempty, lookup_empty in Hk. }
  pose proof (started_durable o devs devs' s s0 Hf Hop Hb) as Hsync.
  destruct (life_shards bs n 0 ps s0 hs s' Hl Hst Hsync) as (ps' & Hsl & Hst' & Hs'); [done|done|lia|].
  destruct (shards_life_kv bs n (zlen devs) ps hs ps' ∅ ∅ Hsl Ht) as (m & h & Hkv & Ht').
  rewrite Z.add_0_l in Hst'. split.
  - exists m, h. split_and!; [done|exists ps'; split; [done|apply Ht']|].
    intros HN. rewrite HN in Hkv. by eapply kv_life_single.
  - intros c left res Hc Hint Hboot.
    destruct (outage_step bs n (zlen hs) ps' s' c left res)
      as (s2 & _ & _ & -> & _); [done|done|done|lia|lia|done|done|done|by exists s2].
Qed.


(** *** A concrete life *)

(** The power fails before the first write of a [put]; the key is not there. *)
Definition sample_fresh : Logged MemDevice :=
  {| l_dev := MemDevice_new 64 4; l_base := replicate 4 (replicate 64 x00); l_log := [] |}.

Lemma sample_fresh_at : dev_at sample_fresh 64 (replicate 4 (replicate 64 x00)).
Proof. split; [apply MemDevice_new_at; lia|done]. Qed.

(** What [format], [open] and [build_index] make of it. *)
Definition sample_started : Store (Logged MemDevice) := {|
  replicas := [{|
    r_dev := {| l_dev := sample_device; l_base := replicate 4 (replicate 64 x00);
      l_log := [EWrite 0 (seal (encode_storage sample_header ++ replicate 32 x00)); EFlush] |};
    r_header := sample_header; r_index := MemIndex_new |}];
  opts := Options_new |}.

Lemma sample_fresh_blank :
  Forall (λ img, zlen img = 4 ∧ blank img) [replicate 4 (replicate 64 x00)].
Proof.
  constructor; [|constructor]. split; [done|]. intros x Hx.
  assert (x = 1 ∨ x = 2 ∨ x = 3) as [->|[->| ->]] by (simpl in Hx; lia); done.
Qed.

Lemma sample_started_eq devs' s s0 :
  format (H := dev_profile) Options_new [sample_fresh] = (devs', Ok tt) →
  open (H := dev_profile) devs' Options_new = Ok s → build_index (H := dev_profile) s = (s0, Ok tt) →
  s0 = sample_started.
Proof.
  intros Hf Ho Hb. vm_compute in Hf. injection Hf as <-. vm_compute in Ho. injection Ho as <-.
  vm_compute in Hb. injection Hb as <-. by vm_compute.
Qed.

Lemma sample_life : ∃ s' r,
  life (H := dev_profile) 64 sample_started [Outage (CPut [x6b] [x76] 0); Call (CGet [x6b]) r] s'.
Proof.
  destruct (power_up (H := dev_profile) Options_new [r_dev sample_logged]) as [s1|e| |] eqn:Hup;
    [|by vm_compute in Hup..].
  destruct (exec (H := dev_profile) (CGet [x6b]) s1) as [s2 r] eqn:Hget.
  exists s2, r. eapply (life_outage _ _ _ [sample_image]).
  - simpl. unfold u32. lia.
  - unfold interrupted.
    destruct (exec (CPut [x6b] [x76] 0) sample_started) as [s' out] eqn:Hput.
    vm_compute in Hput. injection Hput as <- _. constructor; [|constructor].
    eapply power_cut_none; [|reflexivity|split; [reflexivity|simpl; reflexivity]].
    split; [apply sample_mounted|]. by vm_compute.
  - rewrite <- Hup. apply boots_now. split_and!; [| |by left].
    + constructor; [apply sample_logged_at|constructor].
    + by constructor.
  - econstructor; [done|exact Hget|constructor].
Qed.

Lemma outages_refine_map_witness :
  ∃ s' r m h,
    life (H := dev_profile) 64 sample_started [Outage (CPut [x6b] [x76] 0); Call (CGet [x6b]) r] s' ∧
    kv_life 64 1 ∅ ∅ [Outage (CPut [x6b] [x76] 0); Call (CGet [x6b]) r] m h ∧ h = ∅.
Proof.
  destruct (outages_refine_map (H := dev_profile) Options_new 64 4 [sample_fresh]
    [replicate 4 (replicate 64 x00)]) as (devs' & s & s0 & Hf & Ho & Hb & Hlife);
    [repeat constructor; apply sample_fresh_at|done|lia|lia|apply sample_fresh_blank|simpl; lia
    |simpl; lia|unfold u32; simpl; lia|by left|].
  pose proof (sample_started_eq devs' s s0 Hf Ho Hb) as ->.
  destruct sample_life as (s' & r & Hl).
  destruct (Hlife _ s' Hl ltac:(simpl; lia)) as [(m & h & Hkv & _ & Hh) _].
  exists s', r, m, h. split_and!; [exact Hl|exact Hkv|by apply Hh].
Defined.

(** *** A replica that missed a put *)





