(* ===== verification/Capacity.v ===== *)
(** * Room for a working set

    A store whose keys stay within a budget of blocks never runs full, through
    overwrites, deletions and power losses: no block is ever lost. *)

From S2P Require Import Prelude Errors Rust Format Crc Block Device Record Utf8 Index Replica.
From S2P Require Import Store RecordWrite Allocation Catalog Recovery ReplicaSpec StoreSpec.
From S2P Require Import Lifecycle Shards Refinement Journal Crash Durability Outages.

(** The number of blocks each key may use. *)
Abbreviation budget := (gmap (list byte) Z).

Definition total (B : budget) : Z := map_fold (λ _, Z.add) 0 B.

(** The budget fits a device of [n] blocks: block 0 is taken, and a [put] needs
    its blocks before those of the replaced record are free. *)
Definition affordable (n : Z) (B : budget) : Prop :=
  map_Forall (λ _ b, 0 ≤ b ∧ total B + b ≤ n - 1) B.

(** A command within the budget. *)
Definition within `{Profile} (bs : Z) (B : budget) (c : command) : Prop :=
  match c with
  | CPut key value _ =>
      zlen key ≤ bs - 36 → ∃ b, B !! key_str key = Some b ∧ blocks_for bs key value ≤ b
  | _ => True
  end.

Definition happening_command (e : happening) : command :=
  match e with Call c _ => c | Outage c => c end.

(** Every record is within the budget of its key. *)
Definition catalog_within (B : budget) (best : records) : Prop :=
  ∀ k rec, best !! k = Some rec → ∃ b, B !! k = Some b ∧ zlen (record_blocks rec) ≤ b.

Lemma total_delete B k b : B !! k = Some b → total B = b + total (base.delete k B).
Proof.
  intros Hk. unfold total. apply (map_fold_delete_L (λ _, Z.add) 0 k b B); [intros; lia|done].
Qed.

Lemma total_nonneg B : map_Forall (λ _ b, 0 ≤ b) B → 0 ≤ total B.
Proof.
  induction B as [|k b B Hk IH] using map_ind; [done|]. intros [Hb HB]%map_Forall_insert; [|done].
  rewrite (total_delete _ k b) by apply lookup_insert_eq. rewrite delete_insert_id by done.
  specialize (IH HB). lia.
Qed.

(** What is stored is at most the whole budget. *)
Lemma used_within B best :
  map_Forall (λ _ b, 0 ≤ b) B → catalog_within B best → zlen (used_blocks best) ≤ total B.
Proof.
  revert B. induction best as [|k rec best Hk IH] using map_ind; intros B HB Hw.
  { pose proof (total_nonneg B HB) as Htot. exact Htot. }
  destruct (Hw k rec) as (b & Hb & Hle); [apply lookup_insert_eq|].
  rewrite used_blocks_insert, (total_delete B k b) by done.
  assert (zlen (used_blocks best) ≤ total (base.delete k B)); [|lia]. apply IH.
  - intros k' b' [_ Hk']%lookup_delete_Some. by eapply HB.
  - intros k' rec' Hk'. assert (k' ≠ k) as Hne by congruence.
    destruct (Hw k' rec') as (b' & Hb' & ?); [by rewrite lookup_insert_ne|].
    exists b'. by rewrite lookup_delete_ne.
Qed.

(** A key within its budget always finds room. *)
Lemma within_room `{Profile} (bs n : Z) (B : budget) (key value : list byte) (b : Z) (p : shard) :
  zlen p.1 = n → has_header bs p.1 → catalog bs p.1 p.2 → tidy p.1 p.2 → affordable n B →
  catalog_within B p.2 → B !! key_str key = Some b → blocks_for bs key value ≤ b →
  room bs key value p.
Proof.
  intros Hn Hh Hcat Ht HB Hw Hb Hle. unfold room. rewrite (free_list_count bs p.1 p.2), Hn by done.
  pose proof (used_within B p.2 ltac:(intros k b' Hk; by apply (HB k b')) Hw).
  destruct (HB _ _ Hb) as [_ Hsum]. lia.
Qed.

(** ** The budget is kept *)

Section Kept.
Context `{Profile} (bs n : Z) (B : budget) (HB : affordable n B).
Implicit Types (ps : list shard).

Definition all_within (ps : list shard) : Prop := Forall (catalog_within B) ps.*2.

Lemma put_on_within (key value : list byte) (g b : Z) p p' :
  B !! key_str key = Some b → blocks_for bs key value ≤ b → put_on bs key value g p p' →
  catalog_within B p.2 → catalog_within B p'.2.
Proof.
  intros Hb Hle (rec & -> & _ & _ & Hlen) Hw k rec'. rewrite lookup_insert. case_decide; [|by apply Hw].
  subst. intros [= <-]. exists b. by rewrite Hlen.
Qed.

Lemma all_within_step (R : shard → shard → Prop) ps ps' :
  all_within ps → Forall2 R ps ps' →
  (∀ p p', R p p' → catalog_within B p.2 → catalog_within B p'.2) → all_within ps'.
Proof.
  unfold all_within. rewrite !Forall_fmap. intros Hw Hf HR. apply Forall_lookup_2. intros i p' Hi.
  destruct (Forall2_lookup_r _ _ _ _ _ Hf Hi) as (p & Hj & Hp). eapply HR; [exact Hp|].
  exact (Forall_lookup_1 _ _ _ _ Hw Hj).
Qed.

Lemma delete_within (k : list byte) (p p' : shard) :
  p'.2 = base.delete k p.2 → catalog_within B p.2 → catalog_within B p'.2.
Proof. intros -> Hw k' rec [_ Hk]%lookup_delete_Some. by apply Hw. Qed.

(** A call within the budget keeps it, and a [put] succeeds. *)
Lemma within_call c r ps ps' :
  sound bs n ps → all_within ps → within bs B c → shards_step bs c r ps ps' →
  all_within ps' ∧ ∀ key value flags, c = CPut key value flags → zlen key ≤ bs - 36 → r = Ok RUnit.
Proof.
  intros [Hne Hs] Hw Hc Hst.
  assert (ps'.*2 = ps.*2 → all_within ps') as Hsame by (unfold all_within; by intros ->).
  destruct c as [key|key value flags|key| | |]; cbn [shards_step within] in *.
  1, 4-6: split; [apply Hsame, Hst|done].
  - case_decide as Hk; [|destruct Hst as [_ ->]; split; [done|by intros ? ? ? [= -> -> ->] ?]].
    destruct (Hc Hk) as (b & Hb & Hle).
    destruct Hst as (g & pre & pre' & rest & -> & -> & _ & Hpre & Hr). split.
    + unfold all_within in *. rewrite fmap_app, Forall_app in *. destruct Hw as [Hw1 Hw2].
      split; [|done]. eapply (all_within_step _ pre); [exact Hw1|exact Hpre|].
      intros p p' Hp. by eapply put_on_within.
    + intros. destruct rest as [|p rest]; [done|]. destruct Hr as [_ []].
      apply Forall_app in Hs as [_ [(Hn & Hh & Hcat & _ & Ht) _]%Forall_cons].
      unfold all_within in Hw. rewrite fmap_app, Forall_app in Hw. destruct Hw as [_ [Hwp _]%Forall_cons].
      by eapply within_room.
  - destruct Hst as [_ Hdel]. split; [|done].
    eapply all_within_step; [exact Hw|exact Hdel|]. intros p p'. apply delete_within.
Qed.

Lemma within_outage c ps ps' :
  all_within ps → within bs B c → shards_outage bs c ps ps' → all_within ps'.
Proof.
  intros Hw Hc Hst.
  assert (ps'.*2 = ps.*2 → all_within ps') as Hsame by (unfold all_within; by intros ->).
  destruct c as [key|key value flags|key| | |]; cbn [shards_outage within] in *; try by apply Hsame.
  - destruct Hst as [?|(Hk & g & _ & Hf)]; [by apply Hsame|]. destruct (Hc Hk) as (b & Hb & Hle).
    eapply all_within_step; [exact Hw|exact Hf|]. intros p p' [-> | Hon]; [done|by eapply put_on_within].
  - eapply all_within_step; [exact Hw|exact Hst|]. intros p p' [-> | Hd]; [done|by eapply delete_within].
Qed.

Lemma within_life ps hs ps' :
  shards_life bs n ps hs ps' → all_within ps → Forall (within bs B ∘ happening_command) hs →
  ∀ key value flags r, Call (CPut key value flags) r ∈ hs → zlen key ≤ bs - 36 → r = Ok RUnit.
Proof.
  induction 1 as [ps|ps c r ps1 hs ps' Hs Hstep _ IH|ps c ps1 ps2 hs ps' Hs Hout Hcat _ IH];
    intros Hw Hhs key value flags r' Hin Hk.
  - by apply not_elem_of_nil in Hin.
  - apply Forall_cons in Hhs as [Hc Hhs]. destruct (within_call c r ps ps1 Hs Hw Hc Hstep) as [Hw1 Hok].
    apply elem_of_cons in Hin as [[= <- <-]|Hin]; [by eapply Hok|by eapply IH].
  - apply Forall_cons in Hhs as [Hc Hhs]. apply elem_of_cons in Hin as [|Hin]; [done|].
    eapply IH; [|done|exact Hin|done]. unfold all_within. rewrite Hcat. by eapply within_outage.
Qed.

End Kept.

(** ** Property *)

(** C3: a store within its budget never runs full.  Give every key a number of
    blocks such that all of them, and once more those of the key being written,
    fit beside the header.  Format blank devices, open and index them; then in
    any life of the store, with any number of power losses, every [put] of a
    value within the blocks of its key that is not interrupted succeeds:
    overwriting, deleting and losing power never cost a block. *)
Theorem within_budget_never_full `{Profile} `{ReliableDevice D} (o : Options) (bs n : Z) (B : budget)
    (devs : list (Logged D)) imgs :
  Forall2 (λ d img, dev_at d bs img) devs imgs → imgs ≠ [] → 36 ≤ bs → 1 ≤ n →
  Forall (λ img, zlen img = n ∧ blank img) imgs → 0 ≤ replica_id o →
  replica_id o + zlen devs < U32 → u32 (format_seq o) → good_pattern (free_pattern o) →
  affordable n B →
  ∃ devs' s s0, format o devs = (devs', Ok tt) ∧ open devs' o = Ok s ∧
    build_index s = (s0, Ok tt) ∧
    ∀ hs s', life bs s0 hs s' → zlen hs < U32 → Forall (within bs B ∘ happening_command) hs →
      ∀ key value flags r, Call (CPut key value flags) r ∈ hs → zlen key ≤ bs - 36 → r = Ok RUnit.
Proof.
  intros Hd Hne Hbs Hn Himgs Hid Hlt Hseq Hp HB.
  destruct (stored_fresh o bs n devs imgs Hd Hne Hbs Hn Himgs Hid Hlt Hseq Hp)
    as (devs' & s & s0 & ps & Hf & Hop & Hb & Hst & Hempty & _).
  exists devs', s, s0. split_and!; [done|done|done|]. intros hs s' Hl Hlen Hhs.
  pose proof (started_durable o devs devs' s s0 Hf Hop Hb) as Hsync.
  destruct (life_shards bs n 0 ps s0 hs s' Hl Hst Hsync) as (ps' & Hsl & _); [done|done|lia|].
  eapply within_life; [exact HB|exact Hsl| |exact Hhs].
  apply Forall_fmap. eapply Forall_impl; [exact Hempty|]. intros p Hpe k rec Hk. simpl in Hk.
  by rewrite Hpe, lookup_empty in Hk.
Qed.

(** One key with one block, on a device of four blocks: the [put] that loses its
    power and the one after it. *)
Definition sample_budget : budget := {[ [x6b] := 1 ]}.

Lemma sample_affordable : affordable 4 sample_budget.
Proof. intros k b Hk. unfold sample_budget in Hk. apply lookup_singleton_Some in Hk as [<- <-]. by vm_compute. Qed.

Lemma sample_writes : ∃ s' r, life (H := dev_profile) 64 sample_started
  [Outage (CPut [x6b] [x76] 0); Call (CPut [x6b] [x77] 0) r] s'.
Proof.
  destruct sample_life as (s' & r & Hl).
  inversion Hl as [|?|s c imgs s1 hs s2 Hc Hint Hb _]; subst.
  destruct (exec (H := dev_profile) (CPut [x6b] [x77] 0) s1) as [s2 r2] eqn:Hput.
  exists s2, r2. eapply life_outage; [exact Hc|exact Hint|exact Hb|].
  econstructor; [|exact Hput|constructor]. simpl. unfold u32. lia.
Qed.

Lemma within_budget_never_full_witness : ∃ s' r, life (H := dev_profile) 64 sample_started
    [Outage (CPut [x6b] [x76] 0); Call (CPut [x6b] [x77] 0) r] s' ∧ r = Ok RUnit.
Proof.
  destruct (within_budget_never_full (H := dev_profile) Options_new 64 4 sample_budget [sample_fresh]
    [replicate 4 (replicate 64 x00)]) as (devs' & s & s0 & Hf & Ho & Hb & Hlife);
    [repeat constructor; apply sample_fresh_at|done|lia|lia|by apply sample_fresh_blank
    |simpl; lia|simpl; lia|unfold u32; simpl; lia|by left|apply sample_affordable|].
  pose proof (sample_started_eq devs' s s0 Hf Ho Hb) as ->.
  destruct sample_writes as (s' & r & Hl). exists s', r. split; [exact Hl|].
  eapply (Hlife _ s' Hl ltac:(simpl; lia)); [|right; left|simpl; lia].
  constructor; [|constructor; [|constructor]]; intros _; exists 1; split; by vm_compute.
Defined.
