(* ===== verification/Safety.v ===== *)
(** * No panic, no endless loop

    Whatever the device answers — arbitrary contents, different at every read,
    or an error at any call — no operation of the store panics or loops: it
    returns a value or an error.  This is the property the fuzz targets
    (rust/fuzz) test. *)

From S2P Require Import Prelude Errors Rust Format Crc Block Device Record Utf8 Index Replica.
From S2P Require Import Store RecordWrite Allocation Catalog Recovery ReplicaSpec StoreSpec.
From S2P Require Import Lifecycle Shards Refinement.

(** ** Device operations *)

Section Device.
Context `{Profile} `{SafeDevice D}.
Implicit Types d : D.

(** Any outcome but a panic, with the geometry kept. *)
Definition safe {A} (bs bc : Z) (m : M D A) (Q : A → Prop) (d : D) : Prop :=
  wp m (λ a d', dev_geom bs bc d' ∧ Q a) (λ _ d', dev_geom bs bc d') d.

Lemma free_scan_safe bs bc n indices buf result d :
  dev_geom bs bc d → 0 < bs → zlen buf = bs → Forall (λ i, 1 ≤ i < bc) indices →
  Forall (λ i, 1 ≤ i < bc) result →
  safe bs bc (free_scan n indices buf result)
    (λ l, Forall (λ i, 1 ≤ i < bc) l ∧ zlen l ≤ zlen result + zlen indices) d.
Proof.
  revert d buf result. induction indices as [|i indices IH]; intros d buf result Hd Hbs Hb Hin Hres;
    cbn [free_scan]; [apply wp_ret; split_and!; done || len|].
  apply dev_geom_range in Hd as Hr. apply Forall_cons in Hin as [Hi Hin].
  destruct (n <=? zlen result); [apply wp_ret; split_and!; done || len|].
  wpcall (wp_read bs bc i buf d Hd ltac:(lia) Hb). intros b d1 [Hd1 Hlb].
  wplift (is_free_candidate_ok b ltac:(lia)).
  eapply wp_mono; [apply IH; [done|done|done|done|]| |done].
  - destruct (free_marked b); [|done]. apply Forall_app. by split; [|constructor].
  - cbv beta. intros l d2 (Hd2 & Hl & Hn). split_and!; [done|done|]. destruct (free_marked b); len.
Qed.

Lemma find_free_blocks_safe bs bc n d :
  dev_geom bs bc d → 0 < bs →
  safe bs bc (find_free_blocks n) (λ l, Forall (λ i, 1 ≤ i < bc) l ∧ n ≤ zlen l ∧ zlen l ≤ bc) d.
Proof.
  intros Hd Hbs. apply dev_geom_range in Hd as Hr. unfold find_free_blocks.
  wpgets. wpgets. destruct (Hd) as (_ & -> & ->).
  apply wp_bind. eapply wp_mono; [apply (free_scan_safe bs bc); [done|done|len| |constructor]| |done].
  { apply Forall_forall. intros x Hx%elem_of_seqZ. lia. }
  cbv beta. intros l d1 (Hd1 & Hl & Hn). rewrite length_seqZ in Hn. simpl in Hn.
  destruct (zlen l <? n) eqn:E; zbool; [by apply wp_throw|]. apply wp_ret. split_and!; done || lia.
Qed.

Lemma chunk_block_safe bs ch remaining :
  24 ≤ bs < U32 → 0 ≤ ch_payload_size ch ≤ zlen remaining → ch_payload_size ch ≤ bs - 24 →
  ∃ b, chunk_buf bs ch remaining = Ok b ∧ zlen b = bs.
Proof.
  intros Hbs Hp Hc. destruct (chunk_buf_ok bs ch remaining Hbs Hp Hc) as (pad & Hb & Hl).
  eexists. split; [exact Hb|]. rewrite length_seal, !length_app, length_take, length_encode_chunk. lia.
Qed.

Lemma write_chunks_safe bs bc db chunks ci rest remaining d :
  dev_geom bs bc d → 24 ≤ bs → 0 ≤ ci → Forall (λ i, 0 ≤ i < bc) rest →
  safe bs bc (write_chunks bs (bs - 24) db chunks ci rest remaining) (λ _, True) d.
Proof.
  revert d ci remaining. induction rest as [|i rest IH]; intros d ci remaining Hd Hbs Hci Hin;
    cbn [write_chunks]; [by apply wp_ret|].
  apply dev_geom_range in Hd as Hr. apply Forall_cons in Hin as [Hi Hin].
  assert (∃ nx, (if ci + 1 <? zlen chunks then index chunks (ci + 1) else Ok NULL_BLOCK_INDEX) = Ok nx)
    as [nx Hnx].
  { destruct (ci + 1 <? zlen chunks) eqn:E; zbool; [|by eexists].
    destruct (index_lt chunks (ci + 1)) as (x & _ & Hx); [lia|by exists x]. }
  wplift Hnx. pose proof (as_u32_range (zlen remaining)) as Hu.
  pose proof (as_u32_le (zlen remaining) ltac:(lia)) as Hle.
  destruct (chunk_block_safe bs {| ch_block_type := BLOCK_TYPE_VALUE_CHUNK;
    ch_header_size := as_u8 VALUE_CHUNK_HEADER_SIZE; ch_flags := 0; ch_owner_descriptor := db;
    ch_chunk_index := as_u32 (ci + 1);
    ch_payload_size := Z.min (as_u32 (zlen remaining)) (bs - 24); ch_next_chunk := nx |} remaining)
    as (b & Hb & Hlb); [lia|simpl; lia|simpl; lia|].
  wplift Hb. wpcall (wp_write bs bc i b d Hd ltac:(lia) Hlb). intros _ d1 Hd1.
  wplift (slice_ok remaining (Z.min (as_u32 (zlen remaining)) (bs - 24)) (zlen remaining)
            ltac:(lia) ltac:(lia)).
  apply IH; [done|done|lia|done].
Qed.

Lemma write_record_safe bs bc db chunks key generation value flags d :
  dev_geom bs bc d → 36 ≤ bs → zlen key ≤ bs - 36 → 0 ≤ db < bc →
  Forall (λ i, 0 ≤ i < bc) chunks → zlen chunks < U32 - 1 →
  safe bs bc (write_record db chunks key generation value flags) (λ _, True) d.
Proof.
  intros Hd Hbs Hk Hdb Hch Hn. apply dev_geom_range in Hd as Hr. unfold write_record.
  wpgets. destruct (Hd) as (_ & -> & _). rewrite (as_u32_small (zlen key)) by lia.
  wplift (first_payload_capacity_ok bs (zlen key) ltac:(lia) ltac:(lia)).
  wplift (chunk_payload_capacity_ok bs ltac:(lia)). rewrite (as_u32_small (zlen chunks)) by lia.
  wplift (u32_add_ok 1 (zlen chunks) ltac:(lia)). wplift (first_next_index chunks).
  pose proof (as_u32_range (zlen value)) as Hu. pose proof (as_u32_le (zlen value) ltac:(lia)) as Hle.
  set (fs := Z.min (as_u32 (zlen value)) (bs - 36 - zlen key)). set (hdr := {| dh_block_type := _ |}).
  destruct (descriptor_buf_ok bs hdr key value fs) as (pad & Hb & Hpad); [lia..|].
  wplift Hb. apply wp_bind. eapply wp_mono; [apply (wp_write bs bc db); [done|lia|]| |done].
  { rewrite length_seal, !length_app, length_take, length_encode_descriptor. lia. }
  cbv beta. intros _ d1 Hd1.
  wplift (slice_ok value fs (zlen value) ltac:(lia) ltac:(lia)).
  apply write_chunks_safe; [done|lia|lia|done].
Qed.

Lemma free_chunks_safe fuel bs bc free next visited cbuf d :
  dev_geom bs bc d → 24 ≤ bs → zlen cbuf = bs → zlen free = bs → 0 ≤ next < U32 →
  (size (block_range bc ∖ visited) < fuel)%nat →
  safe bs bc (free_chunks fuel bc free next visited cbuf) (λ _, True) d.
Proof.
  revert d next visited cbuf. induction fuel as [|fuel IH]; intros d next visited cbuf Hd Hbs Hcb
    Hfr Hn Hfuel; [lia|]. apply dev_geom_range in Hd as Hr. cbn [free_chunks].
  destruct ((next =? NULL_BLOCK_INDEX) || (bc <=? next)) eqn:E1; [by apply wp_ret|]. zbool.
  case_bool_decide as Hv; [by apply wp_ret|].
  wpcall (wp_read bs bc next cbuf d Hd ltac:(lia) Hcb). intros b d1 [Hd1 Hlb].
  wplift (unmarshal_chunk_header_ok b ltac:(lia)). destruct (negb _); [by apply wp_ret|].
  wpcall (wp_write bs bc next free d1 Hd1 ltac:(lia) Hfr). intros _ d2 Hd2.
  pose proof (size_visit bc visited next ltac:(lia) Hv).
  apply IH; [done|done|done|done|apply (field_range b 16 4)|lia].
Qed.

Lemma free_record_safe bs bc i pattern d :
  dev_geom bs bc d → 36 ≤ bs → 0 ≤ i < bc →
  safe bs bc (free_record i pattern) (λ _, True) d.
Proof.
  intros Hd Hbs Hi. apply dev_geom_range in Hd as Hr. unfold free_record. wpgets. wpgets.
  destruct (Hd) as (_ & -> & ->).
  wpcall (wp_read bs bc i (replicate (Z.to_nat bs) x00) d Hd ltac:(lia) ltac:(len)).
  intros b d1 [Hd1 Hlb]. wplift (unmarshal_descriptor_header_ok b ltac:(lia)).
  destruct (negb _); [by apply wp_throw|].
  assert (zlen (make_free_buf bs pattern) = bs) as Hfr by (unfold make_free_buf; len).
  wpcall (wp_write bs bc i _ d1 Hd1 ltac:(lia) Hfr). intros _ d2 Hd2.
  apply free_chunks_safe; [done|lia|len|done|apply (field_range b 20 4)|].
  rewrite difference_empty_L. pose proof (size_block_range bc ltac:(lia)). unfold chunk_fuel. lia.
Qed.

Lemma recover_device_safe bs bc pattern d :
  dev_geom bs bc d → 36 ≤ bs → safe bs bc (recover_device pattern) (λ _, True) d.
Proof.
  intros Hd Hbs. apply dev_geom_range in Hd as Hr. unfold recover_device. wpgets. wpgets.
  destruct (Hd) as (_ & -> & ->). apply wp_bind.
  eapply wp_mono; [apply (wp_for_fold _ _ _ (λ _ acc d', dev_geom bs bc d' ∧ zlen acc.1 = bs)
    (λ _ d', dev_geom bs bc d'))| |done].
  { split; [done|simpl fst; len]. }
  { intros i l' [buf best] d' Hi%elem_of_seqZ [Hd' Hb]. simpl in Hb. unfold recover_scan.
    wpcall (wp_read bs bc i buf d' Hd' ltac:(lia) Hb). intros b d1 [Hd1 Hlb].
    wplift (get_u8_ok b 0 ltac:(lia)). destruct (negb _); [by apply wp_ret|].
    apply wp_bind. eapply wp_mono; [apply (verify_safe bs bc); [done|done|lia]| |done].
    cbv beta. intros [rec|] d2 [Hd2 _]; by apply wp_ret. }
  cbv beta. intros [buf best] d1 [Hd1 Hb]. simpl in Hb. apply wp_bind.
  eapply wp_mono; [apply (wp_for_fold _ _ _ (λ _ acc d', dev_geom bs bc d' ∧ zlen acc.1 = bs)
    (λ _ d', dev_geom bs bc d'))| |done].
  { done. }
  { intros i l' [buf' g] d' Hi%elem_of_seqZ [Hd' Hb']. simpl in Hb'. unfold recover_erase.
    case_bool_decide; [by apply wp_ret|].
    wpcall (wp_read bs bc i buf' d' Hd' ltac:(lia) Hb'). intros b d2 [Hd2 Hlb].
    wplift (get_u8_ok b 0 ltac:(lia)). destruct (_ || _); [by apply wp_ret|].
    assert (zlen (make_free_buf bs pattern) = bs) as Hfr by (unfold make_free_buf; len).
    wpcall (wp_write bs bc i _ d2 Hd2 ltac:(lia) Hfr). intros _ d3 Hd3. by apply wp_ret. }
  cbv beta. intros [buf' g] d2 [Hd2 _]. destruct g; [|by apply wp_ret].
  eapply wp_mono; [by apply (wp_flush bs bc)| |done]. by intros [] d3 Hd3.
Qed.

End Device.

(** ** Replicas *)

Section Replica.
Context `{Profile} `{SafeDevice D}.
Implicit Types (r : Replica D) (d : D).

(** The device has this geometry and the index points into it. *)
Record replica_safe (bs bc : Z) (r : Replica D) : Prop := {
  rs_dev : dev_geom bs bc (r_dev r);
  rs_index k e : MemIndex_get k (r_index r) = Some e →
    0 ≤ ie_descriptor_block e < bc ∧ u32 (ie_generation e);
}.

Lemma set_dev_safe bs bc d r :
  replica_safe bs bc r → dev_geom bs bc d → replica_safe bs bc (set_dev d r).
Proof. intros [_ Hix] Hd. by split. Qed.

Lemma wp_on_dev {A} bs bc (m : M D A) (Q : A → Prop) r :
  replica_safe bs bc r → safe bs bc m Q (r_dev r) →
  wp (on_dev m) (λ a r', replica_safe bs bc r' ∧ Q a) (λ _ r', replica_safe bs bc r') r.
Proof.
  intros Hr. unfold safe, wp, on_dev, zoom. destruct (m (r_dev r)) as [d [a|e| |]]; try done.
  - intros [Hd HQ]. split; [by apply set_dev_safe|done].
  - intros Hd. by apply set_dev_safe.
Qed.

(** Calls on the device that respect the interface. *)
Lemma on_read bs bc i buf r :
  replica_safe bs bc r → 0 ≤ i < bc → zlen buf = bs →
  wp (on_dev (read_block i buf)) (λ b r', replica_safe bs bc r' ∧ zlen b = bs)
    (λ _ r', replica_safe bs bc r') r.
Proof.
  intros Hr Hi Hb. pose proof Hr as [Hd _]. apply dev_geom_range in Hd as Hrg.
  apply wp_on_dev; [done|]. apply wp_read; [done|lia|done].
Qed.

Lemma on_flush bs bc r :
  replica_safe bs bc r →
  wp (on_dev flush) (λ _ r', replica_safe bs bc r') (λ _ r', replica_safe bs bc r') r.
Proof.
  intros Hr. pose proof Hr as [Hd _].
  eapply wp_mono; [apply (wp_on_dev bs bc flush (λ _, True)); [done|]| |done]; [|by intros ? ? []].
  eapply wp_mono; [by apply wp_flush|done|done].
Qed.

(** An entry for a block of the device keeps the index in order. *)
Lemma put_entry_safe bs bc e r :
  replica_safe bs bc r → 0 ≤ ie_descriptor_block e < bc → u32 (ie_generation e) →
  wp (on_index (MemIndex_put e)) (λ _ r', replica_safe bs bc r')
    (λ _ r', replica_safe bs bc r') r.
Proof.
  intros [Hd Hix] Hb Hg. unfold wp, on_index, modify. split; [done|]. intros k e'. simpl.
  rewrite get_put. case_decide; [by intros [= <-]|apply Hix].
Qed.

Lemma Replica_build_index_safe bs bc r :
  replica_safe bs bc r → 36 ≤ bs →
  wp Replica_build_index (λ _ r', replica_safe bs bc r') (λ _ r', replica_safe bs bc r') r.
Proof.
  intros Hr Hbs. unfold Replica_build_index. apply wp_bind. unfold wp at 1, on_index, modify.
  set (r0 := set_index_of MemIndex_new r).
  assert (replica_safe bs bc r0) as Hr0.
  { split; [apply Hr|]. intros k e. simpl. by rewrite get_new. }
  wpgets. wpgets. destruct (rs_dev _ _ _ Hr0) as (_ & -> & ->).
  pose proof (dev_geom_range _ _ _ (rs_dev _ _ _ Hr0)) as Hrg.
  apply wp_bind. eapply wp_mono;
    [apply (wp_for_fold _ _ _ (λ _ buf r', replica_safe bs bc r' ∧ zlen buf = bs)
      (λ _ r', replica_safe bs bc r'))| |done].
  { split; [done|len]. }
  { intros i l' buf r' Hi%elem_of_seqZ [Hr' Hb]. unfold index_scan.
    wpcall (on_read bs bc i buf r' Hr' ltac:(lia) Hb). intros b r1 [Hr1 Hlb].
    wplift (get_u8_ok b 0 ltac:(lia)). destruct (negb _); [by apply wp_ret|].
    apply wp_bind. eapply wp_mono; [apply (wp_on_dev bs bc); [done|
      apply (verify_safe bs bc); [apply Hr1|done|lia]]| |done].
    cbv beta. intros [rec|] r2 [Hr2 Hg]; [|by apply wp_ret]. wpgets. apply wp_bind.
    assert (∀ r2, replica_safe bs bc r2 → wp (mret b)
      (λ buf r3, replica_safe bs bc r3 ∧ zlen buf = bs) (λ _ r3, replica_safe bs bc r3) r2) as Hret
      by (intros; by apply wp_ret).
    destruct (match MemIndex_get _ _ with None => _ | Some _ => _ end).
    - eapply wp_mono; [apply put_entry_safe; [done|simpl; lia|by apply Hg]| |done].
      cbv beta. intros _ r3 Hr3. by apply Hret.
    - apply wp_ret. by apply Hret. }
  cbv beta. intros _ r' [Hr' _]. by apply wp_ret.
Qed.

Lemma Replica_recover_safe bs bc pattern r :
  replica_safe bs bc r → 36 ≤ bs →
  wp (Replica_recover pattern) (λ _ r', replica_safe bs bc r') (λ _ r', replica_safe bs bc r') r.
Proof.
  intros Hr Hbs. unfold Replica_recover.
  eapply wp_mono; [apply (wp_on_dev bs bc _ (λ _, True)); [done|]| |done]; [|by intros ? ? []].
  apply recover_device_safe; [apply Hr|done].
Qed.

Lemma get_with_generation_safe bs bc key r :
  replica_safe bs bc r → 36 ≤ bs →
  wp (get_with_generation key) (λ _ r', replica_safe bs bc r') (λ _ _, False) r.
Proof.
  intros Hr Hbs. unfold get_with_generation. wpgets.
  destruct (MemIndex_get (key_str key) (r_index r)) as [e|] eqn:He; [|by apply wp_ret].
  destruct (rs_index _ _ _ Hr _ _ He) as [Hb _].
  pose proof (wp_on_dev bs bc (verify_and_read_record (ie_descriptor_block e))
    (λ o, ∀ rec, o = Some rec → u32 (cr_generation rec)) r Hr
    (verify_safe bs bc _ (r_dev r) (rs_dev _ _ _ Hr) Hbs Hb)) as Hv.
  unfold wp, mbind, M_bind, attempt in *. destruct (on_dev _ r) as [r' [o|err| |]]; try done.
  by destruct Hv.
Qed.

Lemma free_on_safe bs bc i pattern r :
  replica_safe bs bc r → 36 ≤ bs → 0 ≤ i < bc →
  wp (on_dev (free_record i pattern)) (λ _ r', replica_safe bs bc r')
    (λ _ r', replica_safe bs bc r') r.
Proof.
  intros Hr Hbs Hi. eapply wp_mono; [apply (wp_on_dev bs bc _ (λ _, True)); [done|]| |done];
    [|by intros ? ? []]. apply free_record_safe; [apply Hr|done|done].
Qed.

Lemma Replica_put_safe bs bc key value generation flags pattern r :
  replica_safe bs bc r → 36 ≤ bs → zlen key ≤ bs - 36 → u32 generation →
  wp (Replica_put key value generation flags pattern) (λ _ r', replica_safe bs bc r')
    (λ _ r', replica_safe bs bc r') r.
Proof.
  intros Hr Hbs Hk Hg. pose proof (dev_geom_range _ _ _ (rs_dev _ _ _ Hr)) as Hrg.
  unfold Replica_put. wpgets. wpgets. destruct (rs_dev _ _ _ Hr) as (_ & -> & _).
  destruct (needed_blocks_spec key value bs ltac:(lia) Hk) as (n & Hn & Hn1 & _). wplift Hn.
  assert (∀ b, ie_descriptor_block <$> MemIndex_get (key_str key) (r_index r) = Some b → 0 ≤ b < bc)
    as Hold.
  { intros b (e & He & ->)%fmap_Some. by destruct (rs_index _ _ _ Hr _ _ He). }
  generalize dependent (ie_descriptor_block <$> MemIndex_get (key_str key) (r_index r)).
  intros old Hold. apply wp_bind. eapply wp_mono; [apply (wp_on_dev bs bc); [done|
    apply (find_free_blocks_safe bs bc n); [apply Hr|lia]]| |done].
  cbv beta. intros fl r1 [Hr1 (Hin & Hl1 & Hl2)].
  destruct fl as [|db chunks]; [simpl in Hl1; lia|]. apply Forall_cons in Hin as [Hdb Hin].
  assert (index (db :: chunks) 0 = Ok db) as Hi0 by done. wplift Hi0. rewrite length_cons in *.
  assert (slice (db :: chunks) 1 (Z.of_nat (S (length chunks))) = Ok chunks) as Hs1.
  { rewrite slice_ok by len. simpl drop. f_equal. apply take_ge. lia. }
  wplift Hs1. apply wp_bind. eapply wp_mono; [apply (wp_on_dev bs bc _ (λ _, True)); [done|
    apply write_record_safe; [apply Hr1|done|done|lia| |lia]]| |done].
  { eapply Forall_impl; [exact Hin|]. cbv beta. lia. }
  cbv beta. intros _ r2 [Hr2 _]. wpcall (on_flush bs bc r2 Hr2). intros _ r3 Hr3.
  apply wp_bind. eapply wp_mono; [apply (put_entry_safe bs bc); [done|simpl; lia|done]| |done].
  cbv beta. intros _ r4 Hr4. destruct old as [ob|]; [|by apply wp_ret].
  wpcall (free_on_safe bs bc ob pattern r4 Hr4 Hbs (Hold _ eq_refl)). intros _ r5 Hr5.
  by apply on_flush.
Qed.

Lemma delete_one_safe bs bc k pattern found r :
  replica_safe bs bc r → 36 ≤ bs →
  wp (delete_one k pattern found) (λ _ r', replica_safe bs bc r')
    (λ _ r', replica_safe bs bc r') r.
Proof.
  intros Hr Hbs. unfold delete_one. wpgets.
  destruct (MemIndex_get k (r_index r)) as [e|] eqn:He; [|by apply wp_ret].
  destruct (rs_index _ _ _ Hr _ _ He) as [Hb _].
  wpcall (free_on_safe bs bc (ie_descriptor_block e) pattern r Hr Hbs Hb). intros _ r1 Hr1.
  wpcall (on_flush bs bc r1 Hr1). intros _ r2 [Hd2 Hix2].
  apply wp_bind. unfold wp at 1, on_index, modify. apply wp_ret. split; [done|].
  intros k' e'. simpl. rewrite get_delete. case_decide; [done|apply Hix2].
Qed.

End Replica.

(** ** The store *)

(** Loops over replicas keep an invariant and return. *)
Lemma for_each_mut_safe {S} (f : M S unit) (I : S → Prop) xs :
  Forall I xs → (∀ x, I x → wp f (λ _ x', I x') (λ _ x', I x') x) →
  (Forall I (for_each_mut f xs).1 ∧ length (for_each_mut f xs).1 = length xs) ∧
  returns (for_each_mut f xs).2.
Proof.
  intros Hf Hstep. induction Hf as [|x xs Hx Hxs IH]; cbn [for_each_mut]; [done|].
  specialize (Hstep x Hx). unfold wp in Hstep. destruct (f x) as [x' [[]|e| |]]; try done.
  - destruct (for_each_mut f xs) as [xs' r]. destruct IH as [[? Hl] ?]. simpl in *.
    split_and!; [by constructor|by rewrite Hl|done].
  - split_and!; [by constructor|done|done].
Qed.

Lemma for_each_fold_safe {S B} (f : B → M S B) (I : S → Prop) xs b :
  Forall I xs → (∀ x b, I x → wp (f b) (λ _ x', I x') (λ _ x', I x') x) →
  (Forall I (for_each_fold f xs b).1 ∧ length (for_each_fold f xs b).1 = length xs) ∧
  returns (for_each_fold f xs b).2.
Proof.
  intros Hf Hstep. revert b. induction Hf as [|x xs Hx Hxs IH]; intros b; cbn [for_each_fold]; [done|].
  specialize (Hstep x b Hx). unfold wp in Hstep. destruct (f b x) as [x' [b'|e| |]]; try done.
  - specialize (IH b'). destruct (for_each_fold f xs b') as [xs' r]. destruct IH as [[? Hl] ?].
    simpl in *. split_and!; [by constructor|by rewrite Hl|done].
  - split_and!; [by constructor|done|done].
Qed.

Section Store.
Context `{Profile} `{SafeDevice D}.
Implicit Types s : Store D.

Definition store_safe (bs bc : Z) (s : Store D) : Prop :=
  Forall (replica_safe bs bc) (replicas s) ∧ (1 ≤ length (replicas s))%nat.

(** The outcome of a call: normal, with the store in order. *)
Definition safely {A} (bs bc : Z) (m : M (Store D) A) (s : Store D) : Prop :=
  returns (m s).2 ∧ store_safe bs bc (m s).1.

Lemma safely_wp {A} bs bc (m : M (Store D) A) s :
  safely bs bc m s ↔ wp m (λ _ s', store_safe bs bc s') (λ _ s', store_safe bs bc s') s.
Proof. unfold safely, wp. destruct (m s) as [s' [a|e| |]]; simpl; tauto. Qed.

Lemma on_replicas_safe {A} bs bc (f : list (Replica D) → list (Replica D) * outcome A) s :
  store_safe bs bc s →
  Forall (replica_safe bs bc) (f (replicas s)).1 ∧ length (f (replicas s)).1 = length (replicas s) →
  returns (f (replicas s)).2 → safely bs bc (on_replicas f) s.
Proof.
  intros [_ Hn] [Hf Hl] Hr. unfold safely, store_safe, on_replicas.
  destruct (f (replicas s)) as [rs r]. simpl in *. split_and!; [done|done|lia].
Qed.

Lemma build_index_safe bs bc s : store_safe bs bc s → 36 ≤ bs → safely bs bc build_index s.
Proof.
  intros Hss Hbs. pose proof Hss as [Hs _]. destruct (for_each_mut_safe Replica_build_index _ _ Hs) as [Hf Hr].
  { intros r Hr. by apply Replica_build_index_safe. }
  by apply on_replicas_safe.
Qed.

Lemma recover_safe bs bc s : store_safe bs bc s → 36 ≤ bs → safely bs bc recover s.
Proof.
  intros Hss Hbs. pose proof Hss as [Hs _]. apply safely_wp. unfold recover. wpgets. apply safely_wp.
  destruct (for_each_mut_safe (Replica_recover (free_pattern (opts s))) _ _ Hs) as [Hf Hr].
  { intros r Hr. by apply Replica_recover_safe. }
  by apply on_replicas_safe.
Qed.

Lemma get_best_safe bs bc key acc r :
  replica_safe bs bc r → 36 ≤ bs →
  wp (get_best key acc) (λ _ r', replica_safe bs bc r') (λ _ r', replica_safe bs bc r') r.
Proof.
  intros Hr Hbs. unfold get_best. destruct acc as [best gen]. apply wp_bind.
  eapply wp_mono; [by apply (get_with_generation_safe bs bc)| |done]. cbv beta.
  intros [[[g v]|e]|] r' Hr'; [destruct (_ || _)|..]; by apply wp_ret.
Qed.

Lemma get_safe bs bc key s : store_safe bs bc s → 36 ≤ bs → safely bs bc (get key) s.
Proof.
  intros Hss Hbs. pose proof Hss as [Hs _]. apply safely_wp. unfold get. apply wp_bind.
  destruct (for_each_fold_safe (get_best key) _ _ (None, 0) Hs) as [Hf Hr].
  { intros r b Hr. by apply get_best_safe. }
  eapply wp_mono; [apply safely_wp, on_replicas_safe; [exact Hss|exact Hf|exact Hr]| |done].
  cbv beta. intros [[v|] g] s' Hs'; [by apply wp_ret|by apply wp_throw].
Qed.

Lemma delete_safe bs bc key s : store_safe bs bc s → 36 ≤ bs → safely bs bc (delete key) s.
Proof.
  intros Hss Hbs. pose proof Hss as [Hs _]. apply safely_wp. unfold delete. wpgets. apply wp_bind.
  destruct (for_each_fold_safe (delete_one (key_str key) (free_pattern (opts s))) _ _ false Hs)
    as [Hf Hr].
  { intros r b Hr. by apply delete_one_safe. }
  eapply wp_mono; [apply safely_wp, on_replicas_safe; [exact Hss|exact Hf|exact Hr]| |done].
  cbv beta. intros [] s' Hs'; [by apply wp_ret|by apply wp_throw].
Qed.

Lemma max_generation_bound bs bc k rs :
  Forall (replica_safe bs bc) rs → u32 (max_generation k rs).
Proof.
  intros Hf. unfold max_generation. assert (u32 0) as H0' by done. revert H0'. generalize 0.
  induction Hf as [|r rs [_ Hix] _ IH]; intros g Hg; cbn [foldl]; [done|]. apply IH.
  destruct (MemIndex_get k (r_index r)) as [e|] eqn:He; [|done].
  destruct (_ <? _); [by apply (Hix k)|done].
Qed.

(** The next generation must exist: a checked build panics at 2^32 - 1. *)
(** The one panic that data on the devices can cause: the generation counter of
    the key has reached 2^32 - 1, and the build checks the increment. *)
Definition exhausted (bs : Z) (key : list byte) (s : Store D) : Prop :=
  overflow_checks = true ∧ zlen key ≤ bs - 36 ∧
  max_generation (key_str key) (replicas s) = U32 - 1.

#[export] Instance exhausted_decision bs key s : Decision (exhausted bs key s).
Proof. unfold exhausted. apply _. Defined.

(** [put] on a key whose generation has reached 2^32 - 1. *)
Lemma put_flagged_top bs bc key value flags s :
  store_safe bs bc s → 36 ≤ bs → zlen key ≤ bs - 36 →
  max_generation (key_str key) (replicas s) = U32 - 1 →
  put_flagged key value flags s =
    if overflow_checks then (s, Panic) else
    on_replicas (for_each_mut (Replica_put key value 0 flags (free_pattern (opts s)))) s.
Proof.
  intros [Hs Hne] Hbs Hk Hmax. unfold put_flagged. mgets.
  destruct (replicas s) as [|r0 rs] eqn:Er; [simpl in Hne; lia|].
  assert (index (r0 :: rs) 0 = Ok r0) as Hi0 by done. mlift Hi0.
  pose proof (Forall_inv Hs) as Hr0. pose proof (dev_geom_range _ _ _ (rs_dev _ _ _ Hr0)) as Hrg.
  destruct (rs_dev _ _ _ Hr0) as (_ & -> & _). mlift (room_ok bs ltac:(lia)).
  rewrite (as_u32_small (zlen key)), (proj2 (Z.ltb_ge _ _) Hk), Hmax by lia.
  unfold u32_add, checked. cbn [Z.add Z.sub]. by destruct overflow_checks.
Qed.

Lemma put_flagged_safe bs bc key value flags s :
  store_safe bs bc s → 36 ≤ bs → zlen key < U32 → ¬ exhausted bs key s →
  safely bs bc (put_flagged key value flags) s.
Proof.
  intros Hss Hbs Hk Hex. pose proof Hss as [Hs Hne]. unfold exhausted in Hex.
  apply safely_wp. unfold put_flagged. wpgets.
  destruct (replicas s) as [|r0 rs] eqn:Er; [simpl in Hne; lia|].
  assert (index (r0 :: rs) 0 = Ok r0) as Hi0 by done. wplift Hi0.
  pose proof (Forall_inv Hs) as Hr0. pose proof (dev_geom_range _ _ _ (rs_dev _ _ _ Hr0)) as Hrg.
  destruct (rs_dev _ _ _ Hr0) as (_ & -> & _). wplift (room_ok bs ltac:(lia)).
  rewrite (as_u32_small (zlen key)) by lia.
  destruct (bs - 36 <? zlen key) eqn:E; zbool; [by apply wp_throw|].
  pose proof (max_generation_bound bs bc (key_str key) _ Hs) as Hg. unfold u32 in Hg.
  assert (∃ g, u32_add (max_generation (key_str key) (r0 :: rs)) 1 = Ok g ∧ u32 g) as (g & Hadd & Hgu).
  { destruct (decide (max_generation (key_str key) (r0 :: rs) + 1 < U32)).
    - eexists. split; [apply u32_add_ok; lia|unfold u32; lia].
    - destruct overflow_checks eqn:Hov; [exfalso; apply Hex; split_and!; [done|done|lia]|]. eexists.
      split; [apply checked_returns_wrap; [done|lia]|apply Z.mod_pos_bound; lia]. }
  wplift Hadd. wpgets. apply safely_wp.
  destruct (for_each_mut_safe (Replica_put key value g flags (free_pattern (opts s))) _ _ Hs)
    as [Hf Hr].
  { intros r Hr. apply Replica_put_safe; [done|done|lia|done]. }
  apply on_replicas_safe; [done|by rewrite Er..].
Qed.

End Store.

(** ** Opening, and any sequence of calls *)

Section Sequences.
Context `{Profile} `{SafeDevice D}.
Implicit Types (d : D) (s : Store D).

Lemma open_header_safe bs bc d :
  dev_geom bs bc d →
  wp open_replica_header (λ _ d', dev_geom bs bc d' ∧ 32 ≤ bs) (λ _ d', dev_geom bs bc d') d.
Proof.
  intros Hd. apply dev_geom_range in Hd as Hr. unfold open_replica_header. wpgets.
  destruct (Hd) as (_ & -> & _). consts. destruct (bs <? 28 + 4) eqn:E; zbool; [by apply wp_throw|].
  wpcall (wp_read bs bc 0 (replicate (Z.to_nat bs) x00) d Hd ltac:(lia) ltac:(len)).
  intros b d1 [Hd1 Hlb]. wplift (get_u8_ok b 0 ltac:(lia)). destruct (negb _); [by apply wp_throw|].
  wplift (unmarshal_storage_header_ok b ltac:(lia)).
  do 3 (destruct (negb _); [by apply wp_throw|]). wpgets.
  destruct (negb _); [by apply wp_throw|]. destruct (_ <? 1); [by apply wp_throw|].
  apply wp_ret. split; [done|lia].
Qed.

Lemma open_devices_safe devs g :
  Forall dev_ok devs →
  match open_devices devs g with
  | Ok rs => length rs = length devs ∧
      ∀ bs bc, from_option (eq (bs, bc)) (∀ d ds, devs = d :: ds →
        bs = block_size d ∧ bc = block_count d) g → Forall (replica_safe bs bc) rs
  | Err _ => True
  | _ => False
  end.
Proof.
  intros Hf. revert g. induction Hf as [|d devs Hd _ IH]; intros g; cbn [open_devices]; [by split|].
  pose proof (open_header_safe (block_size d) (block_count d) d (conj Hd (conj eq_refl eq_refl))) as Ho.
  unfold wp in Ho. destruct (open_replica_header d) as [d' [h|e| |]]; try done.
  destruct Ho as [Hg' _]. pose proof Hg' as (Hok & -> & ->).
  destruct (match g with None => false | Some g0 => _ end) eqn:Em; [done|].
  set (here := (block_size d, block_count d)) in *.
  assert (default here g = here) as ->.
  { destruct g as [[b c]|]; [|done]. apply orb_false_iff in Em as [E1 E2].
    apply negb_false_iff in E1, E2. zbool. simpl in *. unfold here. by rewrite E1, E2. }
  specialize (IH (Some here)). destruct (open_devices devs (Some here)) as [rs|e| |]; try done.
  cbn [mbind outcome_bind]. destruct IH as [Hl Hrs]. split; [simpl; by rewrite Hl|].
  intros bs bc Hgeo. assert (bs = block_size d ∧ bc = block_count d) as [-> ->].
  { destruct g as [[b c]|]; [|by eapply Hgeo]. simpl in Hgeo. injection Hgeo as -> ->.
    apply orb_false_iff in Em as [E1 E2]. apply negb_false_iff in E1, E2. zbool. simpl in *. auto. }
  constructor; [|by apply Hrs]. split; [done|]. intros k e. simpl. by rewrite get_new.
Qed.

(** [open] returns on any devices, and a store it returns is in order. *)
Lemma open_safe devs o :
  Forall dev_ok devs →
  match open devs o with
  | Ok s => ∀ d ds, devs = d :: ds → store_safe (block_size d) (block_count d) s
  | Err _ => True
  | _ => False
  end.
Proof.
  intros Hf. pose proof (open_devices_safe devs None Hf) as Ho. unfold open.
  destruct devs as [|d devs]; [done|]. destruct (open_devices (d :: devs) None) as [rs|e| |]; try done.
  cbn [mbind outcome_bind]. destruct Ho as [Hl Hrs]. intros d0 ds [= <- <-]. split; simpl.
  - apply Hrs. by intros ? ? [= <- <-].
  - rewrite Hl. simpl. lia.
Qed.

Lemma reopen_safe bs bc s :
  store_safe bs bc s → 36 ≤ bs → safely bs bc reopen s.
Proof.
  intros Hss Hbs. pose proof Hss as [Hs Hne]. pose proof (open_safe (into_devices s) (opts s)) as Ho. unfold into_devices in Ho.
  assert (Forall dev_ok (r_dev <$> replicas s)) as Hok.
  { apply Forall_fmap. eapply Forall_impl; [exact Hs|]. intros r [[? _] _]. done. }
  specialize (Ho Hok). unfold safely, reopen, into_devices.
  destruct (open (r_dev <$> replicas s) (opts s)) as [s'|e| |]; try done.
  destruct (replicas s) as [|r0 rs]; [simpl in Hne; lia|]. specialize (Ho (r_dev r0) _ eq_refl).
  apply Forall_cons in Hs as [[(_ & Hb & Hc) _] _]. rewrite Hb, Hc in Ho.
  by apply build_index_safe.
Qed.

(** Keys of less than 4 GiB, so that their length is not truncated. *)
Definition short_key (c : command) : Prop :=
  match c with CPut key _ _ => zlen key < U32 | _ => True end.

(** A [put] of a key whose generation counter is at its end. *)
Definition put_exhausted (bs : Z) (c : command) (s : Store D) : Prop :=
  match c with CPut key _ _ => exhausted bs key s | _ => False end.

#[export] Instance put_exhausted_decision bs c s : Decision (put_exhausted bs c s).
Proof. destruct c; simpl; apply _. Defined.

Lemma safely_unit {A B} bs bc (m : M (Store D) A) (f : A → B) s :
  safely bs bc m s → safely bs bc (a ← m; mret (f a)) s.
Proof.
  rewrite !safely_wp. intros Hm. apply wp_bind. eapply wp_mono; [exact Hm| |done].
  cbv beta. intros a s' Hs'. by apply wp_ret.
Qed.

(** One command either panics, with the counter at its end and the store as it
    was, or returns. *)
Lemma exec_safe bs bc c s :
  store_safe bs bc s → 36 ≤ bs → short_key c →
  store_safe bs bc (exec c s).1 ∧
  if decide (put_exhausted bs c s) then exec c s = (s, Panic) else returns (exec c s).2.
Proof.
  intros Hs Hbs Hk. case_decide as Hex.
  - assert (exec c s = (s, Panic)) as ->; [|done]. destruct c as [| key value flags| | | |]; try done.
    destruct Hex as (Hov & Hlen & Hmax). unfold exec, mbind, M_bind.
    by rewrite (put_flagged_top bs bc key value flags s Hs Hbs Hlen Hmax), Hov.
  - assert (safely bs bc (exec c) s) as [? ?]; [|done].
    destruct c; unfold exec; apply safely_unit.
    + by apply get_safe.
    + by apply put_flagged_safe.
    + by apply delete_safe.
    + by apply build_index_safe.
    + by apply recover_safe.
    + by apply reopen_safe.
Qed.

Lemma exec_all_safe bs bc cs s :
  store_safe bs bc s → 36 ≤ bs → Forall short_key cs → store_safe bs bc (exec_all cs s).1.
Proof.
  intros Hs Hbs Hcs. revert s Hs. induction Hcs as [|c cs Hc _ IH]; intros s Hs; cbn [exec_all]; [done|].
  destruct (exec_safe bs bc c s Hs Hbs Hc) as [Hs' _]. destruct (exec c s) as [s' r]. simpl in *.
  specialize (IH s' Hs'). by destruct (exec_all cs s') as [s'' rs].
Qed.

End Sequences.

(** ** What get returns from damaged replicas *)

Section Get.
Context `{Profile} `{SafeDevice D}.
Implicit Types (r : Replica D) (s : Store D).

(** The generation and value a replica yields for a key, if it can read it. *)
Definition reading (key : list byte) (r : Replica D) : option (Z * list byte) :=
  match (get_with_generation key r).2 with
  | Ok (Some (inl gv)) => Some gv
  | _ => None
  end.

(** What the loop of [get] has found among the replicas [seen]. *)
Definition found_best (key : list byte) (seen : list (Replica D)) (acc : option (list byte) * Z) :
    Prop :=
  match acc.1 with
  | Some v => (∃ r, r ∈ seen ∧ reading key r = Some (acc.2, v)) ∧
      ∀ r g v', r ∈ seen → reading key r = Some (g, v') → g ≤ acc.2
  | None => ∀ r, r ∈ seen → reading key r = None
  end.

Lemma found_step key seen acc r bs bc :
  replica_safe bs bc r → 36 ≤ bs → found_best key seen acc →
  wp (get_best key acc) (λ acc' _, found_best key (seen ++ [r]) acc') (λ _ _, False) r.
Proof.
  intros Hr Hbs Hf. pose proof (get_with_generation_safe bs bc key r Hr Hbs) as Hsafe.
  assert (∀ x, x ∈ seen ++ [r] ↔ x ∈ seen ∨ x = r) as Hin
    by (intros x; by rewrite elem_of_app, list_elem_of_singleton).
  unfold get_best. destruct acc as [best gen]. unfold wp, mbind, M_bind in *.
  assert (reading key r = match (get_with_generation key r).2 with
    | Ok (Some (inl gv)) => Some gv | _ => None end) as Hrd by done.
  destruct (get_with_generation key r) as [r' [[[[g v]|e]|]|e| |]]; try done; simpl in Hrd.
  2,3: unfold found_best in *; simpl in *; destruct best as [w|]; [destruct Hf as [(x & ? & ?) Hm];
    split; [exists x; rewrite Hin; auto|]; intros y g' v' [?| ->]%Hin Hy; [by eapply Hm|congruence]
    |intros y [?| ->]%Hin; auto].
  destruct best as [w|]; [destruct (gen <? g) eqn:E|]; zbool; cbn; unfold found_best in *; simpl in *.
  - split; [exists r; rewrite Hin; auto|]. destruct Hf as [_ Hm]. intros y g' v' [Hy'| ->]%Hin Hy.
    + specialize (Hm _ _ _ Hy' Hy). lia.
    + rewrite Hrd in Hy. injection Hy as <- _. lia.
  - destruct Hf as [(x & ? & ?) Hm]. split; [exists x; rewrite Hin; auto|].
    intros y g' v' [?| ->]%Hin Hy; [by eapply Hm|]. rewrite Hrd in Hy. injection Hy as <- _. lia.
  - split; [exists r; rewrite Hin; auto|]. intros y g' v' [Hy'| ->]%Hin Hy.
    + rewrite (Hf _ Hy') in Hy. done.
    + rewrite Hrd in Hy. injection Hy as <- _. lia.
Qed.

Lemma found_loop key seen rs acc bs bc :
  Forall (replica_safe bs bc) rs → 36 ≤ bs → found_best key seen acc →
  ∃ rs' acc', for_each_fold (get_best key) rs acc = (rs', Ok acc') ∧
    found_best key (seen ++ rs) acc'.
Proof.
  intros Hf Hbs. revert seen acc. induction Hf as [|r rs Hr _ IH]; intros seen acc Ha;
    cbn [for_each_fold]; [rewrite app_nil_r; by eexists _, _|].
  pose proof (found_step key seen acc r bs bc Hr Hbs Ha) as Hs. unfold wp in Hs.
  destruct (get_best key acc r) as [r' [acc'|e| |]]; try done.
  destruct (IH (seen ++ [r]) acc' Hs) as (rs' & acc'' & -> & Hf'). rewrite <- app_assoc in Hf'.
  by eexists _, _.
Qed.

End Get.

(** ** Properties *)

(** C5: on devices with blocks of at least 36 bytes, the only panic the devices can
    cause is the unguarded generation counter, and they can never make a call
    hang.  Devices that respect the interface (fixed geometry, one block per
    buffer) but otherwise fail or answer arbitrarily at every call, differently
    each time, are opened or refused with an error.  After any further sequence
    of [get], [put], [delete], [build_index], [recover] and reopening, with keys
    below 4 GiB, the next call returns, with a result or an error, unless it is a
    [put] in a build with overflow checks, of a key that fits a block and whose
    highest indexed generation is 2^32 - 1: then it panics before it writes
    anything. *)
Theorem no_panic_on_any_device `{Profile} `{SafeDevice D} (d : D) devs o :
  dev_ok d → Forall dev_ok devs → 36 ≤ block_size d →
  match open (d :: devs) o with
  | Ok s => ∀ cs c, Forall short_key cs → short_key c →
      let s' := (exec_all cs s).1 in
      store_safe (block_size d) (block_count d) s' ∧
      if decide (put_exhausted (block_size d) c s')
      then exec c s' = (s', Panic) else returns (exec c s').2
  | Err _ => True
  | Panic | Diverge => False
  end.
Proof.
  intros Hd Hds Hbs. pose proof (open_safe (d :: devs) o (Forall_cons_2 _ _ _ Hd Hds)) as Ho.
  destruct (open (d :: devs) o) as [s|e| |]; try done.
  intros cs c Hcs Hc s'. specialize (Ho d devs eq_refl).
  pose proof (exec_all_safe _ _ cs s Ho Hbs Hcs) as Hs'. split; [exact Hs'|].
  by destruct (exec_safe _ _ c s' Hs' Hbs Hc).
Qed.

Lemma sample_wf : MemDevice_wf sample_device.
Proof. destruct sample_mounted as [[Hwf _] _ _]. exact Hwf. Qed.

(** In a build with overflow checks, on a device for which the counter is not at
    its end. *)
Lemma no_panic_on_any_device_witness :
  ∃ s, open (H := dev_profile) [sample_device] Options_new = Ok s ∧
    returns (exec (H := dev_profile) (CPut [x6b] [x76] 0)
      (exec_all (H := dev_profile) [CPut [x6b] [x76] 0; CRecover; CReopen] s).1).2.
Proof.
  pose proof (no_panic_on_any_device (H := dev_profile) sample_device [] Options_new
    sample_wf (Forall_nil_2 _) ltac:(simpl; lia)) as Hn.
  destruct (open (H := dev_profile) [sample_device] Options_new) as [s|e| |] eqn:Ho.
  - exists s. split; [reflexivity|].
    destruct (Hn [CPut [x6b] [x76] 0; CRecover; CReopen] (CPut [x6b] [x76] 0)) as [_ Hr];
      [repeat constructor; simpl; lia|simpl; lia|].
    rewrite decide_False in Hr; [exact Hr|]. intros (_ & _ & Hmax).
    vm_compute in Ho. injection Ho as <-. vm_compute in Hmax. discriminate Hmax.
  - exfalso. vm_compute in Ho. discriminate Ho.
  - destruct Hn.
  - destruct Hn.
Defined.

(** C11: [get] uses every replica that can still be read: on any devices it
    returns the value of the highest generation among the replicas whose record
    is intact and whose device answers, ignoring the damaged ones, and
    [KeyNotFound] exactly when no replica can read the key. *)
Theorem get_survives_damage `{Profile} `{SafeDevice D} (s : Store D) bs bc key :
  store_safe bs bc s → 36 ≤ bs →
  match (get key s).2 with
  | Ok v => ∃ g, (∃ r, r ∈ replicas s ∧ reading key r = Some (g, v)) ∧
      ∀ r g' v', r ∈ replicas s → reading key r = Some (g', v') → g' ≤ g
  | Err e => e = KeyNotFound ∧ ∀ r, r ∈ replicas s → reading key r = None
  | Panic | Diverge => False
  end.
Proof.
  intros [Hs _] Hbs. destruct (found_loop key [] (replicas s) (None, 0) bs bc Hs Hbs)
    as (rs' & [best gen] & Hl & Hf); [intros r Hr; by apply not_elem_of_nil in Hr|].
  unfold get. rewrite (bind_Ok (on_replicas _) _ s {| replicas := rs'; opts := opts s |} (best, gen))
    by (unfold on_replicas; by rewrite Hl).
  simpl in Hf. unfold found_best in Hf. simpl in Hf. destruct best as [v|]; simpl; [by exists gen|].
  by split.
Qed.

Lemma get_survives_damage_witness :
  match (get (H := dev_profile) [x6b] sample_store).2 with Err e => e = KeyNotFound | _ => False end.
Proof.
  pose proof (get_survives_damage (H := dev_profile) sample_store 64 4 [x6b]) as Hg.
  assert (store_safe 64 4 sample_store) as Hs.
  { split; [|simpl; lia]. assert (replica_safe 64 4 sample_replica) as Hr.
    { split; [split_and!; [apply sample_wf|done|done]|]. intros k e Hk. cbn [r_index sample_replica] in Hk.
      by rewrite get_new in Hk. }
    constructor; [exact Hr|]. constructor; [exact Hr|constructor]. }
  specialize (Hg Hs ltac:(lia)).
  destruct (get (H := dev_profile) [x6b] sample_store) as [s' [v|e| |]] eqn:Hrun; simpl in *.
  - vm_compute in Hrun. discriminate Hrun.
  - by destruct Hg.
  - done.
  - done.
Defined.

(** C36: the generation counter is not guarded: when the highest generation of a
    key is 2^32 - 1, [put] panics in a build with overflow checks; in a release
    build it goes on with generation 0, below the record it replaces. *)
Theorem put_generation_overflow `{Profile} `{SafeDevice D} (s : Store D) bs bc key value flags :
  store_safe bs bc s → 36 ≤ bs → zlen key ≤ bs - 36 →
  max_generation (key_str key) (replicas s) = U32 - 1 →
  put_flagged key value flags s =
    if overflow_checks then (s, Panic) else
    on_replicas (for_each_mut (Replica_put key value 0 flags (free_pattern (opts s)))) s.
Proof. apply put_flagged_top. Qed.

Lemma put_generation_overflow_witness :
  ∃ s : Store MemDevice, put_flagged (H := dev_profile) [x6b] [x76] 0 s = (s, Panic).
Proof.
  set (e := {| ie_key := [x6b]; ie_generation := 4294967295; ie_descriptor_block := 1;
               ie_total_size := 0 |}).
  exists {| replicas := [{| r_dev := sample_device; r_header := sample_header;
    r_index := MemIndex_put e MemIndex_new |}]; opts := Options_new |}.
  apply (put_generation_overflow (H := dev_profile) _ 64 4);
    [|lia|simpl; lia|by vm_compute].
  split; [|simpl; lia]. constructor; [|constructor]. split; [split_and!; [apply sample_wf|done|done]|].
  intros k e'. cbn [r_index]. rewrite get_put. case_decide; [|by rewrite get_new].
  intros [= <-]. unfold u32. simpl. lia.
Defined.
