(* ===== verification/Fuzz.v ===== *)
(** * The fuzz targets (rust/fuzz/fuzz_targets)

    Each target is a function of the input the fuzzer generates; it fails by
    panicking.  They are run here on every input at once: none of them panics,
    loops, or violates one of its assertions. *)

From S2P Require Import Prelude Errors Rust Format Crc Block Device Record Utf8 Index Replica.
From S2P Require Import Store RecordWrite Allocation Catalog Recovery ReplicaSpec StoreSpec.
From S2P Require Import Lifecycle Shards Refinement Safety.

(** ** The constructs of the targets *)

(** [let _ = m;]: an error is dropped, a panic is not. *)
Definition ignore {S A} (m : M S A) : M S unit := attempt m;; mret tt.

(** [assert_eq!(a, b)] *)
Definition assert_eq {S} {A : Type} `{EqDecision A} (a b : A) : M S unit :=
  if decide (a = b) then mret tt else lift Panic.

(** [match m { Ok(v) => v, Err(e) => panic!(..) }] *)
Definition or_panic {S A} (m : M S A) : M S A :=
  r ← attempt m;
  match r with inl a => mret a | inr _ => lift Panic end.

(** [if let Ok(a) = o { k(a) }], and [let Ok(a) = o else { return }; k(a)]. *)
Definition if_let_ok {A} (o : outcome A) (k : A → outcome unit) : outcome unit :=
  match o with
  | Ok a => k a
  | Err _ => Ok tt
  | Panic => Panic
  | Diverge => Diverge
  end.

(** [format(std::slice::from_mut(&mut dev), &Options::default())] *)
Definition format_mut `{Profile} `{BlockDevice D} : M D unit := λ d,
  match format Options_new [d] with
  | ([d'], r) => (d', r)
  | (_, r) => (d, r)
  end.

(** A device built by [new], formatted ([if format(..).is_err() { return; }])
    and handed to [fill]; what is left goes to [k]. *)
Definition on_formatted `{Profile} (bs bc : Z) (fill : M MemDevice unit)
    (k : MemDevice → outcome unit) : outcome unit :=
  match format_mut (MemDevice_new bs bc) with
  | (dev, Ok _) => let '(dev, r) := fill dev in r;; k dev
  | (_, Err _) => Ok tt
  | (_, Panic) => Panic
  | (_, Diverge) => Diverge
  end.

(** [for i in lo..hi { let _ = dev.write_block(i, &buf); }] *)
Definition fill_blocks `{BlockDevice D} (lo hi : Z) (buf : list byte) : M D unit :=
  for_fold (λ i _, ignore (write_block i buf)) (seqZ lo (hi - lo)) tt.

(** ** fuzz_raw_block *)

Module RawBlock.
Section Target.
Context `{Profile}.

Definition BLOCK_SIZE : Z := 128.
Definition BLOCK_COUNT : Z := 16.

(** Pad or trim the input to a block. *)
Definition raw_block (data : list byte) : outcome (list byte) :=
  let block := replicate (Z.to_nat BLOCK_SIZE) x00 in
  let n := Z.min (zlen data) BLOCK_SIZE in
  src ← slice data 0 n;
  copy_from_slice block 0 n src.

Definition raw_fill (block : list byte) : M MemDevice unit :=
  ignore (write_block 1 block);; fill_blocks 2 BLOCK_COUNT block.

(** A failing [format] returns from the target, so each path takes the rest of
    the target. *)
Definition raw_path1 (block : list byte) (rest : outcome unit) : outcome unit :=
  on_formatted BLOCK_SIZE BLOCK_COUNT
    (raw_fill block;; ignore (verify_and_read_record 1))
    (λ dev, if_let_ok (open [dev] Options_new) (λ s,
      ((ignore build_index;; ignore (get (Tests.bytes_of "any-key"))) s).2);; rest).

Definition raw_path2 (block : list byte) (rest : outcome unit) : outcome unit :=
  on_formatted BLOCK_SIZE BLOCK_COUNT (raw_fill block)
    (λ dev, if_let_ok (open [dev] Options_new) (λ s,
      ((ignore recover;; ignore build_index;;
        ignore (get (Tests.bytes_of "any-key"))) s).2);; rest).

Definition raw_path3 (data block : list byte) : outcome unit :=
  let n := Z.min (zlen data) BLOCK_SIZE in
  chunk_block ← set_index block 0 (z2b BLOCK_TYPE_VALUE_CHUNK);
  desc_block ← set_index (replicate (Z.to_nat BLOCK_SIZE) x00) 0
                 (z2b BLOCK_TYPE_RECORD_DESCRIPTOR);
  desc_block ← (if 1 <? n then
                  let end_ := Z.min n BLOCK_SIZE in
                  src ← slice data 1 end_;
                  copy_from_slice desc_block 1 end_ src
                else Ok desc_block);
  on_formatted BLOCK_SIZE BLOCK_COUNT
    (ignore (write_block 1 desc_block);; ignore (write_block 2 chunk_block);;
     ignore (verify_and_read_record 1))
    (λ _, Ok tt).

Definition fuzz_raw_block (data : list byte) : outcome unit :=
  block ← raw_block data;
  raw_path1 block (raw_path2 block (raw_path3 data block)).

End Target.
End RawBlock.

(** ** fuzz_crc_valid_descriptor *)

Module CrcValidDescriptor.
Section Target.
Context `{Profile}.

Definition BLOCK_SIZE : Z := 128.
Definition BLOCK_COUNT : Z := 16.

Record DescriptorFields := {
  df_key_size : Z;
  df_generation : Z;
  df_total_size : Z;
  df_first_payload_size : Z;
  df_chunk_count : Z;
  df_next_chunk : Z;
  df_flags : Z;
  df_user_flags : Z;
}.

Definition build_crc_valid_descriptor (fields : DescriptorFields) : outcome (list byte) :=
  let buf := replicate (Z.to_nat BLOCK_SIZE) x00 in
  buf ← set_index buf 0 (z2b BLOCK_TYPE_RECORD_DESCRIPTOR);
  buf ← set_index buf 1 (z2b (as_u8 RECORD_DESCRIPTOR_HEADER_SIZE));
  buf ← copy_from_slice buf 2 4 (to_le_bytes 2 (df_key_size fields));
  buf ← copy_from_slice buf 4 8 (to_le_bytes 4 (df_generation fields));
  buf ← copy_from_slice buf 8 12 (to_le_bytes 4 (df_total_size fields));
  buf ← copy_from_slice buf 12 16 (to_le_bytes 4 (df_first_payload_size fields));
  buf ← copy_from_slice buf 16 20 (to_le_bytes 4 (df_chunk_count fields));
  buf ← copy_from_slice buf 20 24 (to_le_bytes 4 (df_next_chunk fields));
  buf ← copy_from_slice buf 24 28 (to_le_bytes 4 (df_flags fields));
  buf ← copy_from_slice buf 28 32 (to_le_bytes 4 (df_user_flags fields));
  write_block_crc buf.

Definition fuzz_crc_valid_descriptor (fields : DescriptorFields) : outcome unit :=
  desc_buf ← build_crc_valid_descriptor fields;
  on_formatted BLOCK_SIZE BLOCK_COUNT
    (fill_blocks 1 BLOCK_COUNT desc_buf;; ignore (verify_and_read_record 1))
    (λ dev, if_let_ok (open [dev] Options_new) (λ s,
      ((ignore build_index;; ignore (get (Tests.bytes_of "key"))) s).2)).

End Target.
End CrcValidDescriptor.

(** ** fuzz_crc_valid_chunk *)

Module CrcValidChunk.
Section Target.
Context `{Profile}.

Definition BLOCK_SIZE : Z := 128.
Definition BLOCK_COUNT : Z := 16.

Record ChunkFields := {
  cf_owner_descriptor : Z;
  cf_chunk_index : Z;
  cf_payload_size : Z;
  cf_next_chunk : Z;
  cf_flags : Z;
}.

Definition build_crc_valid_chunk (fields : ChunkFields) : outcome (list byte) :=
  let buf := replicate (Z.to_nat BLOCK_SIZE) x00 in
  buf ← set_index buf 0 (z2b BLOCK_TYPE_VALUE_CHUNK);
  buf ← set_index buf 1 (z2b (as_u8 VALUE_CHUNK_HEADER_SIZE));
  buf ← copy_from_slice buf 2 4 (to_le_bytes 2 (cf_flags fields));
  buf ← copy_from_slice buf 4 8 (to_le_bytes 4 (cf_owner_descriptor fields));
  buf ← copy_from_slice buf 8 12 (to_le_bytes 4 (cf_chunk_index fields));
  buf ← copy_from_slice buf 12 16 (to_le_bytes 4 (cf_payload_size fields));
  buf ← copy_from_slice buf 16 20 (to_le_bytes 4 (cf_next_chunk fields));
  write_block_crc buf.

Definition build_descriptor_pointing_to (block2 first_payload_cap : Z) : outcome (list byte) :=
  let buf := replicate (Z.to_nat BLOCK_SIZE) x00 in
  buf ← set_index buf 0 (z2b BLOCK_TYPE_RECORD_DESCRIPTOR);
  buf ← set_index buf 1 (z2b (as_u8 RECORD_DESCRIPTOR_HEADER_SIZE));
  let key_size := 1 in
  buf ← copy_from_slice buf 2 4 (to_le_bytes 2 key_size);
  buf ← copy_from_slice buf 4 8 (to_le_bytes 4 1);
  total ← u32_add first_payload_cap 1;
  buf ← copy_from_slice buf 8 12 (to_le_bytes 4 total);
  buf ← copy_from_slice buf 12 16 (to_le_bytes 4 first_payload_cap);
  buf ← copy_from_slice buf 16 20 (to_le_bytes 4 2);
  buf ← copy_from_slice buf 20 24 (to_le_bytes 4 block2);
  buf ← copy_from_slice buf 24 28 (to_le_bytes 4 0);
  buf ← copy_from_slice buf 28 32 (to_le_bytes 4 0);
  buf ← set_index buf RECORD_DESCRIPTOR_HEADER_SIZE x6b;
  write_block_crc buf.

Definition fuzz_crc_valid_chunk (fields : ChunkFields) : outcome unit :=
  chunk_buf ← build_crc_valid_chunk fields;
  first_payload_cap ← (a ← u32_sub BLOCK_SIZE RECORD_DESCRIPTOR_HEADER_SIZE;
                       a ← u32_sub a 1; u32_sub a BLOCK_CRC_SIZE);
  desc_buf ← build_descriptor_pointing_to 2 first_payload_cap;
  on_formatted BLOCK_SIZE BLOCK_COUNT
    (ignore (write_block 1 desc_buf);; ignore (write_block 2 chunk_buf);;
     fill_blocks 3 BLOCK_COUNT chunk_buf;; ignore (verify_and_read_record 1))
    (λ dev, if_let_ok (open [dev] Options_new) (λ s,
      ((ignore build_index;; ignore (get [x6b])) s).2)).

End Target.
End CrcValidChunk.

(** ** fuzz_storage_pipeline *)

Module StoragePipeline.
Section Target.
Context `{Profile}.

Definition BLOCK_SIZE : Z := 64.
Definition BLOCK_COUNT : Z := 8.
Definition STORAGE_SIZE : Z := BLOCK_SIZE * BLOCK_COUNT.

Definition fuzz_storage_pipeline (data : list byte) : outcome unit :=
  let storage := replicate (Z.to_nat STORAGE_SIZE) x00 in
  let n := Z.min (zlen data) STORAGE_SIZE in
  src ← slice data 0 n;
  storage ← copy_from_slice storage 0 n src;
  if_let_ok (MemDevice_from_bytes BLOCK_SIZE storage) (λ dev,
    if_let_ok (open [dev] Options_new) (λ s,
      ((ignore recover;; ignore build_index;;
        ignore (get (Tests.bytes_of "hello"));;
        ignore (get (Tests.bytes_of "bigkey"));;
        ignore (get (Tests.bytes_of "power"))) s).2)).

End Target.
End StoragePipeline.

(** ** fuzz_put_get_delete *)

Module PutGetDelete.
Section Target.
Context `{Profile}.

Definition BLOCK_SIZE : Z := 128.
Definition BLOCK_COUNT : Z := 64.

Record PutGetInput := { in_key : list byte; in_value : list byte }.

(** The update of a key that is there. *)
Definition update_checked `{BlockDevice D} (input : PutGetInput) : M (Store D) unit :=
  r ← attempt (put (in_key input) (in_value input));
  match r with
  | inl _ =>
      got2 ← or_panic (get (in_key input));
      assert_eq got2 (in_value input)
  | inr StorageFull => mret tt
  | inr _ => lift Panic
  end.

(** The scenario after [open]. *)
Definition put_get_delete `{BlockDevice D} (input : PutGetInput) : M (Store D) unit :=
  b ← attempt build_index;
  match b with
  | inr _ => mret tt
  | inl _ =>
      r ← attempt (put (in_key input) (in_value input));
      match r with
      | inr KeyTooLong | inr StorageFull => mret tt
      | inr _ => lift Panic
      | inl _ =>
          got ← or_panic (get (in_key input));
          assert_eq got (in_value input);;
          update_checked input;;
          or_panic (delete (in_key input));;
          r ← attempt (get (in_key input));
          match r with
          | inr KeyNotFound => mret tt
          | _ => lift Panic
          end
      end
  end.

Definition fuzz_put_get_delete (input : PutGetInput) : outcome unit :=
  on_formatted BLOCK_SIZE BLOCK_COUNT (mret tt) (λ dev,
    if_let_ok (open [dev] Options_new) (λ s, (put_get_delete input s).2)).

End Target.
End PutGetDelete.

(** ** No target panics *)

(** A call whose result is dropped never fails. *)
Lemma wp_ignore {S A} (m : M S A) (I : S → Prop) s :
  wp m (λ _ s', I s') (λ _ s', I s') s → wp (ignore m) (λ _ s', I s') (λ _ _, False) s.
Proof.
  unfold wp, ignore, mbind, M_bind, attempt. by destruct (m s) as [s' [a|e| |]].
Qed.

(** What a computation that cannot fail returns. *)
Lemma wp_unit_result {S} (m : M S unit) (Q : S → Prop) s :
  wp m (λ _ s', Q s') (λ _ _, False) s → ∃ s', m s = (s', Ok tt) ∧ Q s'.
Proof. unfold wp. destruct (m s) as [s' [[]|e| |]]; try done. by exists s'. Qed.

Section Safe.
Context `{Profile} `{SafeDevice D}.
Implicit Types (d : D) (s : Store D).

Lemma fill_blocks_safe bs bc lo hi buf d :
  dev_geom bs bc d → 0 ≤ lo → hi < U32 → zlen buf = bs →
  wp (fill_blocks lo hi buf) (λ _ d', dev_geom bs bc d') (λ _ _, False) d.
Proof.
  intros Hd Hlo Hhi Hb. unfold fill_blocks.
  apply (wp_for_fold _ _ _ (λ _ _ d', dev_geom bs bc d') (λ _ _, False)); [done|].
  intros i l [] d' Hi%elem_of_seqZ Hd'. apply wp_ignore, wp_write; [done|lia|done].
Qed.

Lemma ignore_verify_safe bs bc i d :
  dev_geom bs bc d → 36 ≤ bs → 0 ≤ i < bc →
  wp (ignore (verify_and_read_record i)) (λ _ d', dev_geom bs bc d') (λ _ _, False) d.
Proof.
  intros Hd Hbs Hi. apply wp_ignore.
  eapply wp_mono; [by apply (verify_safe bs bc)| |done]. by intros o d' [Hd' _].
Qed.

Lemma ignore_safely {A} bs bc (m : M (Store D) A) s :
  safely bs bc m s → wp (ignore m) (λ _ s', store_safe bs bc s') (λ _ _, False) s.
Proof. intros Hm%safely_wp. by apply wp_ignore. Qed.

(** A device that respects the interface is opened or refused; if opened, what
    follows runs on a store in order. *)
Lemma if_open_safe bs bc d o (k : Store D → outcome unit) :
  dev_geom bs bc d → (∀ s, store_safe bs bc s → k s = Ok tt) →
  if_let_ok (open [d] o) k = Ok tt.
Proof.
  intros (Hok & Hb & Hc) Hk. pose proof (open_safe [d] o) as Ho.
  assert (Forall dev_ok [d]) as Hf by (constructor; [done|constructor]). specialize (Ho Hf).
  destruct (open [d] o) as [s|e| |]; simpl; try done. apply Hk.
  specialize (Ho d [] eq_refl). by rewrite Hb, Hc in Ho.
Qed.

End Safe.

Lemma format_devices_length `{Profile} `{BlockDevice D} o i (devs : list D) :
  length (format_devices o i devs).1 = length devs.
Proof.
  revert i. induction devs as [|d devs IH]; intros i; [done|]. cbn [format_devices].
  destruct (format_device o i d) as [d' [[]|e| |]]; try done. specialize (IH (i + 1)).
  destruct (format_devices o (i + 1) devs) as [devs' r]. simpl in *. by rewrite IH.
Qed.

(** Formatting a new device always succeeds. *)
Lemma format_mut_new `{Profile} bs bc :
  32 ≤ bs < U32 → 1 ≤ bc < U32 →
  ∃ d, format_mut (MemDevice_new bs bc) = (d, Ok tt) ∧ dev_geom bs bc d.
Proof.
  intros Hbs Hbc. pose proof (MemDevice_new_at bs bc ltac:(lia) ltac:(lia)) as Hd.
  destruct (format_devices_each Options_new [MemDevice_new bs bc]
    [(bs, replicate (Z.to_nat bc) (replicate (Z.to_nat bs) x00))] 0)
    as (devs & Hf & Hl & Hall).
  - constructor; [|constructor]. split_and!; [exact Hd|simpl; lia|simpl; len].
  - lia.
  - simpl; lia.
  - simpl; lia.
  - simpl; lia.
  - unfold u32. simpl. lia.
  - destruct (Hall 0%nat _ eq_refl) as (d & img & Hk & Hd' & [Hli _] & _).
    destruct devs as [|d0 [|]]; simpl in Hl; try lia. injection Hk as ->.
    exists d. split; [unfold format_mut, format; by rewrite Hf|].
    destruct (dev_at_geometry _ _ _ Hd') as (Hb & Hc & _). destruct Hd' as (Hwf & _).
    split_and!; [done|done|]. rewrite Hc, Hli. simpl. len.
Qed.

Lemma on_formatted_safe `{Profile} bs bc (fill : M MemDevice unit) k :
  32 ≤ bs < U32 → 1 ≤ bc < U32 →
  (∀ d, dev_geom bs bc d → wp fill (λ _ d', dev_geom bs bc d') (λ _ _, False) d) →
  (∀ d, dev_geom bs bc d → k d = Ok tt) →
  on_formatted bs bc fill k = Ok tt.
Proof.
  intros Hbs Hbc Hfill Hk. unfold on_formatted.
  destruct (format_mut_new bs bc Hbs Hbc) as (d & -> & Hd).
  destruct (wp_unit_result _ _ _ (Hfill d Hd)) as (d' & -> & Hd'). by apply Hk.
Qed.

(** *** The blocks the targets build *)

Lemma padded_block n (data : list byte) :
  0 ≤ n →
  ∃ src b, slice data 0 (Z.min (zlen data) n) = Ok src ∧
    copy_from_slice (replicate (Z.to_nat n) x00) 0 (Z.min (zlen data) n) src = Ok b ∧
    zlen b = n.
Proof.
  intros Hn. eexists _, _. split_and!; [apply slice_ok; lia|apply copy_from_slice_ok; len|].
  rewrite splice_length; len.
Qed.

Lemma set_index_length {A} (l : list A) i x :
  0 ≤ i < zlen l → ∃ l', set_index l i x = Ok l' ∧ zlen l' = zlen l.
Proof.
  intros Hi. unfold set_index. if_true. eexists. split; [done|len].
Qed.

(** The last step of every builder. *)
Lemma built_length `{Profile} (buf : list byte) :
  zlen buf = 128 → ∃ b, write_block_crc buf = Ok b ∧ zlen b = 128.
Proof.
  intros Hb. rewrite write_block_crc_ok by lia. eexists. split; [done|].
  rewrite length_seal. unfold crc_body. len.
Qed.

Lemma built_descriptor `{Profile} fields :
  ∃ b, CrcValidDescriptor.build_crc_valid_descriptor fields = Ok b ∧ zlen b = 128.
Proof.
  unfold CrcValidDescriptor.build_crc_valid_descriptor, CrcValidDescriptor.BLOCK_SIZE.
  cbv zeta. rewrite <- (app_nil_l (replicate _ _)). do 10 wfield. eapply built_length. len.
Qed.

Lemma built_chunk `{Profile} fields :
  ∃ b, CrcValidChunk.build_crc_valid_chunk fields = Ok b ∧ zlen b = 128.
Proof.
  unfold CrcValidChunk.build_crc_valid_chunk, CrcValidChunk.BLOCK_SIZE.
  cbv zeta. rewrite <- (app_nil_l (replicate _ _)). do 7 wfield. eapply built_length. len.
Qed.

Lemma built_pointer `{Profile} block2 cap :
  0 ≤ cap → cap + 1 < U32 →
  ∃ b, CrcValidChunk.build_descriptor_pointing_to block2 cap = Ok b ∧ zlen b = 128.
Proof.
  intros Hc Hc1. unfold CrcValidChunk.build_descriptor_pointing_to, CrcValidChunk.BLOCK_SIZE.
  cbv zeta. rewrite <- (app_nil_l (replicate _ _)). do 4 wfield.
  rewrite u32_add_ok by lia. cbn [mbind outcome_bind]. consts. do 7 wfield. eapply built_length. len.
Qed.

(** *** The targets *)

Lemma raw_fill_safe (block : list byte) d :
  zlen block = 128 → dev_geom 128 16 d →
  wp (RawBlock.raw_fill block) (λ _ d', dev_geom 128 16 d') (λ _ _, False) d.
Proof.
  intros Hl Hd. unfold RawBlock.raw_fill.
  wpcall (wp_ignore _ _ _ (wp_write 128 16 1 block d Hd ltac:(lia) Hl)). intros _ d1 Hd1.
  apply fill_blocks_safe; [done|lia|unfold RawBlock.BLOCK_COUNT; lia|done].
Qed.

(** Index a store and read a key, dropping errors. *)
Lemma index_get_safe `{Profile} `{SafeDevice D} bs bc key (s : Store D) :
  store_safe bs bc s → 36 ≤ bs →
  wp (ignore build_index;; ignore (get key)) (λ _ s', store_safe bs bc s') (λ _ _, False) s.
Proof.
  intros Hs Hbs. wpcall (ignore_safely bs bc _ _ (build_index_safe bs bc s Hs Hbs)). intros _ s1 Hs1.
  apply ignore_safely. by apply get_safe.
Qed.

(** The result of a computation that cannot fail. *)
Lemma wp_unit_ok {S} (m : M S unit) (Q : S → Prop) s :
  wp m (λ _ s', Q s') (λ _ _, False) s → (m s).2 = Ok tt.
Proof. intros (s' & -> & _)%wp_unit_result. done. Qed.

Lemma recover_index_get_safe `{Profile} `{SafeDevice D} bs bc key (s : Store D) :
  store_safe bs bc s → 36 ≤ bs →
  wp (ignore recover;; ignore build_index;; ignore (get key))
    (λ _ s', store_safe bs bc s') (λ _ _, False) s.
Proof.
  intros Hs Hbs. wpcall (ignore_safely bs bc _ _ (recover_safe bs bc s Hs Hbs)). intros _ s1 Hs1.
  by apply index_get_safe.
Qed.

Lemma raw_path1_passes `{Profile} (block : list byte) rest :
  zlen block = 128 → rest = Ok tt → RawBlock.raw_path1 block rest = Ok tt.
Proof.
  intros Hl ->. apply on_formatted_safe; [done|done|..]; intros d Hd.
  - wpcall (raw_fill_safe block d Hl Hd). intros _ d1 Hd1. by apply ignore_verify_safe.
  - rewrite (if_open_safe 128 16 d); [done|done|]. intros s Hs.
    eapply wp_unit_ok. by apply index_get_safe.
Qed.

Lemma raw_path2_passes `{Profile} (block : list byte) rest :
  zlen block = 128 → rest = Ok tt → RawBlock.raw_path2 block rest = Ok tt.
Proof.
  intros Hl ->. apply on_formatted_safe; [done|done|..]; intros d Hd.
  - by apply raw_fill_safe.
  - rewrite (if_open_safe 128 16 d); [done|done|]. intros s Hs.
    eapply wp_unit_ok. by apply recover_index_get_safe.
Qed.

Lemma raw_path3_passes `{Profile} (data block : list byte) :
  zlen block = 128 → RawBlock.raw_path3 data block = Ok tt.
Proof.
  intros Hl. unfold RawBlock.raw_path3, RawBlock.BLOCK_SIZE. cbv zeta.
  destruct (set_index_length block 0 (z2b BLOCK_TYPE_VALUE_CHUNK)) as (cb & -> & Hlc); [lia|].
  cbn [mbind outcome_bind].
  destruct (set_index_length (replicate (Z.to_nat 128) x00) 0 (z2b BLOCK_TYPE_RECORD_DESCRIPTOR))
    as (db & -> & Hld); [len|]. cbn [mbind outcome_bind]. rewrite length_replicate in Hld.
  set (fill := if 1 <? _ then _ else _).
  assert (∃ db', fill = Ok db' ∧ zlen db' = 128) as (db' & -> & Hldb).
  { unfold fill. destruct (1 <? _) eqn:E; zbool; [|by exists db].
    rewrite slice_ok by lia. cbn [mbind outcome_bind]. rewrite copy_from_slice_ok by len.
    eexists. split; [done|]. rewrite splice_length; len. }
  cbn [mbind outcome_bind]. apply on_formatted_safe; [done|done| |done]. intros d Hd.
  wpcall (wp_ignore _ _ _ (wp_write 128 16 1 db' d Hd ltac:(lia) Hldb)). intros _ d1 Hd1.
  wpcall (wp_ignore _ _ _ (wp_write 128 16 2 cb d1 Hd1 ltac:(lia) ltac:(lia))). intros _ d2 Hd2.
  by apply ignore_verify_safe.
Qed.

Lemma raw_block_passes `{Profile} data : RawBlock.fuzz_raw_block data = Ok tt.
Proof.
  unfold RawBlock.fuzz_raw_block, RawBlock.raw_block.
  destruct (padded_block RawBlock.BLOCK_SIZE data) as (src & b & Hs & Hb & Hl); [done|].
  rewrite Hs. cbn [mbind outcome_bind]. rewrite Hb. cbn [mbind outcome_bind].
  apply raw_path1_passes, raw_path2_passes, raw_path3_passes; done.
Qed.

Lemma crc_valid_descriptor_passes `{Profile} fields :
  CrcValidDescriptor.fuzz_crc_valid_descriptor fields = Ok tt.
Proof.
  unfold CrcValidDescriptor.fuzz_crc_valid_descriptor.
  destruct (built_descriptor fields) as (b & -> & Hl). cbn [mbind outcome_bind].
  apply on_formatted_safe; [done|done|..]; intros d Hd.
  - wpcall (fill_blocks_safe 128 16 1 16 b d Hd ltac:(lia) ltac:(lia) Hl). intros _ d1 Hd1.
    by apply ignore_verify_safe.
  - apply (if_open_safe 128 16 d); [done|]. intros s Hs. eapply wp_unit_ok. by apply index_get_safe.
Qed.

Lemma crc_valid_chunk_passes `{Profile} fields :
  CrcValidChunk.fuzz_crc_valid_chunk fields = Ok tt.
Proof.
  unfold CrcValidChunk.fuzz_crc_valid_chunk, CrcValidChunk.BLOCK_SIZE.
  destruct (built_chunk fields) as (b & -> & Hl). cbn [mbind outcome_bind]. consts.
  do 3 (rewrite u32_sub_ok by lia; cbn [mbind outcome_bind]).
  destruct (built_pointer 2 (128 - 32 - 1 - 4)) as (p & -> & Hlp); [lia|lia|].
  cbn [mbind outcome_bind]. apply on_formatted_safe; [done|done|..]; intros d Hd.
  - wpcall (wp_ignore _ _ _ (wp_write 128 16 1 p d Hd ltac:(lia) Hlp)). intros _ d1 Hd1.
    wpcall (wp_ignore _ _ _ (wp_write 128 16 2 b d1 Hd1 ltac:(lia) Hl)). intros _ d2 Hd2.
    wpcall (fill_blocks_safe 128 16 3 16 b d2 Hd2 ltac:(lia) ltac:(lia) Hl). intros _ d3 Hd3.
    by apply ignore_verify_safe.
  - apply (if_open_safe 128 16 d); [done|]. intros s Hs. eapply wp_unit_ok. by apply index_get_safe.
Qed.

Lemma storage_pipeline_passes `{Profile} data :
  StoragePipeline.fuzz_storage_pipeline data = Ok tt.
Proof.
  unfold StoragePipeline.fuzz_storage_pipeline.
  destruct (padded_block StoragePipeline.STORAGE_SIZE data) as (src & b & Hs & Hb & Hl); [done|].
  rewrite Hs. cbn [mbind outcome_bind]. rewrite Hb. cbn [mbind outcome_bind].
  assert (MemDevice_from_bytes StoragePipeline.BLOCK_SIZE b =
    Ok {| md_block_size := 64; md_block_count := 8; md_data := b |}) as ->.
  { unfold MemDevice_from_bytes. by rewrite Hl. }
  cbn [if_let_ok]. apply (if_open_safe 64 8).
  { split_and!; [|done|done]. by split_and!. }
  intros s Hs1. eapply wp_unit_ok.
  wpcall (ignore_safely 64 8 _ _ (recover_safe 64 8 s Hs1 ltac:(lia))). intros _ s2 Hs2.
  wpcall (ignore_safely 64 8 _ _ (build_index_safe 64 8 s2 Hs2 ltac:(lia))). intros _ s3 Hs3.
  wpcall (ignore_safely 64 8 _ _ (get_safe 64 8 (Tests.bytes_of "hello") s3 Hs3 ltac:(lia))).
  intros _ s4 Hs4.
  wpcall (ignore_safely 64 8 _ _ (get_safe 64 8 (Tests.bytes_of "bigkey") s4 Hs4 ltac:(lia))).
  intros _ s5 Hs5. apply ignore_safely. by apply get_safe.
Qed.

(** ** The assertions of fuzz_put_get_delete *)

Section Assertions.
Context `{Profile} `{ReliableDevice D}.
Import PutGetDelete.

Lemma bind_attempt_Ok {S A B} (m : M S A) (k : A + Error → M S B) s s' a :
  m s = (s', Ok a) → (attempt m ≫= k) s = k (inl a) s'.
Proof. intros Hm. apply bind_Ok. unfold attempt. by rewrite Hm. Qed.

Lemma bind_attempt_Err {S A B} (m : M S A) (k : A + Error → M S B) s s' e :
  m s = (s', Err e) → (attempt m ≫= k) s = k (inr e) s'.
Proof. intros Hm. apply bind_Ok. unfold attempt. by rewrite Hm. Qed.

Lemma or_panic_Ok {S A} (m : M S A) s s' a : m s = (s', Ok a) → or_panic m s = (s', Ok a).
Proof. intros Hm. unfold or_panic. by rewrite (bind_attempt_Ok _ _ _ _ _ Hm). Qed.

Lemma assert_eq_refl {S A} `{EqDecision A} (a : A) : assert_eq (S := S) a a = mret tt.
Proof. unfold assert_eq. by case_decide. Qed.

(** Reading back a key that is there. *)
Lemma get_present bs n G (s : Store D) m key value :
  represents bs n G s m → m !! key_str key = Some value →
  ∃ s', or_panic (get key) s = (s', Ok value) ∧ represents bs n G s' m.
Proof.
  intros Hr Hk. destruct (represents_get bs n G s m key Hr) as (s' & Hrun & Hr').
  rewrite Hk in Hrun. exists s'. split; [by apply or_panic_Ok|done].
Qed.

Lemma update_checked_ok bs n G (s : Store D) m input :
  represents bs n G s m → 0 ≤ G → G + 1 < U32 → zlen (in_key input) ≤ bs - 36 →
  zlen (in_key input) < U16 → zlen (in_value input) < U32 →
  m !! key_str (in_key input) = Some (in_value input) →
  ∃ s', update_checked input s = (s', Ok tt) ∧ represents bs n (G + 1) s' m.
Proof.
  intros Hr HG HG1 Hk Hk16 Hv Hin.
  destruct (represents_put bs n G s m (in_key input) (in_value input) 0)
    as (s' & r & m' & Hrun & Hr' & Hout); [done|done|done|done|done|done|done|].
  assert (m' = m) as ->.
  { destruct Hout as [[_ ->]|[_ [->| ->]]]; [|done|]; by apply insert_id. }
  unfold update_checked, put. destruct Hout as [[-> _]|[-> _]].
  - rewrite (bind_attempt_Ok _ _ _ _ _ Hrun).
    destruct (get_present _ _ _ _ _ _ _ Hr' Hin) as (s2 & Hg & Hr2). mcall Hg.
    rewrite assert_eq_refl. by exists s2.
  - rewrite (bind_attempt_Err _ _ _ _ _ Hrun). by exists s'.
Qed.

Lemma put_get_delete_ok bs n (s s' : Store D) input :
  build_index s = (s', Ok tt) → represents bs n 0 s' ∅ → bs - 36 < U16 →
  zlen (in_key input) < U32 → zlen (in_value input) < U32 →
  (put_get_delete input s).2 = Ok tt.
Proof.
  intros Hb Hr Hbs Hk32 Hv. unfold put_get_delete, put. rewrite (bind_attempt_Ok _ _ _ _ _ Hb).
  destruct (decide (zlen (in_key input) ≤ bs - 36)) as [Hk|Hk].
  2: { pose proof (represents_put_too_long bs n 0 s' ∅ (in_key input) (in_value input) 0 Hr
         ltac:(lia) ltac:(lia) Hk32 ltac:(lia)) as Hlong.
       rewrite (bind_attempt_Err _ _ _ _ _ Hlong). reflexivity. }
  destruct (represents_put bs n 0 s' ∅ (in_key input) (in_value input) 0)
    as (s1 & r & m & Hrun & Hr1 & Hout); [done|lia|lia|done|lia|done|done|].
  destruct Hout as [[-> ->]|[-> _]].
  2: { by rewrite (bind_attempt_Err _ _ _ _ _ Hrun). }
  rewrite (bind_attempt_Ok _ _ _ _ _ Hrun). set (m := <[_ := _]> _) in *.
  assert (m !! key_str (in_key input) = Some (in_value input)) as Hm by apply lookup_insert_eq.
  destruct (get_present _ _ _ _ _ _ _ Hr1 Hm) as (s2 & Hg & Hr2). mcall Hg. rewrite assert_eq_refl.
  destruct (update_checked_ok bs n 1 s2 m input) as (s3 & Hu & Hr3); [done|lia|lia|done|lia|done|done|].
  change (mret tt ≫= ?k) with (k tt). cbv beta. mcall Hu.
  destruct (represents_delete bs n 2 s3 m (in_key input) Hr3) as (s4 & Hd & Hr4).
  rewrite decide_True in Hd by (by rewrite Hm). mcall (or_panic_Ok _ _ _ _ Hd).
  destruct (represents_get bs n 2 s4 _ (in_key input) Hr4) as (s5 & Hg5 & _).
  rewrite lookup_delete_eq in Hg5. by rewrite (bind_attempt_Err _ _ _ _ _ Hg5).
Qed.

End Assertions.

(** ** Properties *)

(** C6: no fuzz target that feeds arbitrary blocks to the library panics or
    loops: for every input, the raw-block, the CRC-valid descriptor, the
    CRC-valid chunk and the whole-storage targets run to their end, in builds with
    and without overflow checks. *)
Theorem fuzz_targets_pass `{Profile} data dfields cfields :
  RawBlock.fuzz_raw_block data = Ok tt ∧
  CrcValidDescriptor.fuzz_crc_valid_descriptor dfields = Ok tt ∧
  CrcValidChunk.fuzz_crc_valid_chunk cfields = Ok tt ∧
  StoragePipeline.fuzz_storage_pipeline data = Ok tt.
Proof.
  split_and!; [apply raw_block_passes|apply crc_valid_descriptor_passes
    |apply crc_valid_chunk_passes|apply storage_pipeline_passes].
Qed.

(** C12: the invariants stated by the put/get/delete target hold for every key and
    every value below 4 GiB: a [put] succeeds or reports [KeyTooLong] or
    [StorageFull]; after a successful one [get] returns the value, an update
    succeeds or reports [StorageFull] and keeps the value, [delete] succeeds, and
    [get] then reports [KeyNotFound]. *)
Theorem put_get_delete_passes `{Profile} (input : PutGetDelete.PutGetInput) :
  zlen (PutGetDelete.in_key input) < U32 → zlen (PutGetDelete.in_value input) < U32 →
  PutGetDelete.fuzz_put_get_delete input = Ok tt.
Proof.
  intros Hk Hv.
  destruct (represents_fresh Options_new 128 64 [MemDevice_new 128 64]
    [replicate 64 (replicate 128 x00)]) as (devs & s & s' & Hf & Ho & Hb & Hr);
    [|done|lia|lia| |simpl; lia|simpl; lia|unfold u32; simpl; lia|by left|].
  - constructor; [|constructor]. apply (MemDevice_new_at 128 64); lia.
  - constructor; [|constructor]. split; [done|]. apply blank_zero. lia.
  - unfold PutGetDelete.fuzz_put_get_delete, on_formatted, format_mut.
    unfold PutGetDelete.BLOCK_SIZE, PutGetDelete.BLOCK_COUNT. rewrite Hf.
    pose proof (format_devices_length Options_new 0 [MemDevice_new 128 64]) as Hl.
    unfold format in Hf. rewrite Hf in Hl. destruct devs as [|d [|]]; try done.
    cbn [mret M_ret mbind outcome_bind]. rewrite Ho. cbn [if_let_ok].
    eapply put_get_delete_ok; [exact Hb|exact Hr|lia|exact Hk|exact Hv].
Qed.

Lemma put_get_delete_passes_witness :
  PutGetDelete.fuzz_put_get_delete (H := dev_profile)
    {| PutGetDelete.in_key := [x6b]; PutGetDelete.in_value := [x76] |} = Ok tt.
Proof. apply put_get_delete_passes; simpl; lia. Defined.
