(* ===== verification/Fixtures.v ===== *)
(** * The compatibility tests (rust/tests/compat.rs)

    The fixtures of testdata/, byte for byte, and the integration tests that read
    them, written as the tests are: [expect] and [assert_eq!] panic.  The images
    come from the Go implementation, so that running the model on them checks the
    model against the on-disk format from outside. *)

From S2P Require Import Prelude Errors Rust Format Crc Block Device Record Utf8 Index Replica.
From S2P Require Import Store RecordWrite Allocation Catalog Recovery ReplicaSpec StoreSpec.
From S2P Require Import Lifecycle Shards Refinement Safety Fuzz.

(** ** Images *)

(** A run of bytes in hexadecimal, or a run of zeros. *)
Inductive segment := Hex (s : string) | Zeros (n : Z).

Definition hex_digit (c : byte) : Z := if b2z c <? 58 then b2z c - 48 else b2z c - 87.

Fixpoint unhex (s : list byte) : list byte :=
  match s with
  | a :: b :: s => z2b (16 * hex_digit a + hex_digit b) :: unhex s
  | _ => []
  end.

Definition image_of (l : list segment) : list byte :=
  mjoin ((λ x, match x with Hex s => unhex (Tests.bytes_of s) | Zeros n => replicate (Z.to_nat n) x00 end) <$> l).

Definition small_value : list byte := image_of [
  Hex "01454b56010000000001000008";
  Zeros 239;
  Hex "12f096d30220050001000000050000000500000001000000ffffffff000000000000000068656c6c";
  Hex "6f776f726c64";
  Zeros 210;
  Hex "31e7ae40";
  Zeros 1536].

Definition large_value : list byte := image_of [
  Hex "01454b56010000000001000010";
  Zeros 239;
  Hex "b09ef2260220060001000000f4010000d6000000030000000200000000000000000000006269676b";
  Hex "6579000102030405060708090a0b0c0d0e0f101112131415161718191a1b1c1d1e1f202122232425";
  Hex "262728292a2b2c2d2e2f303132333435363738393a3b3c3d3e3f404142434445464748494a4b4c4d";
  Hex "4e4f505152535455565758595a5b5c5d5e5f606162636465666768696a6b6c6d6e6f707172737475";
  Hex "767778797a7b7c7d7e7f808182838485868788898a8b8c8d8e8f909192939495969798999a9b9c9d";
  Hex "9e9fa0a1a2a3a4a5a6a7a8a9aaabacadaeafb0b1b2b3b4b5b6b7b8b9babbbcbdbebfc0c1c2c3c4c5";
  Hex "c6c7c8c9cacbcccdcecfd0d1d2d3d4d5c23e13a1031400000100000001000000e800000003000000";
  Hex "d6d7d8d9dadbdcdddedfe0e1e2e3e4e5e6e7e8e9eaebecedeeeff0f1f2f3f4f5f6f7f8f9fafbfcfd";
  Hex "feff000102030405060708090a0b0c0d0e0f101112131415161718191a1b1c1d1e1f202122232425";
  Hex "262728292a2b2c2d2e2f303132333435363738393a3b3c3d3e3f404142434445464748494a4b4c4d";
  Hex "4e4f505152535455565758595a5b5c5d5e5f606162636465666768696a6b6c6d6e6f707172737475";
  Hex "767778797a7b7c7d7e7f808182838485868788898a8b8c8d8e8f909192939495969798999a9b9c9d";
  Hex "9e9fa0a1a2a3a4a5a6a7a8a9aaabacadaeafb0b1b2b3b4b5b6b7b8b9babbbcbd824f046403140000";
  Hex "010000000200000036000000ffffffffbebfc0c1c2c3c4c5c6c7c8c9cacbcccdcecfd0d1d2d3d4d5";
  Hex "d6d7d8d9dadbdcdddedfe0e1e2e3e4e5e6e7e8e9eaebecedeeeff0f1f2f3";
  Zeros 178;
  Hex "044c4ccc";
  Zeros 3072].

Definition multi_key : list byte := image_of [
  Hex "01454b56010000000001000010";
  Zeros 239;
  Hex "b09ef22602200500010000000b0000000b00000001000000ffffffff0000000000000000616c7068";
  Hex "6176616c75652d616c706861";
  Zeros 204;
  Hex "507d1bee02200400010000000a0000000a00000001000000ffffffff000000000000000062657461";
  Hex "76616c75652d62657461";
  Zeros 206;
  Hex "b087ad5e02200500010000000b0000000b00000001000000ffffffff000000000000000067616d6d";
  Hex "6176616c75652d67616d6d61";
  Zeros 204;
  Hex "a9b78cfa";
  Zeros 3072].

Definition partial_write : list byte := image_of [
  Hex "01454b56010000000001000010";
  Zeros 239;
  Hex "b09ef2260220050001000000090000000900000001000000ffffffff0000000000000000706f7765";
  Hex "7267656e312d64617461";
  Zeros 206;
  Hex "1d6048d30220050002000000e1000000d700000002000000030000000000000000000000706f7765";
  Hex "72";
  Zeros 215;
  Hex "86522dc50314";
  Zeros 3326].

Definition partial_erase : list byte := image_of [
  Hex "01454b56010000000001000010";
  Zeros 239;
  Hex "b09ef22603140000630000000100000004000000ffffffff6f727068";
  Zeros 228;
  Hex "db8640210220050002000000090000000900000001000000ffffffff0000000000000000706f7765";
  Hex "7267656e322d64617461";
  Zeros 206;
  Hex "3ee2b30f";
  Zeros 3328].

(** ** The constructs of the tests *)

Abbreviation str := Tests.bytes_of.

Section Code.
Context `{Profile}.

(** [o.expect(..)] *)
Definition expect {A} (o : outcome A) : outcome A :=
  match o with Err _ => Panic | _ => o end.

Definition load_fixture (data : list byte) : outcome MemDevice :=
  expect (MemDevice_from_bytes 256 data).

(** [open(devs, Options::default()).expect("open")] and the rest of the test on
    the store. *)
Definition on_store {A} (devs : list MemDevice) (k : M (Store MemDevice) A) : outcome A :=
  s ← expect (open devs Options_new); (k s).2.

Definition on_fixture {A} (data : list byte) (k : M (Store MemDevice) A) : outcome A :=
  dev ← load_fixture data; on_store [dev] k.

(** [assert_eq!(store.get(key).expect(..), value)] *)
Definition expect_get (key value : list byte) : M (Store MemDevice) unit :=
  val ← or_panic (get key); assert_eq val value.

(** [MemDevice::new], [format] and the rest of the test. *)
Definition on_formatted_store {A} (bs bc : Z) (k : M (Store MemDevice) A) : outcome A :=
  let '(dev, r) := format_mut (MemDevice_new bs bc) in
  expect r;; on_store [dev] k.

(** ** The tests *)

Definition small_value_get : outcome unit :=
  on_fixture small_value (or_panic build_index;; expect_get (str "hello") (str "world")).

Definition small_value_recover_get : outcome unit :=
  on_fixture small_value
    (or_panic recover;; or_panic build_index;; expect_get (str "hello") (str "world")).

(** [(0u16..500).map(|i| (i % 256) as u8)] *)
Definition big_value : list byte := (λ i, z2b (i mod 256)) <$> seqZ 0 500.

Definition large_value_get : outcome unit :=
  on_fixture large_value (or_panic build_index;; expect_get (str "bigkey") big_value).

Definition large_value_recover_get : outcome unit :=
  on_fixture large_value
    (or_panic recover;; or_panic build_index;; expect_get (str "bigkey") big_value).

Definition multi_key_get : outcome unit :=
  on_fixture multi_key
    (or_panic build_index;; or_panic (get (str "alpha"));; or_panic (get (str "beta"));;
     or_panic (get (str "gamma"));; mret tt).

Definition multi_key_recover_get : outcome unit :=
  on_fixture multi_key
    (or_panic recover;; or_panic build_index;; or_panic (get (str "alpha"));;
     or_panic (get (str "beta"));; or_panic (get (str "gamma"));; mret tt).

Definition partial_write_after_recover : outcome unit :=
  on_fixture partial_write
    (or_panic recover;; or_panic build_index;; expect_get (str "power") (str "gen1-data")).

Definition partial_erase_get : outcome unit :=
  on_fixture partial_erase (or_panic build_index;; expect_get (str "power") (str "gen2-data")).

Definition partial_erase_recover_get : outcome unit :=
  on_fixture partial_erase
    (or_panic recover;; or_panic build_index;; expect_get (str "power") (str "gen2-data")).

Definition round_trip_mem : outcome unit :=
  on_formatted_store 256 64
    (or_panic build_index;;
     or_panic (put (str "key1") (str "value1"));; or_panic (put (str "key2") (str "value2"));;
     expect_get (str "key1") (str "value1");; expect_get (str "key2") (str "value2")).

Definition round_trip_update : outcome unit :=
  on_formatted_store 256 64
    (or_panic build_index;;
     or_panic (put (str "k") (str "v1"));; or_panic (put (str "k") (str "v2"));;
     expect_get (str "k") (str "v2")).

Definition round_trip_delete : outcome unit :=
  on_formatted_store 256 64
    (or_panic build_index;;
     or_panic (put (str "k") (str "v"));; or_panic (delete (str "k"));;
     r ← attempt (get (str "k"));
     match r with inl _ => lift Panic | inr _ => mret tt end).

(** The first half ends with [store.into_devices()], the second starts with the
    devices it returned. *)
Definition fan_out_first (devs : list MemDevice) : outcome (list MemDevice) :=
  on_store devs
    (or_panic build_index;;
     n ← gets replica_count; assert_eq n 2;;
     or_panic (put (str "k") (str "v"));;
     gets into_devices).

Definition multi_replica_write_and_fault_tolerance : outcome unit :=
  let '(devs, r) := format Options_new [MemDevice_new 256 16; MemDevice_new 256 16] in
  expect r;;
  d1 ← index devs 1;
  b ← index (MemDevice_bytes d1) 16;
  (if decide (b = x01) then Ok tt else Panic);;
  devs ← fan_out_first devs;
  d0 ← index devs 0;
  let '(d0, r) := write_block 1 (replicate 256 x5a) d0 in
  expect r;;
  on_store (<[0%nat := d0]> devs) (or_panic build_index;; expect_get (str "k") (str "v")).

Definition compat_tests : list (outcome unit) :=
  [small_value_get; small_value_recover_get; large_value_get; large_value_recover_get;
   multi_key_get; multi_key_recover_get; partial_write_after_recover; partial_erase_get;
   partial_erase_recover_get; round_trip_mem; round_trip_update; round_trip_delete;
   multi_replica_write_and_fault_tolerance].

(** ** Writing the fixtures *)

(** The bytes of the first device after [k]. *)
Definition bytes_after {A} (k : M (Store MemDevice) A) : M (Store MemDevice) (list byte) :=
  or_panic k;;
  devs ← gets into_devices;
  d ← lift (index devs 0);
  mret (MemDevice_bytes d).

Definition write_fixture (bc : Z) (puts : list (list byte * list byte)) : outcome (list byte) :=
  on_formatted_store 256 bc (bytes_after
    (build_index;; for_fold (λ '(k, v) _, put k v) puts tt)).

Definition recover_fixture (data : list byte) : outcome (list byte) :=
  on_fixture data (bytes_after recover).

End Code.

(** ** The suite, evaluated *)

(** The implementation reads and writes the reference images.  Every test of
    the compatibility suite passes, in a build with and in a build without
    overflow checks.  Moreover [put] writes the three complete fixtures byte for
    byte as the Go implementation did, and [recover] leaves complete images as
    they are, erases the torn second generation (blocks 2 and 3) of
    partial_write.bin and only the orphaned chunk (block 1) of
    partial_erase.bin. *)
Theorem compat_tests_pass :
  Forall (λ p : Profile, Forall (λ t, t = Ok tt) compat_tests) [dev_profile; release_profile] ∧
  Forall (λ p : Profile,
    write_fixture 8 [(str "hello", str "world")] = Ok small_value ∧
    write_fixture 16 [(str "bigkey", big_value)] = Ok large_value ∧
    write_fixture 16 [(str "alpha", str "value-alpha"); (str "beta", str "value-beta");
      (str "gamma", str "value-gamma")] = Ok multi_key ∧
    recover_fixture small_value = Ok small_value ∧
    recover_fixture large_value = Ok large_value ∧
    recover_fixture multi_key = Ok multi_key ∧
    recover_fixture partial_write = Ok (take 512 partial_write ++ replicate 3584 x00) ∧
    recover_fixture partial_erase =
      Ok (take 256 partial_erase ++ replicate 256 x00 ++ drop 512 partial_erase))
    [dev_profile; release_profile].
Proof.
  split.
  - do 2 (apply Forall_cons; split; [repeat (apply Forall_cons; split; [by vm_compute|]); by apply Forall_nil|]).
    by apply Forall_nil.
  - do 2 (apply Forall_cons; split; [split_and!; by vm_compute|]). by apply Forall_nil.
Qed.
